(** * Schema tree of libyang: features, ranges, patterns and enumerations

    A shallow embedding of the parts of [src/tree_schema.c] that implement
    the feature runtime ([lysc_feature_value], [lysc_iffeature_value],
    [lys_feature_change], [lys_feature_enable], [lys_feature_disable],
    [lys_feature_value]), the range/length compiler
    ([lys_compile_type_range] and its helpers), the pattern translation of
    [lys_compile_type_pattern_check] and the enumeration/bits compiler
    [lys_compile_type_enums], followed by the properties proved of them.

    Conventions.
    - C integers are [Z] (indices and counters that only count up are
      [nat]); bit operations are [Z.land], [Z.lor], [Z.lnot], [Z.shiftl],
      [Z.shiftr].
    - A sized array ([LY_ARRAY]) is a [list]; the NULL array is [[]].
    - Pointers to features are addresses into a store of features, so that
      the module's array, the [features] of an if-feature expression, the
      [depfeatures] back-links and the [changed] set all alias the same
      objects.
    - A result of [None] stands for behaviour that C leaves undefined (a
      read through a dangling pointer or outside an array).  Allocation is
      assumed to succeed and logging is not modelled. *)

From Stdlib Require Import ZArith Lia List String Ascii Bool.
From stdpp Require Import base option list strings sets sorting.

Local Open Scope Z_scope.
#[local] Set Warnings "-clear-no-such-hyp".

(** ** Error codes *)

(** The [LY_ERR] enumeration; the specification calls [LY_EINVAL]
    InvalidArg, [LY_EDENIED] Denied and [LY_EVALID] Validation. *)
Inductive LY_ERR : Set :=
| LY_SUCCESS | LY_EMEM | LY_ESYS | LY_EINVAL | LY_EEXIST | LY_ENOTFOUND
| LY_EINT | LY_EVALID | LY_EPLUGIN | LY_EDENIED.

#[global] Instance LY_ERR_eq_dec : EqDecision LY_ERR.
Proof. solve_decision. Defined.

(** ** Features and if-feature expressions *)

(** Address of a [struct lysc_feature] in the store. *)
Abbreviation feature_ptr := nat (only parsing).

(** [struct lysc_iffeature]: the bit-packed postfix [expr] (two bits per
    opcode, four opcodes per byte; [[]] is the NULL pointer) and the
    referenced [features]. *)
Record lysc_iffeature : Type := mk_iffeature {
  iff_expr : list Z;
  iff_features : list feature_ptr
}.

(** [struct lysc_feature]. *)
Record lysc_feature : Type := mk_feature {
  f_name : string;
  f_flags : Z;
  f_iffeatures : list lysc_iffeature;
  f_depfeatures : list feature_ptr
}.

(** [struct lysc_module], reduced to its name and its array of features
    (given by the addresses of its elements). *)
Record lysc_module : Type := mk_lysc_module {
  mod_name : string;
  mod_features : list feature_ptr
}.

(** [struct lys_module]: the optional compiled form. *)
Record lys_module : Type := mk_lys_module {
  compiled : option lysc_module
}.

(** The features of a context. *)
Abbreviation store := (list lysc_feature) (only parsing).

(** Modelled from the spec: the flag [LYS_FENABLED] of tree_schema.h, which
    is not part of src/ ("a single enabled/disabled bit").  The proofs use
    only that it is a nonzero mask. *)
Definition LYS_FENABLED : Z := 0x100.

(** Modelled from the spec: the opcodes [LYS_IFF_NOT], [LYS_IFF_AND],
    [LYS_IFF_OR] and [LYS_IFF_F] of tree_schema.h, which is not part of
    src/ ("opcodes FEATURE, NOT, AND, OR at 2 bits each").  The compiler
    relies on NOT < AND < OR for operator priority and on every opcode
    fitting two bits. *)
Definition LYS_IFF_NOT : Z := 0.
Definition LYS_IFF_AND : Z := 1.
Definition LYS_IFF_OR : Z := 2.
Definition LYS_IFF_F : Z := 3.

(** [iff_setop]: store the two-bit [op] at slot [pos] of [list]. *)
Definition iff_setop (list : Datatypes.list Z) (op : Z) (pos : nat) : Datatypes.list Z :=
  match list !! (pos / 4)%nat with
  | None => list
  | Some item =>
      let mask := Z.shiftl 3 (2 * Z.of_nat (pos mod 4)) in
      let item := Z.land item (Z.land (Z.lnot mask) 255) in
      let item := Z.lor item (Z.shiftl op (2 * Z.of_nat (pos mod 4))) in
      <[(pos / 4)%nat := item]> list
  end.

(** [iff_getop]: the opcode at slot [pos]; reading past the array is
    undefined. *)
Definition iff_getop (list : Datatypes.list Z) (pos : nat) : option Z :=
  item ← list !! (pos / 4)%nat;
  let result := Z.land item (Z.shiftl 3 (2 * Z.of_nat (pos mod 4))) in
  Some (Z.shiftr result (2 * Z.of_nat (pos mod 4))).

(** The test [flags & LYS_FENABLED]. *)
Definition feature_enabled (f : lysc_feature) : bool :=
  negb (Z.land (f_flags f) LYS_FENABLED =? 0).

(** [lysc_feature_value]: -1 for a NULL argument, otherwise the enabled
    bit. *)
Definition lysc_feature_value (feature : option lysc_feature) : Z :=
  match feature with
  | None => -1
  | Some f => if feature_enabled f then 1 else 0
  end.

(** [lysc_iffeature_value_]: recursive descent over the postfix with the
    two running indices, which are returned with the value.  Every call
    consumes one opcode slot, so [fuel] bounds the depth. *)
Fixpoint lysc_iffeature_value_ (fuel : nat) (st : store) (iff : lysc_iffeature)
    (index_e index_f : nat) : option (Z * nat * nat) :=
  match fuel with
  | O => None
  | S fuel =>
      op ← iff_getop (iff_expr iff) index_e;
      let index_e := S index_e in
      if op =? LYS_IFF_F then
        p ← iff_features iff !! index_f;
        f ← st !! p;
        Some (lysc_feature_value (Some f), index_e, S index_f)
      else if op =? LYS_IFF_NOT then
        '(v, index_e, index_f) ← lysc_iffeature_value_ fuel st iff index_e index_f;
        Some (if v =? 0 then 1 else 0, index_e, index_f)
      else if (op =? LYS_IFF_AND) || (op =? LYS_IFF_OR) then
        '(a, index_e, index_f) ← lysc_iffeature_value_ fuel st iff index_e index_f;
        '(b, index_e, index_f) ← lysc_iffeature_value_ fuel st iff index_e index_f;
        if op =? LYS_IFF_AND
        then Some (if negb (a =? 0) && negb (b =? 0) then 1 else 0, index_e, index_f)
        else Some (if negb (a =? 0) || negb (b =? 0) then 1 else 0, index_e, index_f)
      else Some (0, index_e, index_f)
  end.

(** [lysc_iffeature_value] of a non-NULL expression: 0 when [expr] is
    NULL.  The expression has [4 * length expr] slots. *)
Definition lysc_iffeature_value (st : store) (iff : lysc_iffeature) : option Z :=
  match iff_expr iff with
  | [] => Some 0
  | _ :: _ =>
      '(v, _, _) ← lysc_iffeature_value_ (S (4 * length (iff_expr iff))) st iff 0 0;
      Some v
  end.

(** The loop [LY_ARRAY_FOR(f->iffeatures, iff) if (!lysc_iffeature_value(iff))]:
    [false] at the first expression that evaluates to 0, [true] when the
    array is exhausted. *)
Fixpoint iffeatures_enabled (st : store) (iffs : list lysc_iffeature) : option bool :=
  match iffs with
  | [] => Some true
  | iff :: iffs =>
      v ← lysc_iffeature_value st iff;
      if v =? 0 then Some false else iffeatures_enabled st iffs
  end.

(** [f->flags |= LYS_FENABLED] and [f->flags &= ~LYS_FENABLED]. *)
Definition set_enabled (f : lysc_feature) : lysc_feature :=
  mk_feature (f_name f) (Z.lor (f_flags f) LYS_FENABLED) (f_iffeatures f) (f_depfeatures f).

Definition clear_enabled (f : lysc_feature) : lysc_feature :=
  mk_feature (f_name f) (Z.land (f_flags f) (Z.lnot LYS_FENABLED)) (f_iffeatures f) (f_depfeatures f).

(** Outcome of one run of the loop over the module's features. *)
Inductive run_result : Type :=
| RunReturn (e : LY_ERR) (st : store)
| RunDone (st : store) (changed : list feature_ptr) (disabled_count : nat).

(** One run of the [for] loop under label [run:] over the remaining
    features [fs].  [changed] is the [ly_set] used as a list. *)
Fixpoint feature_run (all : bool) (name : string) (value : Z) (fs : list feature_ptr)
    (st : store) (changed : list feature_ptr) (disabled_count : nat)
    : option run_result :=
  match fs with
  | [] => Some (RunDone st changed disabled_count)
  | p :: fs =>
      f ← st !! p;
      if all || String.eqb (f_name f) name then
        if (negb (value =? 0) && feature_enabled f)
           || ((value =? 0) && negb (feature_enabled f)) then
          if all then feature_run all name value fs st changed disabled_count
          else Some (RunReturn LY_SUCCESS st)
        else if negb (value =? 0) then
          ok ← iffeatures_enabled st (f_iffeatures f);
          if (ok : bool) then
            let st := alter set_enabled p st in
            let changed := changed ++ [p] in
            if all then feature_run all name value fs st changed disabled_count
            else Some (RunDone st changed disabled_count)
          else if all then feature_run all name value fs st changed (S disabled_count)
          else Some (RunReturn LY_EDENIED st)
        else
          let st := alter clear_enabled p st in
          let changed := changed ++ [p] in
          if all then feature_run all name value fs st changed disabled_count
          else Some (RunDone st changed disabled_count)
      else feature_run all name value fs st changed disabled_count
  end.

(** "restore the original state": re-disable every changed feature. *)
Definition restore_changed (st : store) (changed : list feature_ptr) : store :=
  foldl (fun st p => alter clear_enabled p st) st changed.

(** The loop over [f->depfeatures] of one changed feature. *)
Fixpoint reflect_deps (st : store) (changed : list feature_ptr)
    (dfs : list feature_ptr) : option (store * list feature_ptr) :=
  match dfs with
  | [] => Some (st, changed)
  | df :: dfs =>
      d ← st !! df;
      if negb (feature_enabled d) then reflect_deps st changed dfs
      else
        ok ← iffeatures_enabled st (f_iffeatures d);
        if (ok : bool) then reflect_deps st changed dfs
        else reflect_deps (alter clear_enabled df st) (changed ++ [df]) dfs
  end.

(** "reflect change(s) in the dependent features": the loop
    [for (u = 0; u < changed->count; ++u)] over the growing set. *)
Fixpoint reflect_changes (fuel : nat) (st : store) (changed : list feature_ptr)
    (u : nat) : option (store * list feature_ptr) :=
  match fuel with
  | O => None
  | S fuel =>
      match changed !! u with
      | None => Some (st, changed)
      | Some p =>
          f ← st !! p;
          '(st, changed) ← reflect_deps st changed (f_depfeatures f);
          reflect_changes fuel st changed (S u)
      end
  end.

(** The runs of [lys_feature_change] from label [run:] to its return.  A
    further run needs a feature that the previous one enabled, and every
    feature appended to [changed] while the changes are reflected was
    enabled before, which bounds both loops by the number of features. *)
Fixpoint feature_change_runs (fuel : nat) (all : bool) (name : string) (value : Z)
    (fs : list feature_ptr) (st : store) (changed : list feature_ptr)
    (changed_count : nat) : option (LY_ERR * store * list feature_ptr) :=
  match fuel with
  | O => None
  | S fuel =>
      r ← feature_run all name value fs st changed 0;
      match r with
      | RunReturn e st => Some (e, st, changed)
      | RunDone st changed disabled_count =>
          if negb all && (length changed =? 0)%nat then Some (LY_EINVAL, st, changed)
          else if negb (value =? 0) && all && negb (disabled_count =? 0)%nat then
            if (changed_count =? length changed)%nat
            then Some (LY_EDENIED, restore_changed st changed, changed)
            else feature_change_runs fuel all name value fs st changed (length changed)
          else
            '(st, changed) ← reflect_changes (S (length changed + length st)) st changed 0;
            Some (LY_SUCCESS, st, changed)
      end
  end.

(** [lys_feature_change], returning with the error code the store after
    the call and, as a ghost result, the final [changed] set. *)
Definition lys_feature_change_set (st : store) (mod_ : lysc_module) (name : string)
    (value : Z) : option (LY_ERR * store * list feature_ptr) :=
  match mod_features mod_ with
  | [] => Some (LY_EINVAL, st, [])
  | _ :: _ =>
      let all := String.eqb name "*" in
      feature_change_runs (S (length st)) all name value
        (mod_features mod_) st [] 0
  end.

Definition lys_feature_change (st : store) (mod_ : lysc_module) (name : string)
    (value : Z) : option (LY_ERR * store) :=
  '(e, st, _) ← lys_feature_change_set st mod_ name value;
  Some (e, st).

(** [lys_feature_enable] and [lys_feature_disable]; NULL arguments are
    [None]. *)
Definition lys_feature_enable (st : store) (module : option lys_module)
    (feature : option string) : option (LY_ERR * store) :=
  match module, feature with
  | Some m, Some feature =>
      match compiled m with
      | Some c => lys_feature_change st c feature 1
      | None => Some (LY_EINVAL, st)
      end
  | _, _ => Some (LY_EINVAL, st)
  end.

Definition lys_feature_disable (st : store) (module : option lys_module)
    (feature : option string) : option (LY_ERR * store) :=
  match module, feature with
  | Some m, Some feature =>
      match compiled m with
      | Some c => lys_feature_change st c feature 0
      | None => Some (LY_EINVAL, st)
      end
  | _, _ => Some (LY_EINVAL, st)
  end.

(** The search loop of [lys_feature_value] over the features from an
    index on: [fs] is the rest of the array behind that index, and [[]]
    is its end, where the loop is left and -1 returned. *)
Fixpoint feature_value_search (st : store) (fs : list feature_ptr) (feature : string)
    : option Z :=
  match fs with
  | [] => Some (-1)
  | p :: fs =>
      f ← st !! p;
      if String.eqb (f_name f) feature
      then Some (if feature_enabled f then 1 else 0)
      else feature_value_search st fs feature
  end.

(** [lys_feature_value].  The loop condition reads
    [LY_ARRAY_SIZE(mod->features)], the counter in front of the array,
    without the test of the pointer that [lys_feature_change] starts
    with: for a module without features the array is NULL ([[]]) and the
    read is undefined. *)
Definition lys_feature_value (st : store) (module : option lys_module)
    (feature : option string) : option Z :=
  match module, feature with
  | Some m, Some feature =>
      match compiled m with
      | Some c =>
          match mod_features c with
          | [] => None
          | fs => feature_value_search st fs feature
          end
      | None => Some (-1)
      end
  | _, _ => Some (-1)
  end.

(** The feature that [name] designates in the array [fs]: the first one of
    that name, as the loops of [lys_feature_change] and
    [lys_feature_value] find it. *)
Fixpoint feature_named (st : store) (fs : list feature_ptr) (name : string)
    : option (feature_ptr * lysc_feature) :=
  match fs with
  | [] => None
  | p :: fs =>
      match st !! p with
      | None => None
      | Some f =>
          if String.eqb (f_name f) name then Some (p, f)
          else feature_named st fs name
      end
  end.

(** No feature of the array [fs] has the name [name]. *)
Definition no_feature_named (st : store) (fs : list feature_ptr) (name : string) : Prop :=
  Forall (fun p => exists f, st !! p = Some f /\ f_name f <> name) fs.

(** ** Range and length restrictions *)

(** [LY_DATA_TYPE], in the order of [ly_data_type2str] and
    [type_substmt_map]. *)
Inductive LY_DATA_TYPE : Set :=
| LY_TYPE_UNKNOWN | LY_TYPE_BINARY | LY_TYPE_BITS | LY_TYPE_BOOL | LY_TYPE_DEC64
| LY_TYPE_EMPTY | LY_TYPE_ENUM | LY_TYPE_IDENT | LY_TYPE_INST | LY_TYPE_LEAFREF
| LY_TYPE_STRING | LY_TYPE_UNION | LY_TYPE_INT8 | LY_TYPE_UINT8 | LY_TYPE_INT16
| LY_TYPE_UINT16 | LY_TYPE_INT32 | LY_TYPE_UINT32 | LY_TYPE_INT64 | LY_TYPE_UINT64.

(** The two views of a 64-bit value. *)
Definition to_u64 (x : Z) : Z := x mod 2 ^ 64.

Definition to_s64 (x : Z) : Z :=
  let y := x mod 2 ^ 64 in if y <? 2 ^ 63 then y else y - 2 ^ 64.

(** [struct lysc_range_part]: the unions [min_64]/[min_u64] and
    [max_64]/[max_u64], kept as the signed values; the unsigned members
    are read through [to_u64]. *)
Record lysc_range_part : Type := mk_range_part {
  min_64 : Z;
  max_64 : Z
}.

Definition min_u64 (p : lysc_range_part) : Z := to_u64 (min_64 p).
Definition max_u64 (p : lysc_range_part) : Z := to_u64 (max_64 p).

(** <ctype.h> in the C locale. *)
Definition isspace (c : ascii) : bool :=
  let n := nat_of_ascii c in (n =? 32)%nat || ((9 <=? n)%nat && (n <=? 13)%nat).

Definition isdigit (c : ascii) : bool :=
  let n := nat_of_ascii c in (48 <=? n)%nat && (n <=? 57)%nat.

(** [strncmp(s, p, strlen(p)) == 0]: the rest of [s] after the prefix
    [p]. *)
Fixpoint skip_prefix (p s : string) : option string :=
  match p, s with
  | EmptyString, _ => Some s
  | String a p, String b s => if Ascii.eqb a b then skip_prefix p s else None
  | String _ _, EmptyString => None
  end.

(** [while (isspace( *expr)) expr++]. *)
Fixpoint skip_spaces (s : string) : string :=
  match s with
  | String c s' => if isspace c then skip_spaces s' else s
  | EmptyString => s
  end.

(** The leading digits of a string and what follows them. *)
Fixpoint span_digits (s : string) : string * string :=
  match s with
  | String c s' =>
      if isdigit c then let '(d, r) := span_digits s' in (String c d, r) else (EmptyString, s)
  | EmptyString => (EmptyString, EmptyString)
  end.

(** The value of a string of decimal digits. *)
Fixpoint digits_value (acc : Z) (s : string) : Z :=
  match s with
  | String c s' => digits_value (10 * acc + (Z.of_nat (nat_of_ascii c) - 48)) s'
  | EmptyString => acc
  end.

(** Modelled from the spec: [ly_parse_uint] of common.c, which is not part
    of src/, applied to a copy of the form sign-digits: the literal's
    value; "Denied on out-of-range literals", that is above [max] or
    negative; invalid without a digit. *)
Definition ly_parse_uint (val_str : string) (max : Z) : LY_ERR * Z :=
  let '(neg, s) :=
    match val_str with
    | String "-" s => (true, s)
    | String "+" s => (false, s)
    | _ => (false, val_str)
    end in
  let '(d, r) := span_digits s in
  match d, r with
  | String _ _, EmptyString =>
      let u := digits_value 0 d in
      if (max <? u) || (neg && negb (u =? 0)) then (LY_EDENIED, 0) else (LY_SUCCESS, u)
  | _, _ => (LY_EVALID, 0)
  end.

(** Modelled from the spec: [ly_parse_int] of common.c, which is not part
    of src/: the literal's value; "Denied on out-of-range literals", that
    is outside [[min, max]]; invalid without a digit. *)
Definition ly_parse_int (val_str : string) (min max : Z) : LY_ERR * Z :=
  let '(neg, s) :=
    match val_str with
    | String "-" s => (true, s)
    | String "+" s => (false, s)
    | _ => (false, val_str)
    end in
  let '(d, r) := span_digits s in
  match d, r with
  | String _ _, EmptyString =>
      let i := if neg then - digits_value 0 d else digits_value 0 d in
      if (i <? min) || (max <? i) then (LY_EDENIED, 0) else (LY_SUCCESS, i)
  | _, _ => (LY_EVALID, 0)
  end.

(** [range_part_check_value_syntax]: the error code, the length [len] of
    the literal and its copy [valcopy].  For a decimal64 literal with a
    fraction the source writes through [*valcopy[( *len) - 1]], outside
    the caller's variable: undefined. *)
Definition range_part_check_value_syntax (basetype : LY_DATA_TYPE) (value : string)
    : option (LY_ERR * nat * string) :=
  match value with
  | EmptyString => Some (LY_EVALID, 0%nat, EmptyString)
  | String c rest =>
      if negb (isdigit c) && negb (Ascii.eqb c "-") && negb (Ascii.eqb c "+")
      then Some (LY_EVALID, 0%nat, EmptyString)
      else
        let signed := Ascii.eqb c "-" || Ascii.eqb c "+" in
        let '(d, r) := span_digits (if signed then rest else value) in
        let len := ((if signed then 1 else 0) + String.length d)%nat in
        let fraction :=
          match basetype, r with
          | LY_TYPE_DEC64, String "." (String c' _) => isdigit c'
          | _, _ => false
          end in
        if fraction then None
        else Some (LY_SUCCESS, len, String.substring 0 len value)
  end.

(** [range_part_check_ascendance]. *)
Definition range_part_check_ascendance (unsigned_value : bool) (value prev_value : Z)
    : LY_ERR :=
  if unsigned_value then
    if to_u64 value <=? to_u64 prev_value then LY_EEXIST else LY_SUCCESS
  else
    if value <=? prev_value then LY_EEXIST else LY_SUCCESS.

(** The cases of the [switch (basetype)] of [range_part_minmax]: whether
    the type is unsigned, and its limits. *)
Definition range_type_limits (basetype : LY_DATA_TYPE) : option (bool * Z * Z) :=
  match basetype with
  | LY_TYPE_BINARY => Some (true, 0, 18446744073709551615)
  | LY_TYPE_DEC64 => Some (false, -9223372036854775807 - 1, 9223372036854775807)
  | LY_TYPE_INT8 => Some (false, -128, 127)
  | LY_TYPE_INT16 => Some (false, -32768, 32767)
  | LY_TYPE_INT32 => Some (false, -2147483648, 2147483647)
  | LY_TYPE_INT64 => Some (false, -9223372036854775807 - 1, 9223372036854775807)
  | LY_TYPE_UINT8 => Some (true, 0, 255)
  | LY_TYPE_UINT16 => Some (true, 0, 65535)
  | LY_TYPE_UINT32 => Some (true, 0, 4294967295)
  | LY_TYPE_UINT64 => Some (true, 0, 18446744073709551615)
  | LY_TYPE_STRING => Some (true, 0, 18446744073709551615)
  | _ => None
  end.

(** Assignment to [part->max_64] or [part->min_64]. *)
Definition set_bound (max : bool) (v : Z) (part : lysc_range_part) : lysc_range_part :=
  if max then mk_range_part (min_64 part) v else mk_range_part v (max_64 part).

(** [range_part_minmax]: with the error code, the part and, when a value
    was given and the code is 0, the text after the literal.  [value] is
    [None] for the keywords [min] and [max].  The result of the parser is
    overwritten by the ascendance check when the part is not the first. *)
Definition range_part_minmax (part : lysc_range_part) (max : bool) (prev : Z)
    (basetype : LY_DATA_TYPE) (first : bool) (value : option string)
    : option (LY_ERR * lysc_range_part * option string) :=
  syn ← match value with
        | Some v => '(ret, len, valcopy) ← range_part_check_value_syntax basetype v;
                    Some (ret, len, Some valcopy)
        | None => Some (LY_SUCCESS, 0%nat, None)
        end;
  let '(ret, len, valcopy) := syn in
  match ret with
  | LY_SUCCESS =>
      let '(ret, part) :=
        match range_type_limits basetype with
        | None => (LY_EINT, part)
        | Some (uns, lo, hi) =>
            let '(ret, part) :=
              match valcopy with
              | Some valcopy =>
                  let '(ret, v) :=
                    if uns then ly_parse_uint valcopy hi else ly_parse_int valcopy lo hi in
                  match ret with
                  | LY_SUCCESS => (ret, set_bound max (to_s64 v) part)
                  | _ => (ret, part)
                  end
              | None => (LY_SUCCESS, set_bound max (to_s64 (if max then hi else lo)) part)
              end in
            if first then (ret, part)
            else (range_part_check_ascendance uns
                    (if max then max_64 part else min_64 part) prev, part)
        end in
      match ret, value with
      | LY_SUCCESS, Some v => Some (ret, part, Some (String.substring len (String.length v - len) v))
      | _, _ => Some (ret, part, value)
      end
  | _ => Some (ret, part, value)
  end.

(** The element that [LY_ARRAY_NEW_GOTO] appends: zeroed. *)
Definition new_range_part : lysc_range_part := mk_range_part 0 0.

(** [parts[LY_ARRAY_SIZE(parts) - 1] = part]. *)
Definition set_last_part (parts : list lysc_range_part) (part : lysc_range_part)
    : list lysc_range_part :=
  <[(length parts - 1)%nat := part]> parts.

(** The argument [prev] of [range_part_minmax] for a new part:
    [parts_done ? parts[LY_ARRAY_SIZE(parts) - 2].max_64 : 0]. *)
Definition prev_part_max (parts : list lysc_range_part) (parts_done : nat) : option Z :=
  if (parts_done =? 0)%nat then Some 0
  else if (length parts <? 2)%nat then None
  else p ← parts !! (length parts - 2)%nat; Some (max_64 p).

(** The [while (1)] loop of [lys_compile_type_range] over the expression.
    The result is [Some None] for [goto cleanup] (with [ret] still
    [LY_EVALID]) and [Some (Some (parts, parts_done))] for [break].  Every
    iteration that continues consumes a character, which bounds the loop
    by the length of the expression. *)
Fixpoint range_expr_loop (fuel : nat) (basetype : LY_DATA_TYPE) (expr : string)
    (parts : list lysc_range_part) (parts_done : nat) (range_expected : bool)
    : option (option (list lysc_range_part * nat)) :=
  match fuel with
  | O => None
  | S fuel =>
      let continue := range_expr_loop fuel basetype in
      match expr with
      | EmptyString =>
          if range_expected then Some None
          else if (length parts =? 0)%nat || (parts_done =? length parts)%nat then Some None
          else Some (Some (parts, S parts_done))
      | String c rest =>
          if isspace c then continue rest parts parts_done range_expected
          else
          match skip_prefix "min" expr with
          | Some rest =>
              if negb (length parts =? 0)%nat then Some None
              else
                '(ret, part, _) ← range_part_minmax new_range_part false 0 basetype true None;
                match ret with
                | LY_SUCCESS =>
                    continue rest (parts ++ [mk_range_part (min_64 part) (min_64 part)])
                      parts_done range_expected
                | _ => Some None
                end
          | None =>
          if Ascii.eqb c "|" then
            if (length parts =? 0)%nat || range_expected then Some None
            else continue rest parts (S parts_done) range_expected
          else
          match skip_prefix ".." expr with
          | Some rest =>
              if (length parts =? 0)%nat || (length parts =? parts_done)%nat then Some None
              else continue (skip_spaces rest) parts parts_done true
          | None =>
          if isdigit c || Ascii.eqb c "-" || Ascii.eqb c "+" then
            if range_expected then
              part ← parts !! (length parts - 1)%nat;
              '(ret, part, expr) ← range_part_minmax part true (min_64 part) basetype false
                                     (Some expr);
              match ret, expr with
              | LY_SUCCESS, Some expr =>
                  continue expr (set_last_part parts part) parts_done false
              | _, _ => Some None
              end
            else
              let parts := parts ++ [new_range_part] in
              prev ← prev_part_max parts parts_done;
              '(ret, part, expr) ← range_part_minmax new_range_part false prev basetype
                                     (parts_done =? 0)%nat (Some expr);
              match ret, expr with
              | LY_SUCCESS, Some expr =>
                  continue expr
                    (set_last_part parts (mk_range_part (min_64 part) (min_64 part)))
                    parts_done range_expected
              | _, _ => Some None
              end
          else
          match skip_prefix "max" expr with
          | Some rest =>
              match skip_spaces rest with
              | String _ _ => Some None
              | EmptyString =>
                  if range_expected then
                    part ← parts !! (length parts - 1)%nat;
                    '(ret, part, _) ← range_part_minmax part true (min_64 part) basetype
                                        false None;
                    match ret with
                    | LY_SUCCESS =>
                        continue EmptyString (set_last_part parts part) parts_done false
                    | _ => Some None
                    end
                  else
                    let parts := parts ++ [new_range_part] in
                    prev ← prev_part_max parts parts_done;
                    '(ret, part, _) ← range_part_minmax new_range_part true prev basetype
                                        (parts_done =? 0)%nat None;
                    match ret with
                    | LY_SUCCESS =>
                        continue EmptyString
                          (set_last_part parts (mk_range_part (max_64 part) (max_64 part)))
                          parts_done range_expected
                    | _ => Some None
                    end
              end
          | None => Some None
          end
          end
          end
      end
  end.

(** The [switch (basetype)] that sets [uns] before the check against the
    base range. *)
Definition range_type_unsigned (basetype : LY_DATA_TYPE) : option bool :=
  match basetype with
  | LY_TYPE_BINARY | LY_TYPE_UINT8 | LY_TYPE_UINT16 | LY_TYPE_UINT32 | LY_TYPE_UINT64
  | LY_TYPE_STRING => Some true
  | LY_TYPE_DEC64 | LY_TYPE_INT8 | LY_TYPE_INT16 | LY_TYPE_INT32 | LY_TYPE_INT64 =>
      Some false
  | _ => None
  end.

(** [(uns && a_u64 < b_u64) || (!uns && a_64 < b_64)]. *)
Definition bound_lt (uns : bool) (a b : Z) : bool :=
  if uns then to_u64 a <? to_u64 b else a <? b.

(** The [for (u = v = 0; u < parts_done && v < LY_ARRAY_SIZE(base_range->parts); ++u)]
    loop with its two cursors; [--u; continue] keeps [u].  The result is
    [Some None] for [goto baseerror] and [Some (Some u)] when the loop
    ends.  Every iteration advances a cursor. *)
Fixpoint range_base_walk (fuel : nat) (uns : bool) (parts base : list lysc_range_part)
    (parts_done u v : nat) : option (option nat) :=
  match fuel with
  | O => None
  | S fuel =>
      let continue := range_base_walk fuel uns parts base parts_done in
      if (u <? parts_done)%nat && (v <? length base)%nat then
        p ← parts !! u;
        b ← base !! v;
        if bound_lt uns (min_64 p) (min_64 b) then Some None
        else if min_64 b =? max_64 b then
          if min_64 b =? min_64 p then
            if negb (min_64 p =? max_64 p) then Some None
            else continue (S u) (S v)
          else continue u (S v)
        else
          if min_64 p =? max_64 p then
            if bound_lt uns (max_64 b) (max_64 p) then continue u (S v)
            else continue (S u) v
          else
            if bound_lt uns (max_64 b) (max_64 p) then
              if bound_lt uns (max_64 b) (min_64 p) then continue u (S v)
              else Some None
            else continue (S u) v
      else Some (Some u)
  end.

(** [lys_compile_type_range]: the error code and, on success, the parts
    stored in [*range].  [range_p->arg] is [arg]; [base_range] is [None]
    for NULL.  The error tag, the message and [length_restr], which only
    selects the wording of the log, are left out. *)
Definition lys_compile_type_range (arg : string) (basetype : LY_DATA_TYPE)
    (base_range : option (list lysc_range_part))
    : option (LY_ERR * option (list lysc_range_part)) :=
  r ← range_expr_loop (S (S (String.length arg))) basetype arg [] 0 false;
  match r with
  | None => Some (LY_EVALID, None)
  | Some (parts, parts_done) =>
      match base_range with
      | None => Some (LY_SUCCESS, Some parts)
      | Some base =>
          match range_type_unsigned basetype with
          | None => Some (LY_EINT, None)
          | Some uns =>
              w ← range_base_walk (S (parts_done + length base)) uns parts base
                    parts_done 0 0;
              match w with
              | None => Some (LY_EVALID, None)
              | Some u =>
                  if negb (u =? parts_done)%nat then Some (LY_EVALID, None)
                  else Some (LY_SUCCESS, Some parts)
              end
          end
      end
  end.

(** ** Patterns *)

(** The table [ublock2urange] of [lys_compile_type_pattern_check]: the
    Unicode block names of XSD and their character ranges, each of
    [URANGE_LEN] characters. *)
Definition ublock2urange : list (string * string) :=
  [
    ("BasicLatin", "[\x{0000}-\x{007F}]");
    ("Latin-1Supplement", "[\x{0080}-\x{00FF}]");
    ("LatinExtended-A", "[\x{0100}-\x{017F}]");
    ("LatinExtended-B", "[\x{0180}-\x{024F}]");
    ("IPAExtensions", "[\x{0250}-\x{02AF}]");
    ("SpacingModifierLetters", "[\x{02B0}-\x{02FF}]");
    ("CombiningDiacriticalMarks", "[\x{0300}-\x{036F}]");
    ("Greek", "[\x{0370}-\x{03FF}]");
    ("Cyrillic", "[\x{0400}-\x{04FF}]");
    ("Armenian", "[\x{0530}-\x{058F}]");
    ("Hebrew", "[\x{0590}-\x{05FF}]");
    ("Arabic", "[\x{0600}-\x{06FF}]");
    ("Syriac", "[\x{0700}-\x{074F}]");
    ("Thaana", "[\x{0780}-\x{07BF}]");
    ("Devanagari", "[\x{0900}-\x{097F}]");
    ("Bengali", "[\x{0980}-\x{09FF}]");
    ("Gurmukhi", "[\x{0A00}-\x{0A7F}]");
    ("Gujarati", "[\x{0A80}-\x{0AFF}]");
    ("Oriya", "[\x{0B00}-\x{0B7F}]");
    ("Tamil", "[\x{0B80}-\x{0BFF}]");
    ("Telugu", "[\x{0C00}-\x{0C7F}]");
    ("Kannada", "[\x{0C80}-\x{0CFF}]");
    ("Malayalam", "[\x{0D00}-\x{0D7F}]");
    ("Sinhala", "[\x{0D80}-\x{0DFF}]");
    ("Thai", "[\x{0E00}-\x{0E7F}]");
    ("Lao", "[\x{0E80}-\x{0EFF}]");
    ("Tibetan", "[\x{0F00}-\x{0FFF}]");
    ("Myanmar", "[\x{1000}-\x{109F}]");
    ("Georgian", "[\x{10A0}-\x{10FF}]");
    ("HangulJamo", "[\x{1100}-\x{11FF}]");
    ("Ethiopic", "[\x{1200}-\x{137F}]");
    ("Cherokee", "[\x{13A0}-\x{13FF}]");
    ("UnifiedCanadianAboriginalSyllabics", "[\x{1400}-\x{167F}]");
    ("Ogham", "[\x{1680}-\x{169F}]");
    ("Runic", "[\x{16A0}-\x{16FF}]");
    ("Khmer", "[\x{1780}-\x{17FF}]");
    ("Mongolian", "[\x{1800}-\x{18AF}]");
    ("LatinExtendedAdditional", "[\x{1E00}-\x{1EFF}]");
    ("GreekExtended", "[\x{1F00}-\x{1FFF}]");
    ("GeneralPunctuation", "[\x{2000}-\x{206F}]");
    ("SuperscriptsandSubscripts", "[\x{2070}-\x{209F}]");
    ("CurrencySymbols", "[\x{20A0}-\x{20CF}]");
    ("CombiningMarksforSymbols", "[\x{20D0}-\x{20FF}]");
    ("LetterlikeSymbols", "[\x{2100}-\x{214F}]");
    ("NumberForms", "[\x{2150}-\x{218F}]");
    ("Arrows", "[\x{2190}-\x{21FF}]");
    ("MathematicalOperators", "[\x{2200}-\x{22FF}]");
    ("MiscellaneousTechnical", "[\x{2300}-\x{23FF}]");
    ("ControlPictures", "[\x{2400}-\x{243F}]");
    ("OpticalCharacterRecognition", "[\x{2440}-\x{245F}]");
    ("EnclosedAlphanumerics", "[\x{2460}-\x{24FF}]");
    ("BoxDrawing", "[\x{2500}-\x{257F}]");
    ("BlockElements", "[\x{2580}-\x{259F}]");
    ("GeometricShapes", "[\x{25A0}-\x{25FF}]");
    ("MiscellaneousSymbols", "[\x{2600}-\x{26FF}]");
    ("Dingbats", "[\x{2700}-\x{27BF}]");
    ("BraillePatterns", "[\x{2800}-\x{28FF}]");
    ("CJKRadicalsSupplement", "[\x{2E80}-\x{2EFF}]");
    ("KangxiRadicals", "[\x{2F00}-\x{2FDF}]");
    ("IdeographicDescriptionCharacters", "[\x{2FF0}-\x{2FFF}]");
    ("CJKSymbolsandPunctuation", "[\x{3000}-\x{303F}]");
    ("Hiragana", "[\x{3040}-\x{309F}]");
    ("Katakana", "[\x{30A0}-\x{30FF}]");
    ("Bopomofo", "[\x{3100}-\x{312F}]");
    ("HangulCompatibilityJamo", "[\x{3130}-\x{318F}]");
    ("Kanbun", "[\x{3190}-\x{319F}]");
    ("BopomofoExtended", "[\x{31A0}-\x{31BF}]");
    ("EnclosedCJKLettersandMonths", "[\x{3200}-\x{32FF}]");
    ("CJKCompatibility", "[\x{3300}-\x{33FF}]");
    ("CJKUnifiedIdeographsExtensionA", "[\x{3400}-\x{4DB5}]");
    ("CJKUnifiedIdeographs", "[\x{4E00}-\x{9FFF}]");
    ("YiSyllables", "[\x{A000}-\x{A48F}]");
    ("YiRadicals", "[\x{A490}-\x{A4CF}]");
    ("HangulSyllables", "[\x{AC00}-\x{D7A3}]");
    ("PrivateUse", "[\x{E000}-\x{F8FF}]");
    ("CJKCompatibilityIdeographs", "[\x{F900}-\x{FAFF}]");
    ("AlphabeticPresentationForms", "[\x{FB00}-\x{FB4F}]");
    ("ArabicPresentationForms-A", "[\x{FB50}-\x{FDFF}]");
    ("CombiningHalfMarks", "[\x{FE20}-\x{FE2F}]");
    ("CJKCompatibilityForms", "[\x{FE30}-\x{FE4F}]");
    ("SmallFormVariants", "[\x{FE50}-\x{FE6F}]");
    ("ArabicPresentationForms-B", "[\x{FE70}-\x{FEFE}]");
    ("HalfwidthandFullwidthForms", "[\x{FF00}-\x{FFEF}]")
  ]%string.

Definition URANGE_LEN : nat := 19.

(** The copy loop: every [$] becomes [\$] and every [^] becomes [\^]. *)
Fixpoint perl_escape (orig : string) : string :=
  match orig with
  | EmptyString => EmptyString
  | String c orig =>
      if Ascii.eqb c "$" then String "\" (String "$" (perl_escape orig))
      else if Ascii.eqb c "^" then String "\" (String "^" (perl_escape orig))
      else String c (perl_escape orig)
  end.

(** [strncmp(pattern + strlen(pattern) - 2, ".*", 2) == 0].  The two
    bytes compared end the pattern; a pattern shorter than two characters
    makes the source read the bytes in front of it, here [preceding] (the
    only caller passes [&arg[1]], so one byte precedes the pattern), and
    a read in front of those is undefined. *)
Definition ends_dot_star (preceding pattern : string) : option bool :=
  let s := (preceding ++ pattern)%string in
  if (String.length s <? 2)%nat then None
  else Some (String.eqb (String.substring (String.length s - 2) 2 s) ".*").

(** The value of [perl_regex] before the Unicode blocks are substituted:
    the escaped pattern, wrapped in [(] and [)$] unless it ends in
    [.*]. *)
Definition perl_regex_anchored (preceding pattern : string) : option string :=
  e ← ends_dot_star preceding pattern;
  if (e : bool) then Some (perl_escape pattern)
  else Some ("(" ++ perl_escape pattern ++ ")$")%string.

(** [strstr]: the text before the first occurrence of [needle] and the
    text from it on. *)
Fixpoint strstr (haystack needle : string) : option (string * string) :=
  match skip_prefix needle haystack with
  | Some _ => Some (EmptyString, haystack)
  | None =>
      match haystack with
      | EmptyString => None
      | String c haystack =>
          '(before, from) ← strstr haystack needle;
          Some (String c before, from)
      end
  end.

(** [strchr]: the text up to and including the first [c], and the text
    after it. *)
Fixpoint strchr_split (s : string) (c : ascii) : option (string * string) :=
  match s with
  | EmptyString => None
  | String a s =>
      if Ascii.eqb a c then Some (String a EmptyString, s)
      else '(upto, after) ← strchr_split s c; Some (String a upto, after)
  end.

(** "find our range": the first entry whose name is a prefix of the
    text. *)
Fixpoint find_ublock (table : list (string * string)) (name : string) : option string :=
  match table with
  | [] => None
  | (block, urange) :: table =>
      match skip_prefix block name with
      | Some _ => Some urange
      | None => find_ublock table name
      end
  end.

(** The count of the brackets in front of the block that are not
    preceded by a backslash. *)
Fixpoint bracket_count (prev : option ascii) (s : string) (count : Z) : Z :=
  match s with
  | EmptyString => count
  | String c s =>
      let unescaped := match prev with
                       | Some p => negb (Ascii.eqb p "\")
                       | None => true
                       end in
      let count := if Ascii.eqb c "[" && unescaped then count + 1 else count in
      let count := if Ascii.eqb c "]" && unescaped then count - 1 else count in
      bracket_count (Some c) s count
  end.

(** The loop "substitute Unicode Character Blocks with exact Character
    Ranges": the final [perl_regex], or the error returned from inside the
    loop.  Every iteration removes an occurrence of [\p{Is]. *)
Fixpoint substitute_ublocks (fuel : nat) (perl_regex : string) : option (LY_ERR + string) :=
  match fuel with
  | O => None
  | S fuel =>
      match strstr perl_regex "\p{Is" with
      | None => Some (inr perl_regex)
      | Some (before, from) =>
          match strchr_split from "}" with
          | None => Some (inl LY_EVALID)
          | Some (block, after) =>
              match find_ublock ublock2urange
                      (String.substring 5 (String.length from - 5) from) with
              | None => Some (inl LY_EVALID)
              | Some urange =>
                  let replacement :=
                    if negb (bracket_count None before 0 =? 0)
                    then String.substring 1 (URANGE_LEN - 2) urange
                    else urange in
                  substitute_ublocks fuel (before ++ replacement ++ after)%string
              end
          end
      end
  end.

(** The string that [lys_compile_type_pattern_check] hands to
    [pcre_compile], or the error it returns before. *)
Definition perl_regex (preceding pattern : string) : option (LY_ERR + string) :=
  anchored ← perl_regex_anchored preceding pattern;
  substitute_ublocks (S (String.length anchored)) anchored.

Section PatternCheck.
(** The PCRE library: the type of compiled expressions and
    [pcre_compile] with the flags [PCRE_UTF8 | PCRE_ANCHORED |
    PCRE_DOLLAR_ENDONLY | PCRE_NO_AUTO_CAPTURE]. *)
Variable pcre : Type.
Variable pcre_compile : string -> option pcre.

(** [lys_compile_type_pattern_check]: the error code and the compiled
    expression. *)
Definition lys_compile_type_pattern_check (preceding pattern : string)
    : option (LY_ERR * option pcre) :=
  r ← perl_regex preceding pattern;
  match r with
  | inl e => Some (e, None)
  | inr source =>
      match pcre_compile source with
      | None => Some (LY_EVALID, None)
      | Some precomp => Some (LY_SUCCESS, Some precomp)
      end
  end.
End PatternCheck.

(** ** Enumerations and bits *)

(** Modelled from the spec: the flag [LYS_SET_VALUE] of tree_schema.h,
    which is not part of src/, set on a parsed enum or bit given with "an
    explicit value" (a [value] or [position] statement).  Only its being a
    nonzero mask matters. *)
Definition LYS_SET_VALUE : Z := 0x01.

(** The value of a C integer converted to [int32_t] and to [uint32_t]. *)
Definition to_s32 (x : Z) : Z :=
  let y := x mod 2 ^ 32 in if y <? 2 ^ 31 then y else y - 2 ^ 32.

Definition to_u32 (x : Z) : Z := x mod 2 ^ 32.

Definition INT32_MIN : Z := - 2 ^ 31.

Section Enums.
(** Parsed and compiled extension instances, and the compilers of the
    sub-statements of an item under the current context,
    [lys_compile_iffeature] and [lys_compile_ext]: the compilation of
    the items depends on them only through their error codes. *)
Variables lysp_ext_instance lysc_ext_instance : Type.
Variable lys_compile_iffeature : string -> LY_ERR * lysc_iffeature.
Variable lys_compile_ext : lysp_ext_instance -> LY_ERR * lysc_ext_instance.

(** [struct lysp_type_enum]. *)
Record lysp_type_enum : Type := mk_lysp_type_enum {
  enum_name : string;
  enum_value : Z;
  enum_iffeatures : list string;
  enum_exts : list lysp_ext_instance;
  enum_flags : Z
}.

(** [struct lysc_type_enum_item]. *)
Record lysc_type_enum_item : Type := mk_lysc_type_enum_item {
  item_name : string;
  item_iffeatures : list lysc_iffeature;
  item_exts : list lysc_ext_instance;
  item_value : Z
}.

(** [COMPILE_ARRAY_GOTO]: the elements are compiled in order into the
    new array until one fails. *)
Fixpoint compile_array {P C : Type} (func : P -> LY_ERR * C) (array_p : list P)
    : LY_ERR * list C :=
  match array_p with
  | [] => (LY_SUCCESS, [])
  | x :: array_p =>
      let '(ret, c) := func x in
      match ret with
      | LY_SUCCESS => let '(ret, cs) := compile_array func array_p in (ret, c :: cs)
      | _ => (ret, [c])
      end
  end.

(** The search of the item's name in the base type: the index at which
    the loop over [base_enums] breaks, or their number. *)
Fixpoint base_enum_index (base_enums : list lysc_type_enum_item) (name : string) : nat :=
  match base_enums with
  | [] => 0
  | b :: base_enums =>
      if String.eqb name (item_name b) then 0%nat
      else S (base_enum_index base_enums name)
  end.

(** "check collision with other values": a previous item has the value. *)
Definition value_collides (enums : list lysc_type_enum_item) (value : Z) : bool :=
  existsb (fun x => value =? item_value x) enums.

(** "keep bits ordered by position": the index [v] that the loop
    [for (v = u; v && ( *enums)[v - 1].value > e->value; --v)] reaches. *)
Fixpoint bit_insert_index (enums : list lysc_type_enum_item) (value : Z) (v : nat) : nat :=
  match v with
  | O => O
  | S v' =>
      match enums !! v' with
      | Some x => if value <? item_value x then bit_insert_index enums value v' else v
      | None => v
      end
  end.

(** The state of the loop of [lys_compile_type_enums]: the array
    [*enums] and the counters [value] and [position]. *)
Record enums_state : Type := mk_enums_state {
  st_enums : list lysc_type_enum_item;
  st_value : Z;
  st_position : Z
}.

(** One iteration of [LY_ARRAY_FOR(enums_p, u)] for the parsed item
    [enum_p]; [u] is the number of items already in [*enums].  The new
    item [e] is appended to [*enums] and given its name before anything
    is checked ([LY_ARRAY_NEW_RET], which is taken to zero the new item,
    and [DUP_STRING]): when the iteration returns an error, the item is
    the last one of the array, filled in as far as the iteration got, and
    the counters are as they are then. *)
Definition compile_enum_item (basetype : LY_DATA_TYPE)
    (base_enums : list lysc_type_enum_item) (s : enums_state)
    (enum_p : lysp_type_enum) : LY_ERR * enums_state :=
  let enums := st_enums s in
  let u := length enums in
  let name := enum_name enum_p in
  let stop (e : lysc_type_enum_item) (value position : Z) : enums_state :=
    mk_enums_state (enums ++ [e]) value position in
  let e0 := mk_lysc_type_enum_item name [] [] 0 in
  let match_ := base_enum_index base_enums name in
  if negb (length base_enums =? 0)%nat && (match_ =? length base_enums)%nat
  then (LY_EVALID, stop e0 (st_value s) (st_position s))
  else
    let base_value := match base_enums !! match_ with
                      | Some b => item_value b
                      | None => 0
                      end in
    let has_base := negb (length base_enums =? 0)%nat in
    let explicit := negb (Z.land (enum_flags enum_p) LYS_SET_VALUE =? 0) in
    let assigned : Z * Z * Z + enums_state :=
      match basetype with
      | LY_TYPE_ENUM =>
          if explicit then
            let v := to_s32 (enum_value enum_p) in
            let value := if (u =? 0)%nat || (st_value s <=? v) then to_s32 (v + 1)
                         else st_value s in
            if value_collides enums v
            then inr (stop (mk_lysc_type_enum_item name [] [] v) value (st_position s))
            else inl (v, value, st_position s)
          else if has_base then
            let v := base_value in
            let value := if (u =? 0)%nat || (st_value s <=? v) then to_s32 (v + 1)
                         else st_value s in
            inl (v, value, st_position s)
          else
            if negb (u =? 0)%nat && (st_value s =? INT32_MIN)
            then inr (stop e0 (st_value s) (st_position s))
            else inl (st_value s, to_s32 (st_value s + 1), st_position s)
      | _ =>
          if explicit then
            let v := to_s32 (enum_value enum_p) in
            let position := if (u =? 0)%nat || (st_position s <=? to_u32 v)
                            then to_u32 (to_u32 v + 1) else st_position s in
            if value_collides enums v
            then inr (stop (mk_lysc_type_enum_item name [] [] v) (st_value s) position)
            else inl (v, st_value s, position)
          else if has_base then
            let v := base_value in
            let position := if (u =? 0)%nat || (st_position s <=? to_u32 v)
                            then to_u32 (to_u32 v + 1) else st_position s in
            inl (v, st_value s, position)
          else
            if negb (u =? 0)%nat && (st_position s =? 0)
            then inr (stop e0 (st_value s) (st_position s))
            else inl (to_s32 (st_position s), st_value s, to_u32 (st_position s + 1))
      end in
    match assigned with
    | inr s' => (LY_EVALID, s')
    | inl (v, value, position) =>
        if has_base && negb (v =? base_value)
        then (LY_EVALID, stop (mk_lysc_type_enum_item name [] [] v) value position)
        else
          let '(ret, iffeatures) := compile_array lys_compile_iffeature
                                      (enum_iffeatures enum_p) in
          match ret with
          | LY_SUCCESS =>
              let '(ret, exts) := compile_array lys_compile_ext (enum_exts enum_p) in
              match ret with
              | LY_SUCCESS =>
                  let e := mk_lysc_type_enum_item name iffeatures exts v in
                  let enums :=
                    match basetype with
                    | LY_TYPE_ENUM => enums ++ [e]
                    | _ =>
                        let v' := bit_insert_index enums v u in
                        take v' enums ++ e :: drop v' enums
                    end in
                  (LY_SUCCESS, mk_enums_state enums value position)
              | _ => (ret, stop (mk_lysc_type_enum_item name iffeatures exts v)
                             value position)
              end
          | _ => (ret, stop (mk_lysc_type_enum_item name iffeatures [] v) value position)
          end
    end.

(** The loop over the parsed items, which returns at the first error. *)
Fixpoint compile_enum_items (basetype : LY_DATA_TYPE)
    (base_enums : list lysc_type_enum_item) (s : enums_state)
    (enums_p : list lysp_type_enum) : LY_ERR * enums_state :=
  match enums_p with
  | [] => (LY_SUCCESS, s)
  | enum_p :: enums_p =>
      let '(ret, s) := compile_enum_item basetype base_enums s enum_p in
      match ret with
      | LY_SUCCESS => compile_enum_items basetype base_enums s enums_p
      | _ => (ret, s)
      end
  end.

(** [lys_compile_type_enums] on an empty [*enums], as [lys_compile_type]
    calls it: the error code and the array [*enums] as the function
    leaves it, which after an error ends with the item that failed.
    [base_enums] is [[]] for NULL. *)
Definition lys_compile_type_enums (enums_p : list lysp_type_enum)
    (basetype : LY_DATA_TYPE) (base_enums : list lysc_type_enum_item)
    : LY_ERR * list lysc_type_enum_item :=
  let '(ret, s) := compile_enum_items basetype base_enums (mk_enums_state [] 0 0) enums_p in
  (ret, st_enums s).

(** The item of the base type with the given name. *)
Definition base_enum_named (base_enums : list lysc_type_enum_item) (name : string)
    : option lysc_type_enum_item :=
  base_enums !! base_enum_index base_enums name.
End Enums.

Arguments mk_lysp_type_enum {lysp_ext_instance}.
Arguments enum_name {lysp_ext_instance}.
Arguments enum_value {lysp_ext_instance}.
Arguments enum_iffeatures {lysp_ext_instance}.
Arguments enum_exts {lysp_ext_instance}.
Arguments enum_flags {lysp_ext_instance}.
Arguments mk_lysc_type_enum_item {lysc_ext_instance}.
Arguments item_name {lysc_ext_instance}.
Arguments item_iffeatures {lysc_ext_instance}.
Arguments item_exts {lysc_ext_instance}.
Arguments item_value {lysc_ext_instance}.
Arguments base_enum_index {lysc_ext_instance}.
Arguments base_enum_named {lysc_ext_instance}.
Arguments value_collides {lysc_ext_instance}.
Arguments bit_insert_index {lysc_ext_instance}.
Arguments mk_enums_state {lysc_ext_instance}.
Arguments st_enums {lysc_ext_instance}.
Arguments st_value {lysc_ext_instance}.
Arguments st_position {lysc_ext_instance}.
Arguments compile_enum_item {lysp_ext_instance lysc_ext_instance}.
Arguments compile_enum_items {lysp_ext_instance lysc_ext_instance}.
Arguments lys_compile_type_enums {lysp_ext_instance lysc_ext_instance}.

(** ** Predicates on stores *)

(** [st] is [st0] with exactly the features of [changed] enabled, none of
    which was enabled in [st0]: the relation between the store at the
    start of an enable-all call and the store during its runs. *)
Definition enabled_from (st0 : store) (changed : list feature_ptr) (st : store) : Prop :=
  (forall q, st !! q = if decide (q ∈ changed) then set_enabled <$> st0 !! q else st0 !! q) /\
  (forall q, q ∈ changed -> exists f0, st0 !! q = Some f0 /\ feature_enabled f0 = false) /\
  NoDup changed.


(** Two features that differ at most in their flags. *)
Definition static_eq (f g : lysc_feature) : Prop :=
  f_name f = f_name g /\ f_iffeatures f = f_iffeatures g /\
  f_depfeatures f = f_depfeatures g.

(** Two stores that differ at most in the flags of their features. *)
Definition same_shape (st st' : store) : Prop := Forall2 static_eq st st'.

(** Every pointer of the list is the address of a feature. *)
Definition valid_ptrs (st : store) (ps : list feature_ptr) : Prop :=
  Forall (fun p => (p < length st)%nat) ps.

(** A well-formed store: every if-feature expression can be evaluated
    (all its reads are inside its arrays and the store) and every
    back-link is the address of a feature. *)
Definition wf_store (st : store) : Prop :=
  Forall (fun f =>
    Forall (fun iff => is_Some (lysc_iffeature_value st iff)) (f_iffeatures f) /\
    valid_ptrs st (f_depfeatures f)) st.

(** Number of enabled features. *)
Fixpoint count_enabled (st : store) : nat :=
  match st with
  | [] => 0
  | f :: st => (if feature_enabled f then 1 else 0) + count_enabled st
  end.

(** The feature at [q] is enabled although one of its if-feature
    expressions does not evaluate true. *)
Definition inconsistent_at (st : store) (q : feature_ptr) : Prop :=
  exists g, st !! q = Some g /\ feature_enabled g = true /\
    iffeatures_enabled st (f_iffeatures g) <> Some true.

(** Every enabled feature has all its if-feature expressions true. *)
Definition consistent (st : store) : Prop := forall q, ~ inconsistent_at st q.

(** The back-links are complete: a feature whose if-feature expressions
    mention [r] is among the [depfeatures] of [r] (what
    [lys_compile_feature] registers). *)
Definition deps_complete (st : store) : Prop :=
  forall q g iff r, st !! q = Some g -> iff ∈ f_iffeatures g -> r ∈ iff_features iff ->
    exists fr, st !! r = Some fr /\ q ∈ f_depfeatures fr.

(** The back-links of the feature at [p]. *)
Definition deps_at (st : store) (p : feature_ptr) : list feature_ptr :=
  match st !! p with
  | Some f => f_depfeatures f
  | None => []
  end.

(** [q] is a dependent of one of the features of [changed]. *)
Definition covered (st : store) (changed : list feature_ptr) (q : feature_ptr) : Prop :=
  exists p, p ∈ changed /\ q ∈ deps_at st p.

(** [q] is a dependent of a feature of [changed] at an index in
    [[lo, hi)]. *)
Definition covered_between (st : store) (changed : list feature_ptr) (lo hi : nat)
    (q : feature_ptr) : Prop :=
  exists j p, (lo <= j < hi)%nat /\ changed !! j = Some p /\ q ∈ deps_at st p.

(** Every inconsistent feature is a dependent of a changed feature. *)
Definition all_covered (st : store) (changed : list feature_ptr) : Prop :=
  forall q, inconsistent_at st q -> covered st changed q.

(** The dependents of the first [u] changed features have been dealt
    with: one of them that is inconsistent is also a dependent of a changed
    feature still to be processed. *)
Definition reflected (st : store) (changed : list feature_ptr) (u : nat) : Prop :=
  forall q, inconsistent_at st q -> covered_between st changed 0 u q ->
    covered_between st changed u (length changed) q.

(** The same while the dependents [dfs] of the changed feature at index
    [u] remain to be looked at. *)
Definition reflecting (st : store) (changed : list feature_ptr) (u : nat)
    (dfs : list feature_ptr) : Prop :=
  forall q, inconsistent_at st q -> covered_between st changed 0 (S u) q ->
    q ∈ dfs \/ covered_between st changed (S u) (length changed) q.

(** A feature enabled in [st'] was enabled in [st] or satisfies [T]. *)
Definition enabled_kept (T : feature_ptr -> lysc_feature -> Prop) (st st' : store) : Prop :=
  forall q f', st' !! q = Some f' -> feature_enabled f' = true ->
    (exists f, st !! q = Some f /\ feature_enabled f = true) \/ T q f'.

(** The features that a call of [lys_feature_change] may enable: with a
    nonzero [value], the features of the array selected by [all] or by
    their name. *)
Definition change_target (all : bool) (name : string) (value : Z)
    (fs : list feature_ptr) (q : feature_ptr) (f : lysc_feature) : Prop :=
  value <> 0 /\ q ∈ fs /\ (all = true \/ f_name f = name).

(** ** Predicates on ranges *)

(** The part [p] lies inside the part [b], in the order of the type:
    [b.min <= p.min] and [p.max <= b.max]. *)
Definition part_within (uns : bool) (p b : lysc_range_part) : Prop :=
  bound_lt uns (min_64 p) (min_64 b) = false /\
  bound_lt uns (max_64 b) (max_64 p) = false.

(** The part [p] lies inside one of the parts of [base]. *)
Definition part_within_base (uns : bool) (base : list lysc_range_part)
    (p : lysc_range_part) : Prop :=
  exists b, b ∈ base /\ part_within uns p b.

(** ** Predicates on patterns *)

(** The pattern ends in [.*]. *)
Definition pattern_ends_dot_star (pattern : string) : bool :=
  String.eqb (String.substring (String.length pattern - 2) 2 pattern) ".*".

(** A search text that the escapes and the anchoring cannot produce: it
    has none of [$], [^] and [)] and does not end in a backslash. *)
Fixpoint needle_plain (needle : string) : bool :=
  match needle with
  | EmptyString => true
  | String a needle =>
      negb (Ascii.eqb a "$") && negb (Ascii.eqb a "^") && negb (Ascii.eqb a ")")
      && match needle with
         | EmptyString => negb (Ascii.eqb a "\")
         | String _ _ => true
         end
      && needle_plain needle
  end.

(** ** Further predicates on stores *)

(** The store that a run of the loop over the features leaves. *)
Definition run_store (r : run_result) : store :=
  match r with
  | RunReturn _ st => st
  | RunDone st _ _ => st
  end.

(** The flags of a feature without the enabled bit. *)
Definition other_flags (f : lysc_feature) : Z := Z.land (f_flags f) (Z.lnot LYS_FENABLED).

(** Two features that differ at most in their enabled bit. *)
Definition enabled_bit_only (f g : lysc_feature) : Prop :=
  static_eq f g /\ other_flags f = other_flags g.

(** The back-links point forward: a dependent feature sits behind the
    feature it depends on (what [lys_compile_feature] produces when no
    feature names itself in its if-feature). *)
Definition deps_forward (st : store) : Prop :=
  forall r fr d, st !! r = Some fr -> d ∈ f_depfeatures fr -> (r < d)%nat.

(** ** Further predicates on ranges *)

(** The value by which the bounds of a type are compared: the unsigned
    view of the 64 bits for an unsigned type, the signed one otherwise. *)
Definition key (uns : bool) (x : Z) : Z := if uns then to_u64 x else x.

(** A value of [int64_t]. *)
Definition in_s64 (x : Z) : bool := (- 2 ^ 63 <=? x) && (x <? 2 ^ 63).

(** Parts as the YANG grammar orders them: each with its lower bound not
    above its upper bound, and each part entirely below the next one. *)
Fixpoint parts_regular (uns : bool) (ps : list lysc_range_part) : bool :=
  match ps with
  | [] => true
  | p :: rest =>
      in_s64 (min_64 p) && in_s64 (max_64 p)
      && negb (bound_lt uns (max_64 p) (min_64 p))
      && match rest with
         | q :: _ => bound_lt uns (max_64 p) (min_64 q)
         | [] => true
         end
      && parts_regular uns rest
  end.

(** What the walk along the base relies on: every part from [u] on lies
    inside a part of the base from [v] on. *)
Definition walk_inv (uns : bool) (parts base : list lysc_range_part) (u v : nat) : Prop :=
  forall i p, (u <= i)%nat -> parts !! i = Some p ->
    exists j b, (v <= j)%nat /\ base !! j = Some b /\ part_within uns p b.

(** ** Further definitions on enumerations and bits *)

Definition INT32_MAX : Z := 2 ^ 31 - 1.

(** The order in which the bits are kept: by [value], the position read
    as [int32_t]. *)
Definition value_le {X : Type} (a b : @lysc_type_enum_item X) : Prop :=
  item_value a <= item_value b.

(** Three enums given without a value, and bits given with the positions
    5, 1 and 3. *)
Definition enums_abc {X : Type} : list (@lysp_type_enum X) :=
  [ mk_lysp_type_enum "a" 0 [] [] 0; mk_lysp_type_enum "b" 0 [] [] 0;
    mk_lysp_type_enum "c" 0 [] [] 0 ].

Definition bits_513 {X : Type} : list (@lysp_type_enum X) :=
  [ mk_lysp_type_enum "x" 5 [] [] LYS_SET_VALUE; mk_lysp_type_enum "y" 1 [] [] LYS_SET_VALUE;
    mk_lysp_type_enum "z" 3 [] [] LYS_SET_VALUE ].

(** An enum without a value, one with the value 5 and again one
    without. *)
Definition enums_a5c {X : Type} : list (@lysp_type_enum X) :=
  [ mk_lysp_type_enum "a" 0 [] [] 0; mk_lysp_type_enum "b" 5 [] [] LYS_SET_VALUE;
    mk_lysp_type_enum "c" 0 [] [] 0 ].

(** ** Further definitions on patterns *)

(** The number of occurrences of a character in a text. *)
Fixpoint count_char (a : ascii) (s : string) : nat :=
  match s with
  | EmptyString => 0
  | String c s => (if Ascii.eqb c a then 1 else 0) + count_char a s
  end.

(** ** Compilation of if-feature expressions and of features *)

(** The markers of the parentheses on the operator stack. *)
Definition LYS_IFF_LP : Z := 0x04.
Definition LYS_IFF_RP : Z := 0x08.

(** [struct iff_stack] as the list of its used items, the top first.
    [iff_stack_push] enlarges the array when it is full, so a push always
    has room; [iff_stack_pop] of the empty stack reads in front of the
    array. *)
Definition iff_stack_push (stack : list Z) (value : Z) : list Z := value :: stack.

Definition iff_stack_pop (stack : list Z) : option (Z * list Z) :=
  match stack with
  | [] => None
  | value :: stack => Some (value, stack)
  end.

(** The counters of the first loop of [lys_compile_iffeature]: the depth
    [j] of the parentheses, [last_not], [checkversion] and the unsigned
    [f_size], [expr_size] and [f_exp]. *)
Record iff_counters : Type := mk_iff_counters {
  c_j : Z;
  c_last_not : bool;
  c_checkversion : bool;
  c_f_size : Z;
  c_expr_size : Z;
  c_f_exp : Z
}.

(** [!strncmp(&c[i], "not", r = 3) || !strncmp(&c[i], "and", r = 3) ||
    !strncmp(&c[i], "or", r = 2)]: the text at [c[i + r]]. *)
Definition keyword_at (s : string) : option string :=
  match skip_prefix "not" s with
  | Some rest => Some rest
  | None =>
      match skip_prefix "and" s with
      | Some rest => Some rest
      | None => skip_prefix "or" s
      end
  end.

(** The loop [while (!isspace(c[i]))] that runs to the end of a word,
    together with the [i++] of the enclosing [for]: the text that the next
    iteration starts at.  A blank ends the word and is stepped over; at a
    [)] or at the end of the string the loop steps back, so that the [for]
    sees that character next. *)
Fixpoint skip_word (s : string) : string :=
  match s with
  | EmptyString => EmptyString
  | String a s' =>
      if isspace a then s'
      else if Ascii.eqb a ")" then s
      else skip_word s'
  end.

(** The first loop, "pre-parse the expression to get sizes for arrays,
    also do some syntax checks", from the text at [c[i]]: [Some None] for
    [return LY_EVALID], [Some (Some counters)] at the end of the string.
    Every iteration consumes a character. *)
Fixpoint iff_preparse (fuel : nat) (s : string) (k : iff_counters)
    : option (option iff_counters) :=
  match fuel with
  | O => None
  | S fuel =>
      match s with
      | EmptyString => Some (Some k)
      | String a s' =>
          if Ascii.eqb a "(" then
            iff_preparse fuel s'
              (mk_iff_counters (c_j k + 1) (c_last_not k) true (c_f_size k)
                 (c_expr_size k) (c_f_exp k))
          else if Ascii.eqb a ")" then
            iff_preparse fuel s'
              (mk_iff_counters (c_j k - 1) (c_last_not k) (c_checkversion k) (c_f_size k)
                 (c_expr_size k) (c_f_exp k))
          else if isspace a then
            iff_preparse fuel s'
              (mk_iff_counters (c_j k) (c_last_not k) true (c_f_size k)
                 (c_expr_size k) (c_f_exp k))
          else
            match keyword_at s with
            | Some rest =>
                match rest with
                | EmptyString => Some None
                | String b _ =>
                    let k :=
                      if negb (isspace b) then
                        mk_iff_counters (c_j k) false (c_checkversion k)
                          (to_u32 (c_f_size k + 1)) (c_expr_size k) (c_f_exp k)
                      else if Ascii.eqb a "n" then
                        if c_last_not k then
                          mk_iff_counters (c_j k) false (c_checkversion k) (c_f_size k)
                            (to_u32 (c_expr_size k - 2)) (c_f_exp k)
                        else
                          mk_iff_counters (c_j k) true (c_checkversion k) (c_f_size k)
                            (c_expr_size k) (c_f_exp k)
                      else
                        mk_iff_counters (c_j k) false (c_checkversion k) (c_f_size k)
                          (c_expr_size k) (to_u32 (c_f_exp k + 1)) in
                    iff_preparse fuel (skip_word rest)
                      (mk_iff_counters (c_j k) (c_last_not k) (c_checkversion k)
                         (c_f_size k) (to_u32 (c_expr_size k + 1)) (c_f_exp k))
                end
            | None =>
                iff_preparse fuel (skip_word s)
                  (mk_iff_counters (c_j k) false (c_checkversion k)
                     (to_u32 (c_f_size k + 1)) (to_u32 (c_expr_size k + 1)) (c_f_exp k))
            end
      end
  end.

(** What the second loop builds: the array [iff->expr], the filled end of
    [iff->features] and the unsigned [expr_size] and [f_size], "used as
    indexes from now". *)
Record iff_build : Type := mk_iff_build {
  b_expr : list Z;
  b_features : list feature_ptr;
  b_expr_size : Z;
  b_f_size : Z
}.

(** [iff_setop(iff->expr, op, expr_size--)].  The index is converted to
    [int]; [iff_setop] asserts that it is not negative and that the
    opcode has two bits, and the slot has to be inside the array. *)
Definition iff_emit (op : Z) (b : iff_build) : option iff_build :=
  let pos := to_s32 (b_expr_size b) in
  if (pos <? 0) || (3 <? op) || (Z.of_nat (length (b_expr b)) <=? pos / 4) then None
  else Some (mk_iff_build (iff_setop (b_expr b) op (Z.to_nat pos)) (b_features b)
               (to_u32 (b_expr_size b - 1)) (b_f_size b)).

(** [while ((op = iff_stack_pop(&stack)) != LYS_IFF_RP) iff_setop(...)]. *)
Fixpoint iff_pop_until_rp (stack : list Z) (b : iff_build)
    : option (list Z * iff_build) :=
  match stack with
  | [] => None
  | op :: stack =>
      if op =? LYS_IFF_RP then Some (stack, b)
      else b ← iff_emit op b; iff_pop_until_rp stack b
  end.

(** [while (stack.index && stack.stack[stack.index - 1] <= limit)]: pop
    the operators of the same or a higher priority into the result. *)
Fixpoint iff_pop_le (limit : Z) (stack : list Z) (b : iff_build)
    : option (list Z * iff_build) :=
  match stack with
  | [] => Some (stack, b)
  | op :: stack' =>
      if op <=? limit then b ← iff_emit op b; iff_pop_le limit stack' b
      else Some (stack, b)
  end.

(** [while (stack.index)]: pop what is left. *)
Fixpoint iff_pop_all (stack : list Z) (b : iff_build) : option iff_build :=
  match stack with
  | [] => Some b
  | op :: stack => b ← iff_emit op b; iff_pop_all stack b
  end.

(** [while (i >= 0 && !isspace(c[i]) && c[i] != '(') i--]: from the
    characters in front of the position, the nearest first, to the
    beginning of the word; the characters passed are put in front of
    [word]. *)
Fixpoint word_start (before : list ascii) (word : string) : list ascii * string :=
  match before with
  | [] => (before, word)
  | a :: before' =>
      if isspace a || Ascii.eqb a "(" then (before, word)
      else word_start before' (String a word)
  end.

(** [!strncmp(&c[i], kw, strlen(kw)) && isspace(c[i + strlen(kw)])]. *)
Definition is_operator (kw text : string) : bool :=
  match skip_prefix kw text with
  | Some (String b _) => isspace b
  | _ => false
  end.

Section IfFeatureCompile.
(** [lysc_module_find_prefix], which is not part of this file: the
    module that a prefix stands for in a module. *)
Variable lysc_module_find_prefix : lysc_module -> string -> option lysc_module.

(** The loop of [lysc_feature_find] over the characters of the name: at
    a colon the module becomes the one of the prefix and the name what
    follows the colon, while [i] goes on.  [None] stands for
    [return NULL]. *)
Fixpoint feature_find_module (fuel : nat) (mod_ : lysc_module) (name : string)
    (len i : nat) : option (lysc_module * string * nat) :=
  match fuel with
  | O => Some (mod_, name, len)
  | S fuel =>
      if (i <? len)%nat then
        match String.get i name with
        | Some ":"%char =>
            match lysc_module_find_prefix mod_ (String.substring 0 i name) with
            | None => None
            | Some mod_ =>
                feature_find_module fuel mod_
                  (String.substring (S i) (String.length name - S i) name)
                  (len - i - 1) (S i)
            end
        | _ => feature_find_module fuel mod_ name len (S i)
        end
      else Some (mod_, name, len)
  end.

(** The loop of [lysc_feature_find] over the features of the module: the
    first one whose name is the [len] characters at [name]. *)
Fixpoint feature_find_named (st : store) (fs : list feature_ptr) (name : string)
    (len : nat) : option (option feature_ptr) :=
  match fs with
  | [] => Some None
  | p :: fs =>
      f ← st !! p;
      if String.eqb (f_name f) (String.substring 0 len name) then Some (Some p)
      else feature_find_named st fs name len
  end.

(** [lysc_feature_find]; the inner [None] is NULL. *)
Definition lysc_feature_find (st : store) (mod_ : lysc_module) (name : string)
    (len : nat) : option (option feature_ptr) :=
  match feature_find_module len mod_ name len 0 with
  | None => Some None
  | Some (mod_, name, len) => feature_find_named st (mod_features mod_) name len
  end.

(** "end of operator or operand -> find beginning and get what is it":
    the word [word] at [c[i]], followed by the text [after].  An operator
    changes the stack; a feature name is written as an operand and looked
    up.  The result is the error of [goto error], or the stack and what
    was built. *)
Definition iff_word (st : store) (mod_ : lysc_module) (capacity : Z)
    (word after : string) (stack : list Z) (b : iff_build)
    : option (LY_ERR + list Z * iff_build) :=
  let text := (word ++ after)%string in
  if is_operator "not" text then
    match stack with
    | op :: stack' =>
        if op =? LYS_IFF_NOT then Some (inr (stack', b))
        else Some (inr (iff_stack_push stack LYS_IFF_NOT, b))
    | [] => Some (inr (iff_stack_push stack LYS_IFF_NOT, b))
    end
  else if is_operator "and" text then
    '(stack, b) ← iff_pop_le LYS_IFF_AND stack b;
    Some (inr (iff_stack_push stack LYS_IFF_AND, b))
  else if is_operator "or" text then
    '(stack, b) ← iff_pop_le LYS_IFF_OR stack b;
    Some (inr (iff_stack_push stack LYS_IFF_OR, b))
  else
    b ← iff_emit LYS_IFF_F b;
    f ← lysc_feature_find st mod_ text (String.length word);
    match f with
    | None => Some (inl LY_EVALID)
    | Some p =>
        if capacity <=? b_f_size b then None
        else Some (inr (stack, mk_iff_build (b_expr b) (p :: b_features b) (b_expr_size b)
                                 (to_u32 (b_f_size b - 1))))
    end.

(** The second loop of [lys_compile_iffeature], from the end of the
    string to its beginning.  [before] holds the characters up to [c[i]],
    the nearest first, and [after] the text behind [c[i]]; [capacity] is
    the size of [iff->features]. *)
Fixpoint iff_postparse (fuel : nat) (st : store) (mod_ : lysc_module) (capacity : Z)
    (before : list ascii) (after : string) (stack : list Z) (b : iff_build)
    : option (LY_ERR + list Z * iff_build) :=
  match fuel with
  | O => None
  | S fuel =>
      match before with
      | [] => Some (inr (stack, b))
      | a :: before' =>
          if Ascii.eqb a ")" then
            iff_postparse fuel st mod_ capacity before' (String a after)
              (iff_stack_push stack LYS_IFF_RP) b
          else if Ascii.eqb a "(" then
            '(stack, b) ← iff_pop_until_rp stack b;
            iff_postparse fuel st mod_ capacity before' (String a after) stack b
          else if isspace a then
            iff_postparse fuel st mod_ capacity before' (String a after) stack b
          else
            let '(before, word) := word_start before EmptyString in
            r ← iff_word st mod_ capacity word after stack b;
            match r with
            | inl e => Some (inl e)
            | inr (stack, b) =>
                iff_postparse fuel st mod_ capacity before (word ++ after)%string stack b
            end
      end
  end.

(** [lys_compile_iffeature] in the module [mod_]; [yang_1_1] tells
    whether [ctx->mod->compiled->version] is [LYS_VERSION_1_1].  The
    expression is returned with [LY_SUCCESS] only: after an error what was
    built is left to the caller's cleanup. *)
Definition lys_compile_iffeature (st : store) (mod_ : lysc_module) (yang_1_1 : bool)
    (value : string) : option (LY_ERR * option lysc_iffeature) :=
  r ← iff_preparse (S (String.length value)) value (mk_iff_counters 0 false false 0 0 1);
  match r with
  | None => Some (LY_EVALID, None)
  | Some k =>
      if negb (c_j k =? 0) || negb (c_f_exp k =? c_f_size k) then Some (LY_EVALID, None)
      else if (c_checkversion k || (1 <? c_expr_size k)) && negb yang_1_1
      then Some (LY_EVALID, None)
      else
        let bytes := c_expr_size k / 4 + (if c_expr_size k mod 4 =? 0 then 0 else 1) in
        let b := mk_iff_build (replicate (Z.to_nat bytes) 0) []
                   (to_u32 (c_expr_size k - 1)) (to_u32 (c_f_size k - 1)) in
        r ← iff_postparse (S (String.length value)) st mod_ (c_f_size k)
              (reverse (list_ascii_of_string value)) EmptyString [] b;
        match r with
        | inl e => Some (e, None)
        | inr (stack, b) =>
            b ← iff_pop_all stack b;
            if negb (to_u32 (b_expr_size b + 1) =? 0) || negb (to_u32 (b_f_size b + 1) =? 0)
            then Some (LY_EINT, None)
            else Some (LY_SUCCESS, Some (mk_iffeature (b_expr b) (b_features b)))
        end
  end.

(** [COMPILE_ARRAY_GOTO] over if-feature statements. *)
Fixpoint compile_iffeatures (st : store) (mod_ : lysc_module) (yang_1_1 : bool)
    (values : list string) : option (LY_ERR * list lysc_iffeature) :=
  match values with
  | [] => Some (LY_SUCCESS, [])
  | value :: values =>
      r ← lys_compile_iffeature st mod_ yang_1_1 value;
      match r with
      | (LY_SUCCESS, Some iff) =>
          '(ret, iffs) ← compile_iffeatures st mod_ yang_1_1 values;
          Some (ret, iff :: iffs)
      | (ret, _) => Some (ret, [])
      end
  end.

(** [struct lysp_feature], with the error codes that [lys_compile_ext]
    gives for its extension instances (the compiled feature of this model
    does not keep them). *)
Record lysp_feature : Type := mk_lysp_feature {
  pf_name : string;
  pf_iffeatures : list string;
  pf_exts : list LY_ERR;
  pf_flags : Z
}.

(** "add itself into the dependants list": [feature] is appended to the
    [depfeatures] of the feature at [r]. *)
Definition add_depfeature (feature : feature_ptr) (f : lysc_feature) : lysc_feature :=
  mk_feature (f_name f) (f_flags f) (f_iffeatures f) (f_depfeatures f ++ [feature]).

Fixpoint register_depfeatures (st : store) (feature : feature_ptr)
    (refs : list feature_ptr) : option store :=
  match refs with
  | [] => Some st
  | r :: refs =>
      f ← st !! r;
      register_depfeatures (<[r := add_depfeature feature f]> st) feature refs
  end.

Fixpoint register_iffeatures (st : store) (feature : feature_ptr)
    (iffs : list lysc_iffeature) : option store :=
  match iffs with
  | [] => Some st
  | iff :: iffs =>
      st ← register_depfeatures st feature (iff_features iff);
      register_iffeatures st feature iffs
  end.

(** The first extension instance that does not compile. *)
Fixpoint compile_exts (exts : list LY_ERR) : LY_ERR :=
  match exts with
  | [] => LY_SUCCESS
  | LY_SUCCESS :: exts => compile_exts exts
  | ret :: _ => ret
  end.

(** [lys_compile_feature] for the element at the address [feature] of the
    module's array. *)
Definition lys_compile_feature (st : store) (mod_ : lysc_module) (yang_1_1 : bool)
    (feature_p : lysp_feature) (feature : feature_ptr) : option (LY_ERR * store) :=
  f ← st !! feature;
  let st := <[feature := mk_feature (pf_name feature_p) (pf_flags feature_p)
                           (f_iffeatures f) (f_depfeatures f)]> st in
  match compile_exts (pf_exts feature_p) with
  | LY_SUCCESS =>
      '(ret, iffs) ← compile_iffeatures st mod_ yang_1_1 (pf_iffeatures feature_p);
      f ← st !! feature;
      let st := <[feature := mk_feature (f_name f) (f_flags f) iffs (f_depfeatures f)]> st in
      match ret with
      | LY_SUCCESS =>
          st ← register_iffeatures st feature iffs;
          Some (LY_SUCCESS, st)
      | _ => Some (ret, st)
      end
  | ret => Some (ret, st)
  end.

(** [COMPILE_ARRAY_GOTO(&ctx, sp->features, mod_c->features, ...,
    lys_compile_feature, ...)] of [lys_compile]: every element of the
    module's array is first counted in ([LY_ARRAY_INCREMENT]), zeroed, and
    then compiled; the elements take the next addresses of the store. *)
Fixpoint compile_features (st : store) (mod_ : lysc_module) (yang_1_1 : bool)
    (features_p : list lysp_feature) : option (LY_ERR * store * lysc_module) :=
  match features_p with
  | [] => Some (LY_SUCCESS, st, mod_)
  | feature_p :: features_p =>
      let feature := length st in
      let st := st ++ [mk_feature EmptyString 0 [] []] in
      let mod_ := mk_lysc_module (mod_name mod_) (mod_features mod_ ++ [feature]) in
      '(ret, st) ← lys_compile_feature st mod_ yang_1_1 feature_p feature;
      match ret with
      | LY_SUCCESS => compile_features st mod_ yang_1_1 features_p
      | _ => Some (ret, st, mod_)
      end
  end.
End IfFeatureCompile.

(** A feature that has at most gained dependents. *)
Definition deps_grown (f g : lysc_feature) : Prop :=
  f_name f = f_name g /\ f_flags f = f_flags g /\ f_iffeatures f = f_iffeatures g /\
  f_depfeatures f `prefix_of` f_depfeatures g.

(** Every feature of [st] is in [st'] at its address and has at most
    gained dependents. *)
Definition store_grown (st st' : store) : Prop :=
  forall p f, st !! p = Some f -> exists f', st' !! p = Some f' /\ deps_grown f f'.

(** The back-links are sound: a feature listed among the [depfeatures]
    of [r] has an if-feature expression that refers to [r]. *)
Definition deps_sound (st : store) : Prop :=
  forall r fr q, st !! r = Some fr -> q ∈ f_depfeatures fr ->
    exists g iff, st !! q = Some g /\ iff ∈ f_iffeatures g /\ r ∈ iff_features iff.

(** The statements of scenario 3 as the parser hands them over. *)
Definition scenario3_parsed : list lysp_feature :=
  [ mk_lysp_feature "a" [] [] 0;
    mk_lysp_feature "b" [] [] 0;
    mk_lysp_feature "c" [] [] 0;
    mk_lysp_feature "f" ["(a and not b) or c"%string] [] 0 ].

(** A module without imports: no prefix stands for a module. *)
Definition no_prefix (mod_ : lysc_module) (prefix : string) : option lysc_module := None.

(** ** Example stores *)

(** The postfix [ops], packed four opcodes per byte by [iff_setop]. *)
Definition iff_pack (ops : list Z) : list Z :=
  fold_left (fun l '(pos, op) => iff_setop l op pos) (imap pair ops)
    (replicate ((length ops + 3) / 4) 0).

(** Scenario 3 of the specification: features [a], [b], [c] and
    [f { if-feature "(a and not b) or c"; }], all disabled.  The postfix
    of the expression is OR AND a NOT b c. *)
Definition scenario3_iff : lysc_iffeature :=
  mk_iffeature
    (iff_pack [LYS_IFF_OR; LYS_IFF_AND; LYS_IFF_F; LYS_IFF_NOT; LYS_IFF_F; LYS_IFF_F])
    [0; 1; 2]%nat.

Definition scenario3_store : store :=
  [ mk_feature "a" 0 [] [3%nat];
    mk_feature "b" 0 [] [3%nat];
    mk_feature "c" 0 [] [3%nat];
    mk_feature "f" 0 [scenario3_iff] [] ].

Definition scenario3_module : lysc_module := mk_lysc_module "m" [0; 1; 2; 3]%nat.

(** The scenario's store with the enabled bits of [a], [b], [c] and [f]
    set as given. *)
Definition scenario3_with (a b c f : bool) : store :=
  let bit (x : bool) := if x then LYS_FENABLED else 0 in
  [ mk_feature "a" (bit a) [] [3%nat];
    mk_feature "b" (bit b) [] [3%nat];
    mk_feature "c" (bit c) [] [3%nat];
    mk_feature "f" (bit f) [scenario3_iff] [] ].

(** Features [a] and [g { if-feature "not a"; }], both disabled: enabling
    all of them enables [a] in the first run and can never enable [g]. *)
Definition stuck_store : store :=
  [ mk_feature "a" 0 [] [1%nat];
    mk_feature "g" 0 [mk_iffeature (iff_pack [LYS_IFF_NOT; LYS_IFF_F]) [0%nat]] [] ].

Definition stuck_module : lysc_module := mk_lysc_module "m" [0; 1]%nat.

(** ** Example enumerations *)

(** Scenario 4 of the specification: the base enumeration
    [{one=1, two=2, three=3}] and derived types that list [one] and [two]
    without values, and [four]. *)
Definition base_one_two_three {X : Type} : list (@lysc_type_enum_item X) :=
  [ mk_lysc_type_enum_item "one" [] [] 1;
    mk_lysc_type_enum_item "two" [] [] 2;
    mk_lysc_type_enum_item "three" [] [] 3 ].

Definition derived_one_two {X : Type} : list (@lysp_type_enum X) :=
  [ mk_lysp_type_enum "one" 0 [] [] 0; mk_lysp_type_enum "two" 0 [] [] 0 ].

Definition derived_four {X : Type} : list (@lysp_type_enum X) :=
  [ mk_lysp_type_enum "four" 0 [] [] 0 ].

(** ** If-feature expressions as trees *)

(** An if-feature expression: a feature name or two expressions joined
    by [and] or [or], each of them possibly negated. *)
Inductive iff_ast : Type :=
| IffName (neg : bool) (name : string)
| IffBin (neg : bool) (is_or : bool) (l r : iff_ast).

Definition iff_neg_text (neg : bool) : string := if neg then "not " else EmptyString.

Definition iff_op_text (is_or : bool) : string := if is_or then " or " else " and ".

Definition iff_op_word (is_or : bool) : string := if is_or then "or" else "and".

(** The text of an expression, with every [and] and [or] in
    parentheses. *)
Fixpoint iff_print (e : iff_ast) : string :=
  match e with
  | IffName neg name => (iff_neg_text neg ++ name)%string
  | IffBin neg is_or l r =>
      (iff_neg_text neg ++ "(" ++ iff_print l ++ iff_op_text is_or ++ iff_print r ++ ")")%string
  end.

Definition iff_negated (e : iff_ast) : bool :=
  match e with
  | IffName neg _ => neg
  | IffBin neg _ _ _ => neg
  end.

(** The text of the expression starts with [not], possibly behind
    opening parentheses. *)
Fixpoint iff_leftmost_not (e : iff_ast) : bool :=
  match e with
  | IffName neg _ => neg
  | IffBin neg _ l _ => neg || iff_leftmost_not l
  end.

(** A character of a feature name: no blank, parenthesis or colon. *)
Definition plain_char (a : ascii) : bool :=
  negb (isspace a) && negb (Ascii.eqb a "(") && negb (Ascii.eqb a ")")
  && negb (Ascii.eqb a ":").

Fixpoint plain_chars (s : string) : bool :=
  match s with
  | EmptyString => true
  | String a s => plain_char a && plain_chars s
  end.

(** A feature name that is not one of the operators. *)
Definition feature_word (s : string) : bool :=
  plain_chars s && negb (String.eqb s EmptyString) && negb (String.eqb s "not")
  && negb (String.eqb s "and") && negb (String.eqb s "or").

(** The names of the expression are feature names, and no negated
    parenthesis starts with a negation. *)
Fixpoint iff_syntax (e : iff_ast) : bool :=
  match e with
  | IffName _ name => feature_word name
  | IffBin neg _ l r => iff_syntax l && iff_syntax r && negb (neg && iff_leftmost_not l)
  end.

(** Every name of the expression is the name of a feature of [fs]. *)
Fixpoint iff_known (st : store) (fs : list feature_ptr) (e : iff_ast) : bool :=
  match e with
  | IffName _ name => match feature_named st fs name with Some _ => true | None => false end
  | IffBin _ _ l r => iff_known st fs l && iff_known st fs r
  end.

(** The names of the expression are names of features of [fs], and no
    negated parenthesis starts with a negation (as in [not (not a and
    b)]). *)
Fixpoint iff_wellformed (st : store) (fs : list feature_ptr) (e : iff_ast) : bool :=
  match e with
  | IffName _ name =>
      feature_word name
      && match feature_named st fs name with Some _ => true | None => false end
  | IffBin neg _ l r =>
      iff_wellformed st fs l && iff_wellformed st fs r
      && negb (neg && iff_leftmost_not l)
  end.

(** The truth value of the expression in a store. *)
Fixpoint iff_holds (st : store) (fs : list feature_ptr) (e : iff_ast) : bool :=
  match e with
  | IffName neg name =>
      xorb neg match feature_named st fs name with
               | Some (_, f) => feature_enabled f
               | None => false
               end
  | IffBin neg is_or l r =>
      xorb neg (if is_or then iff_holds st fs l || iff_holds st fs r
                else iff_holds st fs l && iff_holds st fs r)
  end.

Definition iff_neg_code (neg : bool) : list Z := if neg then [LYS_IFF_NOT] else [].

Definition iff_op_code (is_or : bool) : Z := if is_or then LYS_IFF_OR else LYS_IFF_AND.

(** The opcodes of the expression in prefix order. *)
Fixpoint iff_code (e : iff_ast) : list Z :=
  match e with
  | IffName neg _ => iff_neg_code neg ++ [LYS_IFF_F]
  | IffBin neg is_or l r => iff_neg_code neg ++ iff_op_code is_or :: iff_code l ++ iff_code r
  end.

(** The same without the negation in front. *)
Definition iff_body (e : iff_ast) : list Z :=
  match e with
  | IffName _ _ => [LYS_IFF_F]
  | IffBin _ is_or l r => iff_op_code is_or :: iff_code l ++ iff_code r
  end.

(** The features of the expression from left to right. *)
Fixpoint iff_pointers (st : store) (fs : list feature_ptr) (e : iff_ast)
    : list feature_ptr :=
  match e with
  | IffName _ name =>
      match feature_named st fs name with
      | Some (p, _) => [p]
      | None => []
      end
  | IffBin _ _ l r => iff_pointers st fs l ++ iff_pointers st fs r
  end.

(** The number of [and] and [or] of the expression. *)
Fixpoint iff_operators (e : iff_ast) : nat :=
  match e with
  | IffName _ _ => 0
  | IffBin _ _ l r => S (iff_operators l + iff_operators r)
  end.

(** The text behind a word or a closing parenthesis is empty or starts
    with a blank or a closing parenthesis. *)
Definition delimited (rest : string) : bool :=
  match rest with
  | EmptyString => true
  | String a _ => isspace a || Ascii.eqb a ")"
  end.

(** The characters in front of a word, the nearest first, are none or
    start with a blank or an opening parenthesis. *)
Definition delimited_before (before : list ascii) : bool :=
  match before with
  | [] => true
  | a :: _ => isspace a || Ascii.eqb a "("
  end.

(** The characters of a text, the last one first. *)
Definition rev_chars (s : string) : list ascii := reverse (list_ascii_of_string s).

(** The opcodes [ops] are in the slots of [expr] from [pos] on. *)
Definition slots (expr : list Z) (pos : nat) (ops : list Z) : Prop :=
  forall i op, ops !! i = Some op -> iff_getop expr (pos + i) = Some op.

(** The number of feature names of the expression. *)
Fixpoint iff_operands (e : iff_ast) : nat :=
  match e with
  | IffName _ _ => 1
  | IffBin _ _ l r => iff_operands l + iff_operands r
  end.

(** The array [expr'] is [expr] with the opcodes [ops] written into the
    slots that end at [top], nothing else changed above them. *)
Definition written (expr' expr : list Z) (top : Z) (ops : list Z) : Prop :=
  length expr' = length expr /\
  0 <= top - Z.of_nat (length ops) + 1 /\
  slots expr' (Z.to_nat (top - Z.of_nat (length ops) + 1)) ops /\
  forall pos, top < Z.of_nat pos -> iff_getop expr' pos = iff_getop expr pos.

(** The top of the operator stack is not a pending negation. *)
Definition stack_clean (stack : list Z) : bool :=
  match stack with
  | [] => true
  | op :: _ => negb (op =? LYS_IFF_NOT)
  end.

(** The expression [((a and not b) or c)]. *)
Definition scenario3_ast : iff_ast :=
  IffBin false true (IffBin false false (IffName false "a") (IffName true "b"))
    (IffName false "c").

(** ** Compiled patterns and their reference counts *)

Section Patterns.
(** The PCRE library, the extension instances and their compiler, and the
    number of bits of the field [refcount] of [struct lysc_pattern], which
    is declared outside this file. *)
Variable pcre : Type.
Variable pcre_compile : string -> option pcre.
Variables lysp_ext_instance lysc_ext_instance : Type.
Variable lys_compile_ext : lysp_ext_instance -> LY_ERR * lysc_ext_instance.
Variable refcount_bits : Z.

(** [struct lysc_pattern]; [expr] is NULL until the pattern is
    compiled.  The result of [pcre_study] is left out. *)
Record lysc_pattern : Type := mk_lysc_pattern {
  pat_expr : option pcre;
  pat_inverted : bool;
  pat_eapptag : option string;
  pat_emsg : option string;
  pat_exts : list lysc_ext_instance;
  pat_refcount : Z
}.

(** The fields of [struct lysp_restr] that a pattern statement uses:
    [arg] holds the byte 0x06 or 0x15 followed by the pattern. *)
Record lysp_restr : Type := mk_lysp_restr {
  restr_arg : string;
  restr_eapptag : option string;
  restr_emsg : option string;
  restr_exts : list lysp_ext_instance
}.

(** The patterns in memory: the object at an address, or nothing once
    it has been freed.  [calloc] takes the next address. *)
Abbreviation pattern_heap := (list (option lysc_pattern)).
Abbreviation pattern_ptr := nat.

Definition live (heap : pattern_heap) (p : pattern_ptr) : option lysc_pattern :=
  heap !! p ≫= id.

Definition set_refcount (pat : lysc_pattern) (refcount : Z) : lysc_pattern :=
  mk_lysc_pattern (pat_expr pat) (pat_inverted pat) (pat_eapptag pat) (pat_emsg pat)
    (pat_exts pat) refcount.

(** [++orig->refcount] and [--( *pattern)->refcount] in the unsigned
    field. *)
Definition refcount_wrap (x : Z) : Z := x mod 2 ^ refcount_bits.

(** [lysc_pattern_dup]: the pattern is shared, its counter goes up. *)
Definition lysc_pattern_dup (heap : pattern_heap) (orig : pattern_ptr) : option pattern_heap :=
  pat ← live heap orig;
  Some (<[orig := Some (set_refcount pat (refcount_wrap (pat_refcount pat + 1)))]> heap).

(** [lysc_patterns_dup]: the new array holds the same addresses. *)
Fixpoint lysc_patterns_dup (heap : pattern_heap) (orig : list pattern_ptr)
    : option pattern_heap :=
  match orig with
  | [] => Some heap
  | p :: orig => heap ← lysc_pattern_dup heap p; lysc_patterns_dup heap orig
  end.

(** [lysc_pattern_free]: the counter goes down, and the pattern is freed
    when it reaches 0. *)
Definition lysc_pattern_free (heap : pattern_heap) (pattern : pattern_ptr)
    : option pattern_heap :=
  pat ← live heap pattern;
  let refcount := refcount_wrap (pat_refcount pat - 1) in
  if negb (refcount =? 0) then Some (<[pattern := Some (set_refcount pat refcount)]> heap)
  else Some (<[pattern := None]> heap).

(** [FREE_ARRAY(ctx, result, lysc_pattern_free)]. *)
Fixpoint free_patterns (heap : pattern_heap) (array : list pattern_ptr)
    : option pattern_heap :=
  match array with
  | [] => Some heap
  | p :: array => heap ← lysc_pattern_free heap p; free_patterns heap array
  end.

(** The loop [LY_ARRAY_FOR(patterns_p, u)] of
    [lys_compile_type_patterns]: the code of the first statement that
    fails or [LY_SUCCESS], with the memory and the array [result] as they
    are then.  The pattern is the text behind the first byte of [arg]. *)
Fixpoint compile_patterns (heap : pattern_heap) (result : list pattern_ptr)
    (patterns_p : list lysp_restr) : option (LY_ERR * pattern_heap * list pattern_ptr) :=
  match patterns_p with
  | [] => Some (LY_SUCCESS, heap, result)
  | restr :: patterns_p =>
      let pattern := length heap in
      let fresh := mk_lysc_pattern None false None None [] (refcount_wrap (0 + 1)) in
      let result := result ++ [pattern] in
      match restr_arg restr with
      | EmptyString => None
      | String byte text =>
          '(ret, expr) ← lys_compile_type_pattern_check pcre pcre_compile
                           (String byte EmptyString) text;
          match ret with
          | LY_SUCCESS =>
              let '(ret, exts) := compile_array lys_compile_ext (restr_exts restr) in
              let compiled :=
                mk_lysc_pattern expr (Ascii.eqb byte (ascii_of_nat 21)) (restr_eapptag restr)
                  (restr_emsg restr) exts (pat_refcount fresh) in
              let heap := heap ++ [Some compiled] in
              match ret with
              | LY_SUCCESS => compile_patterns heap result patterns_p
              | _ => Some (ret, heap, result)
              end
          | _ => Some (ret, heap ++ [Some fresh], result)
          end
      end
  end.

(** [lys_compile_type_patterns]: the error code, the memory and, with
    [LY_SUCCESS], the array stored in [*patterns].  An empty
    [base_patterns] stands for NULL. *)
Definition lys_compile_type_patterns (heap : pattern_heap) (patterns_p : list lysp_restr)
    (base_patterns : list pattern_ptr)
    : option (LY_ERR * pattern_heap * option (list pattern_ptr)) :=
  heap ← lysc_patterns_dup heap base_patterns;
  '(ret, heap, result) ← compile_patterns heap base_patterns patterns_p;
  match ret with
  | LY_SUCCESS => Some (LY_SUCCESS, heap, Some result)
  | _ => heap ← free_patterns heap result; Some (ret, heap, None)
  end.
End Patterns.

Arguments pat_expr {pcre lysc_ext_instance} _.
Arguments pat_inverted {pcre lysc_ext_instance} _.
Arguments pat_eapptag {pcre lysc_ext_instance} _.
Arguments pat_emsg {pcre lysc_ext_instance} _.
Arguments pat_exts {pcre lysc_ext_instance} _.
Arguments pat_refcount {pcre lysc_ext_instance} _.
Arguments restr_arg {lysp_ext_instance} _.
Arguments restr_eapptag {lysp_ext_instance} _.
Arguments restr_emsg {lysp_ext_instance} _.
Arguments restr_exts {lysp_ext_instance} _.
Arguments live {pcre lysc_ext_instance} heap p.
Arguments set_refcount {pcre lysc_ext_instance} pat refcount.

(** A memory with one pattern, counted once, and three pattern
    statements: a plain one, an inverted one and one that names an unknown
    Unicode block.  Compiled expressions are stood for by their source
    text. *)
Definition one_pattern_heap : list (option (lysc_pattern string unit)) :=
  [Some (mk_lysc_pattern string unit (Some "x"%string) false None None [] 1)].

Definition restr_lower : lysp_restr unit :=
  mk_lysp_restr unit (String (ascii_of_nat 6) "[a-z]+") None (Some "lower case"%string) [].

Definition restr_inverted : lysp_restr unit :=
  mk_lysp_restr unit (String (ascii_of_nat 21) "[0-9]+") None None [].

Definition restr_klingon : lysp_restr unit :=
  mk_lysp_restr unit (String (ascii_of_nat 6) "\p{IsKlingon}+") None None [].

(** ** Identities and their derived identities *)

(** The fields of [struct lysc_ident] that [lys_compile_identities_derived]
    reads and writes: the name and the array [derived] of the identities
    that have this one as a base.  The identities live in a store, and a
    module's array [identities] is the list of their addresses. *)
Record lysc_ident : Type := mk_lysc_ident {
  ident_name : string;
  ident_derived : list nat
}.

(** The fields of [struct lysp_ident] that the function reads. *)
Record lysp_ident : Type := mk_lysp_ident {
  pident_name : string;
  pident_bases : list string
}.

Abbreviation ident_store := (list lysc_ident).
Abbreviation ident_ptr := nat.

(** [LY_ARRAY_NEW_RET(ctx->ctx, mod->identities[v].derived, dident, LY_EMEM);
    *dident = &idents[i]]. *)
Definition add_derived (self : ident_ptr) (ident : lysc_ident) : lysc_ident :=
  mk_lysc_ident (ident_name ident) (ident_derived ident ++ [self]).

(** The loop over [mod->identities]: at the first identity of the name
    the back-link is stored and the loop left.  The flag tells whether
    [dident] has been assigned. *)
Fixpoint link_base (st : ident_store) (identities : list ident_ptr) (name : string)
    (self : ident_ptr) : option (ident_store * bool) :=
  match identities with
  | [] => Some (st, false)
  | v :: identities =>
      ident ← st !! v;
      if String.eqb name (ident_name ident)
      then Some (<[v := add_derived self ident]> st, true)
      else link_base st identities name self
  end.

(** [strchr(base, ':')]: the text in front of the first colon and the
    text behind it. *)
Fixpoint split_prefix (base : string) : option (string * string) :=
  match base with
  | EmptyString => None
  | String a base =>
      if Ascii.eqb a ":" then Some (EmptyString, base)
      else '(prefix, name) ← split_prefix base; Some (String a prefix, name)
  end.

Section IdentitiesDerived.
(** [lysc_module_find_prefix(ctx->mod->compiled, prefix, len)], which is
    not part of this file, followed by the read of [mod->identities]: the
    array of the identities of the module that the prefix stands for, or
    [None] for NULL. *)
Variable prefix_identities : string -> option (list ident_ptr).

(** [ctx->mod->compiled->identities], the array of the identities of the
    module that is compiled.  [lys_compile] passes the same array as
    [idents]. *)
Variable mod_identities : list ident_ptr.

(** The module and the name that a base stands for: the module of the
    prefix and the text behind the colon, or the module itself and the
    whole text. *)
Definition base_target (base : string) : string * option (list ident_ptr) :=
  match split_prefix base with
  | Some (prefix, name) => (name, prefix_identities prefix)
  | None => (base, Some mod_identities)
  end.

(** The loop over the bases of the identity at [self].  [dident] tells
    whether the local variable of that name has been assigned; it is
    declared without a value, and reading it before is undefined.  The
    result is the code returned from inside the loop, or [LY_SUCCESS] at
    its end, with the store and [dident] as they are then.  The
    allocation of the new item of [derived] is taken to succeed. *)
Fixpoint derived_bases (st : ident_store) (self : ident_ptr)
    (bases : list string) (dident : bool) : option (LY_ERR * ident_store * bool) :=
  match bases with
  | [] => Some (LY_SUCCESS, st, dident)
  | base :: bases =>
      let '(name, mod_) := base_target base in
      match mod_ with
      | None => Some (LY_EVALID, st, dident)
      | Some identities =>
          '(st, found) ← link_base st identities name self;
          let dident := dident || found in
          if negb dident then None
          else derived_bases st self bases dident
      end
  end.

(** The loop over the identities of the module, from the index [i]. *)
Fixpoint derived_identities (st : ident_store) (idents : list ident_ptr)
    (idents_p : list lysp_ident) (i : nat) (dident : bool) : option (LY_ERR * ident_store) :=
  match idents_p with
  | [] => Some (LY_SUCCESS, st)
  | ident_p :: idents_p =>
      match pident_bases ident_p with
      | [] => derived_identities st idents idents_p (S i) dident
      | bases =>
          self ← idents !! i;
          '(ret, st, dident) ← derived_bases st self bases dident;
          match ret with
          | LY_SUCCESS => derived_identities st idents idents_p (S i) dident
          | _ => Some (ret, st)
          end
      end
  end.

(** [lys_compile_identities_derived]. *)
Definition lys_compile_identities_derived (st : ident_store) (idents_p : list lysp_ident)
    (idents : list ident_ptr) : option (LY_ERR * ident_store) :=
  derived_identities st idents idents_p 0 false.
End IdentitiesDerived.

(** The first identity of the array that has the name. *)
Fixpoint ident_named (st : ident_store) (identities : list ident_ptr) (name : string)
    : option ident_ptr :=
  match identities with
  | [] => None
  | v :: identities =>
      match st !! v with
      | Some ident =>
          if String.eqb name (ident_name ident) then Some v
          else ident_named st identities name
      | None => None
      end
  end.

(** An identity that has at most gained derived identities, and a store
    in which every identity has. *)
Definition ident_grown (a b : lysc_ident) : Prop :=
  ident_name a = ident_name b /\ ident_derived a `prefix_of` ident_derived b.

Definition idents_grown (st st' : ident_store) : Prop := Forall2 ident_grown st st'.

(** Three identities [animal], [pet] and [dog]: [pet] is derived from
    [animal], and [dog] from [pet] and [animal]. *)
Definition zoo_store : ident_store :=
  [mk_lysc_ident "animal" []; mk_lysc_ident "pet" []; mk_lysc_ident "dog" []].

Definition zoo_parsed : list lysp_ident :=
  [mk_lysp_ident "animal" []; mk_lysp_ident "pet" ["animal"%string];
   mk_lysp_ident "dog" ["pet"%string; "animal"%string]].


(** The same with a base of [pet] that names no identity, and a base of
    [dog] with a prefix. *)
Definition zoo_parsed_prefix : list lysp_ident :=
  [mk_lysp_ident "animal" []; mk_lysp_ident "pet" ["animal"%string; "ghost"%string];
   mk_lysp_ident "dog" ["x:pet"%string]].

(** * Properties *)

(** ** The enabled bit *)

Lemma land_lor_mask (x m : Z) : Z.land (Z.lor x m) m = m.
Proof.
  apply Z.bits_inj'; intros n _.
  rewrite Z.land_spec, Z.lor_spec.
  destruct (Z.testbit x n), (Z.testbit m n); reflexivity.
Qed.

Lemma land_lnot_mask (x m : Z) : Z.land (Z.land x (Z.lnot m)) m = 0.
Proof.
  rewrite <- Z.land_assoc, (Z.land_comm (Z.lnot m)), Z.land_lnot_diag.
  apply Z.land_0_r.
Qed.

Lemma lor_land_lnot_mask (x m : Z) :
  Z.land x m = 0 -> Z.land (Z.lor x m) (Z.lnot m) = x.
Proof.
  intros H. apply Z.bits_inj'; intros n Hn.
  assert (Hb : Z.testbit (Z.land x m) n = false) by (rewrite H; apply Z.bits_0).
  rewrite Z.land_spec in Hb.
  rewrite Z.land_spec, Z.lor_spec, Z.lnot_spec by assumption.
  destruct (Z.testbit x n), (Z.testbit m n); simpl in *; congruence.
Qed.

Lemma land_lnot_idem (x m : Z) :
  Z.land (Z.land x (Z.lnot m)) (Z.lnot m) = Z.land x (Z.lnot m).
Proof. rewrite <- Z.land_assoc, Z.land_diag. reflexivity. Qed.

Lemma feature_enabled_set f : feature_enabled (set_enabled f) = true.
Proof.
  unfold feature_enabled, set_enabled; simpl.
  rewrite land_lor_mask. reflexivity.
Qed.

Lemma feature_enabled_clear f : feature_enabled (clear_enabled f) = false.
Proof.
  unfold feature_enabled, clear_enabled; simpl.
  rewrite land_lnot_mask. reflexivity.
Qed.

Lemma clear_set_enabled f :
  feature_enabled f = false -> clear_enabled (set_enabled f) = f.
Proof.
  unfold feature_enabled, clear_enabled, set_enabled; simpl; intros H.
  apply negb_false_iff, Z.eqb_eq in H.
  rewrite lor_land_lnot_mask by assumption.
  destruct f; reflexivity.
Qed.

Lemma clear_enabled_idem f : clear_enabled (clear_enabled f) = clear_enabled f.
Proof.
  unfold clear_enabled; simpl. rewrite land_lnot_idem. reflexivity.
Qed.

Lemma lysc_feature_value_enabled f :
  lysc_feature_value (Some f) = 1 <-> feature_enabled f = true.
Proof.
  unfold lysc_feature_value. destruct (feature_enabled f); split; congruence.
Qed.

(** ** Looking a feature up by name *)

Lemma feature_named_split st fs name p f :
  feature_named st fs name = Some (p, f) ->
  exists pre post, fs = pre ++ p :: post /\ no_feature_named st pre name /\
    st !! p = Some f /\ f_name f = name.
Proof.
  induction fs as [|q fs IH]; simpl; [discriminate|].
  destruct (st !! q) as [g|] eqn:Hq; [|discriminate].
  destruct (String.eqb (f_name g) name) eqn:Hn.
  - intros [= -> ->]. apply String.eqb_eq in Hn.
    exists [], fs. repeat split; auto. constructor.
  - intros H. destruct (IH H) as (pre & post & -> & Hpre & Hp & Hf).
    exists (q :: pre), post. repeat split; auto.
    constructor; auto. exists g. split; auto.
    apply String.eqb_neq; assumption.
Qed.

Lemma feature_value_search_named st fs name p f :
  feature_named st fs name = Some (p, f) ->
  feature_value_search st fs name = Some (if feature_enabled f then 1 else 0).
Proof.
  induction fs as [|q fs IH]; simpl; [discriminate|].
  destruct (st !! q) as [g|]; simpl; [|discriminate].
  destruct (String.eqb (f_name g) name); [intros [= -> ->]; reflexivity | exact IH].
Qed.

Lemma feature_value_search_absent st fs name :
  no_feature_named st fs name -> feature_value_search st fs name = Some (-1).
Proof.
  induction 1 as [|q fs (g & Hq & Hn) _ IH]; simpl; [reflexivity|].
  rewrite Hq; simpl. apply String.eqb_neq in Hn. rewrite Hn. exact IH.
Qed.

(** With features in the module, [lys_feature_value] is its search
    loop. *)
Lemma lys_feature_value_search st m c name :
  compiled m = Some c -> mod_features c <> [] ->
  lys_feature_value st (Some m) (Some name) = feature_value_search st (mod_features c) name.
Proof.
  intros Hc Hfs. unfold lys_feature_value. rewrite Hc.
  destruct (mod_features c); [contradiction|reflexivity].
Qed.

(** ** Changing one named feature *)

Lemma feature_run_skip st pre rest name value changed dc :
  no_feature_named st pre name ->
  feature_run false name value (pre ++ rest) st changed dc
  = feature_run false name value rest st changed dc.
Proof.
  induction 1 as [|q pre (g & Hq & Hn) _ IH]; simpl; [reflexivity|].
  rewrite Hq; simpl. apply String.eqb_neq in Hn. rewrite Hn. exact IH.
Qed.

Lemma feature_run_named st fs name value p f :
  feature_named st fs name = Some (p, f) ->
  feature_run false name value fs st [] 0
  = if (negb (value =? 0) && feature_enabled f)
       || ((value =? 0) && negb (feature_enabled f))
    then Some (RunReturn LY_SUCCESS st)
    else if negb (value =? 0) then
      ok ← iffeatures_enabled st (f_iffeatures f);
      if (ok : bool) then Some (RunDone (alter set_enabled p st) [p] 0)
      else Some (RunReturn LY_EDENIED st)
    else Some (RunDone (alter clear_enabled p st) [p] 0).
Proof.
  intros H. apply feature_named_split in H as (pre & post & -> & Hpre & Hp & Hf).
  rewrite feature_run_skip by assumption. simpl.
  rewrite Hp; simpl. apply String.eqb_eq in Hf. rewrite Hf.
  destruct ((negb (value =? 0) && feature_enabled f)
            || ((value =? 0) && negb (feature_enabled f))); [reflexivity|].
  destruct (negb (value =? 0)); [|reflexivity].
  destruct (iffeatures_enabled st (f_iffeatures f)) as [[]|]; reflexivity.
Qed.

Lemma feature_run_absent st fs name value changed dc :
  no_feature_named st fs name ->
  feature_run false name value fs st changed dc = Some (RunDone st changed dc).
Proof.
  intros H. rewrite <- (app_nil_r fs), feature_run_skip by assumption. reflexivity.
Qed.

Lemma feature_named_nonempty st fs name r :
  feature_named st fs name = Some r -> fs <> [].
Proof. destruct fs; [discriminate | congruence]. Qed.

Lemma lys_feature_change_set_named st c name value p f :
  feature_named st (mod_features c) name = Some (p, f) ->
  String.eqb name "*" = false ->
  lys_feature_change_set st c name value
  = r ← feature_run false name value (mod_features c) st [] 0;
    match r with
    | RunReturn e st => Some (e, st, [])
    | RunDone st changed _ =>
        '(st, changed) ← reflect_changes (S (length changed + length st)) st changed 0;
        Some (LY_SUCCESS, st, changed)
    end.
Proof.
  intros Hf Hall. unfold lys_feature_change_set.
  destruct (mod_features c) as [|q fs] eqn:Hfs; [discriminate|].
  rewrite Hall. cbn [feature_change_runs].
  rewrite (feature_run_named _ _ _ _ _ _ Hf).
  destruct ((negb (value =? 0) && feature_enabled f)
            || ((value =? 0) && negb (feature_enabled f))); [reflexivity|].
  destruct (negb (value =? 0)) eqn:Hv; cbn -[reflect_changes].
  - destruct (iffeatures_enabled st (f_iffeatures f)) as [[]|]; reflexivity.
  - reflexivity.
Qed.

(** ** Enabling all features: the runs and the restoration *)

Lemma restore_changed_lookup changed : forall st q,
  restore_changed st changed !! q
  = if decide (q ∈ changed) then clear_enabled <$> st !! q else st !! q.
Proof.
  unfold restore_changed.
  induction changed as [|p changed IH]; intros st q; cbn [foldl].
  - rewrite decide_False by apply not_elem_of_nil. reflexivity.
  - rewrite IH. destruct (decide (q = p)) as [->|Hne].
    + rewrite list_lookup_alter_eq, (decide_True (P := p ∈ p :: changed))
        by set_solver.
      case_decide; [|reflexivity].
      destruct (st !! p); simpl; [rewrite clear_enabled_idem|]; reflexivity.
    + rewrite list_lookup_alter_ne by congruence.
      destruct (decide (q ∈ changed)) as [Hin|Hin].
      * rewrite decide_True by set_solver. reflexivity.
      * rewrite decide_False; [reflexivity|].
        intros [?|?]%elem_of_cons; congruence.
Qed.

Lemma enabled_from_refl st : enabled_from st [] st.
Proof.
  split_and!.
  - intros q. rewrite decide_False by apply not_elem_of_nil. reflexivity.
  - intros q Hq. apply not_elem_of_nil in Hq. destruct Hq.
  - constructor.
Qed.

Lemma enabled_from_restore st0 changed st :
  enabled_from st0 changed st -> restore_changed st changed = st0.
Proof.
  intros (Hst & Hoff & _). apply list_eq; intros q.
  rewrite restore_changed_lookup, Hst.
  case_decide as Hin; [|reflexivity].
  destruct (Hoff q Hin) as (f0 & -> & Hf0). simpl.
  rewrite clear_set_enabled by assumption. reflexivity.
Qed.

Lemma enabled_from_step st0 changed st p f :
  enabled_from st0 changed st ->
  st !! p = Some f -> feature_enabled f = false ->
  enabled_from st0 (changed ++ [p]) (alter set_enabled p st).
Proof.
  intros (Hst & Hoff & Hnd) Hp Hf.
  assert (Hnin : p ∉ changed).
  { intros Hin. rewrite Hst, decide_True in Hp by assumption.
    destruct (st0 !! p) as [f0|]; simpl in Hp; [|discriminate].
    injection Hp as <-. rewrite feature_enabled_set in Hf. discriminate. }
  assert (Hp0 : st0 !! p = Some f).
  { rewrite Hst, decide_False in Hp by assumption. exact Hp. }
  split_and!; [| |apply NoDup_app; split_and!;
                     [assumption | set_solver | apply NoDup_singleton]].
  - intros q. destruct (decide (q = p)) as [->|Hne].
    + rewrite list_lookup_alter_eq, decide_True by set_solver.
      rewrite Hst, decide_False by assumption. reflexivity.
    + rewrite list_lookup_alter_ne by congruence. rewrite Hst.
      destruct (decide (q ∈ changed)) as [Hin|Hin].
      * rewrite decide_True by set_solver. reflexivity.
      * rewrite decide_False; [reflexivity|].
        intros [?|?%list_elem_of_singleton]%elem_of_app; congruence.
  - intros q [Hin|Heq%list_elem_of_singleton]%elem_of_app; [auto|subst q].
    exists f. split; assumption.
Qed.


(** The run of the loop when enabling all features. *)
Lemma feature_run_enable_all_cons name value p fs st changed dc :
  (value =? 0) = false ->
  feature_run true name value (p :: fs) st changed dc
  = f ← st !! p;
    if feature_enabled f then feature_run true name value fs st changed dc
    else
      ok ← iffeatures_enabled st (f_iffeatures f);
      if (ok : bool)
      then feature_run true name value fs (alter set_enabled p st) (changed ++ [p]) dc
      else feature_run true name value fs st changed (S dc).
Proof.
  intros Hv. simpl. rewrite Hv. simpl.
  destruct (st !! p) as [f|]; simpl; [|reflexivity].
  rewrite ?andb_false_r, ?orb_false_r.
  destruct (feature_enabled f); reflexivity.
Qed.

(** What one run of enable-all establishes: the store is the initial one
    with the changed features enabled; when nothing was skipped every
    feature of the array is enabled; when nothing was enabled the store is
    untouched and a skipped feature is disabled with a false
    precondition. *)
Lemma feature_run_enable_all st0 name value :
  (value =? 0) = false ->
  forall fs st changed dc r,
  enabled_from st0 changed st ->
  feature_run true name value fs st changed dc = Some r ->
  exists st' added dc',
    r = RunDone st' (changed ++ added) dc' /\
    enabled_from st0 (changed ++ added) st' /\
    (dc <= dc')%nat /\
    (dc' = dc ->
       Forall (fun p => exists f, st' !! p = Some f /\ feature_enabled f = true) fs) /\
    (added = [] ->
       st' = st /\
       Forall (fun p => exists f, st !! p = Some f /\
          (feature_enabled f = true \/
           iffeatures_enabled st (f_iffeatures f) = Some false)) fs /\
       ((dc < dc')%nat ->
        Exists (fun p => exists f, st !! p = Some f /\ feature_enabled f = false /\
          iffeatures_enabled st (f_iffeatures f) = Some false) fs)).
Proof.
  intros Hv. induction fs as [|p fs IH]; intros st changed dc r Hinv Hrun.
  - simpl in Hrun. injection Hrun as <-.
    exists st, [], dc. rewrite app_nil_r.
    split; [reflexivity|]. split; [assumption|]. split; [lia|].
    split; [intros _; constructor|]. intros _.
    split; [reflexivity|]. split; [constructor|]. intros; lia.
  - rewrite feature_run_enable_all_cons in Hrun by assumption.
    destruct (st !! p) as [f|] eqn:Hp; simpl in Hrun; [|discriminate].
    destruct (feature_enabled f) eqn:Hf.
    + destruct (IH _ _ _ _ Hinv Hrun) as (st' & added & dc' & -> & Hinv' & Hle & Hall & Hnone).
      exists st', added, dc'. split_and!; auto.
      * intros Hdc. constructor; [|auto].
        destruct Hinv as (Hst & _), Hinv' as (Hst' & _).
        rewrite Hst in Hp. rewrite Hst'.
        destruct (decide (p ∈ changed)) as [Hin|Hin].
        -- rewrite decide_True by set_solver.
           destruct (st0 !! p) as [f0|]; simpl in *; [|discriminate].
           eexists; split; [reflexivity|apply feature_enabled_set].
        -- rewrite Hp. case_decide; simpl; eexists; split; try reflexivity;
             auto using feature_enabled_set.
      * intros Hadd. destruct (Hnone Hadd) as (-> & Hfs & Hex).
        split_and!; [reflexivity | constructor; [exists f; auto | exact Hfs]
                    | intros Hlt; apply Exists_cons_tl; auto].
    + destruct (iffeatures_enabled st (f_iffeatures f)) as [[]|] eqn:Hiff;
        simpl in Hrun; [| |discriminate].
      * pose proof (enabled_from_step _ _ _ _ _ Hinv Hp Hf) as Hinv1.
        destruct (IH _ _ _ _ Hinv1 Hrun) as (st' & added & dc' & -> & Hinv' & Hle & Hall & Hnone).
        rewrite <- app_assoc in Hinv'. rewrite <- app_assoc.
        exists st', ([p] ++ added), dc'. split_and!; auto; try discriminate.
        intros Hdc. constructor; [|auto].
        destruct Hinv' as (Hst' & Hoff' & _). rewrite Hst'.
        rewrite decide_True by set_solver.
        destruct (Hoff' p) as (f0 & -> & _); [set_solver|].
        eexists; split; [reflexivity|apply feature_enabled_set].
      * destruct (IH _ _ _ _ Hinv Hrun) as (st' & added & dc' & -> & Hinv' & Hle & Hall & Hnone).
        exists st', added, dc'. split_and!; auto; try lia.
        intros Hadd. destruct (Hnone Hadd) as (-> & Hfs & Hex).
        split_and!; [reflexivity | constructor; [exists f; auto | exact Hfs]
                    | intros _; apply Exists_cons_hd; exists f; auto].
Qed.

(** The runs of enable-all end in one of two ways: a run that enables
    nothing although it skipped a feature is followed by the restoration
    of the initial store and [LY_EDENIED]; a run that skips nothing leaves
    every feature of the array enabled and goes on to reflect the
    changes. *)
Lemma feature_change_runs_enable_all st0 name value fs :
  (value =? 0) = false ->
  forall fuel st changed e st' changed',
  enabled_from st0 changed st ->
  feature_change_runs fuel true name value fs st changed (length changed)
    = Some (e, st', changed') ->
  exists st1 changed1,
    enabled_from st0 changed1 st1 /\
    ((e = LY_EDENIED /\ st' = st0 /\ changed' = changed1 /\
      Forall (fun p => exists f, st1 !! p = Some f /\
        (feature_enabled f = true \/
         iffeatures_enabled st1 (f_iffeatures f) = Some false)) fs /\
      Exists (fun p => exists f, st1 !! p = Some f /\ feature_enabled f = false /\
        iffeatures_enabled st1 (f_iffeatures f) = Some false) fs)
     \/
     (e = LY_SUCCESS /\
      Forall (fun p => exists f, st1 !! p = Some f /\ feature_enabled f = true) fs /\
      reflect_changes (S (length changed1 + length st1)) st1 changed1 0
        = Some (st', changed'))).
Proof.
  intros Hv. induction fuel as [|fuel IH]; intros st changed e st' changed' Hinv Hruns;
    [discriminate|].
  cbn [feature_change_runs] in Hruns.
  destruct (feature_run true name value fs st changed 0) as [r|] eqn:Hrun;
    [|discriminate].
  destruct (feature_run_enable_all _ _ _ Hv _ _ _ _ _ Hinv Hrun)
    as (st1 & added & dc' & -> & Hinv1 & _ & Hall & Hnone).
  cbn -[reflect_changes] in Hruns. rewrite Hv in Hruns. cbn -[reflect_changes] in Hruns.
  destruct dc' as [|dc']; cbn -[reflect_changes] in Hruns.
  - exists st1, (changed ++ added). split; [assumption|]. right.
    destruct (reflect_changes _ st1 (changed ++ added) 0) as [[st2 changed2]|] eqn:Hrefl;
      [|discriminate].
    injection Hruns as <- <- <-. split_and!; auto.
  - destruct (length changed =? length (changed ++ added))%nat eqn:Hlen.
    + apply Nat.eqb_eq in Hlen. rewrite length_app in Hlen.
      assert (added = []) as -> by (destruct added; [reflexivity | simpl in Hlen; lia]).
      destruct (Hnone eq_refl) as (-> & Hfs & Hex).
      rewrite app_nil_r in *. injection Hruns as <- <- <-.
      exists st, changed. split; [assumption|]. left.
      split_and!; auto using enabled_from_restore. apply Hex. lia.
    + eapply IH; eassumption.
Qed.

(** ** Well-formed stores: every call returns *)

Lemma static_eq_refl f : static_eq f f.
Proof. repeat split. Qed.

Lemma static_eq_trans f g h : static_eq f g -> static_eq g h -> static_eq f h.
Proof. intros (? & ? & ?) (? & ? & ?). repeat split; congruence. Qed.

Lemma same_shape_refl st : same_shape st st.
Proof. apply Forall2_same_length_lookup. split; [reflexivity|].
  intros i f g Hf Hg. rewrite Hf in Hg. injection Hg as <-. apply static_eq_refl. Qed.

Lemma same_shape_trans st1 st2 st3 :
  same_shape st1 st2 -> same_shape st2 st3 -> same_shape st1 st3.
Proof. apply Forall2_trans. intros f g h. apply static_eq_trans. Qed.

Lemma same_shape_length st st' : same_shape st st' -> length st = length st'.
Proof. apply Forall2_length. Qed.

Lemma same_shape_lookup st st' p f :
  same_shape st st' -> st !! p = Some f ->
  exists f', st' !! p = Some f' /\ static_eq f f'.
Proof. intros H Hp. eapply Forall2_lookup_l; eassumption. Qed.

Lemma same_shape_alter st p g :
  (forall f, static_eq f (g f)) -> same_shape st (alter g p st).
Proof.
  intros Hg. apply Forall2_same_length_lookup. split; [symmetry; apply length_alter|].
  intros i f f' Hf Hf'. destruct (decide (p = i)) as [->|Hne].
  - rewrite list_lookup_alter_eq, Hf in Hf'. injection Hf' as <-. apply Hg.
  - rewrite list_lookup_alter_ne, Hf in Hf' by assumption. injection Hf' as <-.
    apply static_eq_refl.
Qed.

Lemma same_shape_set st p : same_shape st (alter set_enabled p st).
Proof. apply same_shape_alter. intros f. repeat split. Qed.

Lemma same_shape_clear st p : same_shape st (alter clear_enabled p st).
Proof. apply same_shape_alter. intros f. repeat split. Qed.

Lemma valid_ptrs_shape st st' ps :
  same_shape st st' -> valid_ptrs st ps -> valid_ptrs st' ps.
Proof. intros H. unfold valid_ptrs. rewrite (same_shape_length _ _ H). auto. Qed.

(** Whether an expression can be evaluated, and which slots it consumes,
    does not depend on the flags. *)
Lemma lysc_iffeature_value__shape st st' iff :
  same_shape st st' ->
  forall fuel ie jf v ie' jf',
  lysc_iffeature_value_ fuel st iff ie jf = Some (v, ie', jf') ->
  exists v', lysc_iffeature_value_ fuel st' iff ie jf = Some (v', ie', jf').
Proof.
  intros Hsh. induction fuel as [|fuel IH]; intros ie jf v ie' jf' H; [discriminate|].
  cbn [lysc_iffeature_value_] in *.
  destruct (iff_getop (iff_expr iff) ie) as [op|]; simpl in *; [|discriminate].
  destruct (op =? LYS_IFF_F).
  { destruct (iff_features iff !! jf) as [p|]; simpl in *; [|discriminate].
    destruct (st !! p) as [f|] eqn:Hp; simpl in *; [|discriminate].
    destruct (same_shape_lookup _ _ _ _ Hsh Hp) as (f' & -> & _). simpl.
    injection H as <- <- <-. eauto. }
  destruct (op =? LYS_IFF_NOT).
  { destruct (lysc_iffeature_value_ fuel st iff (S ie) jf) as [[[a e1] f1]|] eqn:Ha;
      simpl in *; [|discriminate].
    destruct (IH _ _ _ _ _ Ha) as (a' & ->). simpl.
    injection H as <- <- <-. eauto. }
  destruct ((op =? LYS_IFF_AND) || (op =? LYS_IFF_OR)).
  { destruct (lysc_iffeature_value_ fuel st iff (S ie) jf) as [[[a e1] f1]|] eqn:Ha;
      simpl in *; [|discriminate].
    destruct (IH _ _ _ _ _ Ha) as (a' & ->). simpl.
    destruct (lysc_iffeature_value_ fuel st iff e1 f1) as [[[b e2] f2]|] eqn:Hb;
      simpl in *; [|discriminate].
    destruct (IH _ _ _ _ _ Hb) as (b' & ->). simpl.
    destruct (op =? LYS_IFF_AND); injection H as <- <- <-; eauto. }
  injection H as <- <- <-. eauto.
Qed.

Lemma lysc_iffeature_value_shape st st' iff :
  same_shape st st' ->
  is_Some (lysc_iffeature_value st iff) -> is_Some (lysc_iffeature_value st' iff).
Proof.
  intros Hsh [v Hv]. unfold lysc_iffeature_value in *.
  destruct (iff_expr iff) as [|b bs]; [eauto|].
  remember (S (4 * length (b :: bs))) as fuel eqn:Hfuel. clear Hfuel.
  destruct (lysc_iffeature_value_ fuel st iff 0 0) as [[[a e1] f1]|] eqn:Ha;
    [|discriminate].
  destruct (lysc_iffeature_value__shape _ _ _ Hsh _ _ _ _ _ _ Ha) as (a' & ->).
  simpl. eauto.
Qed.

Lemma wf_store_shape st st' : same_shape st st' -> wf_store st -> wf_store st'.
Proof.
  intros Hsh Hwf. apply Forall_lookup. intros p f' Hp'.
  assert (Hsh' : same_shape st' st).
  { apply Forall2_flip. eapply Forall2_impl; [exact Hsh|].
    intros f g (? & ? & ?). unfold flip. repeat split; congruence. }
  destruct (same_shape_lookup _ _ _ _ Hsh' Hp') as (f & Hp & _ & Hiffs & Hdeps).
  destruct (Forall_lookup_1 _ _ _ _ Hwf Hp) as [Hi Hd].
  rewrite Hiffs, Hdeps. split.
  - eapply Forall_impl; [exact Hi|]. intros iff. apply lysc_iffeature_value_shape, Hsh.
  - eapply valid_ptrs_shape; eassumption.
Qed.

Lemma iffeatures_enabled_total st iffs :
  Forall (fun iff => is_Some (lysc_iffeature_value st iff)) iffs ->
  is_Some (iffeatures_enabled st iffs).
Proof.
  induction 1 as [|iff iffs [v Hv] _ IH]; simpl; [eauto|].
  rewrite Hv; simpl. destruct (v =? 0); eauto.
Qed.

Lemma wf_store_iffeatures st p f :
  wf_store st -> st !! p = Some f -> is_Some (iffeatures_enabled st (f_iffeatures f)).
Proof.
  intros Hwf Hp. apply iffeatures_enabled_total.
  exact (proj1 (Forall_lookup_1 _ _ _ _ Hwf Hp)).
Qed.

Lemma valid_ptrs_lookup st ps p :
  valid_ptrs st ps -> p ∈ ps -> is_Some (st !! p).
Proof.
  intros H Hp. apply lookup_lt_is_Some.
  unfold valid_ptrs in H. rewrite Forall_forall in H. auto.
Qed.

Lemma count_enabled_le st : (count_enabled st <= length st)%nat.
Proof. induction st as [|f st IH]; simpl; [lia|]. destruct (feature_enabled f); lia. Qed.

Lemma count_enabled_clear st : forall p d,
  st !! p = Some d -> feature_enabled d = true ->
  S (count_enabled (alter clear_enabled p st)) = count_enabled st.
Proof.
  induction st as [|f st IH]; intros [|p] d Hp Hd; try discriminate; simpl in *.
  - injection Hp as ->. rewrite Hd, feature_enabled_clear. reflexivity.
  - pose proof (IH _ _ Hp Hd) as H.
    change (alter clear_enabled p st) with (list_alter clear_enabled p st) in H.
    destruct (feature_enabled f); lia.
Qed.

Lemma reflect_deps_total : forall dfs st changed,
  wf_store st -> valid_ptrs st dfs ->
  exists st' added,
    reflect_deps st changed dfs = Some (st', changed ++ added) /\
    same_shape st st' /\
    (count_enabled st' + length added = count_enabled st)%nat /\
    valid_ptrs st added.
Proof.
  induction dfs as [|df dfs IH]; intros st changed Hwf Hval.
  - exists st, []. rewrite app_nil_r.
    split_and!; [reflexivity | apply same_shape_refl | simpl; lia | constructor].
  - apply Forall_cons in Hval as [Hdf Hdfs].
    apply lookup_lt_is_Some in Hdf as [d Hd].
    cbn [reflect_deps]. rewrite Hd. cbn [mbind option_bind].
    destruct (feature_enabled d) eqn:Hon; cbn [negb].
    + destruct (wf_store_iffeatures _ _ _ Hwf Hd) as [[] ->]; cbn [mbind option_bind].
      * apply IH; assumption.
      * pose proof (same_shape_clear st df) as Hsh.
        destruct (IH (alter clear_enabled df st) (changed ++ [df])
                    (wf_store_shape _ _ Hsh Hwf) (valid_ptrs_shape _ _ _ Hsh Hdfs))
          as (st' & added & -> & Hsh' & Hcount & Hadd).
        exists st', (df :: added). rewrite <- app_assoc. split_and!.
        -- reflexivity.
        -- eapply same_shape_trans; eassumption.
        -- rewrite <- (count_enabled_clear _ _ _ Hd Hon). simpl. lia.
        -- constructor; [apply lookup_lt_is_Some; eauto|].
           unfold valid_ptrs in *. rewrite length_alter in Hadd. exact Hadd.
    + apply IH; assumption.
Qed.

Lemma reflect_changes_total : forall fuel st changed u,
  wf_store st -> valid_ptrs st changed ->
  (length changed - u + count_enabled st < fuel)%nat ->
  exists st' changed',
    reflect_changes fuel st changed u = Some (st', changed') /\ same_shape st st'.
Proof.
  induction fuel as [|fuel IH]; intros st changed u Hwf Hval Hfuel; [lia|].
  cbn [reflect_changes].
  destruct (changed !! u) as [p|] eqn:Hu; [|eauto using same_shape_refl].
  pose proof (lookup_lt_Some _ _ _ Hu) as Hlt.
  destruct (valid_ptrs_lookup _ _ _ Hval (list_elem_of_lookup_2 _ _ _ Hu)) as [f Hp].
  rewrite Hp. cbn [mbind option_bind].
  destruct (reflect_deps_total (f_depfeatures f) st changed Hwf
              (proj2 (Forall_lookup_1 _ _ _ _ Hwf Hp)))
    as (st1 & added & -> & Hsh & Hcount & Hadd).
  cbn [mbind option_bind].
  destruct (IH st1 (changed ++ added) (S u)) as (st' & changed' & -> & Hsh').
  - eapply wf_store_shape; eassumption.
  - eapply valid_ptrs_shape; [eassumption|]. apply Forall_app. split; assumption.
  - rewrite length_app. lia.
  - eauto using same_shape_trans.
Qed.

Lemma feature_run_total all name value : forall fs st changed dc,
  wf_store st -> valid_ptrs st fs -> valid_ptrs st changed ->
  exists r, feature_run all name value fs st changed dc = Some r /\
    match r with
    | RunReturn _ st' => same_shape st st'
    | RunDone st' changed' _ => same_shape st st' /\ valid_ptrs st changed'
    end.
Proof.
  induction fs as [|p fs IH]; intros st changed dc Hwf Hfs Hch.
  - eexists. split; [reflexivity|]. split; auto using same_shape_refl.
  - apply Forall_cons in Hfs as [Hp Hfs].
    pose proof Hp as Hp'. apply lookup_lt_is_Some in Hp as [f Hf].
    assert (Hstep : forall g, (forall x, static_eq x (g x)) -> forall dc',
      exists r, feature_run all name value fs (alter g p st) (changed ++ [p]) dc' = Some r /\
        match r with
        | RunReturn _ st' => same_shape st st'
        | RunDone st' changed' _ => same_shape st st' /\ valid_ptrs st changed'
        end).
    { intros g Hg dc'. pose proof (same_shape_alter st p g Hg) as Hsh.
      destruct (IH (alter g p st) (changed ++ [p]) dc') as (r & Hr & Hres).
      - eapply wf_store_shape; eassumption.
      - eapply valid_ptrs_shape; eassumption.
      - eapply valid_ptrs_shape; [eassumption|]. apply Forall_app. split; [assumption|].
        constructor; [assumption|constructor].
      - exists r. split; [assumption|]. destruct r as [e st'|st' changed' dc''].
        + eauto using same_shape_trans.
        + destruct Hres as [Hs Hv]. split; [eauto using same_shape_trans|].
          unfold valid_ptrs in *. rewrite length_alter in Hv. exact Hv. }
    assert (Hone : forall g, (forall x, static_eq x (g x)) ->
      same_shape st (alter g p st) /\ valid_ptrs st (changed ++ [p])).
    { intros g Hg. split; [apply same_shape_alter, Hg|].
      apply Forall_app. split; [assumption|]. constructor; [assumption|constructor]. }
    cbn [feature_run]. rewrite Hf. cbn [mbind option_bind].
    destruct (all || String.eqb (f_name f) name); [|apply IH; assumption].
    destruct ((negb (value =? 0) && feature_enabled f)
              || ((value =? 0) && negb (feature_enabled f))).
    { destruct all; [apply IH; assumption|].
      eexists; split; [reflexivity|apply same_shape_refl]. }
    destruct (negb (value =? 0)).
    + destruct (wf_store_iffeatures _ _ _ Hwf Hf) as [[] ->]; cbn [mbind option_bind].
      * destruct all; [apply Hstep; intros x; repeat split|].
        eexists; split; [reflexivity|]. apply Hone. intros x; repeat split.
      * destruct all; [apply IH; assumption|].
        eexists; split; [reflexivity|apply same_shape_refl].
    + destruct all; [apply Hstep; intros x; repeat split|].
      eexists; split; [reflexivity|]. apply Hone. intros x; repeat split.
Qed.

Lemma enabled_from_length st0 changed st :
  enabled_from st0 changed st -> (length changed <= length st0)%nat.
Proof.
  intros (_ & Hoff & Hnd).
  assert (H : (length changed <= length (seq 0 (length st0)))%nat).
  { apply submseteq_length, NoDup_submseteq; [assumption|].
    intros q Hq. destruct (Hoff q Hq) as (f0 & Hf0 & _).
    apply elem_of_seq. apply lookup_lt_Some in Hf0. lia. }
  rewrite length_seq in H. exact H.
Qed.

Lemma feature_change_runs_total st0 all name value fs :
  valid_ptrs st0 fs ->
  forall fuel st changed,
  wf_store st -> same_shape st0 st -> valid_ptrs st0 changed ->
  (negb (value =? 0) && all = true -> enabled_from st0 changed st) ->
  (length st0 - length changed < fuel)%nat ->
  is_Some (feature_change_runs fuel all name value fs st changed (length changed)).
Proof.
  intros Hfs. induction fuel as [|fuel IH]; intros st changed Hwf Hsh Hch Hinv Hfuel; [lia|].
  cbn [feature_change_runs].
  destruct (feature_run_total all name value fs st changed 0 Hwf
              (valid_ptrs_shape _ _ _ Hsh Hfs) (valid_ptrs_shape _ _ _ Hsh Hch))
    as (r & Hrun & Hres).
  rewrite Hrun. cbn [mbind option_bind].
  destruct r as [e st'|st' changed' dc']; [eauto|].
  destruct Hres as [Hsh' Hch'].
  destruct (negb all && (length changed' =? 0)%nat); [eauto|].
  assert (Hrefl : is_Some ('(st, changed) ← reflect_changes (S (length changed' + length st'))
                              st' changed' 0; Some (LY_SUCCESS, st, changed))).
  { destruct (reflect_changes_total (S (length changed' + length st')) st' changed' 0)
      as (st2 & changed2 & -> & _).
    - eapply wf_store_shape; eassumption.
    - eapply valid_ptrs_shape; eassumption.
    - pose proof (count_enabled_le st'). lia.
    - simpl. eauto. }
  destruct (negb (value =? 0) && all) eqn:Hmode; [|exact Hrefl].
  specialize (Hinv eq_refl).
  apply andb_true_iff in Hmode as [Hv ->]. apply negb_true_iff in Hv.
  destruct (feature_run_enable_all _ _ _ Hv _ _ _ _ _ Hinv Hrun)
    as (st1 & added & dc1 & [= <- -> <-] & Hinv1 & _).
  cbn [andb]. destruct (negb (dc' =? 0)%nat); [|exact Hrefl].
  destruct (length changed =? length (changed ++ added))%nat eqn:Hlen; [eauto|].
  apply Nat.eqb_neq in Hlen. rewrite length_app in Hlen.
  apply IH.
  - eapply wf_store_shape; eassumption.
  - eapply same_shape_trans; eassumption.
  - apply (valid_ptrs_shape st st0); [|assumption].
    apply Forall2_flip. eapply Forall2_impl; [exact Hsh|].
    intros f g (? & ? & ?). unfold flip. repeat split; congruence.
  - intros _. assumption.
  - pose proof (enabled_from_length _ _ _ Hinv1) as Hle.
    rewrite length_app in *. lia.
Qed.

(** On a well-formed store whose module features exist, the call
    returns. *)
Lemma lys_feature_change_set_total st c name value :
  wf_store st -> valid_ptrs st (mod_features c) ->
  is_Some (lys_feature_change_set st c name value).
Proof.
  intros Hwf Hfs. unfold lys_feature_change_set.
  destruct (mod_features c) as [|p fs] eqn:Hc; [eauto|].
  apply (feature_change_runs_total st _ _ _ _ Hfs (S (length st)) st []);
    auto using same_shape_refl, enabled_from_refl.
  - constructor.
  - simpl. lia.
Qed.

(** ** Dependencies of an if-feature expression *)

(** The value of an expression depends only on the features it lists. *)
Lemma lysc_iffeature_value__agree st st' iff :
  (forall r, r ∈ iff_features iff -> st !! r = st' !! r) ->
  forall fuel ie jf,
  lysc_iffeature_value_ fuel st iff ie jf = lysc_iffeature_value_ fuel st' iff ie jf.
Proof.
  intros Hagree. induction fuel as [|fuel IH]; intros ie jf; [reflexivity|].
  cbn [lysc_iffeature_value_].
  destruct (iff_getop (iff_expr iff) ie) as [op|]; [|reflexivity].
  cbn [mbind option_bind].
  destruct (op =? LYS_IFF_F).
  { destruct (iff_features iff !! jf) as [p|] eqn:Hp; [|reflexivity].
    cbn [mbind option_bind].
    rewrite (Hagree p (list_elem_of_lookup_2 _ _ _ Hp)). reflexivity. }
  destruct (op =? LYS_IFF_NOT); [rewrite IH; reflexivity|].
  destruct ((op =? LYS_IFF_AND) || (op =? LYS_IFF_OR)); [|reflexivity].
  rewrite IH.
  destruct (lysc_iffeature_value_ fuel st' iff (S ie) jf) as [[[a e1] f1]|];
    [|reflexivity].
  cbn [mbind option_bind]. rewrite IH. reflexivity.
Qed.

Lemma lysc_iffeature_value_agree st st' iff :
  (forall r, r ∈ iff_features iff -> st !! r = st' !! r) ->
  lysc_iffeature_value st iff = lysc_iffeature_value st' iff.
Proof.
  intros H. unfold lysc_iffeature_value.
  destruct (iff_expr iff); [reflexivity|].
  rewrite (lysc_iffeature_value__agree _ _ _ H). reflexivity.
Qed.

Lemma iffeatures_enabled_agree st st' iffs :
  (forall iff r, iff ∈ iffs -> r ∈ iff_features iff -> st !! r = st' !! r) ->
  iffeatures_enabled st iffs = iffeatures_enabled st' iffs.
Proof.
  induction iffs as [|iff iffs IH]; intros H; [reflexivity|].
  cbn [iffeatures_enabled].
  rewrite (lysc_iffeature_value_agree st st' iff) by (intros r; apply H; set_solver).
  destruct (lysc_iffeature_value st' iff) as [v|]; [|reflexivity].
  cbn [mbind option_bind]. rewrite IH; [reflexivity|].
  intros iff' r Hiff. apply H. set_solver.
Qed.

Lemma deps_at_alter st p g x :
  (forall f, static_eq f (g f)) -> deps_at (alter g p st) x = deps_at st x.
Proof.
  intros Hg. unfold deps_at. destruct (decide (p = x)) as [->|Hne].
  - rewrite list_lookup_alter_eq. destruct (st !! x) as [f|]; [|reflexivity].
    simpl. symmetry. apply Hg.
  - rewrite list_lookup_alter_ne by assumption. reflexivity.
Qed.

Lemma deps_at_shape st st' x : same_shape st st' -> deps_at st x = deps_at st' x.
Proof.
  intros Hsh. unfold deps_at. destruct (st !! x) as [f|] eqn:Hx.
  - destruct (same_shape_lookup _ _ _ _ Hsh Hx) as (f' & -> & _ & _ & Hd). exact Hd.
  - apply lookup_ge_None in Hx. rewrite (same_shape_length _ _ Hsh) in Hx.
    apply lookup_ge_None in Hx. rewrite Hx. reflexivity.
Qed.

Lemma same_shape_sym st st' : same_shape st st' -> same_shape st' st.
Proof.
  intros Hsh. apply Forall2_flip. eapply Forall2_impl; [exact Hsh|].
  intros f g (? & ? & ?). unfold flip. repeat split; congruence.
Qed.

Lemma deps_complete_shape st st' :
  same_shape st st' -> deps_complete st -> deps_complete st'.
Proof.
  intros Hsh Hdc q g' iff r Hq Hiff Hr.
  destruct (same_shape_lookup _ _ _ _ (same_shape_sym _ _ Hsh) Hq)
    as (g & Hg & _ & Hiffs & _).
  rewrite Hiffs in Hiff.
  destruct (Hdc q g iff r Hg Hiff Hr) as (fr & Hfr & Hin).
  destruct (same_shape_lookup _ _ _ _ Hsh Hfr) as (fr' & Hfr' & _ & _ & Hd).
  exists fr'. split; [assumption|]. rewrite <- Hd. exact Hin.
Qed.

Lemma deps_complete_deps_at st q g iff r :
  deps_complete st -> st !! q = Some g -> iff ∈ f_iffeatures g ->
  r ∈ iff_features iff -> q ∈ deps_at st r.
Proof.
  intros Hdc Hq Hiff Hr. destruct (Hdc q g iff r Hq Hiff Hr) as (fr & Hfr & Hin).
  unfold deps_at. rewrite Hfr. exact Hin.
Qed.

(** Flipping the bit of [p] can only make a dependent of [p]
    inconsistent, or [p] itself if it is enabled against its
    precondition. *)
Lemma inconsistent_after_alter st p f g q :
  (forall x, static_eq x (g x)) -> st !! p = Some f -> deps_complete st ->
  inconsistent_at (alter g p st) q ->
  q ∈ deps_at st p \/ (q <> p /\ inconsistent_at st q) \/
  (q = p /\ feature_enabled (g f) = true /\
   iffeatures_enabled st (f_iffeatures f) <> Some true).
Proof.
  intros Hg Hp Hdc (g' & Hq & Hon & Hiff).
  assert (Hq0 : exists g0, st !! q = Some g0 /\ f_iffeatures g0 = f_iffeatures g' /\
                  (q <> p -> g0 = g') /\ (q = p -> g0 = f /\ g' = g f)).
  { destruct (decide (p = q)) as [->|Hne].
    - rewrite list_lookup_alter_eq, Hp in Hq. injection Hq as <-.
      exists f. split_and!; auto; [apply Hg|congruence].
    - rewrite list_lookup_alter_ne in Hq by assumption.
      exists g'. split_and!; auto; congruence. }
  destruct Hq0 as (g0 & Hg0 & Hiffs & Hne & Heq).
  destruct (decide (Exists (fun iff => p ∈ iff_features iff) (f_iffeatures g')))
    as [Hex|Hnex].
  - left. apply Exists_exists in Hex as (iff & Hin & Hpin).
    rewrite <- Hiffs in Hin. eapply deps_complete_deps_at; eassumption.
  - right.
    assert (Hsame : iffeatures_enabled (alter g p st) (f_iffeatures g')
                    = iffeatures_enabled st (f_iffeatures g')).
    { apply iffeatures_enabled_agree. intros iff r Hin Hr.
      apply list_lookup_alter_ne. intros ->. apply Hnex.
      apply Exists_exists. eauto. }
    rewrite Hsame in Hiff.
    destruct (decide (q = p)) as [->|Hqp].
    + right. destruct (Heq eq_refl) as [-> ->].
      split_and!; auto. rewrite Hiffs. exact Hiff.
    + left. split; [assumption|]. rewrite (Hne Hqp) in Hg0.
      exists g'. split_and!; assumption.
Qed.

(** ** What a run changes *)

Lemma enabled_kept_refl T st : enabled_kept T st st.
Proof. intros q f' Hq Hon. left. eauto. Qed.

Lemma enabled_kept_trans T st1 st2 st3 :
  (forall q f f', static_eq f f' -> T q f -> T q f') ->
  same_shape st2 st3 ->
  enabled_kept T st1 st2 -> enabled_kept T st2 st3 -> enabled_kept T st1 st3.
Proof.
  intros HT Hsh H12 H23 q f3 Hq Hon.
  destruct (H23 q f3 Hq Hon) as [(f2 & Hf2 & Hon2)|Ht]; [|right; assumption].
  destruct (H12 q f2 Hf2 Hon2) as [?|Ht]; [left; assumption|right].
  destruct (same_shape_lookup _ _ _ _ Hsh Hf2) as (f3' & Hf3 & Hst).
  rewrite Hq in Hf3. injection Hf3 as <-. eapply HT; eassumption.
Qed.

Lemma enabled_kept_weaken (T T' : feature_ptr -> lysc_feature -> Prop) st st' :
  (forall q f, T q f -> T' q f) -> enabled_kept T st st' -> enabled_kept T' st st'.
Proof. intros HT H q f' Hq Hon. destruct (H q f' Hq Hon); auto. Qed.

Lemma change_target_static all name value fs q f f' :
  static_eq f f' -> change_target all name value fs q f ->
  change_target all name value fs q f'.
Proof. intros (Hn & _) (? & ? & Hor). split_and!; auto. rewrite <- Hn. exact Hor. Qed.

Lemma enabled_kept_clear T st p : enabled_kept T st (alter clear_enabled p st).
Proof.
  intros q f' Hq Hon. left. destruct (decide (p = q)) as [->|Hne].
  - rewrite list_lookup_alter_eq in Hq. destruct (st !! q) as [f|]; [|discriminate].
    injection Hq as <-. rewrite feature_enabled_clear in Hon. discriminate.
  - rewrite list_lookup_alter_ne in Hq by assumption. eauto.
Qed.

Lemma enabled_kept_set (T : feature_ptr -> lysc_feature -> Prop) st p f :
  st !! p = Some f -> T p (set_enabled f) ->
  enabled_kept T st (alter set_enabled p st).
Proof.
  intros Hp HT q f' Hq Hon. destruct (decide (p = q)) as [->|Hne].
  - rewrite list_lookup_alter_eq, Hp in Hq. injection Hq as <-. right. exact HT.
  - rewrite list_lookup_alter_ne in Hq by assumption. left. eauto.
Qed.

(** A run that returns from inside the loop changes one named feature and
    has changed nothing. *)
Lemma feature_run_return all name value : forall fs st changed dc e st',
  feature_run all name value fs st changed dc = Some (RunReturn e st') ->
  all = false /\ st' = st /\ (e = LY_SUCCESS \/ e = LY_EDENIED).
Proof.
  induction fs as [|p fs IH]; intros st changed dc e st' H; [discriminate|].
  cbn [feature_run] in H.
  destruct (st !! p) as [f|]; [|discriminate]. cbn [mbind option_bind] in H.
  destruct (all || String.eqb (f_name f) name); [|eauto].
  destruct ((negb (value =? 0) && feature_enabled f)
            || ((value =? 0) && negb (feature_enabled f))).
  { destruct all; [destruct (IH _ _ _ _ _ H); discriminate|].
    injection H as <- <-. auto. }
  destruct (negb (value =? 0)).
  - destruct (iffeatures_enabled st (f_iffeatures f)) as [[]|];
      cbn [mbind option_bind] in H; [| |discriminate].
    + destruct all; [destruct (IH _ _ _ _ _ H); discriminate|discriminate].
    + destruct all; [destruct (IH _ _ _ _ _ H); discriminate|].
      injection H as <- <-. auto.
  - destruct all; [destruct (IH _ _ _ _ _ H); discriminate|discriminate].
Qed.

(** A run that reaches the end of the loop has only touched flags, has
    appended to [changed], has changed nothing if it appended nothing, and
    has enabled only targets of the call. *)
Lemma feature_run_done all name value : forall fs st changed dc st' changed' dc',
  feature_run all name value fs st changed dc = Some (RunDone st' changed' dc') ->
  same_shape st st' /\
  (exists added, changed' = changed ++ added /\ (added = [] -> st' = st)) /\
  enabled_kept (change_target all name value fs) st st'.
Proof.
  induction fs as [|p fs IH]; intros st changed dc st' changed' dc' H.
  { injection H as <- <- <-. split_and!; auto using same_shape_refl, enabled_kept_refl.
    exists []. rewrite app_nil_r. auto. }
  assert (Hweak : forall s s', enabled_kept (change_target all name value fs) s s' ->
                    enabled_kept (change_target all name value (p :: fs)) s s').
  { intros s s'. apply enabled_kept_weaken. intros q f (? & ? & ?).
    split_and!; auto. set_solver. }
  assert (Hskip : forall dc0,
    feature_run all name value fs st changed dc0 = Some (RunDone st' changed' dc') ->
    same_shape st st' /\
    (exists added, changed' = changed ++ added /\ (added = [] -> st' = st)) /\
    enabled_kept (change_target all name value (p :: fs)) st st').
  { intros dc0 H0. destruct (IH _ _ _ _ _ _ H0) as (? & ? & ?). auto. }
  cbn [feature_run] in H.
  destruct (st !! p) as [f|] eqn:Hp; [|discriminate]. cbn [mbind option_bind] in H.
  destruct (all || String.eqb (f_name f) name) eqn:Hsel; [|eauto].
  assert (Htarget : forall g, static_eq f (g f) -> (value =? 0) = false ->
            change_target all name value (p :: fs) p (g f)).
  { intros g (Hn & _) Hv. split_and!; [intros ->; discriminate | set_solver |].
    rewrite <- Hn. destruct all; [auto|]. right. apply String.eqb_eq. exact Hsel. }
  assert (Hflip : forall g, (forall x, static_eq x (g x)) ->
    enabled_kept (change_target all name value (p :: fs)) st (alter g p st) ->
    (if all then feature_run all name value fs (alter g p st) (changed ++ [p]) dc
     else Some (RunDone (alter g p st) (changed ++ [p]) dc))
      = Some (RunDone st' changed' dc') ->
    same_shape st st' /\
    (exists added, changed' = changed ++ added /\ (added = [] -> st' = st)) /\
    enabled_kept (change_target all name value (p :: fs)) st st').
  { intros g Hg Hkept H0. pose proof (same_shape_alter st p g Hg) as Hsh.
    destruct all.
    - destruct (IH _ _ _ _ _ _ H0) as (Hsh' & (added & -> & _) & Hk).
      split_and!.
      + eapply same_shape_trans; eassumption.
      + exists (p :: added). rewrite <- app_assoc. split; [reflexivity|discriminate].
      + eapply enabled_kept_trans; eauto using change_target_static.
    - injection H0 as <- <- <-. split_and!; auto.
      exists [p]. split; [reflexivity|discriminate]. }
  destruct ((negb (value =? 0) && feature_enabled f)
            || ((value =? 0) && negb (feature_enabled f))).
  { destruct all; [eauto|discriminate]. }
  destruct (negb (value =? 0)) eqn:Hv.
  - apply negb_true_iff in Hv.
    destruct (iffeatures_enabled st (f_iffeatures f)) as [[]|];
      cbn [mbind option_bind] in H; [| |discriminate].
    + apply (Hflip set_enabled); [intros x; repeat split| |exact H].
      eapply enabled_kept_set; [eassumption|].
      apply (Htarget set_enabled); [repeat split|assumption].
    + destruct all; [eauto|discriminate].
  - apply (Hflip clear_enabled); [intros x; repeat split| |exact H].
    apply enabled_kept_clear.
Qed.

Lemma covered_app st changed more q :
  covered st changed q -> covered st (changed ++ more) q.
Proof. intros (p & Hp & Hq). exists p. split; [set_solver|assumption]. Qed.

Lemma all_covered_alter st changed p f g :
  (forall x, static_eq x (g x)) -> st !! p = Some f -> deps_complete st ->
  all_covered st changed ->
  (feature_enabled (g f) = true -> iffeatures_enabled st (f_iffeatures f) = Some true) ->
  all_covered (alter g p st) (changed ++ [p]).
Proof.
  intros Hg Hp Hdc Hcov Hok q Hq.
  destruct (inconsistent_after_alter _ _ _ _ _ Hg Hp Hdc Hq)
    as [Hin|[(Hne & Hin)|(-> & Hon & Hiff)]].
  - exists p. split; [set_solver|]. rewrite deps_at_alter by assumption. exact Hin.
  - destruct (Hcov q Hin) as (x & Hx & Hqx). exists x. split; [set_solver|].
    rewrite deps_at_alter by assumption. exact Hqx.
  - destruct (Hiff (Hok Hon)).
Qed.

(** A run keeps every inconsistent feature among the dependents of the
    changed features. *)
Lemma feature_run_covered all name value : forall fs st changed dc st' changed' dc',
  deps_complete st -> all_covered st changed ->
  feature_run all name value fs st changed dc = Some (RunDone st' changed' dc') ->
  all_covered st' changed'.
Proof.
  induction fs as [|p fs IH]; intros st changed dc st' changed' dc' Hdc Hcov H.
  { injection H as <- <- <-. assumption. }
  cbn [feature_run] in H.
  destruct (st !! p) as [f|] eqn:Hp; [|discriminate]. cbn [mbind option_bind] in H.
  destruct (all || String.eqb (f_name f) name); [|eauto].
  assert (Hflip : forall g, (forall x, static_eq x (g x)) ->
    (feature_enabled (g f) = true -> iffeatures_enabled st (f_iffeatures f) = Some true) ->
    (if all then feature_run all name value fs (alter g p st) (changed ++ [p]) dc
     else Some (RunDone (alter g p st) (changed ++ [p]) dc))
      = Some (RunDone st' changed' dc') ->
    all_covered st' changed').
  { intros g Hg Hok H0.
    pose proof (all_covered_alter _ _ _ _ _ Hg Hp Hdc Hcov Hok) as Hcov'.
    destruct all; [|injection H0 as <- <- <-; assumption].
    eapply IH; [|eassumption|eassumption].
    eapply deps_complete_shape; [apply same_shape_alter, Hg|assumption]. }
  destruct ((negb (value =? 0) && feature_enabled f)
            || ((value =? 0) && negb (feature_enabled f))).
  { destruct all; [eauto|discriminate]. }
  destruct (negb (value =? 0)).
  - destruct (iffeatures_enabled st (f_iffeatures f)) as [[]|] eqn:Hiff;
      cbn [mbind option_bind] in H; [| |discriminate].
    + apply (Hflip set_enabled); [intros x; repeat split|auto|exact H].
    + destruct all; [eauto|discriminate].
  - apply (Hflip clear_enabled); [intros x; repeat split| |exact H].
    rewrite feature_enabled_clear. discriminate.
Qed.

(** ** Reflecting the changes in the dependent features *)

Lemma covered_between_alter st changed lo hi q p g :
  (forall f, static_eq f (g f)) ->
  covered_between (alter g p st) changed lo hi q <-> covered_between st changed lo hi q.
Proof.
  intros Hg. unfold covered_between.
  split; intros (j & x & Hj & Hx & Hq); exists j, x;
    (split; [exact Hj|split; [exact Hx|]]).
  - rewrite deps_at_alter in Hq by assumption. exact Hq.
  - rewrite deps_at_alter by assumption. exact Hq.
Qed.

Lemma covered_between_app st changed more lo hi q :
  (hi <= length changed)%nat ->
  covered_between st (changed ++ more) lo hi q <-> covered_between st changed lo hi q.
Proof.
  intros Hhi. unfold covered_between.
  split; intros (j & x & Hj & Hx & Hq); exists j, x;
    (split; [exact Hj|split; [|exact Hq]]).
  - rewrite lookup_app_l in Hx by lia. exact Hx.
  - rewrite lookup_app_l by lia. exact Hx.
Qed.

Lemma covered_between_grow st changed more lo q :
  covered_between st changed lo (length changed) q ->
  covered_between st (changed ++ more) lo (length (changed ++ more)) q.
Proof.
  intros (j & x & Hj & Hx & Hq). exists j, x. rewrite length_app.
  split; [lia|split; [|assumption]]. rewrite lookup_app_l by lia. exact Hx.
Qed.

Lemma covered_covered_between st changed q :
  covered st changed q <-> covered_between st changed 0 (length changed) q.
Proof.
  split.
  - intros (p & Hp & Hq). apply list_elem_of_lookup_1 in Hp as [j Hj].
    exists j, p. split; [|split; assumption]. apply lookup_lt_Some in Hj. lia.
  - intros (j & p & _ & Hj & Hq). exists p. split; [|assumption].
    eapply list_elem_of_lookup_2; eassumption.
Qed.

(** The loop over the dependents only clears bits, and records every
    feature it disables. *)
Lemma reflect_deps_done : forall dfs st changed st' changed',
  reflect_deps st changed dfs = Some (st', changed') ->
  same_shape st st' /\
  enabled_kept (fun _ _ => False) st st' /\
  exists added, changed' = changed ++ added /\
    (forall q, q ∈ added -> q ∈ dfs) /\
    (forall q f f', st !! q = Some f -> st' !! q = Some f' ->
       feature_enabled f = true -> feature_enabled f' = false -> q ∈ added).
Proof.
  induction dfs as [|df dfs IH]; intros st changed st' changed' H.
  { injection H as <- <-. split_and!; auto using same_shape_refl, enabled_kept_refl.
    exists []. rewrite app_nil_r. split_and!; auto.
    intros q f f' Hf Hf' Hon Hoff. congruence. }
  assert (Hskip : reflect_deps st changed dfs = Some (st', changed') ->
    same_shape st st' /\ enabled_kept (fun _ _ => False) st st' /\
    exists added, changed' = changed ++ added /\
      (forall q, q ∈ added -> q ∈ df :: dfs) /\
      (forall q f f', st !! q = Some f -> st' !! q = Some f' ->
         feature_enabled f = true -> feature_enabled f' = false -> q ∈ added)).
  { intros H0. destruct (IH _ _ _ _ H0) as (? & ? & added & ? & Hsub & ?).
    split_and!; auto. exists added. split_and!; auto. intros q Hq. set_solver. }
  cbn [reflect_deps] in H.
  destruct (st !! df) as [d|] eqn:Hd; [|discriminate]. cbn [mbind option_bind] in H.
  destruct (feature_enabled d) eqn:Hon; cbn [negb] in H; [|auto].
  destruct (iffeatures_enabled st (f_iffeatures d)) as [[]|];
    cbn [mbind option_bind] in H; [auto| |discriminate].
  destruct (IH _ _ _ _ H) as (Hsh & Hk & added & -> & Hsub & Hrec).
  split_and!.
  - eapply same_shape_trans; [apply same_shape_clear|eassumption].
  - eapply enabled_kept_trans; [auto|eassumption|apply enabled_kept_clear|eassumption].
  - exists (df :: added). rewrite <- app_assoc. split_and!; [reflexivity| |].
    + intros q Hq. set_solver.
    + intros q f f' Hf Hf' Hfon Hfoff.
      destruct (decide (q = df)) as [->|Hne]; [set_solver|].
      apply list_elem_of_further. eapply Hrec; try eassumption.
      rewrite list_lookup_alter_ne by congruence. exact Hf.
Qed.

Lemma reflect_deps_covered : forall dfs st changed st' changed',
  deps_complete st -> all_covered st changed ->
  reflect_deps st changed dfs = Some (st', changed') ->
  all_covered st' changed'.
Proof.
  induction dfs as [|df dfs IH]; intros st changed st' changed' Hdc Hcov H.
  { injection H as <- <-. assumption. }
  cbn [reflect_deps] in H.
  destruct (st !! df) as [d|] eqn:Hd; [|discriminate]. cbn [mbind option_bind] in H.
  destruct (feature_enabled d) eqn:Hon; cbn [negb] in H; [|eauto].
  destruct (iffeatures_enabled st (f_iffeatures d)) as [[]|];
    cbn [mbind option_bind] in H; [eauto| |discriminate].
  eapply IH; [| |exact H].
  - eapply deps_complete_shape; [apply same_shape_clear|assumption].
  - eapply all_covered_alter; try eassumption; [intros x; repeat split|].
    rewrite feature_enabled_clear. discriminate.
Qed.

Lemma reflect_deps_reflecting u : forall dfs st changed st' changed',
  deps_complete st -> (u < length changed)%nat ->
  reflecting st changed u dfs ->
  reflect_deps st changed dfs = Some (st', changed') ->
  reflecting st' changed' u [].
Proof.
  induction dfs as [|df dfs IH]; intros st changed st' changed' Hdc Hu Hrefl H.
  { injection H as <- <-. assumption. }
  cbn [reflect_deps] in H.
  destruct (st !! df) as [d|] eqn:Hd; [|discriminate]. cbn [mbind option_bind] in H.
  assert (Hskip : (feature_enabled d = false \/
                   iffeatures_enabled st (f_iffeatures d) = Some true) ->
                  reflecting st changed u dfs).
  { intros Hok q Hq Hcov. destruct (Hrefl q Hq Hcov) as [Hin|?]; [|auto].
    apply elem_of_cons in Hin as [->|?]; [|auto].
    destruct Hq as (d' & Hd' & Hon' & Hiff'). rewrite Hd in Hd'. injection Hd' as <-.
    destruct Hok; congruence. }
  destruct (feature_enabled d) eqn:Hon; cbn [negb] in H; [|eauto].
  destruct (iffeatures_enabled st (f_iffeatures d)) as [[]|];
    cbn [mbind option_bind] in H; [eauto| |discriminate].
  assert (Hg : forall x, static_eq x (clear_enabled x)) by (intros x; repeat split).
  eapply IH; [| |  |exact H].
  - eapply deps_complete_shape; [apply same_shape_clear|assumption].
  - rewrite length_app. lia.
  - intros q Hq Hcov.
    apply covered_between_alter in Hcov; [|assumption].
    apply covered_between_app in Hcov; [|lia].
    destruct (inconsistent_after_alter _ _ _ _ _ Hg Hd Hdc Hq)
      as [Hin|[(Hne & Hin)|(_ & Hen & _)]].
    + right. exists (length changed), df. rewrite length_app.
      split; [simpl; lia|split; [|rewrite deps_at_alter by assumption; exact Hin]].
      rewrite lookup_app_r by lia. rewrite Nat.sub_diag. reflexivity.
    + destruct (Hrefl q Hin Hcov) as [Hq'|Hlater].
      * left. apply elem_of_cons in Hq' as [?|?]; [congruence|assumption].
      * right. apply covered_between_alter; [assumption|].
        apply covered_between_grow. exact Hlater.
    + rewrite feature_enabled_clear in Hen. discriminate.
Qed.

Lemma reflect_changes_done : forall fuel st changed u st' changed',
  reflect_changes fuel st changed u = Some (st', changed') ->
  same_shape st st' /\
  enabled_kept (fun _ _ => False) st st' /\
  exists added, changed' = changed ++ added /\
    (forall q f f', st !! q = Some f -> st' !! q = Some f' ->
       feature_enabled f = true -> feature_enabled f' = false -> q ∈ added).
Proof.
  induction fuel as [|fuel IH]; intros st changed u st' changed' H; [discriminate|].
  cbn [reflect_changes] in H.
  destruct (changed !! u) as [p|].
  - destruct (st !! p) as [f|]; [|discriminate]. cbn [mbind option_bind] in H.
    destruct (reflect_deps st changed (f_depfeatures f)) as [[st1 changed1]|] eqn:Hdeps;
      [|discriminate].
    cbn [mbind option_bind] in H.
    destruct (reflect_deps_done _ _ _ _ _ Hdeps) as (Hsh1 & Hk1 & add1 & -> & _ & Hrec1).
    destruct (IH _ _ _ _ _ H) as (Hsh2 & Hk2 & add2 & -> & Hrec2).
    split_and!.
    + eapply same_shape_trans; eassumption.
    + eapply enabled_kept_trans; [auto|eassumption..].
    + exists (add1 ++ add2). rewrite app_assoc. split; [reflexivity|].
      intros q g g' Hf Hf' Hon Hoff.
      destruct (same_shape_lookup _ _ _ _ Hsh1 Hf) as (f1 & Hf1 & _).
      destruct (feature_enabled f1) eqn:Hon1.
      * apply elem_of_app. right. eapply Hrec2; eassumption.
      * apply elem_of_app. left. eapply Hrec1; eassumption.
  - injection H as <- <-. split_and!; auto using same_shape_refl, enabled_kept_refl.
    exists []. rewrite app_nil_r. split; [reflexivity|]. intros; congruence.
Qed.

Lemma reflect_changes_covered : forall fuel st changed u st' changed',
  deps_complete st -> all_covered st changed ->
  reflect_changes fuel st changed u = Some (st', changed') ->
  all_covered st' changed'.
Proof.
  induction fuel as [|fuel IH]; intros st changed u st' changed' Hdc Hcov H; [discriminate|].
  cbn [reflect_changes] in H.
  destruct (changed !! u) as [p|]; [|injection H as <- <-; assumption].
  destruct (st !! p) as [f|]; [|discriminate]. cbn [mbind option_bind] in H.
  destruct (reflect_deps st changed (f_depfeatures f)) as [[st1 changed1]|] eqn:Hdeps;
    [|discriminate].
  cbn [mbind option_bind] in H.
  eapply IH; [| |exact H].
  - eapply deps_complete_shape; [|eassumption].
    apply (reflect_deps_done _ _ _ _ _ Hdeps).
  - eapply reflect_deps_covered; eassumption.
Qed.

Lemma reflect_changes_reflected : forall fuel st changed u st' changed',
  deps_complete st -> (u <= length changed)%nat -> reflected st changed u ->
  reflect_changes fuel st changed u = Some (st', changed') ->
  reflected st' changed' (length changed').
Proof.
  induction fuel as [|fuel IH]; intros st changed u st' changed' Hdc Hu Hrefl H; [discriminate|].
  cbn [reflect_changes] in H.
  destruct (changed !! u) as [p|] eqn:Hp.
  - pose proof (lookup_lt_Some _ _ _ Hp) as Hlt.
    destruct (st !! p) as [f|] eqn:Hf; [|discriminate]. cbn [mbind option_bind] in H.
    destruct (reflect_deps st changed (f_depfeatures f)) as [[st1 changed1]|] eqn:Hdeps;
      [|discriminate].
    cbn [mbind option_bind] in H.
    destruct (reflect_deps_done _ _ _ _ _ Hdeps) as (Hsh1 & _ & add1 & -> & _).
    assert (Hing : reflecting st changed u (f_depfeatures f)).
    { intros q Hq (j & x & Hj & Hx & Hqx).
      assert (Hme : forall j', j' = u -> changed !! j' = Some x -> q ∈ deps_at st x ->
                      q ∈ f_depfeatures f).
      { intros j' -> Hx' Hq'. rewrite Hp in Hx'. injection Hx' as <-.
        unfold deps_at in Hq'. rewrite Hf in Hq'. exact Hq'. }
      destruct (decide (j = u)) as [->|Hne]; [left; eauto|].
      destruct (Hrefl q Hq) as (j' & x' & Hj' & Hx' & Hqx').
      { exists j, x. split; [lia|split; assumption]. }
      destruct (decide (j' = u)) as [->|Hne'].
      - left. rewrite Hp in Hx'. injection Hx' as <-.
        unfold deps_at in Hqx'. rewrite Hf in Hqx'. exact Hqx'.
      - right. exists j', x'. split; [lia|split; assumption]. }
    pose proof (reflect_deps_reflecting _ _ _ _ _ _ Hdc Hlt Hing Hdeps) as Hdone.
    eapply IH; [| | |exact H].
    + eapply deps_complete_shape; eassumption.
    + rewrite length_app. lia.
    + intros q Hq Hcov. destruct (Hdone q Hq Hcov) as [Hin|?]; [|assumption].
      apply elem_of_nil in Hin. destruct Hin.
  - injection H as <- <-. apply lookup_ge_None in Hp.
    replace (length changed) with u by lia. exact Hrefl.
Qed.

(** When the loop is over, no dependent of a changed feature is
    inconsistent. *)
Lemma reflected_end st changed q :
  reflected st changed (length changed) -> covered st changed q ->
  ~ inconsistent_at st q.
Proof.
  intros Hrefl Hcov Hq. apply covered_covered_between in Hcov.
  destruct (Hrefl q Hq Hcov) as (j & ? & Hj & _). lia.
Qed.

Lemma reflected_start st changed : reflected st changed 0.
Proof. intros q _ (j & ? & Hj & _). lia. Qed.

(** ** The whole call *)

(** Every feature whose bit a run flips is appended to [changed]. *)
Lemma feature_run_recorded all name value : forall fs st changed dc st' changed' dc',
  feature_run all name value fs st changed dc = Some (RunDone st' changed' dc') ->
  exists added, changed' = changed ++ added /\
    forall q f f', st !! q = Some f -> st' !! q = Some f' ->
      feature_enabled f <> feature_enabled f' -> q ∈ added.
Proof.
  induction fs as [|p fs IH]; intros st changed dc st' changed' dc' H.
  { injection H as <- <- <-. exists []. rewrite app_nil_r. split; [reflexivity|].
    intros q f f' Hf Hf'. congruence. }
  cbn [feature_run] in H.
  destruct (st !! p) as [f|] eqn:Hp; [|discriminate]. cbn [mbind option_bind] in H.
  destruct (all || String.eqb (f_name f) name); [|eauto].
  assert (Hflip : forall g : lysc_feature -> lysc_feature,
    (if all then feature_run all name value fs (alter g p st) (changed ++ [p]) dc
     else Some (RunDone (alter g p st) (changed ++ [p]) dc))
      = Some (RunDone st' changed' dc') ->
    exists added, changed' = changed ++ added /\
      forall q f f', st !! q = Some f -> st' !! q = Some f' ->
        feature_enabled f <> feature_enabled f' -> q ∈ added).
  { intros g H0. destruct all.
    - destruct (IH _ _ _ _ _ _ H0) as (added & -> & Hrec).
      exists (p :: added). rewrite <- app_assoc. split; [reflexivity|].
      intros q x x' Hx Hx' Hne. destruct (decide (q = p)) as [->|Hqp]; [set_solver|].
      apply list_elem_of_further. eapply Hrec; try eassumption.
      rewrite list_lookup_alter_ne by congruence. exact Hx.
    - injection H0 as <- <- <-. exists [p]. split; [reflexivity|].
      intros q x x' Hx Hx' Hne. destruct (decide (q = p)) as [->|Hqp]; [set_solver|].
      rewrite list_lookup_alter_ne in Hx' by congruence. congruence. }
  destruct ((negb (value =? 0) && feature_enabled f)
            || ((value =? 0) && negb (feature_enabled f))).
  { destruct all; [eauto|discriminate]. }
  destruct (negb (value =? 0)).
  - destruct (iffeatures_enabled st (f_iffeatures f)) as [[]|];
      cbn [mbind option_bind] in H; [| |discriminate].
    + apply (Hflip set_enabled). exact H.
    + destruct all; [eauto|discriminate].
  - apply (Hflip clear_enabled). exact H.
Qed.

(** A successful call either found the named feature already set, or
    made its runs and then reflected the changes. *)
Lemma feature_change_runs_success all name value fs :
  forall fuel st changed cc st' changed',
  feature_change_runs fuel all name value fs st changed cc
    = Some (LY_SUCCESS, st', changed') ->
  (all = false /\ st' = st /\ changed' = changed) \/
  exists st1 added,
    same_shape st st1 /\
    enabled_kept (change_target all name value fs) st st1 /\
    (deps_complete st -> all_covered st changed -> all_covered st1 (changed ++ added)) /\
    (forall q f f', st !! q = Some f -> st1 !! q = Some f' ->
       feature_enabled f <> feature_enabled f' -> q ∈ added) /\
    reflect_changes (S (length (changed ++ added) + length st1)) st1 (changed ++ added) 0
      = Some (st', changed').
Proof.
  induction fuel as [|fuel IH]; intros st changed cc st' changed' H; [discriminate|].
  cbn [feature_change_runs] in H.
  destruct (feature_run all name value fs st changed 0) as [[e0 st0|st1 changed1 dc]|] eqn:Hrun;
    cbn [mbind option_bind] in H; [| |discriminate].
  { injection H as -> <- <-.
    destruct (feature_run_return _ _ _ _ _ _ _ _ _ Hrun) as (? & ? & _). auto. }
  destruct (feature_run_done _ _ _ _ _ _ _ _ _ _ Hrun) as (Hsh & _ & Hkept).
  destruct (feature_run_recorded _ _ _ _ _ _ _ _ _ _ Hrun) as (added & -> & Hrec).
  pose proof (fun Hdc Hcov => feature_run_covered _ _ _ _ _ _ _ _ _ _ Hdc Hcov Hrun) as Hcov.
  destruct (negb all && (length (changed ++ added) =? 0)%nat); [discriminate|].
  destruct (negb (value =? 0) && all && negb (dc =? 0)%nat) eqn:Hmode.
  - destruct (cc =? length (changed ++ added))%nat; [discriminate|].
    apply andb_true_iff in Hmode as [[_ ->]%andb_true_iff _].
    destruct (IH _ _ _ _ _ H) as [(? & _)|(st2 & added2 & Hsh2 & Hk2 & Hcov2 & Hrec2 & Hrefl)];
      [discriminate|].
    right. exists st2, (added ++ added2). rewrite app_assoc. split_and!.
    + eapply same_shape_trans; eassumption.
    + eapply enabled_kept_trans; eauto using change_target_static.
    + intros Hdc Hc. apply Hcov2; [|auto].
      eapply deps_complete_shape; eassumption.
    + intros q f f' Hf Hf' Hne.
      destruct (same_shape_lookup _ _ _ _ Hsh Hf) as (f1 & Hf1 & _).
      apply elem_of_app.
      destruct (decide (feature_enabled f = feature_enabled f1)) as [Heq|Hne1].
      * right. eapply Hrec2; try eassumption. congruence.
      * left. eapply Hrec; eassumption.
    + exact Hrefl.
  - right. exists st1, added. split_and!; auto.
    destruct (reflect_changes _ st1 (changed ++ added) 0) as [[st2 changed2]|];
      [|discriminate].
    cbn [mbind option_bind] in H. injection H as <- <-. reflexivity.
Qed.

(** A call that does not succeed leaves the store as it was. *)
Lemma lys_feature_change_set_failure st c name value e st' changed :
  lys_feature_change_set st c name value = Some (e, st', changed) ->
  e <> LY_SUCCESS -> st' = st.
Proof.
  unfold lys_feature_change_set. intros H He.
  destruct (mod_features c) as [|p fs]; [congruence|].
  remember (p :: fs) as fs' eqn:Hfs. clear Hfs.
  destruct (String.eqb name "*") eqn:Hall.
  - destruct (value =? 0) eqn:Hv.
    + cbn [feature_change_runs] in H.
      destruct (feature_run true name value fs' st [] 0) as [[e0 st0|st1 changed1 dc]|] eqn:Hrun;
        cbn [mbind option_bind] in H; [| |discriminate].
      * destruct (feature_run_return _ _ _ _ _ _ _ _ _ Hrun). discriminate.
      * rewrite Hv in H. cbn [negb andb] in H.
        destruct (reflect_changes _ st1 changed1 0) as [[st2 changed2]|];
          [|discriminate].
        cbn [mbind option_bind] in H. congruence.
    + destruct (feature_change_runs_enable_all st name value fs' Hv _ _ _ _ _ _
                  (enabled_from_refl st) H) as (st1 & changed1 & _ & [(_ & -> & _)|(-> & _)]);
        congruence.
  - cbn [feature_change_runs] in H.
    destruct (feature_run false name value fs' st [] 0) as [[e0 st0|st1 changed1 dc]|] eqn:Hrun;
      cbn [mbind option_bind] in H; [| |discriminate].
    + destruct (feature_run_return _ _ _ _ _ _ _ _ _ Hrun) as (_ & -> & _). congruence.
    + destruct (feature_run_done _ _ _ _ _ _ _ _ _ _ Hrun) as (_ & (added & -> & Hnone) & _).
      cbn [negb andb app] in H. rewrite andb_false_r in H. cbn [andb] in H.
      destruct (length added =? 0)%nat eqn:Hlen.
      * apply Nat.eqb_eq in Hlen. destruct added; [|discriminate].
        injection H as <- <- <-. auto.
      * destruct (reflect_changes _ st1 added 0) as [[st2 changed2]|];
          [|discriminate].
        cbn [mbind option_bind] in H. congruence.
Qed.

Lemma lys_feature_change_set_success st c name value st' changed :
  lys_feature_change_set st c name value = Some (LY_SUCCESS, st', changed) ->
  (st' = st /\ changed = []) \/
  exists st1 changed1,
    same_shape st st1 /\
    enabled_kept (change_target (String.eqb name "*") name value (mod_features c)) st st1 /\
    (deps_complete st -> consistent st -> all_covered st1 changed1) /\
    (forall q f f', st !! q = Some f -> st1 !! q = Some f' ->
       feature_enabled f <> feature_enabled f' -> q ∈ changed1) /\
    reflect_changes (S (length changed1 + length st1)) st1 changed1 0
      = Some (st', changed).
Proof.
  unfold lys_feature_change_set. intros H.
  destruct (mod_features c) as [|p fs]; [discriminate|].
  destruct (feature_change_runs_success _ _ _ _ _ _ _ _ _ _ H)
    as [(_ & -> & ->)|(st1 & added & Hsh & Hk & Hcov & Hrec & Hrefl)]; [auto|].
  right. exists st1, added. cbn [app] in *. split_and!; auto.
  intros Hdc Hcons. apply Hcov; [assumption|].
  intros q Hq. destruct (Hcons q Hq).
Qed.

(** [lys_feature_change] keeps a consistent store consistent. *)
Lemma lys_feature_change_set_consistent st c name value e st' changed :
  deps_complete st -> consistent st ->
  lys_feature_change_set st c name value = Some (e, st', changed) ->
  consistent st'.
Proof.
  intros Hdc Hcons H. destruct (decide (e = LY_SUCCESS)) as [->|He].
  - destruct (lys_feature_change_set_success _ _ _ _ _ _ H)
      as [[-> _]|(st1 & changed1 & Hsh & _ & Hcov & _ & Hrefl)]; [assumption|].
    pose proof (deps_complete_shape _ _ Hsh Hdc) as Hdc1.
    intros q Hq.
    pose proof (reflect_changes_covered _ _ _ _ _ _ Hdc1 (Hcov Hdc Hcons) Hrefl q Hq) as Hc.
    eapply reflected_end; [|exact Hc|exact Hq].
    eapply reflect_changes_reflected; [exact Hdc1| |apply reflected_start|exact Hrefl]. lia.
  - rewrite (lys_feature_change_set_failure _ _ _ _ _ _ _ H He). assumption.
Qed.

(** After a successful call no dependent of a changed feature is enabled
    against its if-feature expressions. *)
Lemma lys_feature_change_set_reflected st c name value st' changed :
  deps_complete st ->
  lys_feature_change_set st c name value = Some (LY_SUCCESS, st', changed) ->
  forall q, covered st' changed q -> ~ inconsistent_at st' q.
Proof.
  intros Hdc H q Hc.
  destruct (lys_feature_change_set_success _ _ _ _ _ _ H)
    as [[-> ->]|(st1 & changed1 & Hsh & _ & _ & _ & Hrefl)].
  - destruct Hc as (p & Hp & _). apply elem_of_nil in Hp. destruct Hp.
  - eapply reflected_end; [|exact Hc].
    eapply reflect_changes_reflected;
      [eapply deps_complete_shape; eassumption| |apply reflected_start|exact Hrefl]. lia.
Qed.

(** A call enables nothing but its targets. *)
Lemma lys_feature_change_set_kept st c name value e st' changed :
  lys_feature_change_set st c name value = Some (e, st', changed) ->
  enabled_kept (change_target (String.eqb name "*") name value (mod_features c)) st st'.
Proof.
  intros H. destruct (decide (e = LY_SUCCESS)) as [->|He].
  - destruct (lys_feature_change_set_success _ _ _ _ _ _ H)
      as [[-> _]|(st1 & changed1 & Hsh & Hk & _ & _ & Hrefl)];
      [apply enabled_kept_refl|].
    destruct (reflect_changes_done _ _ _ _ _ _ Hrefl) as (Hsh' & Hk' & _).
    eapply enabled_kept_trans; [apply change_target_static|eassumption..|].
    eapply enabled_kept_weaken; [|exact Hk']. intros ? ? [].
  - rewrite (lys_feature_change_set_failure _ _ _ _ _ _ _ H He).
    apply enabled_kept_refl.
Qed.

(** Every feature that a successful call disables is in the final
    [changed] set. *)
Lemma lys_feature_change_set_recorded st c name value st' changed :
  lys_feature_change_set st c name value = Some (LY_SUCCESS, st', changed) ->
  forall q f f', st !! q = Some f -> st' !! q = Some f' ->
    feature_enabled f = true -> feature_enabled f' = false -> q ∈ changed.
Proof.
  intros H q f f' Hf Hf' Hon Hoff.
  destruct (lys_feature_change_set_success _ _ _ _ _ _ H)
    as [[-> ->]|(st1 & changed1 & Hsh & _ & _ & Hrec & Hrefl)]; [congruence|].
  destruct (reflect_changes_done _ _ _ _ _ _ Hrefl) as (_ & _ & added & -> & Hrec').
  destruct (same_shape_lookup _ _ _ _ Hsh Hf) as (f1 & Hf1 & _).
  apply elem_of_app. destruct (feature_enabled f1) eqn:Hon1.
  - right. eapply Hrec'; eassumption.
  - left. eapply Hrec; try eassumption. congruence.
Qed.

(** ** The check of a range against its base *)

Lemma bound_lt_irrefl uns a : bound_lt uns a a = false.
Proof. unfold bound_lt. destruct uns; apply Z.ltb_irrefl. Qed.

(** The parts that the derived cursor has passed when the walk ends lie
    each inside one part of the base. *)
Lemma range_base_walk_sound uns parts base parts_done :
  forall fuel u v u',
  range_base_walk fuel uns parts base parts_done u v = Some (Some u') ->
  (u <= u')%nat /\
  forall i, (u <= i < u')%nat ->
    exists p, parts !! i = Some p /\ part_within_base uns base p.
Proof.
  induction fuel as [|fuel IH]; intros u v u' H; [discriminate|].
  cbn [range_base_walk] in H.
  destruct ((u <? parts_done)%nat && (v <? length base)%nat).
  2:{ injection H as <-. split; [lia|]. intros i Hi. lia. }
  destruct (parts !! u) as [p|] eqn:Hp; [|discriminate].
  destruct (base !! v) as [b|] eqn:Hb; [|discriminate].
  cbn [mbind option_bind] in H.
  assert (Hb' : b ∈ base) by (eapply list_elem_of_lookup_2; eassumption).
  assert (Hsame : forall v', range_base_walk fuel uns parts base parts_done u v'
                             = Some (Some u') ->
            (u <= u')%nat /\
            forall i, (u <= i < u')%nat ->
              exists p, parts !! i = Some p /\ part_within_base uns base p).
  { intros v' H0. apply (IH _ _ _ H0). }
  assert (Hnext : forall v', part_within uns p b ->
            range_base_walk fuel uns parts base parts_done (S u) v' = Some (Some u') ->
            (u <= u')%nat /\
            forall i, (u <= i < u')%nat ->
              exists p, parts !! i = Some p /\ part_within_base uns base p).
  { intros v' Hin H0. destruct (IH _ _ _ H0) as [Hle Hall]. split; [lia|].
    intros i Hi. destruct (decide (i = u)) as [->|Hne].
    - exists p. split; [assumption|]. exists b. auto.
    - apply Hall. lia. }
  destruct (bound_lt uns (min_64 p) (min_64 b)) eqn:Hmin; [discriminate|].
  destruct (min_64 b =? max_64 b) eqn:Hbs.
  - destruct (min_64 b =? min_64 p) eqn:Hbp; [|eauto].
    destruct (min_64 p =? max_64 p) eqn:Hps; cbn [negb] in H; [|discriminate].
    apply (Hnext (S v)); [|exact H]. split; [assumption|].
    apply Z.eqb_eq in Hbs, Hbp, Hps.
    rewrite <- Hbs, Hbp, Hps. apply bound_lt_irrefl.
  - destruct (min_64 p =? max_64 p).
    + destruct (bound_lt uns (max_64 b) (max_64 p)) eqn:Hmax; [eauto|].
      apply (Hnext v); [split; assumption|exact H].
    + destruct (bound_lt uns (max_64 b) (max_64 p)) eqn:Hmax.
      * destruct (bound_lt uns (max_64 b) (min_64 p)); [eauto|discriminate].
      * apply (Hnext v); [split; assumption|exact H].
Qed.

(** The walk never runs out of fuel, and it is defined as long as the
    cursor stays inside [parts]. *)
Lemma range_base_walk_total uns parts base parts_done :
  (parts_done <= length parts)%nat ->
  forall fuel u v,
  (u <= parts_done)%nat -> (v <= length base)%nat ->
  ((parts_done - u) + (length base - v) < fuel)%nat ->
  is_Some (range_base_walk fuel uns parts base parts_done u v).
Proof.
  intros Hdone. induction fuel as [|fuel IH]; intros u v Hu Hv Hfuel; [lia|].
  cbn [range_base_walk].
  destruct ((u <? parts_done)%nat && (v <? length base)%nat) eqn:Hcond; [|eauto].
  apply andb_true_iff in Hcond as [Hu'%Nat.ltb_lt Hv'%Nat.ltb_lt].
  destruct (lookup_lt_is_Some_2 parts u) as [p ->]; [lia|].
  destruct (lookup_lt_is_Some_2 base v) as [b ->]; [lia|].
  cbn [mbind option_bind].
  repeat match goal with
         | |- is_Some (if ?c then _ else _) => destruct c
         end; eauto; apply IH; lia.
Qed.

(** When [lys_compile_type_range] succeeds against a base range, the
    first [parts_done] parts of the result, those that the loop over the
    expression counted as done, lie each inside one part of the base. *)
Lemma lys_compile_type_range_checked arg basetype base parts :
  lys_compile_type_range arg basetype (Some base) = Some (LY_SUCCESS, Some parts) ->
  exists uns parts_done,
    range_type_unsigned basetype = Some uns /\
    range_expr_loop (S (S (String.length arg))) basetype arg [] 0 false
      = Some (Some (parts, parts_done)) /\
    forall i, (i < parts_done)%nat ->
      exists p, parts !! i = Some p /\ part_within_base uns base p.
Proof.
  unfold lys_compile_type_range. intros H.
  destruct (range_expr_loop _ basetype arg [] 0 false) as [[[parts0 parts_done]|]|];
    cbn [mbind option_bind] in H; [|discriminate..].
  destruct (range_type_unsigned basetype) as [uns|]; [|discriminate].
  destruct (range_base_walk _ uns parts0 base parts_done 0 0) as [[u|]|] eqn:Hwalk;
    cbn [mbind option_bind] in H; [|discriminate..].
  destruct (u =? parts_done)%nat eqn:Hu; cbn [negb] in H; [|discriminate].
  apply Nat.eqb_eq in Hu. subst u. injection H as <-.
  exists uns, parts_done. split_and!; auto.
  intros i Hi. apply (range_base_walk_sound _ _ _ _ _ _ _ _ Hwalk). lia.
Qed.

(** ** The translation of a pattern *)

Lemma string_app_cons c a b : String c a +:+ b = String c (a +:+ b).
Proof. reflexivity. Qed.

Lemma string_app_nil b : EmptyString +:+ b = b.
Proof. reflexivity. Qed.

Lemma string_app_nil_r a : a +:+ EmptyString = a.
Proof.
  induction a as [|c a IH]; [reflexivity|]. rewrite string_app_cons, IH. reflexivity.
Qed.

Lemma perl_escape_app a b :
  perl_escape (a +:+ b) = perl_escape a +:+ perl_escape b.
Proof.
  induction a as [|c a IH]; [reflexivity|].
  rewrite string_app_cons. cbn [perl_escape]. rewrite IH.
  destruct (Ascii.eqb c "$"); [reflexivity|].
  destruct (Ascii.eqb c "^"); reflexivity.
Qed.

Lemma substring_app_skip preceding s k m :
  String.substring (String.length preceding + k) m (preceding +:+ s)
  = String.substring k m s.
Proof.
  induction preceding as [|c p IH]; [reflexivity|].
  rewrite string_app_cons. cbn [String.length Nat.add String.substring]. exact IH.
Qed.

Lemma string_length_app a b :
  String.length (a +:+ b) = (String.length a + String.length b)%nat.
Proof.
  induction a as [|c a IH]; [reflexivity|].
  rewrite string_app_cons. cbn [String.length Nat.add]. rewrite IH. reflexivity.
Qed.

(** On a pattern of two characters or more the test of the source is the
    test of the pattern's end, whatever precedes it. *)
Lemma ends_dot_star_pattern preceding pattern :
  (2 <= String.length pattern)%nat ->
  ends_dot_star preceding pattern = Some (pattern_ends_dot_star pattern).
Proof.
  intros Hlen. unfold ends_dot_star, pattern_ends_dot_star.
  rewrite string_length_app.
  destruct (String.length preceding + String.length pattern <? 2)%nat eqn:Hlt.
  { apply Nat.ltb_lt in Hlt. lia. }
  replace (String.length preceding + String.length pattern - 2)%nat
    with (String.length preceding + (String.length pattern - 2))%nat by lia.
  rewrite substring_app_skip. reflexivity.
Qed.

Lemma skip_prefix_escape needle : forall s tail r,
  needle_plain needle = true ->
  tail = EmptyString \/ tail = ")$"%string ->
  skip_prefix needle (perl_escape s +:+ tail) = Some r ->
  exists r', skip_prefix needle s = Some r'.
Proof.
  induction needle as [|a needle IH]; intros s tail r Hplain Htail H; [simpl; eauto|].
  cbn [needle_plain] in Hplain.
  apply andb_true_iff in Hplain as [Hplain Hrest].
  apply andb_true_iff in Hplain as [Hplain Hlast].
  apply andb_true_iff in Hplain as [Hplain Hparen].
  apply andb_true_iff in Hplain as [Hdollar Hcaret].
  apply negb_true_iff in Hdollar, Hcaret, Hparen.
  destruct s as [|c s].
  - cbn [perl_escape] in H. rewrite string_app_nil in H.
    destruct Htail as [->| ->]; cbn [skip_prefix] in H; [discriminate|].
    rewrite Hparen in H. discriminate.
  - cbn [perl_escape] in H. cbn [skip_prefix].
    assert (Hspecial : forall x, x = "$"%char \/ x = "^"%char ->
              skip_prefix (String a needle)
                (String "\" (String x (perl_escape s)) +:+ tail) = Some r -> False).
    { intros x Hx H0. rewrite !string_app_cons in H0. cbn [skip_prefix] in H0.
      destruct (Ascii.eqb a "\") eqn:Ha; [|discriminate].
      destruct needle as [|b needle]; [discriminate|].
      cbn [skip_prefix] in H0.
      destruct (Ascii.eqb b x) eqn:Hb; [|discriminate].
      apply Ascii.eqb_eq in Hb. subst b.
      cbn [needle_plain] in Hrest.
      destruct Hx as [-> | ->]; simpl in Hrest; discriminate. }
    destruct (Ascii.eqb c "$") eqn:Hc1.
    { exfalso. apply (Hspecial "$"%char); auto. }
    destruct (Ascii.eqb c "^") eqn:Hc2.
    { exfalso. apply (Hspecial "^"%char); auto. }
    rewrite string_app_cons in H. cbn [skip_prefix] in H.
    destruct (Ascii.eqb a c); [|discriminate].
    eapply IH; eassumption.
Qed.

Lemma strstr_cons_none c s needle :
  strstr (String c s) needle = None <->
  skip_prefix needle (String c s) = None /\ strstr s needle = None.
Proof.
  cbn [strstr]. destruct (skip_prefix needle (String c s)).
  - split; [discriminate|]. intros [? _]. discriminate.
  - destruct (strstr s needle) as [[b f]|]; cbn [mbind option_bind].
    + split; [discriminate|]. intros [_ ?]. discriminate.
    + split; auto.
Qed.

Lemma strstr_nil needle : needle <> EmptyString -> strstr EmptyString needle = None.
Proof. destruct needle; [congruence|reflexivity]. Qed.

(** Escaping and anchoring a pattern does not create an occurrence of a
    plain search text. *)
Lemma strstr_escape_none needle s tail :
  needle_plain needle = true -> needle <> EmptyString ->
  tail = EmptyString \/ tail = ")$"%string ->
  strstr s needle = None ->
  strstr (perl_escape s +:+ tail) needle = None.
Proof.
  intros Hplain Hne Htail. induction s as [|c s IH]; intros Hnone.
  - cbn [perl_escape]. rewrite string_app_nil.
    destruct Htail as [-> | ->]; [apply strstr_nil; assumption|].
    destruct needle as [|a needle]; [congruence|].
    cbn [needle_plain] in Hplain.
    repeat (apply andb_true_iff in Hplain as [Hplain ?]).
    repeat match goal with H : negb _ = true |- _ => apply negb_true_iff in H end.
    cbn [strstr skip_prefix].
    repeat match goal with H : Ascii.eqb a _ = false |- _ => rewrite H end.
    reflexivity.
  - apply strstr_cons_none in Hnone as [Hhere Hlater].
    specialize (IH Hlater).
    assert (Hplainc : forall x, x = "$"%char \/ x = "^"%char ->
              strstr (String "\" (String x (perl_escape s)) +:+ tail) needle = None).
    { intros x Hx. rewrite !string_app_cons.
      apply strstr_cons_none. split; [|apply strstr_cons_none; split; [|exact IH]].
      - destruct (skip_prefix needle (String "\" (String x (perl_escape s +:+ tail))))
          as [r|] eqn:Hr; [|reflexivity].
        exfalso. destruct needle as [|a [|b needle]]; [congruence| |].
        + cbn [needle_plain] in Hplain. cbn [skip_prefix] in Hr.
          destruct (Ascii.eqb a "\"); [|discriminate].
          rewrite !andb_false_r in Hplain. discriminate.
        + cbn [skip_prefix] in Hr.
          destruct (Ascii.eqb a "\"); [|discriminate].
          destruct (Ascii.eqb b x) eqn:Hb; [|discriminate].
          apply Ascii.eqb_eq in Hb. subst b. cbn [needle_plain] in Hplain.
          destruct Hx as [-> | ->]; simpl in Hplain;
            rewrite ?andb_false_r in Hplain; discriminate.
      - destruct needle as [|a needle]; [congruence|].
        cbn [skip_prefix]. cbn [needle_plain] in Hplain.
        destruct (Ascii.eqb a x) eqn:Ha; [|reflexivity].
        apply Ascii.eqb_eq in Ha. subst a.
        destruct Hx as [-> | ->]; simpl in Hplain; discriminate. }
    cbn [perl_escape].
    destruct (Ascii.eqb c "$") eqn:Hc1; [apply Hplainc; auto|].
    destruct (Ascii.eqb c "^") eqn:Hc2; [apply Hplainc; auto|].
    rewrite string_app_cons. apply strstr_cons_none. split; [|exact IH].
    destruct (skip_prefix needle (String c (perl_escape s +:+ tail))) as [r|] eqn:Hr;
      [|reflexivity].
    exfalso.
    destruct (skip_prefix_escape needle (String c s) tail r Hplain Htail) as [r' Hr'].
    + cbn [perl_escape]. rewrite Hc1, Hc2. exact Hr.
    + congruence.
Qed.

Lemma strstr_paren s needle :
  strstr s needle = None ->
  skip_prefix needle (String "(" s) = None ->
  strstr (String "(" s) needle = None.
Proof. intros H1 H2. apply strstr_cons_none. auto. Qed.

(** Without a Unicode block the translation is the escaped and anchored
    pattern. *)
Lemma perl_regex_no_ublock preceding pattern anchored :
  perl_regex_anchored preceding pattern = Some anchored ->
  strstr pattern "\p{Is" = None ->
  perl_regex preceding pattern = Some (inr anchored).
Proof.
  intros Hanch Hnone. unfold perl_regex. rewrite Hanch. cbn [mbind option_bind].
  cbn [substitute_ublocks].
  assert (Hs : strstr anchored "\p{Is" = None); [|rewrite Hs; reflexivity].
  unfold perl_regex_anchored in Hanch.
  destruct (ends_dot_star preceding pattern) as [[]|]; cbn [mbind option_bind] in Hanch;
    [| |discriminate]; injection Hanch as <-.
  - rewrite <- (string_app_nil_r (perl_escape pattern)).
    apply strstr_escape_none; auto.
  - change ("(" +:+ perl_escape pattern +:+ ")$")
      with (String "(" (perl_escape pattern +:+ ")$")).
    apply strstr_paren; [|reflexivity].
    apply strstr_escape_none; auto.
Qed.

Lemma perl_regex_anchored_pattern preceding pattern :
  (2 <= String.length pattern)%nat ->
  perl_regex_anchored preceding pattern
  = Some (if pattern_ends_dot_star pattern then perl_escape pattern
          else "(" +:+ perl_escape pattern +:+ ")$").
Proof.
  intros Hlen. unfold perl_regex_anchored.
  rewrite ends_dot_star_pattern by assumption. cbn [mbind option_bind].
  destruct (pattern_ends_dot_star pattern); reflexivity.
Qed.

(** ** Enumerations and bits derived from a base type *)


Lemma base_enum_index_le {X : Type} (base : list (@lysc_type_enum_item X)) name :
  (base_enum_index base name <= length base)%nat.
Proof.
  induction base as [|b base IH]; simpl; [lia|].
  destruct (String.eqb name (item_name b)); lia.
Qed.

Lemma base_enum_named_Some {X : Type} (base : list (@lysc_type_enum_item X)) name b :
  base_enum_named base name = Some b -> item_name b = name /\ b ∈ base.
Proof.
  unfold base_enum_named. induction base as [|x base IH]; simpl; [discriminate|].
  destruct (String.eqb name (item_name x)) eqn:Hn; simpl.
  - intros [= <-]. apply String.eqb_eq in Hn. split; [auto|]. apply list_elem_of_here.
  - intros H. destruct (IH H). split; [assumption|]. apply list_elem_of_further.
    assumption.
Qed.

Lemma base_enum_named_None {X : Type} (base : list (@lysc_type_enum_item X)) name :
  base_enum_named base name = None <->
  base_enum_index base name = length base.
Proof.
  unfold base_enum_named. rewrite lookup_ge_None.
  pose proof (base_enum_index_le base name). lia.
Qed.

Lemma base_enum_named_absent {X : Type} (base : list (@lysc_type_enum_item X)) name :
  base_enum_named base name = None <-> name ∉ map item_name base.
Proof.
  unfold base_enum_named. induction base as [|x base IH]; simpl.
  - split; [intros _; apply not_elem_of_nil|reflexivity].
  - destruct (String.eqb name (item_name x)) eqn:Hn; simpl.
    + apply String.eqb_eq in Hn. split; [discriminate|].
      intros H. destruct H. rewrite Hn. apply list_elem_of_here.
    + apply String.eqb_neq in Hn. rewrite IH. rewrite not_elem_of_cons. tauto.
Qed.

Section EnumProofs.
Variables lysp_ext_instance lysc_ext_instance : Type.
Variable lys_compile_iffeature : string -> LY_ERR * lysc_iffeature.
Variable lys_compile_ext : lysp_ext_instance -> LY_ERR * lysc_ext_instance.

Abbreviation item := (@lysc_type_enum_item lysc_ext_instance).
Abbreviation parsed := (@lysp_type_enum lysp_ext_instance).
Abbreviation compile_item := (compile_enum_item lys_compile_iffeature lys_compile_ext).
Abbreviation compile_items := (compile_enum_items lys_compile_iffeature lys_compile_ext).

(** An item whose name the base type does not have stops the loop with
    [LY_EVALID]. *)
Lemma compile_enum_item_absent basetype (base : list item) s (e : parsed) :
  base <> [] -> base_enum_named base (enum_name e) = None ->
  compile_item basetype base s e
  = (LY_EVALID,
     mk_enums_state (st_enums s ++ [mk_lysc_type_enum_item (enum_name e) [] [] 0])
       (st_value s) (st_position s)).
Proof.
  intros Hbase Hnone. apply base_enum_named_None in Hnone.
  unfold compile_enum_item. rewrite Hnone, Nat.eqb_refl.
  destruct base; [congruence|]. reflexivity.
Qed.

Lemma compile_enum_items_app basetype (base : list item) s (pre rest : list parsed) :
  compile_items basetype base s (pre ++ rest)
  = let '(ret, s') := compile_items basetype base s pre in
    match ret with
    | LY_SUCCESS => compile_items basetype base s' rest
    | _ => (ret, s')
    end.
Proof.
  revert s. induction pre as [|e pre IH]; intros s; [reflexivity|].
  cbn [app compile_enum_items].
  destruct (compile_item basetype base s e) as [[] s']; try reflexivity. apply IH.
Qed.

(** What a successful iteration adds: one item with the parsed name,
    placed at the end for an enumeration and at some index for bits,
    whose value, under a base type, is that of the base item of that
    name. *)
Lemma compile_enum_item_success basetype (base : list item) s (e : parsed) s' :
  compile_item basetype base s e = (LY_SUCCESS, s') ->
  exists x v,
    item_name x = enum_name e /\
    st_enums s' = take v (st_enums s) ++ x :: drop v (st_enums s) /\
    (basetype = LY_TYPE_ENUM -> st_enums s' = st_enums s ++ [x]) /\
    (base <> [] ->
     exists b, base_enum_named base (enum_name e) = Some b /\
       item_value x = item_value b).
Proof.
  unfold compile_enum_item. intros H.
  destruct (negb (length base =? 0)%nat
            && (base_enum_index base (enum_name e) =? length base)%nat) eqn:Hmiss;
    [discriminate|].
  match type of H with
  | (match ?a with _ => _ end) = _ => destruct a as [[[v value] position]|] eqn:Hassigned
  end; [|discriminate].
  destruct (negb (length base =? 0)%nat
            && negb (v =? match base !! base_enum_index base (enum_name e) with
                          | Some b => item_value b
                          | None => 0
                          end)) eqn:Hchanged; [discriminate|].
  destruct (compile_array lys_compile_iffeature (enum_iffeatures e)) as [[] iffs];
    try discriminate.
  destruct (compile_array lys_compile_ext (enum_exts e)) as [[] exts];
    try discriminate.
  injection H as <-. cbn [st_enums].
  set (x := mk_lysc_type_enum_item (enum_name e) iffs exts v).
  assert (Hbase : base <> [] ->
            exists b, base_enum_named base (enum_name e) = Some b /\
              item_value x = item_value b).
  { intros Hne. destruct base as [|b0 base0] eqn:Hb; [congruence|]. rewrite <- Hb in *.
    assert (Hlen : (length base =? 0)%nat = false) by (rewrite Hb; reflexivity).
    rewrite Hlen in Hmiss, Hchanged. cbn [negb andb] in Hmiss, Hchanged.
    apply Nat.eqb_neq in Hmiss. apply negb_false_iff, Z.eqb_eq in Hchanged.
    pose proof (base_enum_index_le base (enum_name e)) as Hle.
    destruct (lookup_lt_is_Some_2 base (base_enum_index base (enum_name e))) as [b Hlk];
      [lia|].
    exists b. split; [exact Hlk|]. rewrite Hlk in Hchanged. exact Hchanged. }
  destruct basetype;
    try (exists x, (bit_insert_index (st_enums s) v (length (st_enums s)));
         split_and!; [reflexivity | reflexivity | discriminate | exact Hbase]).
  exists x, (length (st_enums s)).
  rewrite firstn_all, drop_all. split_and!; auto.
Qed.

Lemma compile_enum_items_success basetype (base : list item) :
  forall (enums_p : list parsed) s s',
  compile_items basetype base s enums_p = (LY_SUCCESS, s') ->
  map item_name (st_enums s') ≡ₚ map item_name (st_enums s) ++ map enum_name enums_p /\
  (basetype = LY_TYPE_ENUM ->
   map item_name (st_enums s') = map item_name (st_enums s) ++ map enum_name enums_p) /\
  (base <> [] ->
   Forall (fun x => exists b, base_enum_named base (item_name x) = Some b /\
                      item_value x = item_value b) (st_enums s) ->
   Forall (fun x => exists b, base_enum_named base (item_name x) = Some b /\
                      item_value x = item_value b) (st_enums s')).
Proof.
  induction enums_p as [|e enums_p IH]; intros s s' H.
  - injection H as <-. cbn [map]. rewrite app_nil_r. auto.
  - cbn [compile_enum_items] in H.
    destruct (compile_item basetype base s e) as [[] s1] eqn:Hitem; try discriminate.
    destruct (compile_enum_item_success _ _ _ _ _ Hitem) as (x & v & Hname & Hins & Henum & Hb).
    destruct (IH _ _ H) as (Hperm & Heq & Hall).
    split_and!.
    + rewrite Hperm, Hins. cbn [map]. rewrite map_app. cbn [map].
      rewrite <- Permutation_middle, Hname, <- map_app, take_drop.
      rewrite (Permutation_app_comm (map item_name (st_enums s))).
      cbn [app]. rewrite (Permutation_app_comm _ (map item_name (st_enums s))).
      reflexivity.
    + intros Hty. rewrite (Heq Hty), (Henum Hty), map_app. cbn [map].
      rewrite Hname, <- app_assoc. reflexivity.
    + intros Hne Hfor. apply (Hall Hne). rewrite Hins.
      apply Forall_app. split; [apply Forall_take; assumption|].
      constructor; [|apply Forall_drop; assumption].
      destruct (Hb Hne) as (b & Hbn & Hv). exists b. rewrite Hname. auto.
Qed.
Lemma compile_array_error {P C : Type} (func : P -> LY_ERR * C) (array_p : list P) ret cs :
  compile_array func array_p = (ret, cs) -> ret <> LY_SUCCESS ->
  exists x, x ∈ array_p /\ fst (func x) = ret.
Proof.
  revert ret cs. induction array_p as [|x xs IH]; intros ret cs H Hne.
  - injection H as <- _. congruence.
  - cbn [compile_array] in H. destruct (func x) as [r c] eqn:Hx.
    destruct (decide (r = LY_SUCCESS)) as [->|Hr].
    + destruct (compile_array func xs) as [r' cs'] eqn:Hxs. injection H as <- _.
      destruct (IH _ _ eq_refl Hne) as (y & Hy & Hr).
      exists y. split; [apply list_elem_of_further; assumption|assumption].
    + assert (ret = r) as -> by (destruct r; congruence).
      exists x. rewrite Hx. split; [apply list_elem_of_here|reflexivity].
Qed.

(** The iteration fails with [LY_EVALID] or with the error of a
    sub-statement. *)
Lemma compile_enum_item_error basetype (base : list item) s (e : parsed) ret s' :
  compile_item basetype base s e = (ret, s') -> ret <> LY_SUCCESS ->
  ret = LY_EVALID \/
  (exists x, fst (lys_compile_iffeature x) = ret) \/
  (exists y, fst (lys_compile_ext y) = ret).
Proof.
  unfold compile_enum_item. intros H Hne.
  destruct (negb (length base =? 0)%nat
            && (base_enum_index base (enum_name e) =? length base)%nat);
    [injection H as <- _; auto|].
  match type of H with
  | (match ?a with _ => _ end) = _ => destruct a as [[[v value] position]|]
  end; [|injection H as <- _; auto].
  match type of H with
  | (if ?c then _ else _) = _ => destruct c
  end; [injection H as <- _; auto|].
  destruct (compile_array lys_compile_iffeature (enum_iffeatures e)) as [r1 iffs] eqn:H1.
  destruct (decide (r1 = LY_SUCCESS)) as [->|Hr1].
  2:{ assert (ret = r1) as -> by (destruct r1; congruence).
      right; left. destruct (compile_array_error _ _ _ _ H1 Hne) as (x & _ & Hx). eauto. }
  destruct (compile_array lys_compile_ext (enum_exts e)) as [r2 exts] eqn:H2.
  destruct (decide (r2 = LY_SUCCESS)) as [->|Hr2].
  2:{ assert (ret = r2) as -> by (destruct r2; congruence).
      right; right. destruct (compile_array_error _ _ _ _ H2 Hne) as (x & _ & Hx). eauto. }
  injection H as <- _. congruence.
Qed.

Lemma compile_enum_items_error basetype (base : list item) :
  forall (enums_p : list parsed) s ret s',
  compile_items basetype base s enums_p = (ret, s') -> ret <> LY_SUCCESS ->
  ret = LY_EVALID \/
  (exists x, fst (lys_compile_iffeature x) = ret) \/
  (exists y, fst (lys_compile_ext y) = ret).
Proof.
  induction enums_p as [|e enums_p IH]; intros s ret s' H Hne.
  - injection H as <- _. congruence.
  - cbn [compile_enum_items] in H.
    destruct (compile_item basetype base s e) as [r s1] eqn:Hitem.
    destruct (decide (r = LY_SUCCESS)) as [->|Hr]; [eapply IH; eassumption|].
    assert (ret = r) as -> by (destruct r; congruence).
    eapply compile_enum_item_error; eassumption.
Qed.

Lemma compile_array_success {P C : Type} (func : P -> LY_ERR * C) (array_p : list P) :
  Forall (fun x => fst (func x) = LY_SUCCESS) array_p ->
  compile_array func array_p = (LY_SUCCESS, map (fun x => snd (func x)) array_p).
Proof.
  induction 1 as [|x xs Hx _ IH]; [reflexivity|].
  cbn [compile_array map]. destruct (func x) as [r c]. cbn [fst] in Hx. subst r.
  rewrite IH. reflexivity.
Qed.

(** Under a base type, an item that names an item of the base and has no
    value of its own is accepted when its sub-statements compile. *)
Lemma compile_enum_item_inherits basetype (base : list item) s (e : parsed) b :
  base_enum_named base (enum_name e) = Some b ->
  Z.land (enum_flags e) LYS_SET_VALUE = 0 ->
  Forall (fun x => fst (lys_compile_iffeature x) = LY_SUCCESS) (enum_iffeatures e) ->
  Forall (fun y => fst (lys_compile_ext y) = LY_SUCCESS) (enum_exts e) ->
  exists s', compile_item basetype base s e = (LY_SUCCESS, s').
Proof.
  intros Hb Hflag Hiffs Hexts. unfold base_enum_named in Hb.
  pose proof (lookup_lt_Some _ _ _ Hb) as Hlt.
  assert (Hlen : (length base =? 0)%nat = false) by (apply Nat.eqb_neq; lia).
  assert (Hidx : (base_enum_index base (enum_name e) =? length base)%nat = false)
    by (apply Nat.eqb_neq; lia).
  unfold compile_enum_item.
  rewrite Hlen, Hidx, Hb, Hflag, (compile_array_success _ _ Hiffs),
    (compile_array_success _ _ Hexts).
  change (0 =? 0) with true. cbn [negb andb].
  destruct basetype; cbn [negb andb]; rewrite Z.eqb_refl; cbn [negb]; eauto.
Qed.

Lemma compile_enum_items_inherit basetype (base : list item) :
  forall (enums_p : list parsed) s,
  (forall e, e ∈ enums_p ->
     enum_name e ∈ map item_name base /\
     Z.land (enum_flags e) LYS_SET_VALUE = 0 /\
     Forall (fun x => fst (lys_compile_iffeature x) = LY_SUCCESS) (enum_iffeatures e) /\
     Forall (fun y => fst (lys_compile_ext y) = LY_SUCCESS) (enum_exts e)) ->
  exists s', compile_items basetype base s enums_p = (LY_SUCCESS, s').
Proof.
  induction enums_p as [|e enums_p IH]; intros s Hall; cbn [compile_enum_items]; [eauto|].
  destruct (Hall e ltac:(apply list_elem_of_here)) as (Hname & Hflag & Hiffs & Hexts).
  destruct (base_enum_named base (enum_name e)) as [b|] eqn:Hb;
    [|apply base_enum_named_absent in Hb; contradiction].
  destruct (compile_enum_item_inherits basetype _ s _ _ Hb Hflag Hiffs Hexts) as (s1 & ->).
  apply IH. intros e' He'. apply Hall. apply list_elem_of_further. exact He'.
Qed.
End EnumProofs.

(** ** The two-bit slots of an if-feature expression *)

Lemma testbit_above (c n : Z) : 0 <= c < 2 ^ n -> 0 <= n -> Z.testbit c n = false.
Proof.
  intros Hc Hn. apply Z.testbit_false; [exact Hn|].
  rewrite Z.div_small by exact Hc. reflexivity.
Qed.

Lemma testbit_three (n : Z) : 0 <= n -> Z.testbit 3 n = (n <? 2).
Proof.
  intros Hn. destruct (Z.ltb_spec n 2).
  - assert (n = 0 \/ n = 1) as [-> | ->] by lia; reflexivity.
  - apply testbit_above; [|lia].
    split; [lia|]. apply Z.lt_le_trans with (2 ^ 2); [reflexivity|].
    apply Z.pow_le_mono_r; lia.
Qed.

Lemma testbit_byte (n : Z) : 0 <= n -> Z.testbit 255 n = (n <? 8).
Proof.
  intros Hn. destruct (Z.ltb_spec n 8).
  - assert (n = 0 \/ n = 1 \/ n = 2 \/ n = 3 \/ n = 4 \/ n = 5 \/ n = 6 \/ n = 7)
      as [->|[->|[->|[->|[->|[->|[->| ->]]]]]]] by lia; reflexivity.
  - apply testbit_above; [|lia].
    split; [lia|]. apply Z.lt_le_trans with (2 ^ 8); [reflexivity|].
    apply Z.pow_le_mono_r; lia.
Qed.

Lemma testbit_op (op n : Z) : 0 <= op <= 3 -> 2 <= n -> Z.testbit op n = false.
Proof.
  intros Hop Hn. apply testbit_above; [|lia].
  split; [lia|]. apply Z.lt_le_trans with (2 ^ 2); [simpl; lia|].
  apply Z.pow_le_mono_r; lia.
Qed.

(** The slot [s] of a byte after [op] was stored in slot [s]. *)
Lemma slot_set_get (item op s : Z) :
  0 <= op <= 3 -> 0 <= s ->
  Z.shiftr
    (Z.land (Z.lor (Z.land item (Z.land (Z.lnot (Z.shiftl 3 s)) 255)) (Z.shiftl op s))
       (Z.shiftl 3 s)) s = op.
Proof.
  intros Hop Hs. apply Z.bits_inj'. intros n Hn.
  rewrite Z.shiftr_spec, Z.land_spec, Z.lor_spec, !Z.land_spec, Z.lnot_spec,
    !Z.shiftl_spec by lia.
  replace (n + s - s) with n by lia.
  rewrite testbit_three by lia.
  destruct (Z.ltb_spec n 2).
  - simpl. rewrite andb_false_r, andb_true_r. reflexivity.
  - rewrite andb_false_r. symmetry. apply testbit_op; lia.
Qed.

(** The slot [t] of a byte after [op] was stored in another slot [s]. *)
Lemma slot_set_get_other (item op s t : Z) :
  0 <= op <= 3 -> 0 <= s -> 0 <= t -> t + 2 <= 8 -> (s + 2 <= t \/ t + 2 <= s) ->
  Z.shiftr
    (Z.land (Z.lor (Z.land item (Z.land (Z.lnot (Z.shiftl 3 s)) 255)) (Z.shiftl op s))
       (Z.shiftl 3 t)) t
  = Z.shiftr (Z.land item (Z.shiftl 3 t)) t.
Proof.
  intros Hop Hs Ht Ht8 Hst. apply Z.bits_inj'. intros n Hn.
  rewrite !Z.shiftr_spec, !Z.land_spec, Z.lor_spec, !Z.land_spec, Z.lnot_spec,
    !Z.shiftl_spec by lia.
  replace (n + t - t) with n by lia.
  rewrite (testbit_three n), testbit_byte by lia.
  destruct (Z.ltb_spec n 2); [|rewrite !andb_false_r; reflexivity].
  rewrite !andb_true_r.
  destruct (Z.ltb_spec (n + t) 8); [|lia].
  rewrite andb_true_r.
  assert (H3 : Z.testbit 3 (n + t - s) = false).
  { destruct (Z_lt_le_dec (n + t - s) 0) as [Hneg|Hpos].
    - apply Z.testbit_neg_r. exact Hneg.
    - rewrite testbit_three by exact Hpos. apply Z.ltb_ge. lia. }
  assert (Hop' : Z.testbit op (n + t - s) = false).
  { destruct (Z_lt_le_dec (n + t - s) 0) as [Hneg|Hpos].
    - apply Z.testbit_neg_r. exact Hneg.
    - apply testbit_op; [exact Hop|lia]. }
  rewrite H3, Hop'. simpl. rewrite orb_false_r, andb_true_r. reflexivity.
Qed.

Lemma slot_shift (pos : nat) : 0 <= 2 * Z.of_nat (pos mod 4) /\ 2 * Z.of_nat (pos mod 4) + 2 <= 8.
Proof.
  pose proof (Nat.mod_upper_bound pos 4). lia.
Qed.

Lemma iff_getop_setop_same (list : Datatypes.list Z) (op : Z) (pos : nat) :
  0 <= op <= 3 -> (pos / 4 < length list)%nat ->
  iff_getop (iff_setop list op pos) pos = Some op.
Proof.
  intros Hop Hpos. unfold iff_getop, iff_setop.
  destruct (lookup_lt_is_Some_2 list (pos / 4)%nat Hpos) as [item Hitem].
  rewrite Hitem, list_lookup_insert_eq by exact Hpos. cbn [mbind option_bind].
  f_equal. apply slot_set_get; [exact Hop|apply slot_shift].
Qed.

Lemma iff_getop_setop_diff (list : Datatypes.list Z) (op : Z) (pos pos' : nat) :
  0 <= op <= 3 -> pos <> pos' ->
  iff_getop (iff_setop list op pos) pos' = iff_getop list pos'.
Proof.
  intros Hop Hne. unfold iff_getop, iff_setop.
  destruct (list !! (pos / 4)%nat) as [item|] eqn:Hitem; [|reflexivity].
  destruct (decide (pos / 4 = pos' / 4)%nat) as [Heq|Hbyte].
  - rewrite <- Heq, list_lookup_insert_eq by (eapply lookup_lt_Some; exact Hitem).
    rewrite Hitem. cbn [mbind option_bind]. f_equal.
    pose proof (slot_shift pos). pose proof (slot_shift pos').
    apply slot_set_get_other; try lia.
    assert (pos mod 4 <> pos' mod 4)%nat.
    { intros Hm. apply Hne.
      rewrite (Nat.div_mod_eq pos 4), (Nat.div_mod_eq pos' 4). congruence. }
    lia.
  - rewrite list_lookup_insert_ne by exact Hbyte. reflexivity.
Qed.

Lemma iff_setop_length (list : Datatypes.list Z) (op : Z) (pos : nat) :
  length (iff_setop list op pos) = length list.
Proof.
  unfold iff_setop. destruct (list !! (pos / 4)%nat); [apply length_insert|reflexivity].
Qed.

(** ** Relations that the flips of the enabled bit respect *)

Section Pointwise.
Variable R : lysc_feature -> lysc_feature -> Prop.
Hypothesis R_refl : forall f, R f f.
Hypothesis R_trans : forall f g h, R f g -> R g h -> R f h.
Hypothesis R_set : forall f, R f (set_enabled f).
Hypothesis R_clear : forall f, R f (clear_enabled f).

Lemma pointwise_refl (st : store) : Forall2 R st st.
Proof. induction st; constructor; auto. Qed.

Lemma pointwise_trans (st1 st2 st3 : store) :
  Forall2 R st1 st2 -> Forall2 R st2 st3 -> Forall2 R st1 st3.
Proof.
  intros H12. revert st3. induction H12; intros st3 H23; inversion H23; subst;
    constructor; eauto.
Qed.

Lemma pointwise_alter (st : store) p g :
  (forall f, R f (g f)) -> Forall2 R st (alter g p st).
Proof.
  intros Hg. revert p. induction st as [|f st IH]; intros p; [constructor|].
  destruct p as [|p]; cbn; constructor; auto using pointwise_refl.
Qed.

Lemma pointwise_feature_run all name value : forall fs st changed dc r,
  feature_run all name value fs st changed dc = Some r ->
  Forall2 R st (run_store r).
Proof.
  induction fs as [|p fs IH]; intros st changed dc r H.
  { injection H as <-. apply pointwise_refl. }
  cbn [feature_run] in H.
  destruct (st !! p) as [f|]; [|discriminate]. cbn [mbind option_bind] in H.
  destruct (all || String.eqb (f_name f) name); [|eauto].
  destruct ((negb (value =? 0) && feature_enabled f)
            || ((value =? 0) && negb (feature_enabled f))).
  { destruct all; [eauto|]. injection H as <-. apply pointwise_refl. }
  destruct (negb (value =? 0)).
  - destruct (iffeatures_enabled st (f_iffeatures f)) as [[]|];
      cbn [mbind option_bind] in H; [| |discriminate].
    + destruct all.
      * eapply pointwise_trans; [apply pointwise_alter, R_set|eauto].
      * injection H as <-. apply pointwise_alter, R_set.
    + destruct all; [eauto|]. injection H as <-. apply pointwise_refl.
  - destruct all.
    + eapply pointwise_trans; [apply pointwise_alter, R_clear|eauto].
    + injection H as <-. apply pointwise_alter, R_clear.
Qed.

Lemma pointwise_restore changed : forall st, Forall2 R st (restore_changed st changed).
Proof.
  unfold restore_changed. induction changed as [|p changed IH]; intros st.
  { apply pointwise_refl. }
  cbn [foldl]. eapply pointwise_trans; [apply pointwise_alter, R_clear|apply IH].
Qed.

Lemma pointwise_reflect_deps : forall dfs st changed st' changed',
  reflect_deps st changed dfs = Some (st', changed') -> Forall2 R st st'.
Proof.
  induction dfs as [|df dfs IH]; intros st changed st' changed' H.
  { injection H as <- <-. apply pointwise_refl. }
  cbn [reflect_deps] in H.
  destruct (st !! df) as [d|]; [|discriminate]. cbn [mbind option_bind] in H.
  destruct (negb (feature_enabled d)); [eauto|].
  destruct (iffeatures_enabled st (f_iffeatures d)) as [[]|];
    cbn [mbind option_bind] in H; [eauto| |discriminate].
  eapply pointwise_trans; [apply pointwise_alter, R_clear|eauto].
Qed.

Lemma pointwise_reflect_changes : forall fuel st changed u st' changed',
  reflect_changes fuel st changed u = Some (st', changed') -> Forall2 R st st'.
Proof.
  induction fuel as [|fuel IH]; intros st changed u st' changed' H; [discriminate|].
  cbn [reflect_changes] in H.
  destruct (changed !! u) as [p|].
  - destruct (st !! p) as [f|]; [|discriminate]. cbn [mbind option_bind] in H.
    destruct (reflect_deps st changed (f_depfeatures f)) as [[st1 changed1]|] eqn:Hdeps;
      [|discriminate].
    cbn [mbind option_bind] in H.
    eapply pointwise_trans; [eapply pointwise_reflect_deps; eassumption|eauto].
  - injection H as <- <-. apply pointwise_refl.
Qed.

Lemma pointwise_feature_change_runs all name value fs :
  forall fuel st changed cc e st' changed',
  feature_change_runs fuel all name value fs st changed cc = Some (e, st', changed') ->
  Forall2 R st st'.
Proof.
  induction fuel as [|fuel IH]; intros st changed cc e st' changed' H; [discriminate|].
  cbn [feature_change_runs] in H.
  destruct (feature_run all name value fs st changed 0) as [r|] eqn:Hrun; [|discriminate].
  apply pointwise_feature_run in Hrun. cbn [mbind option_bind] in H.
  destruct r as [e0 st0|st1 changed1 dc]; cbn [run_store] in Hrun.
  { injection H as <- <- <-. exact Hrun. }
  destruct (negb all && (length changed1 =? 0)%nat).
  { injection H as <- <- <-. exact Hrun. }
  destruct (negb (value =? 0) && all && negb (dc =? 0)%nat).
  - destruct (cc =? length changed1)%nat.
    + injection H as <- <- <-.
      eapply pointwise_trans; [exact Hrun|apply pointwise_restore].
    + eapply pointwise_trans; [exact Hrun|eauto].
  - destruct (reflect_changes _ st1 changed1 0) as [[st2 changed2]|] eqn:Hrefl;
      [|discriminate].
    cbn [mbind option_bind] in H. injection H as <- <- <-.
    eapply pointwise_trans; [exact Hrun|eapply pointwise_reflect_changes; eassumption].
Qed.

Lemma pointwise_lys_feature_change_set st c name value e st' changed :
  lys_feature_change_set st c name value = Some (e, st', changed) -> Forall2 R st st'.
Proof.
  unfold lys_feature_change_set. intros H.
  destruct (mod_features c).
  - injection H as <- <- <-. apply pointwise_refl.
  - eapply pointwise_feature_change_runs; eassumption.
Qed.
End Pointwise.

(** ** Only the enabled bit changes *)

Lemma other_flags_set f : other_flags (set_enabled f) = other_flags f.
Proof.
  unfold other_flags, set_enabled. cbn [f_flags].
  apply Z.bits_inj'. intros n Hn.
  rewrite !Z.land_spec, Z.lor_spec, Z.lnot_spec by exact Hn.
  destruct (Z.testbit (f_flags f) n), (Z.testbit LYS_FENABLED n); reflexivity.
Qed.

Lemma other_flags_clear f : other_flags (clear_enabled f) = other_flags f.
Proof. unfold other_flags, clear_enabled. cbn [f_flags]. apply land_lnot_idem. Qed.

Lemma enabled_bit_only_refl f : enabled_bit_only f f.
Proof. split; [apply static_eq_refl|reflexivity]. Qed.

Lemma enabled_bit_only_trans f g h :
  enabled_bit_only f g -> enabled_bit_only g h -> enabled_bit_only f h.
Proof.
  intros [? ?] [? ?]. split; [eapply static_eq_trans; eassumption|congruence].
Qed.

Lemma enabled_bit_only_set f : enabled_bit_only f (set_enabled f).
Proof. split; [repeat split|symmetry; apply other_flags_set]. Qed.

Lemma enabled_bit_only_clear f : enabled_bit_only f (clear_enabled f).
Proof. split; [repeat split|symmetry; apply other_flags_clear]. Qed.

Lemma lys_feature_change_set_bits st c name value e st' changed :
  lys_feature_change_set st c name value = Some (e, st', changed) ->
  Forall2 enabled_bit_only st st'.
Proof.
  apply pointwise_lys_feature_change_set;
    auto using enabled_bit_only_refl, enabled_bit_only_set, enabled_bit_only_clear.
  apply enabled_bit_only_trans.
Qed.

Lemma lys_feature_change_set_shape st c name value e st' changed :
  lys_feature_change_set st c name value = Some (e, st', changed) -> same_shape st st'.
Proof.
  intros H. apply lys_feature_change_set_bits in H.
  eapply Forall2_impl; [exact H|]. intros f g [? _]. assumption.
Qed.

Lemma lys_feature_change_inv st c name value e st' :
  lys_feature_change st c name value = Some (e, st') ->
  exists changed, lys_feature_change_set st c name value = Some (e, st', changed).
Proof.
  unfold lys_feature_change. intros H.
  destruct (lys_feature_change_set st c name value) as [[[e0 st0] changed]|];
    [|discriminate].
  cbn [mbind option_bind] in H. injection H as <- <-. eauto.
Qed.

(** ** Named features after a change *)

Lemma feature_named_shape st st' fs name p f f' :
  same_shape st st' -> feature_named st fs name = Some (p, f) ->
  st' !! p = Some f' -> feature_named st' fs name = Some (p, f').
Proof.
  intros Hsh. induction fs as [|q fs IH]; intros H Hp; [discriminate|].
  cbn [feature_named] in *.
  destruct (st !! q) as [g|] eqn:Hq; [|discriminate].
  destruct (same_shape_lookup _ _ _ _ Hsh Hq) as (g' & Hq' & Hn & _).
  rewrite Hq', <- Hn.
  destruct (String.eqb (f_name g) name); [|auto].
  injection H as -> ->. congruence.
Qed.

Lemma deps_forward_shape st st' : same_shape st st' -> deps_forward st -> deps_forward st'.
Proof.
  intros Hsh Hfw r fr d Hr Hd.
  destruct (same_shape_lookup _ _ _ _ (same_shape_sym _ _ Hsh) Hr) as (f0 & Hr0 & _ & _ & Hdeps).
  apply (Hfw r f0 d Hr0). rewrite <- Hdeps. exact Hd.
Qed.

(** The loop over dependents leaves alone what is not a dependent. *)
Lemma reflect_deps_untouched p : forall dfs st changed st' changed',
  p ∉ dfs -> reflect_deps st changed dfs = Some (st', changed') -> st' !! p = st !! p.
Proof.
  induction dfs as [|df dfs IH]; intros st changed st' changed' Hp H.
  { injection H as <- <-. reflexivity. }
  apply not_elem_of_cons in Hp as [Hne Hp].
  cbn [reflect_deps] in H.
  destruct (st !! df) as [d|]; [|discriminate]. cbn [mbind option_bind] in H.
  destruct (negb (feature_enabled d)); [eauto|].
  destruct (iffeatures_enabled st (f_iffeatures d)) as [[]|];
    cbn [mbind option_bind] in H; [eauto| |discriminate].
  rewrite (IH _ _ _ _ Hp H). apply list_lookup_alter_ne. congruence.
Qed.

(** With forward back-links, reflecting the changes of features at or
    behind [p] leaves [p] alone. *)
Lemma reflect_changes_untouched p : forall fuel st changed u st' changed',
  deps_forward st -> Forall (fun q => (p <= q)%nat) changed ->
  reflect_changes fuel st changed u = Some (st', changed') -> st' !! p = st !! p.
Proof.
  induction fuel as [|fuel IH]; intros st changed u st' changed' Hfw Hge H; [discriminate|].
  cbn [reflect_changes] in H.
  destruct (changed !! u) as [q|] eqn:Hu.
  - destruct (st !! q) as [f|] eqn:Hq; [|discriminate]. cbn [mbind option_bind] in H.
    destruct (reflect_deps st changed (f_depfeatures f)) as [[st1 changed1]|] eqn:Hdeps;
      [|discriminate].
    cbn [mbind option_bind] in H.
    assert (Hpq : (p <= q)%nat).
    { eapply (proj1 (Forall_forall _ _) Hge). eapply list_elem_of_lookup_2. exact Hu. }
    assert (Hnot : p ∉ f_depfeatures f).
    { intros Hin. pose proof (Hfw q f p Hq Hin). lia. }
    destruct (reflect_deps_done _ _ _ _ _ Hdeps) as (Hsh & _ & added & -> & Hsub & _).
    rewrite <- (reflect_deps_untouched p _ _ _ _ _ Hnot Hdeps).
    apply (IH _ _ _ _ _ (deps_forward_shape _ _ Hsh Hfw)) in H; [exact H|].
    apply Forall_app. split; [exact Hge|].
    apply Forall_forall. intros d Hd. pose proof (Hfw q f d Hq (Hsub d Hd)). lia.
  - injection H as <- <-. reflexivity.
Qed.

(** Disabling all: a run with value 0 leaves every feature it went
    through disabled. *)
Lemma feature_run_disable_all name : forall fs st changed dc st' changed' dc',
  feature_run true name 0 fs st changed dc = Some (RunDone st' changed' dc') ->
  Forall (fun p => exists f, st' !! p = Some f /\ feature_enabled f = false) fs.
Proof.
  induction fs as [|p fs IH]; intros st changed dc st' changed' dc' H; [constructor|].
  assert (Hlater : forall st1 ch1 dc1 f1,
    st1 !! p = Some f1 -> feature_enabled f1 = false ->
    feature_run true name 0 fs st1 ch1 dc1 = Some (RunDone st' changed' dc') ->
    exists f, st' !! p = Some f /\ feature_enabled f = false).
  { intros st1 ch1 dc1 f1 Hf1 Hoff Hrun.
    destruct (feature_run_done _ _ _ _ _ _ _ _ _ _ Hrun) as (Hsh & _ & Hkept).
    destruct (same_shape_lookup _ _ _ _ Hsh Hf1) as (f' & Hf' & _).
    exists f'. split; [exact Hf'|].
    destruct (feature_enabled f') eqn:Hon; [|reflexivity].
    destruct (Hkept p f' Hf' Hon) as [(f0 & Hf0 & Hon0)|(Hv & _)]; [congruence|].
    exfalso. apply Hv. reflexivity. }
  cbn [feature_run] in H.
  destruct (st !! p) as [f|] eqn:Hp; [|discriminate]. cbn [mbind option_bind orb] in H.
  change (0 =? 0) with true in H. cbn [negb andb orb] in H.
  destruct (feature_enabled f) eqn:Hon; cbn [negb] in H.
  - constructor; [|eauto].
    eapply Hlater; [|apply feature_enabled_clear|exact H].
    rewrite list_lookup_alter_eq, Hp. reflexivity.
  - constructor; eauto.
Qed.

(** The error codes of a change: [LY_EINVAL] and, when enabling,
    [LY_EDENIED]. *)
Lemma feature_change_runs_codes all name value fs :
  forall fuel st changed cc e st' changed',
  feature_change_runs fuel all name value fs st changed cc = Some (e, st', changed') ->
  e = LY_SUCCESS \/ e = LY_EINVAL \/ (e = LY_EDENIED /\ value <> 0).
Proof.
  induction fuel as [|fuel IH]; intros st changed cc e st' changed' H; [discriminate|].
  cbn [feature_change_runs] in H.
  destruct (feature_run all name value fs st changed 0) as [[e0 st0|st1 changed1 dc]|] eqn:Hrun;
    cbn [mbind option_bind] in H; [| |discriminate].
  { injection H as <- <- <-. clear IH. revert st changed Hrun.
    generalize 0%nat as dc.
    induction fs as [|p fs IHfs]; intros dc st changed Hrun; [discriminate|].
    cbn [feature_run] in Hrun.
    destruct (st !! p) as [f|]; [|discriminate]. cbn [mbind option_bind] in Hrun.
    destruct (all || String.eqb (f_name f) name); [|eauto].
    destruct ((negb (value =? 0) && feature_enabled f)
              || ((value =? 0) && negb (feature_enabled f))).
    { destruct all; [eauto|]. injection Hrun as <- <-. auto. }
    destruct (negb (value =? 0)) eqn:Hv.
    - destruct (iffeatures_enabled st (f_iffeatures f)) as [[]|];
        cbn [mbind option_bind] in Hrun; [| |discriminate].
      + destruct all; [eauto|discriminate].
      + destruct all; [eauto|]. injection Hrun as <- <-. right. right.
        split; [reflexivity|]. intros ->. discriminate.
    - destruct all; [eauto|discriminate]. }
  destruct (negb all && (length changed1 =? 0)%nat).
  { injection H as <- <- <-. auto. }
  destruct (negb (value =? 0) && all && negb (dc =? 0)%nat) eqn:Hmode.
  - destruct (cc =? length changed1)%nat; [|eauto].
    injection H as <- <- <-. right. right. split; [reflexivity|].
    intros ->. discriminate.
  - destruct (reflect_changes _ st1 changed1 0) as [[st2 changed2]|]; [|discriminate].
    cbn [mbind option_bind] in H. injection H as <- <- <-. auto.
Qed.

Lemma reflect_changes_enough st changed :
  wf_store st -> valid_ptrs st changed ->
  exists st' changed',
    reflect_changes (S (length changed + length st)) st changed 0 = Some (st', changed') /\
    same_shape st st'.
Proof.
  intros Hwf Hval. apply reflect_changes_total; [exact Hwf|exact Hval|].
  pose proof (count_enabled_le st). lia.
Qed.

(** ** Completeness of the check against the base *)

Lemma bound_lt_key uns a b : bound_lt uns a b = (key uns a <? key uns b).
Proof. destruct uns; reflexivity. Qed.

Lemma to_u64_s64 a :
  in_s64 a = true -> to_u64 a = if a <? 0 then a + 2 ^ 64 else a.
Proof.
  unfold in_s64, to_u64. intros [Hlo Hhi]%andb_true_iff.
  apply Z.leb_le in Hlo. apply Z.ltb_lt in Hhi.
  destruct (Z.ltb_spec a 0).
  - symmetry. apply Z.mod_unique with (q := -1); lia.
  - apply Z.mod_small. lia.
Qed.

Lemma key_inj uns a b :
  in_s64 a = true -> in_s64 b = true -> key uns a = key uns b -> a = b.
Proof.
  intros Ha Hb. destruct uns; cbn [key]; [|auto].
  rewrite (to_u64_s64 a Ha), (to_u64_s64 b Hb).
  unfold in_s64 in Ha, Hb.
  apply andb_true_iff in Ha as [Ha1 Ha2]. apply andb_true_iff in Hb as [Hb1 Hb2].
  apply Z.leb_le in Ha1, Hb1. apply Z.ltb_lt in Ha2, Hb2.
  destruct (Z.ltb_spec a 0), (Z.ltb_spec b 0); lia.
Qed.

Lemma parts_regular_cons uns p rest :
  parts_regular uns (p :: rest) = true ->
  in_s64 (min_64 p) = true /\ in_s64 (max_64 p) = true /\
  key uns (min_64 p) <= key uns (max_64 p) /\
  (forall q rest', rest = q :: rest' -> key uns (max_64 p) < key uns (min_64 q)) /\
  parts_regular uns rest = true.
Proof.
  cbn [parts_regular]. rewrite !andb_true_iff, negb_true_iff, bound_lt_key.
  intros ((((H1 & H2) & H3) & H4) & H5). apply Z.ltb_ge in H3.
  split_and!; auto. intros q rest' ->. rewrite bound_lt_key in H4.
  apply Z.ltb_lt. exact H4.
Qed.

Lemma parts_regular_lookup uns : forall ps i p,
  parts_regular uns ps = true -> ps !! i = Some p ->
  in_s64 (min_64 p) = true /\ in_s64 (max_64 p) = true /\
  key uns (min_64 p) <= key uns (max_64 p).
Proof.
  induction ps as [|a ps IH]; intros i p Hreg Hp; [discriminate|].
  destruct (parts_regular_cons _ _ _ Hreg) as (? & ? & ? & _ & Hrest).
  destruct i as [|i]; [injection Hp as <-; auto|]. eapply IH; eassumption.
Qed.

Lemma parts_regular_after uns : forall rest a j q,
  parts_regular uns (a :: rest) = true -> rest !! j = Some q ->
  key uns (max_64 a) < key uns (min_64 q).
Proof.
  induction rest as [|b rest IH]; intros a j q Hreg Hq; [discriminate|].
  destruct (parts_regular_cons _ _ _ Hreg) as (_ & _ & _ & Hnext & Hrest).
  pose proof (Hnext b rest eq_refl) as Hab.
  destruct j as [|j]; [injection Hq as <-; exact Hab|].
  pose proof (IH b j q Hrest Hq).
  destruct (parts_regular_cons _ _ _ Hrest) as (_ & _ & ? & _). lia.
Qed.

Lemma parts_regular_order uns : forall ps i j p q,
  parts_regular uns ps = true -> (i < j)%nat ->
  ps !! i = Some p -> ps !! j = Some q ->
  key uns (max_64 p) < key uns (min_64 q).
Proof.
  induction ps as [|a ps IH]; intros i j p q Hreg Hij Hp Hq; [discriminate|].
  destruct j as [|j]; [lia|]. destruct i as [|i].
  - injection Hp as <-. eapply parts_regular_after; eassumption.
  - destruct (parts_regular_cons _ _ _ Hreg) as (_ & _ & _ & _ & Hrest).
    apply (IH i j p q Hrest); [lia|assumption|assumption].
Qed.

Lemma part_within_key uns p b :
  part_within uns p b <->
  key uns (min_64 b) <= key uns (min_64 p) /\ key uns (max_64 p) <= key uns (max_64 b).
Proof.
  unfold part_within. rewrite !bound_lt_key, !Z.ltb_ge. reflexivity.
Qed.

Lemma walk_inv_next uns parts base u v :
  walk_inv uns parts base u v -> walk_inv uns parts base (S u) v.
Proof. intros H i p Hi. apply H. lia. Qed.

Lemma walk_inv_skip uns parts base u v b :
  walk_inv uns parts base u v -> base !! v = Some b ->
  (forall i p, (u <= i)%nat -> parts !! i = Some p -> ~ part_within uns p b) ->
  walk_inv uns parts base u (S v).
Proof.
  intros H Hb Hnot i p Hi Hp.
  destruct (H i p Hi Hp) as (j & b' & Hj & Hb' & Hw).
  destruct (decide (j = v)) as [->|Hne].
  - exfalso. rewrite Hb in Hb'. injection Hb' as <-. eapply Hnot; eassumption.
  - exists j, b'. split_and!; auto. lia.
Qed.

(** A part at or behind index [u] is the part at [u] or lies above it. *)
Lemma parts_regular_later uns parts u p i pi :
  parts_regular uns parts = true -> parts !! u = Some p ->
  (u <= i)%nat -> parts !! i = Some pi ->
  key uns (min_64 pi) <= key uns (max_64 pi) /\
  (pi = p \/ key uns (max_64 p) < key uns (min_64 pi)).
Proof.
  intros Hreg Hp Hi Hpi.
  destruct (parts_regular_lookup _ _ _ _ Hreg Hpi) as (_ & _ & Hle).
  split; [exact Hle|].
  destruct (decide (i = u)) as [->|Hne]; [left; congruence|right].
  eapply (parts_regular_order uns parts u i); try eassumption. lia.
Qed.

Lemma range_base_walk_complete uns parts base :
  parts_regular uns parts = true -> parts_regular uns base = true ->
  forall fuel u v,
  (u <= length parts)%nat ->
  ((length parts - u) + (length base - v) < fuel)%nat ->
  walk_inv uns parts base u v ->
  range_base_walk fuel uns parts base (length parts) u v = Some (Some (length parts)).
Proof.
  intros Hregp Hregb.
  induction fuel as [|fuel IH]; intros u v Hu Hfuel Hinv; [lia|].
  cbn [range_base_walk].
  destruct (Nat.ltb_spec u (length parts)) as [Hlt|Hge].
  2:{ cbn [andb]. repeat f_equal. lia. }
  destruct (lookup_lt_is_Some_2 parts u Hlt) as [p Hp].
  destruct (Hinv u p (le_n u) Hp) as (j & bj & Hj & Hbj & Hwj).
  pose proof (lookup_lt_Some _ _ _ Hbj) as Hjlt.
  assert (Hvlt : (v < length base)%nat) by lia.
  destruct (lookup_lt_is_Some_2 base v Hvlt) as [b Hb].
  apply Nat.ltb_lt in Hvlt. rewrite Hvlt. cbn [andb].
  rewrite Hp, Hb. cbn [mbind option_bind].
  destruct (parts_regular_lookup _ _ _ _ Hregp Hp) as (Hp1 & Hp2 & Hple).
  destruct (parts_regular_lookup _ _ _ _ Hregb Hb) as (Hb1 & Hb2 & Hble).
  apply part_within_key in Hwj. destruct Hwj as [Hwj1 Hwj2].
  assert (Hjv : bj = b \/ key uns (max_64 b) < key uns (min_64 bj)).
  { destruct (decide (j = v)) as [->|Hne]; [left; congruence|right].
    eapply (parts_regular_order uns base v j); try eassumption. lia. }
  destruct (parts_regular_lookup _ _ _ _ Hregb Hbj) as (_ & _ & Hbjle).
  assert (Hskip : (forall i pi, (u <= i)%nat -> parts !! i = Some pi ->
                     ~ (key uns (min_64 b) <= key uns (min_64 pi) /\
                        key uns (max_64 pi) <= key uns (max_64 b))) ->
            range_base_walk fuel uns parts base (length parts) u (S v)
            = Some (Some (length parts))).
  { intros Hnot. apply IH; [lia|lia|].
    eapply walk_inv_skip; [exact Hinv|exact Hb|].
    intros i pi Hi Hpi Hw. apply part_within_key in Hw. eapply Hnot; eassumption. }
  assert (Hnext : range_base_walk fuel uns parts base (length parts) (S u) v
                  = Some (Some (length parts))).
  { apply IH; [lia|lia|]. apply walk_inv_next. exact Hinv. }
  assert (Hlater := fun i pi => parts_regular_later uns parts u p i pi Hregp Hp).
  rewrite !bound_lt_key.
  destruct (Z.ltb_spec (key uns (min_64 p)) (key uns (min_64 b))) as [Hmin|Hmin].
  { exfalso. destruct Hjv as [->|?]; lia. }
  destruct (Z.eqb_spec (min_64 b) (max_64 b)) as [Hbs|Hbs].
  - destruct (Z.eqb_spec (min_64 b) (min_64 p)) as [Hbp|Hbp].
    + assert (bj = b) as -> by (destruct Hjv as [->|?]; [reflexivity|]; 
        rewrite <- Hbs, Hbp in *; lia).
      assert (Hps : min_64 p = max_64 p).
      { apply (key_inj uns); auto. rewrite <- Hbs, Hbp in *. lia. }
      rewrite Hps, Z.eqb_refl. cbn [negb].
      apply IH; [lia|lia|].
      eapply walk_inv_skip; [apply walk_inv_next; exact Hinv|exact Hb|].
      intros i pi Hi Hpi Hw. apply part_within_key in Hw.
      destruct (Hlater i pi (Nat.lt_le_incl _ _ Hi) Hpi) as (? & [->|?]).
      * pose proof (parts_regular_order uns parts u i p p Hregp Hi Hp Hpi). lia.
      * rewrite <- Hbs, Hbp, Hps in *. lia.
    + apply Hskip. intros i pi Hi Hpi [Hw1 Hw2].
      destruct (Hlater i pi Hi Hpi) as (? & [->|?]).
      * apply Hbp. apply (key_inj uns); auto. rewrite <- Hbs in *. lia.
      * rewrite <- Hbs in *. lia.
  - assert (Hbk : key uns (min_64 b) < key uns (max_64 b)).
    { destruct (Z.eq_dec (key uns (min_64 b)) (key uns (max_64 b))) as [He|Hne]; [|lia].
      exfalso. apply Hbs. apply (key_inj uns); auto. }
    destruct (Z.eqb_spec (min_64 p) (max_64 p)) as [Hps|Hps].
    + destruct (Z.ltb_spec (key uns (max_64 b)) (key uns (max_64 p))) as [Hmax|Hmax];
        [|exact Hnext].
      apply Hskip. intros i pi Hi Hpi [Hw1 Hw2].
      destruct (Hlater i pi Hi Hpi) as (? & [->|?]); lia.
    + destruct (Z.ltb_spec (key uns (max_64 b)) (key uns (max_64 p))) as [Hmax|Hmax];
        [|exact Hnext].
      destruct (Z.ltb_spec (key uns (max_64 b)) (key uns (min_64 p))) as [Hmm|Hmm].
      * apply Hskip. intros i pi Hi Hpi [Hw1 Hw2].
        destruct (Hlater i pi Hi Hpi) as (? & [->|?]); lia.
      * exfalso. destruct Hjv as [->|?]; lia.
Qed.

(** ** Values of enumerations and order of bits *)

Lemma to_s32_bounds x : - 2 ^ 31 <= to_s32 x < 2 ^ 31.
Proof.
  unfold to_s32. pose proof (Z.mod_pos_bound x (2 ^ 32) eq_refl).
  destruct (Z.ltb_spec (x mod 2 ^ 32) (2 ^ 31)); lia.
Qed.

Lemma to_s32_id x : - 2 ^ 31 <= x < 2 ^ 31 -> to_s32 x = x.
Proof.
  intros Hx. unfold to_s32.
  destruct (Z_lt_le_dec x 0) as [Hneg|Hpos].
  - rewrite <- (Z.mod_unique x (2 ^ 32) (-1) (x + 2 ^ 32)) by lia.
    destruct (Z.ltb_spec (x + 2 ^ 32) (2 ^ 31)); lia.
  - rewrite Z.mod_small by lia.
    destruct (Z.ltb_spec x (2 ^ 31)); lia.
Qed.

Lemma StronglySorted_lookup {A : Type} (R : relation A) (l : list A) :
  StronglySorted R l ->
  forall i j x y, (i < j)%nat -> l !! i = Some x -> l !! j = Some y -> R x y.
Proof.
  induction 1 as [|a l Hs IH Hall]; intros i j x y Hij Hx Hy; [discriminate|].
  destruct j as [|j]; [lia|]. destruct i as [|i].
  - injection Hx as <-. eapply (proj1 (Forall_forall _ _) Hall).
    eapply list_elem_of_lookup_2. exact Hy.
  - apply (IH i j); [lia|assumption|assumption].
Qed.

Lemma value_collides_false {X : Type} (enums : list (@lysc_type_enum_item X)) v :
  value_collides enums v = false -> v ∉ map item_value enums.
Proof.
  unfold value_collides. induction enums as [|x enums IH]; cbn [existsb map].
  - intros _. apply not_elem_of_nil.
  - intros [Hx Hrest]%orb_false_iff. apply Z.eqb_neq in Hx.
    apply not_elem_of_cons. auto.
Qed.

(** Where the loop "keep bits ordered by position" stops. *)
Lemma bit_insert_index_spec {X : Type} (enums : list (@lysc_type_enum_item X)) v :
  forall n, (n <= length enums)%nat ->
  (bit_insert_index enums v n <= n)%nat /\
  (forall i y, (bit_insert_index enums v n <= i < n)%nat -> enums !! i = Some y ->
     v < item_value y) /\
  (bit_insert_index enums v n = 0%nat \/
   exists y, enums !! (bit_insert_index enums v n - 1)%nat = Some y /\ item_value y <= v).
Proof.
  induction n as [|n IH]; intros Hn; cbn [bit_insert_index].
  { split_and!; [lia| |auto]. intros i y Hi. lia. }
  destruct (lookup_lt_is_Some_2 enums n) as [x Hx]; [lia|]. rewrite Hx.
  destruct (Z.ltb_spec v (item_value x)) as [Hlt|Hge].
  - destruct IH as (Hle & Habove & Hbelow); [lia|]. split_and!; [lia| |exact Hbelow].
    intros i y Hi Hy. destruct (decide (i = n)) as [->|Hne].
    + congruence.
    + apply (Habove i y); [lia|exact Hy].
  - split_and!; [lia| |].
    + intros i y Hi. lia.
    + right. exists x. replace (S n - 1)%nat with n by lia. auto.
Qed.

Lemma bit_insert_sorted {X : Type} (l : list (@lysc_type_enum_item X)) x :
  StronglySorted value_le l ->
  StronglySorted value_le
    (take (bit_insert_index l (item_value x) (length l)) l
     ++ x :: drop (bit_insert_index l (item_value x) (length l)) l).
Proof.
  intros Hsorted.
  destruct (bit_insert_index_spec l (item_value x) (length l) (le_n _))
    as (Hk & Habove & Hbelow).
  set (k := bit_insert_index l (item_value x) (length l)) in *.
  pose proof Hsorted as Hparts. rewrite <- (take_drop k l) in Hparts.
  apply StronglySorted_app in Hparts as (Hcross & Hs1 & Hs2).
  apply StronglySorted_app_2; [|exact Hs1|].
  - intros x1 x2 H1 H2. apply elem_of_cons in H2 as [->|H2]; [|auto].
    apply list_elem_of_lookup_1 in H1 as [i Hi].
    pose proof (lookup_lt_Some _ _ _ Hi) as Hlen. rewrite length_take in Hlen.
    rewrite lookup_take_lt in Hi by lia.
    destruct Hbelow as [Hz|(y & Hy & Hle)]; [lia|].
    unfold value_le. destruct (decide (i = k - 1)%nat) as [->|Hne].
    + rewrite Hy in Hi. injection Hi as <-. exact Hle.
    + pose proof (StronglySorted_lookup _ _ Hsorted i (k - 1)%nat x1 y) as Hxy.
      unfold value_le in Hxy. specialize (Hxy ltac:(lia) Hi Hy). lia.
  - constructor; [exact Hs2|].
    apply Forall_lookup. intros i y Hy. rewrite lookup_drop in Hy.
    unfold value_le. pose proof (lookup_lt_Some _ _ _ Hy).
    specialize (Habove (k + i)%nat y ltac:(lia) Hy). lia.
Qed.

Section EnumMore.
Variables lysp_ext_instance lysc_ext_instance : Type.
Variable lys_compile_iffeature : string -> LY_ERR * lysc_iffeature.
Variable lys_compile_ext : lysp_ext_instance -> LY_ERR * lysc_ext_instance.

Abbreviation item := (@lysc_type_enum_item lysc_ext_instance).
Abbreviation parsed := (@lysp_type_enum lysp_ext_instance).
Abbreviation compile_item := (compile_enum_item lys_compile_iffeature lys_compile_ext).
Abbreviation compile_items := (compile_enum_items lys_compile_iffeature lys_compile_ext).

(** A compiled bit goes where the loop over the positions stops. *)
Lemma compile_enum_item_bits (base : list item) s (e : parsed) s' :
  compile_item LY_TYPE_BITS base s e = (LY_SUCCESS, s') ->
  exists x,
    st_enums s' =
      take (bit_insert_index (st_enums s) (item_value x) (length (st_enums s))) (st_enums s)
      ++ x :: drop (bit_insert_index (st_enums s) (item_value x) (length (st_enums s)))
                (st_enums s).
Proof.
  unfold compile_enum_item. intros H.
  destruct (negb (length base =? 0)%nat
            && (base_enum_index base (enum_name e) =? length base)%nat);
    [discriminate|].
  match type of H with
  | (match ?a with _ => _ end) = _ => destruct a as [[[v value] position]|]
  end; [|discriminate].
  match type of H with
  | (if ?a then _ else _) = _ => destruct a
  end; [discriminate|].
  destruct (compile_array lys_compile_iffeature (enum_iffeatures e)) as [[] iffs];
    try discriminate.
  destruct (compile_array lys_compile_ext (enum_exts e)) as [[] exts];
    try discriminate.
  injection H as <-. cbn [st_enums].
  exists (mk_lysc_type_enum_item (enum_name e) iffs exts v). reflexivity.
Qed.

Lemma compile_enum_items_bits_sorted (base : list item) :
  forall (enums_p : list parsed) s s',
  compile_items LY_TYPE_BITS base s enums_p = (LY_SUCCESS, s') ->
  StronglySorted value_le (st_enums s) -> StronglySorted value_le (st_enums s').
Proof.
  induction enums_p as [|e enums_p IH]; intros s s' H Hs.
  - injection H as <-. exact Hs.
  - cbn [compile_enum_items] in H.
    destruct (compile_item LY_TYPE_BITS base s e) as [ret s1] eqn:Hitem.
    destruct (decide (ret = LY_SUCCESS)) as [->|Hne];
      [|destruct ret; try congruence; injection H; discriminate].
    apply (IH _ _ H).
    destruct (compile_enum_item_bits _ _ _ _ Hitem) as [x ->].
    apply bit_insert_sorted. exact Hs.
Qed.

(** The value of an item of an enumeration without base type, and the
    counter after it. *)
Lemma compile_enum_item_enum_nobase s (e : parsed) s' :
  compile_item LY_TYPE_ENUM [] s e = (LY_SUCCESS, s') ->
  exists x, item_name x = enum_name e /\ st_enums s' = st_enums s ++ [x] /\
    ((Z.land (enum_flags e) LYS_SET_VALUE <> 0 /\
      item_value x = to_s32 (enum_value e) /\
      value_collides (st_enums s) (item_value x) = false /\
      st_value s' = if (length (st_enums s) =? 0)%nat || (st_value s <=? item_value x)
                    then to_s32 (item_value x + 1) else st_value s)
     \/
     (Z.land (enum_flags e) LYS_SET_VALUE = 0 /\
      item_value x = st_value s /\
      (length (st_enums s) = 0%nat \/ st_value s <> INT32_MIN) /\
      st_value s' = to_s32 (st_value s + 1))).
Proof.
  unfold compile_enum_item. cbn [length Nat.eqb negb andb lookup]. intros H.
  destruct (Z.eqb_spec (Z.land (enum_flags e) LYS_SET_VALUE) 0) as [Hflag|Hflag];
    cbn [negb] in H.
  - destruct (negb (length (st_enums s) =? 0)%nat && (st_value s =? INT32_MIN)) eqn:Hover;
      [discriminate|].
    destruct (compile_array lys_compile_iffeature (enum_iffeatures e)) as [[] iffs];
      try discriminate.
    destruct (compile_array lys_compile_ext (enum_exts e)) as [[] exts];
      try discriminate.
    injection H as <-. cbn [st_enums st_value].
    exists (mk_lysc_type_enum_item (enum_name e) iffs exts (st_value s)).
    split_and!; [reflexivity|reflexivity|]. right. cbn [item_value].
    split_and!; auto.
    apply andb_false_iff in Hover as [Hu|Hv].
    + left. apply negb_false_iff, Nat.eqb_eq in Hu. exact Hu.
    + right. apply Z.eqb_neq. exact Hv.
  - destruct (value_collides (st_enums s) (to_s32 (enum_value e))) eqn:Hcol;
      [discriminate|].
    destruct (compile_array lys_compile_iffeature (enum_iffeatures e)) as [[] iffs];
      try discriminate.
    destruct (compile_array lys_compile_ext (enum_exts e)) as [[] exts];
      try discriminate.
    injection H as <-. cbn [st_enums st_value].
    exists (mk_lysc_type_enum_item (enum_name e) iffs exts (to_s32 (enum_value e))).
    split_and!; [reflexivity|reflexivity|]. left. cbn [item_value].
    split_and!; auto.
Qed.

Lemma compile_enum_items_snoc basetype (base : list item) s (pre : list parsed) e s' :
  compile_items basetype base s (pre ++ [e]) = (LY_SUCCESS, s') ->
  exists s1, compile_items basetype base s pre = (LY_SUCCESS, s1) /\
    compile_item basetype base s1 e = (LY_SUCCESS, s').
Proof.
  rewrite (compile_enum_items_app _ _ lys_compile_iffeature lys_compile_ext).
  destruct (compile_items basetype base s pre) as [ret s1].
  destruct (decide (ret = LY_SUCCESS)) as [->|Hne];
    [|destruct ret; try congruence; intros H; injection H; discriminate].
  cbn [compile_enum_items]. intros H. exists s1. split; [reflexivity|].
  destruct (compile_item basetype base s1 e) as [ret2 s2].
  destruct (decide (ret2 = LY_SUCCESS)) as [->|Hne];
    [exact H|destruct ret2; try congruence; injection H; discriminate].
Qed.

(** Without explicit values the items of an enumeration are numbered
    from 0. *)
Lemma compile_enum_items_auto : forall (enums_p : list parsed) s',
  compile_items LY_TYPE_ENUM [] (mk_enums_state [] 0 0) enums_p = (LY_SUCCESS, s') ->
  Forall (fun e => Z.land (enum_flags e) LYS_SET_VALUE = 0) enums_p ->
  length (st_enums s') = length enums_p /\
  st_value s' = to_s32 (Z.of_nat (length enums_p)) /\
  Z.of_nat (length enums_p) <= 2 ^ 31 /\
  forall i x, st_enums s' !! i = Some x ->
    item_value x = Z.of_nat i /\
    exists p, enums_p !! i = Some p /\ item_name x = enum_name p.
Proof.
  induction enums_p as [|e pre IH] using rev_ind; intros s' H Hflags.
  { injection H as <-. cbn. split_and!; auto; [lia|]. intros i x Hx. discriminate. }
  apply Forall_app in Hflags as [Hpre He]. apply Forall_cons_1 in He as [He _].
  destruct (compile_enum_items_snoc _ _ _ _ _ _ H) as (s1 & H1 & Hitem).
  destruct (IH s1 H1 Hpre) as (Hlen & Hval & Hbound & Hall).
  destruct (compile_enum_item_enum_nobase _ _ _ Hitem)
    as (x & Hname & Henums & [(Hflag & _)|(_ & Hx & Hover & Hval')]); [contradiction|].
  assert (Hsmall : Z.of_nat (length pre) < 2 ^ 31).
  { destruct Hover as [Hz|Hmin]; [rewrite Hlen in Hz; rewrite Hz; reflexivity|].
    destruct (Z.eq_dec (Z.of_nat (length pre)) (2 ^ 31)) as [Heq|Hne]; [|lia].
    exfalso. apply Hmin. rewrite Hval, Heq. reflexivity. }
  assert (Hid : to_s32 (Z.of_nat (length pre)) = Z.of_nat (length pre))
    by (apply to_s32_id; lia).
  rewrite Hval, Hid in Hx, Hval'.
  rewrite length_app, Nat.add_1_r, Nat2Z.inj_succ. rewrite Henums, length_app.
  split_and!; [cbn; lia|rewrite Hval'; f_equal; lia|lia|].
  intros i y Hy. destruct (decide (i < length pre)%nat) as [Hlt|Hge].
  - rewrite lookup_app_l in Hy by lia. rewrite lookup_app_l by lia. auto.
  - pose proof (lookup_lt_Some _ _ _ Hy) as Hi. rewrite length_app in Hi. cbn in Hi.
    assert (i = length pre) as -> by lia.
    rewrite list_lookup_middle in Hy by lia. injection Hy as <-.
    split; [exact Hx|]. exists e. rewrite list_lookup_middle by reflexivity. auto.
Qed.

(** As long as no value reaches 2147483647, the counter stays above
    every value given so far, and no value is given twice. *)
Lemma compile_enum_items_distinct : forall (enums_p : list parsed) s',
  compile_items LY_TYPE_ENUM [] (mk_enums_state [] 0 0) enums_p = (LY_SUCCESS, s') ->
  Forall (fun x => item_value x < INT32_MAX) (st_enums s') ->
  NoDup (map item_value (st_enums s')) /\
  - 2 ^ 31 <= st_value s' < 2 ^ 31 /\
  Forall (fun x => item_value x < st_value s') (st_enums s').
Proof.
  induction enums_p as [|e pre IH] using rev_ind; intros s' H Hmax.
  { injection H as <-. cbn. split; [constructor|split; [lia|constructor]]. }
  destruct (compile_enum_items_snoc _ _ _ _ _ _ H) as (s1 & H1 & Hitem).
  destruct (compile_enum_item_enum_nobase _ _ _ Hitem) as (x & Hname & Henums & Hcases).
  rewrite Henums in Hmax |- *. apply Forall_app in Hmax as [Hmax1 Hx].
  apply Forall_cons_1 in Hx as [Hx _]. unfold INT32_MAX in Hx.
  destruct (IH s1 H1 Hmax1) as (Hnodup & Hrange & Hbelow).
  rewrite map_app. cbn [map].
  assert (Hlast : forall v, v ∉ map item_value (st_enums s1) ->
            NoDup (map item_value (st_enums s1) ++ [v])).
  { intros v Hv. apply NoDup_app. split_and!; [exact Hnodup| |apply NoDup_singleton].
    intros y Hy Hy'. apply list_elem_of_singleton in Hy'. congruence. }
  destruct Hcases as [(_ & Hv & Hcol & Hval')|(_ & Hv & _ & Hval')].
  - pose proof (to_s32_bounds (enum_value e)) as Hvr. rewrite <- Hv in Hvr.
    assert (Hnew : st_value s' =
              if (length (st_enums s1) =? 0)%nat || (st_value s1 <=? item_value x)
              then item_value x + 1 else st_value s1).
    { rewrite Hval'. destruct (_ || _); [apply to_s32_id; lia|reflexivity]. }
    clear Hval'. split; [|split].
    + apply Hlast. apply value_collides_false. exact Hcol.
    + rewrite Hnew. destruct (_ || _); lia.
    + rewrite Hnew. apply Forall_app. split.
      * destruct (length (st_enums s1) =? 0)%nat eqn:Hu.
        { apply Nat.eqb_eq in Hu. destruct (st_enums s1); [constructor|discriminate]. }
        cbn [orb]. eapply Forall_impl; [exact Hbelow|]. cbn beta. intros y Hy.
        destruct (Z.leb_spec (st_value s1) (item_value x)); lia.
      * constructor; [|constructor].
        destruct (length (st_enums s1) =? 0)%nat; cbn [orb]; [lia|].
        destruct (Z.leb_spec (st_value s1) (item_value x)); lia.
  - rewrite Hv in Hx.
    split; [|split].
    + apply Hlast. rewrite Hv. intros Hin. apply list_elem_of_fmap in Hin as (y & Hy & Hin).
      pose proof (proj1 (Forall_forall _ _) Hbelow y Hin) as Hlt. cbn beta in Hlt. lia.
    + rewrite Hval'. apply to_s32_bounds.
    + rewrite Hval', to_s32_id by lia. apply Forall_app. split.
      * eapply Forall_impl; [exact Hbelow|]. cbn beta. intros y Hy. lia.
      * constructor; [lia|constructor].
Qed.
End EnumMore.

(** ** The first loop of the if-feature compiler *)

Lemma to_u32_add_l a b : to_u32 (to_u32 a + b) = to_u32 (a + b).
Proof. unfold to_u32. apply Zplus_mod_idemp_l. Qed.

Ltac norm_u32 :=
  repeat match goal with
         | |- context [to_u32 (to_u32 ?a + ?b)] =>
             lazymatch a with
             | context [to_u32] => fail
             | _ => rewrite (to_u32_add_l a b)
             end
         end.

Lemma to_u32_id x : 0 <= x < 2 ^ 32 -> to_u32 x = x.
Proof. intros Hx. unfold to_u32. apply Z.mod_small. exact Hx. Qed.

Lemma plain_char_inv a :
  plain_char a = true ->
  isspace a = false /\ Ascii.eqb a "(" = false /\ Ascii.eqb a ")" = false /\
  Ascii.eqb a ":" = false.
Proof.
  unfold plain_char. rewrite !andb_true_iff, !negb_true_iff. tauto.
Qed.

Lemma skip_word_plain w rest :
  plain_chars w = true -> skip_word (w +:+ rest) = skip_word rest.
Proof.
  induction w as [|a w IH]; [reflexivity|]. cbn [plain_chars].
  intros [Ha Hw]%andb_true_iff. destruct (plain_char_inv a Ha) as (Hs & _ & Hr & _).
  rewrite string_app_cons. cbn [skip_word]. rewrite Hs, Hr. auto.
Qed.

Lemma skip_prefix_plain kw : forall w rest r,
  plain_chars kw = true -> delimited rest = true ->
  skip_prefix kw (w +:+ rest) = Some r ->
  exists w', w = kw +:+ w' /\ r = w' +:+ rest.
Proof.
  induction kw as [|c kw IH]; intros w rest r Hkw Hrest H.
  { injection H as <-. exists w. auto. }
  cbn [plain_chars] in Hkw. apply andb_true_iff in Hkw as [Hc Hkw].
  destruct (plain_char_inv c Hc) as (Hs & _ & Hr & _).
  destruct w as [|a w].
  - rewrite string_app_nil in H. destruct rest as [|b rest]; [discriminate|].
    cbn [skip_prefix] in H. destruct (Ascii.eqb_spec c b) as [->|]; [|discriminate].
    cbn [delimited] in Hrest. rewrite Hs, Hr in Hrest. discriminate.
  - rewrite string_app_cons in H. cbn [skip_prefix] in H.
    destruct (Ascii.eqb_spec c a) as [->|]; [|discriminate].
    destruct (IH _ _ _ Hkw Hrest H) as (w' & -> & ->). exists w'. auto.
Qed.

Lemma feature_word_inv w :
  feature_word w = true ->
  plain_chars w = true /\ w <> EmptyString /\ w <> "not"%string /\
  w <> "and"%string /\ w <> "or"%string.
Proof.
  unfold feature_word. rewrite !andb_true_iff, !negb_true_iff.
  intros ((((H1 & H2) & H3) & H4) & H5).
  apply String.eqb_neq in H2, H3, H4, H5. auto.
Qed.

(** What follows a keyword at the beginning of a feature name is the rest
    of the name, which is not empty. *)
Lemma keyword_at_word w rest r :
  feature_word w = true -> delimited rest = true ->
  keyword_at (w +:+ rest) = Some r ->
  exists b r', r = String b r' /\ isspace b = false /\ skip_word r = skip_word rest.
Proof.
  intros Hw Hrest H. destruct (feature_word_inv w Hw) as (Hplain & _ & Hnot & Hand & Hor).
  assert (Hkw : forall kw, plain_chars kw = true -> w <> kw ->
            skip_prefix kw (w +:+ rest) = Some r ->
            exists b r', r = String b r' /\ isspace b = false /\
              skip_word r = skip_word rest).
  { intros kw Hkw Hne Hr.
    destruct (skip_prefix_plain kw w rest r Hkw Hrest Hr) as (w' & -> & ->).
    assert (Hplain' : plain_chars w' = true).
    { clear -Hplain. induction kw as [|c kw IH]; [exact Hplain|].
      rewrite string_app_cons in Hplain. cbn [plain_chars] in Hplain.
      apply andb_true_iff in Hplain as [_ Hplain]. auto. }
    destruct w' as [|b w'].
    { exfalso. apply Hne. apply string_app_nil_r. }
    cbn [plain_chars] in Hplain'. apply andb_true_iff in Hplain' as [Hb Hw'].
    destruct (plain_char_inv b Hb) as (Hs & _).
    exists b, (w' +:+ rest). rewrite string_app_cons. split_and!; auto.
    rewrite <- string_app_cons. apply skip_word_plain. cbn [plain_chars].
    rewrite Hb, Hw'. reflexivity. }
  unfold keyword_at in H.
  destruct (skip_prefix "not" (w +:+ rest)) as [r1|] eqn:H1.
  { injection H as <-. apply (Hkw "not"%string); auto. }
  destruct (skip_prefix "and" (w +:+ rest)) as [r2|] eqn:H2.
  { injection H as <-. apply (Hkw "and"%string); auto. }
  apply (Hkw "or"%string); auto.
Qed.

(** A feature name counts as one operand and one item of the
    expression. *)
Lemma iff_preparse_word fuel w rest k :
  feature_word w = true -> delimited rest = true ->
  iff_preparse (S fuel) (w +:+ rest) k
  = iff_preparse fuel (skip_word rest)
      (mk_iff_counters (c_j k) false (c_checkversion k) (to_u32 (c_f_size k + 1))
         (to_u32 (c_expr_size k + 1)) (c_f_exp k)).
Proof.
  intros Hw Hrest. destruct (feature_word_inv w Hw) as (Hplain & Hne & _).
  destruct w as [|a w]; [congruence|].
  pose proof Hplain as Hplain'. cbn [plain_chars] in Hplain'.
  apply andb_true_iff in Hplain' as [Ha _].
  destruct (plain_char_inv a Ha) as (Hs & Hl & Hr & _).
  rewrite string_app_cons. cbn [iff_preparse]. rewrite Hl, Hr, Hs.
  rewrite <- string_app_cons.
  destruct (keyword_at (String a w +:+ rest)) as [r|] eqn:Hkw.
  - destruct (keyword_at_word _ _ _ Hw Hrest Hkw) as (b & r' & -> & Hb & Hskip).
    rewrite Hb. cbn [negb c_j c_last_not c_checkversion c_f_size c_expr_size c_f_exp].
    rewrite Hskip. reflexivity.
  - rewrite skip_word_plain by exact Hplain. reflexivity.
Qed.

Lemma iff_preparse_not fuel s k :
  c_last_not k = false ->
  iff_preparse (S fuel) ("not " +:+ s) k
  = iff_preparse fuel s
      (mk_iff_counters (c_j k) true (c_checkversion k) (c_f_size k)
         (to_u32 (c_expr_size k + 1)) (c_f_exp k)).
Proof. intros Hln. cbn. rewrite Hln. reflexivity. Qed.

Lemma iff_preparse_op fuel is_or s k :
  iff_preparse (S fuel) (String.substring 1 4 (iff_op_text is_or) +:+ s) k
  = iff_preparse fuel s
      (mk_iff_counters (c_j k) false (c_checkversion k) (c_f_size k)
         (to_u32 (c_expr_size k + 1)) (to_u32 (c_f_exp k + 1))).
Proof. destruct is_or; reflexivity. Qed.

Lemma iff_preparse_blank fuel a s k :
  isspace a = true ->
  iff_preparse (S fuel) (String a s) k
  = iff_preparse fuel s
      (mk_iff_counters (c_j k) (c_last_not k) true (c_f_size k) (c_expr_size k) (c_f_exp k)).
Proof.
  intros Ha. cbn [iff_preparse].
  destruct (Ascii.eqb_spec a "(") as [->|_]; [discriminate|].
  destruct (Ascii.eqb_spec a ")") as [->|_]; [discriminate|].
  rewrite Ha. reflexivity.
Qed.

Lemma iff_preparse_open fuel s k :
  iff_preparse (S fuel) ("(" +:+ s) k
  = iff_preparse fuel s
      (mk_iff_counters (c_j k + 1) (c_last_not k) true (c_f_size k) (c_expr_size k)
         (c_f_exp k)).
Proof. reflexivity. Qed.

Lemma iff_preparse_close fuel s k :
  iff_preparse (S fuel) (")" +:+ s) k
  = iff_preparse fuel s
      (mk_iff_counters (c_j k - 1) (c_last_not k) (c_checkversion k) (c_f_size k)
         (c_expr_size k) (c_f_exp k)).
Proof. reflexivity. Qed.

Lemma string_length_cons1 x s : String.length (x +:+ s) = (String.length x + String.length s)%nat.
Proof. apply string_length_app. Qed.

Lemma delimited_skip_word_length rest :
  (String.length (skip_word rest) <= String.length rest)%nat.
Proof.
  induction rest as [|a rest IH]; [reflexivity|]. cbn [skip_word].
  destruct (isspace a); [cbn; lia|]. destruct (Ascii.eqb a ")"); cbn in *; lia.
Qed.

Lemma string_app_assoc a b c : (a +:+ b) +:+ c = a +:+ (b +:+ c).
Proof.
  induction a as [|x a IH]; [reflexivity|]. rewrite !string_app_cons, IH. reflexivity.
Qed.

Lemma iff_operands_operators e : iff_operands e = S (iff_operators e).
Proof.
  induction e as [neg name|neg is_or l IHl r IHr]; [reflexivity|].
  cbn [iff_operands iff_operators]. rewrite IHl, IHr. lia.
Qed.

Lemma delimited_op_text is_or s : delimited (iff_op_text is_or +:+ s) = true.
Proof. destruct is_or; reflexivity. Qed.

Lemma skip_word_op_text is_or s :
  skip_word (iff_op_text is_or +:+ s) = String.substring 1 4 (iff_op_text is_or) +:+ s.
Proof. destruct is_or; reflexivity. Qed.

Lemma iff_op_text_length is_or s :
  (String.length s < String.length (String.substring 1 4 (iff_op_text is_or) +:+ s))%nat.
Proof.
  rewrite string_length_app.
  destruct is_or;
    [change (String.length (String.substring 1 4 (iff_op_text true))) with 3%nat
    |change (String.length (String.substring 1 4 (iff_op_text false))) with 4%nat]; lia.
Qed.

(** The first loop over the text of an expression: its names, its items
    and its operators are counted, and the parentheses balance. *)
Lemma iff_preparse_node : forall e fuel rest j ln cv a b c,
  iff_syntax e = true ->
  (ln = true -> iff_leftmost_not e = false) ->
  delimited rest = true ->
  (String.length (iff_print e +:+ rest) < fuel)%nat ->
  exists fuel' cv', (String.length (skip_word rest) < fuel')%nat /\
    iff_preparse fuel (iff_print e +:+ rest)
      (mk_iff_counters j ln cv (to_u32 a) (to_u32 b) (to_u32 c))
    = iff_preparse fuel' (skip_word rest)
        (mk_iff_counters j false cv'
           (to_u32 (a + Z.of_nat (iff_operands e)))
           (to_u32 (b + Z.of_nat (length (iff_code e))))
           (to_u32 (c + Z.of_nat (iff_operators e)))).
Proof.
  induction e as [neg name|neg is_or l IHl r IHr];
    intros fuel rest j ln cv a b c Hwf Hln Hrest Hfuel.
  - cbn [iff_syntax] in Hwf. pose proof Hwf as Hw.
    destruct (feature_word_inv name Hw) as (_ & Hne & _).
    assert (Hlen : (1 <= String.length name)%nat).
    { destruct name; [congruence|cbn; lia]. }
    pose proof (delimited_skip_word_length rest) as Hskip.
    cbn [iff_print iff_operands iff_operators iff_code] in *.
    rewrite string_length_app in Hfuel.
    destruct neg; cbn [iff_neg_text iff_neg_code app length] in *.
    + rewrite string_app_assoc.
      assert (ln = false) as -> by (destruct ln; [discriminate (Hln eq_refl)|reflexivity]).
      rewrite string_length_app in Hfuel. cbn [String.length] in Hfuel.
      destruct fuel as [|[|fuel]]; [lia|lia|].
      rewrite iff_preparse_not by reflexivity.
      rewrite iff_preparse_word by assumption.
      exists fuel, cv. split; [lia|].
      cbn [c_j c_last_not c_checkversion c_f_size c_expr_size c_f_exp].
      norm_u32. f_equal. f_equal; f_equal; lia.
    + rewrite string_app_nil in *. destruct fuel as [|fuel]; [lia|].
      rewrite iff_preparse_word by assumption.
      exists fuel, cv. split; [lia|].
      cbn [c_j c_last_not c_checkversion c_f_size c_expr_size c_f_exp].
      norm_u32. f_equal. f_equal; f_equal; lia.
  - cbn [iff_syntax] in Hwf.
    apply andb_true_iff in Hwf as [[Hwl Hwr]%andb_true_iff Hpoison].
    apply negb_true_iff in Hpoison.
    cbn [iff_print iff_operands iff_operators iff_code iff_leftmost_not] in *.
    rewrite !string_app_assoc in *.
    set (rest_r := (")" +:+ rest)%string) in *.
    set (rest_l := (iff_op_text is_or +:+ (iff_print r +:+ rest_r))%string) in *.
    assert (Hstart : exists fuel1 ln1 b1,
              (String.length (iff_print l +:+ rest_l) < fuel1)%nat /\
              (ln1 = true -> iff_leftmost_not l = false) /\
              b1 = b + Z.of_nat (length (iff_neg_code neg)) /\
              iff_preparse fuel (iff_neg_text neg +:+ ("(" +:+ (iff_print l +:+ rest_l)))
                (mk_iff_counters j ln cv (to_u32 a) (to_u32 b) (to_u32 c))
              = iff_preparse fuel1 (iff_print l +:+ rest_l)
                  (mk_iff_counters (j + 1) ln1 true (to_u32 a) (to_u32 b1) (to_u32 c))).
    { rewrite !string_length_app in Hfuel.
      change (String.length "(") with 1%nat in Hfuel.
      rewrite <- !string_length_app in Hfuel.
      destruct neg; cbn [iff_neg_text iff_neg_code length orb andb] in *.
      - assert (ln = false) as -> by (destruct ln; [discriminate (Hln eq_refl)|reflexivity]).
        change (String.length "not ") with 4%nat in Hfuel.
        destruct fuel as [|[|fuel]]; [lia|lia|].
        rewrite iff_preparse_not by reflexivity. rewrite iff_preparse_open.
        exists fuel, true, (b + 1). split_and!; [lia|auto|reflexivity|].
        cbn [c_j c_last_not c_checkversion c_f_size c_expr_size c_f_exp].
        rewrite to_u32_add_l. reflexivity.
      - rewrite string_app_nil. change (String.length "") with 0%nat in Hfuel.
        destruct fuel as [|fuel]; [lia|]. rewrite iff_preparse_open.
        exists fuel, ln, (b + 0). split_and!; [lia|auto|reflexivity|].
        cbn [c_j c_last_not c_checkversion c_f_size c_expr_size c_f_exp].
        rewrite Z.add_0_r. reflexivity. }
    destruct Hstart as (fuel1 & ln1 & b1 & Hfuel1 & Hln1 & -> & ->).
    destruct (IHl fuel1 rest_l (j + 1) ln1 true a
                (b + Z.of_nat (length (iff_neg_code neg))) c Hwl Hln1
                (delimited_op_text _ _) Hfuel1) as (fuel2 & cv2 & Hfuel2 & ->).
    unfold rest_l in Hfuel2 |- *. rewrite skip_word_op_text in Hfuel2 |- *.
    destruct fuel2 as [|fuel2]; [lia|]. rewrite iff_preparse_op.
    pose proof (iff_op_text_length is_or (iff_print r +:+ rest_r)) as Hop.
    cbn [c_j c_last_not c_checkversion c_f_size c_expr_size c_f_exp].
    norm_u32.
    destruct (IHr fuel2 rest_r (j + 1) false cv2
                (a + Z.of_nat (iff_operands l))
                (b + Z.of_nat (length (iff_neg_code neg)) + Z.of_nat (length (iff_code l)) + 1)
                (c + Z.of_nat (iff_operators l) + 1)
                Hwr ltac:(discriminate) eq_refl ltac:(lia)) as (fuel3 & cv3 & Hfuel3 & Hr).
    rewrite Hr. clear Hr.
    change (skip_word rest_r) with rest_r in *. unfold rest_r in *.
    rewrite string_length_app in Hfuel3. change (String.length ")") with 1%nat in Hfuel3.
    destruct fuel3 as [|fuel3]; [lia|]. rewrite iff_preparse_close.
    cbn [c_j c_last_not c_checkversion c_f_size c_expr_size c_f_exp].
    replace (j + 1 - 1) with j by lia.
    rewrite !length_app. cbn [length]. rewrite !length_app.
    replace (a + Z.of_nat (iff_operands l) + Z.of_nat (iff_operands r))
      with (a + Z.of_nat (iff_operands l + iff_operands r)) by lia.
    replace (b + Z.of_nat (length (iff_neg_code neg)) + Z.of_nat (length (iff_code l)) + 1
             + Z.of_nat (length (iff_code r)))
      with (b + Z.of_nat (length (iff_neg_code neg)
                          + S (length (iff_code l) + length (iff_code r)))) by lia.
    replace (c + Z.of_nat (iff_operators l) + 1 + Z.of_nat (iff_operators r))
      with (c + Z.of_nat (S (iff_operators l + iff_operators r))) by lia.
    cbn [String.length] in Hfuel3.
    destruct rest as [|x rest'].
    + exists fuel3, cv3. split; [cbn in *; lia|reflexivity].
    + cbn [delimited] in Hrest. cbn [skip_word]. destruct (isspace x) eqn:Hx.
      * cbn [String.length] in Hfuel3. destruct fuel3 as [|fuel4]; [lia|].
        rewrite iff_preparse_blank by exact Hx.
        exists fuel4, true. split; [lia|reflexivity].
      * cbn [orb] in Hrest. rewrite Hrest.
        exists fuel3, cv3. split; [cbn in *; lia|reflexivity].
Qed.

(** ** Writing the opcodes *)

Lemma to_u32_sub_l a b : to_u32 (to_u32 a - b) = to_u32 (a - b).
Proof. unfold to_u32. apply Zminus_mod_idemp_l. Qed.

Lemma to_s32_to_u32 v : 0 <= v < 2 ^ 31 -> to_s32 (to_u32 v) = v.
Proof.
  intros Hv. unfold to_s32, to_u32. rewrite Z.mod_mod by lia.
  rewrite Z.mod_small by lia. destruct (Z.ltb_spec v (2 ^ 31)); lia.
Qed.

Lemma written_nil expr top : -1 <= top -> written expr expr top [].
Proof.
  intros Htop. unfold written. split_and!; [reflexivity|cbn; lia| |auto].
  intros i op Hi. discriminate.
Qed.

Lemma written_compose e0 e1 e2 top ops1 ops2 :
  written e1 e0 top ops1 -> written e2 e1 (top - Z.of_nat (length ops1)) ops2 ->
  written e2 e0 top (ops2 ++ ops1).
Proof.
  unfold written. intros (Hl1 & Hp1 & Hs1 & Hf1) (Hl2 & Hp2 & Hs2 & Hf2).
  rewrite length_app. split; [congruence|]. split; [lia|]. split.
  - intros i op Hi.
    replace (top - Z.of_nat (length ops2 + length ops1) + 1)
      with (top - Z.of_nat (length ops1) - Z.of_nat (length ops2) + 1) by lia.
    destruct (decide (i < length ops2)%nat) as [Hlt|Hge].
    + rewrite lookup_app_l in Hi by exact Hlt. apply Hs2. exact Hi.
    + rewrite lookup_app_r in Hi by lia.
      pose proof (lookup_lt_Some _ _ _ Hi) as Hlen.
      rewrite Hf2 by lia.
      replace (Z.to_nat (top - Z.of_nat (length ops1) - Z.of_nat (length ops2) + 1) + i)%nat
        with (Z.to_nat (top - Z.of_nat (length ops1) + 1) + (i - length ops2))%nat by lia.
      apply Hs1. exact Hi.
  - intros pos Hpos. rewrite Hf2 by lia. apply Hf1. exact Hpos.
Qed.

(** One opcode written at the index [v]. *)
Lemma iff_emit_at op expr feats v fsize :
  0 <= v < 2 ^ 31 -> 0 <= op <= 3 -> v / 4 < Z.of_nat (length expr) ->
  exists expr',
    iff_emit op (mk_iff_build expr feats (to_u32 v) fsize)
    = Some (mk_iff_build expr' feats (to_u32 (v - 1)) fsize) /\
    written expr' expr v [op].
Proof.
  intros Hv Hop Hlen. exists (iff_setop expr op (Z.to_nat v)).
  assert (Hnat : (Z.to_nat v / 4 < length expr)%nat).
  { apply Nat2Z.inj_lt. rewrite Nat2Z.inj_div, Z2Nat.id by lia. exact Hlen. }
  split.
  - unfold iff_emit. cbn [b_expr_size b_expr b_features b_f_size].
    rewrite to_s32_to_u32 by exact Hv.
    destruct (Z.ltb_spec v 0); [lia|]. destruct (Z.ltb_spec 3 op); [lia|].
    destruct (Z.leb_spec (Z.of_nat (length expr)) (v / 4)); [lia|].
    cbn [orb]. rewrite to_u32_sub_l. reflexivity.
  - unfold written. split_and!.
    + apply iff_setop_length.
    + cbn [length]. lia.
    + intros i o Hi. destruct i as [|i]; [|discriminate]. injection Hi as <-.
      cbn [length]. replace (Z.to_nat (v - Z.of_nat 1 + 1) + 0)%nat with (Z.to_nat v) by lia.
      apply iff_getop_setop_same; assumption.
    + intros pos Hpos. apply iff_getop_setop_diff; [exact Hop|lia].
Qed.

(** A pending negation, if there is one, written at the index [v]: at
    the end of the expression, at an operator and at an opening
    parenthesis, which also takes the operator. *)
Lemma iff_pop_all_neg neg expr feats v fsize :
  -1 <= v - Z.of_nat (length (iff_neg_code neg)) -> v < 2 ^ 31 ->
  v / 4 < Z.of_nat (length expr) ->
  exists expr',
    iff_pop_all (iff_neg_code neg) (mk_iff_build expr feats (to_u32 v) fsize)
    = Some (mk_iff_build expr' feats
              (to_u32 (v - Z.of_nat (length (iff_neg_code neg)))) fsize) /\
    written expr' expr v (iff_neg_code neg).
Proof.
  intros Hlo Hhi Hlen. destruct neg; cbn [iff_neg_code length] in *.
  - destruct (iff_emit_at LYS_IFF_NOT expr feats v fsize) as (expr' & Hemit & Hw);
      [lia|unfold LYS_IFF_NOT; lia|exact Hlen|].
    exists expr'. cbn [iff_pop_all]. rewrite Hemit. cbn [mbind option_bind iff_pop_all].
    auto.
  - exists expr. rewrite Z.sub_0_r. split; [reflexivity|]. apply written_nil. lia.
Qed.

Lemma iff_pop_le_neg limit neg stack expr feats v fsize :
  1 <= limit <= 2 ->
  -1 <= v - Z.of_nat (length (iff_neg_code neg)) -> v < 2 ^ 31 ->
  v / 4 < Z.of_nat (length expr) ->
  exists expr',
    iff_pop_le limit (iff_neg_code neg ++ LYS_IFF_RP :: stack)
      (mk_iff_build expr feats (to_u32 v) fsize)
    = Some (LYS_IFF_RP :: stack,
            mk_iff_build expr' feats
              (to_u32 (v - Z.of_nat (length (iff_neg_code neg)))) fsize) /\
    written expr' expr v (iff_neg_code neg).
Proof.
  intros Hlimit Hlo Hhi Hlen.
  assert (Hrp : (LYS_IFF_RP <=? limit) = false) by (apply Z.leb_gt; unfold LYS_IFF_RP; lia).
  destruct neg; cbn [iff_neg_code length app] in *.
  - destruct (iff_emit_at LYS_IFF_NOT expr feats v fsize) as (expr' & Hemit & Hw);
      [lia|unfold LYS_IFF_NOT; lia|exact Hlen|].
    exists expr'. cbn [iff_pop_le].
    assert (Hnot : (LYS_IFF_NOT <=? limit) = true) by (apply Z.leb_le; unfold LYS_IFF_NOT; lia).
    rewrite Hnot, Hemit. cbn [mbind option_bind iff_pop_le]. rewrite Hrp. auto.
  - exists expr. rewrite Z.sub_0_r. cbn [iff_pop_le]. rewrite Hrp.
    split; [reflexivity|]. apply written_nil. lia.
Qed.

Lemma iff_pop_until_rp_neg neg is_or stack expr feats v fsize :
  -1 <= v - Z.of_nat (length (iff_neg_code neg)) - 1 -> v < 2 ^ 31 ->
  v / 4 < Z.of_nat (length expr) ->
  exists expr',
    iff_pop_until_rp (iff_neg_code neg ++ iff_op_code is_or :: LYS_IFF_RP :: stack)
      (mk_iff_build expr feats (to_u32 v) fsize)
    = Some (stack,
            mk_iff_build expr' feats
              (to_u32 (v - Z.of_nat (length (iff_neg_code neg)) - 1)) fsize) /\
    written expr' expr v (iff_op_code is_or :: iff_neg_code neg).
Proof.
  intros Hlo Hhi Hlen.
  assert (Hop : 0 <= iff_op_code is_or <= 3)
    by (destruct is_or; unfold iff_op_code, LYS_IFF_OR, LYS_IFF_AND; lia).
  assert (Hoprp : (iff_op_code is_or =? LYS_IFF_RP) = false) by (destruct is_or; reflexivity).
  destruct neg; cbn [iff_neg_code length app] in *.
  - destruct (iff_emit_at LYS_IFF_NOT expr feats v fsize) as (expr1 & Hemit1 & Hw1);
      [lia|unfold LYS_IFF_NOT; lia|exact Hlen|].
    destruct (iff_emit_at (iff_op_code is_or) expr1 feats (v - 1) fsize)
      as (expr2 & Hemit2 & Hw2); [lia|exact Hop| |].
    { destruct Hw1 as (-> & _). apply Z.le_lt_trans with (v / 4); [|exact Hlen].
      apply Z.div_le_mono; lia. }
    exists expr2. cbn [iff_pop_until_rp].
    change (LYS_IFF_NOT =? LYS_IFF_RP) with false. cbn match.
    rewrite Hemit1. cbn [mbind option_bind iff_pop_until_rp].
    rewrite Hoprp, Hemit2. cbn [mbind option_bind iff_pop_until_rp].
    change (LYS_IFF_RP =? LYS_IFF_RP) with true. cbn match.
    split; [reflexivity|].
    apply (written_compose expr expr1 expr2 v [LYS_IFF_NOT] [iff_op_code is_or] Hw1 Hw2).
  - destruct (iff_emit_at (iff_op_code is_or) expr feats v fsize)
      as (expr2 & Hemit2 & Hw2); [lia|exact Hop|exact Hlen|].
    exists expr2. cbn [iff_pop_until_rp]. rewrite Hoprp, Hemit2.
    cbn [mbind option_bind iff_pop_until_rp].
    change (LYS_IFF_RP =? LYS_IFF_RP) with true. cbn match.
    rewrite Z.sub_0_r. auto.
Qed.

(** ** The second loop of the if-feature compiler *)

Lemma list_ascii_of_string_app a b :
  list_ascii_of_string (a +:+ b) = list_ascii_of_string a ++ list_ascii_of_string b.
Proof.
  induction a as [|c a IH]; [reflexivity|]. rewrite string_app_cons. cbn. rewrite IH.
  reflexivity.
Qed.

Lemma string_of_list_ascii_app l1 l2 :
  string_of_list_ascii (l1 ++ l2) = string_of_list_ascii l1 +:+ string_of_list_ascii l2.
Proof.
  induction l1 as [|c l1 IH]; [reflexivity|]. cbn. rewrite IH. reflexivity.
Qed.

Lemma rev_chars_app a b : rev_chars (a +:+ b) = rev_chars b ++ rev_chars a.
Proof. unfold rev_chars. rewrite list_ascii_of_string_app. apply reverse_app. Qed.

Lemma rev_chars_length s : length (rev_chars s) = String.length s.
Proof.
  unfold rev_chars. rewrite length_reverse.
  induction s as [|c s IH]; [reflexivity|]. cbn. rewrite IH. reflexivity.
Qed.

Lemma rev_chars_string s : string_of_list_ascii (reverse (rev_chars s)) = s.
Proof.
  unfold rev_chars. rewrite reverse_involutive. apply string_of_list_ascii_of_string.
Qed.

Lemma rev_chars_plain w :
  plain_chars w = true -> Forall (fun a => plain_char a = true) (rev_chars w).
Proof.
  unfold rev_chars. intros Hw. apply Forall_reverse.
  induction w as [|c w IH]; [constructor|]. cbn [plain_chars] in Hw.
  apply andb_true_iff in Hw as [Hc Hw]. constructor; auto.
Qed.

Lemma word_start_plain before0 : forall l acc,
  Forall (fun a => plain_char a = true) l -> delimited_before before0 = true ->
  word_start (l ++ before0) acc = (before0, string_of_list_ascii (reverse l) +:+ acc).
Proof.
  induction l as [|a l IH]; intros acc Hl Hb.
  - cbn [app reverse]. destruct before0 as [|x before0]; [reflexivity|].
    cbn [delimited_before] in Hb. cbn [word_start]. rewrite Hb. reflexivity.
  - apply Forall_cons_1 in Hl as [Ha Hl].
    destruct (plain_char_inv a Ha) as (Hs & Ho & _).
    cbn [app word_start]. rewrite Hs, Ho. cbn [orb]. rewrite IH by assumption.
    rewrite reverse_cons, string_of_list_ascii_app, string_app_assoc. reflexivity.
Qed.

Lemma is_operator_word kw w after :
  feature_word w = true -> delimited after = true -> plain_chars kw = true ->
  w <> kw -> is_operator kw (w +:+ after) = false.
Proof.
  intros Hw Hafter Hkw Hne. unfold is_operator.
  destruct (skip_prefix kw (w +:+ after)) as [r|] eqn:Hr; [|reflexivity].
  destruct (feature_word_inv w Hw) as (Hplain & _).
  destruct (skip_prefix_plain kw w after r Hkw Hafter Hr) as (w' & -> & ->).
  destruct w' as [|b w'].
  { exfalso. apply Hne. apply string_app_nil_r. }
  rewrite string_app_cons.
  assert (Hb : plain_chars (String b w') = true).
  { clear -Hplain. induction kw as [|c kw IH]; [exact Hplain|].
    rewrite string_app_cons in Hplain. cbn [plain_chars] in Hplain.
    apply andb_true_iff in Hplain as [_ Hplain]. auto. }
  cbn [plain_chars] in Hb. apply andb_true_iff in Hb as [Hb _].
  destruct (plain_char_inv b Hb) as (Hs & _). exact Hs.
Qed.

Lemma string_get_app_l w after : forall k,
  (k < String.length w)%nat -> String.get k (w +:+ after) = String.get k w.
Proof.
  induction w as [|c w IH]; intros k Hk; [cbn in Hk; lia|].
  rewrite string_app_cons. destruct k as [|k]; [reflexivity|].
  cbn [String.get]. apply IH. cbn in Hk. lia.
Qed.

Lemma string_get_plain w : forall k a,
  plain_chars w = true -> String.get k w = Some a -> plain_char a = true.
Proof.
  induction w as [|c w IH]; intros k a Hw Hk; [discriminate|].
  cbn [plain_chars] in Hw. apply andb_true_iff in Hw as [Hc Hw].
  destruct k as [|k]; [injection Hk as <-; exact Hc|]. eapply IH; eassumption.
Qed.

Lemma substring_word w after :
  String.substring 0 (String.length w) (w +:+ after) = w.
Proof.
  induction w as [|c w IH]; [destruct after; reflexivity|].
  rewrite string_app_cons. cbn [String.length String.substring]. rewrite IH. reflexivity.
Qed.

Section IffCompileProofs.
Variable lysc_module_find_prefix : lysc_module -> string -> option lysc_module.

Abbreviation find_module := (feature_find_module lysc_module_find_prefix).
Abbreviation feature_find := (lysc_feature_find lysc_module_find_prefix).
Abbreviation word_action := (iff_word lysc_module_find_prefix).
Abbreviation postparse := (iff_postparse lysc_module_find_prefix).
Abbreviation compile_iffeature := (lys_compile_iffeature lysc_module_find_prefix).

(** A name without a colon is looked up in the module itself. *)
Lemma feature_find_module_plain mod_ text len :
  (forall k a, (k < len)%nat -> String.get k text = Some a -> Ascii.eqb a ":" = false) ->
  forall fuel i, find_module fuel mod_ text len i = Some (mod_, text, len).
Proof.
  intros Hplain. induction fuel as [|fuel IH]; intros i; [reflexivity|].
  cbn [feature_find_module]. destruct (Nat.ltb_spec i len) as [Hlt|]; [|reflexivity].
  destruct (String.get i text) as [a|] eqn:Ha; [|apply IH].
  pose proof (Hplain i a Hlt Ha) as Hne.
  destruct (Ascii.eqb_spec a ":") as [->|Hneq]; [discriminate|].
  destruct a as [[] [] [] [] [] [] [] []]; try apply IH. congruence.
Qed.

Lemma feature_find_named_found st fs w after p f :
  feature_named st fs w = Some (p, f) ->
  feature_find_named st fs (w +:+ after) (String.length w) = Some (Some p).
Proof.
  rewrite <- (substring_word w after) at 1.
  induction fs as [|q fs IH]; intros H; [discriminate|].
  cbn [feature_named feature_find_named] in *.
  destruct (st !! q) as [g|]; [|discriminate]. cbn [mbind option_bind].
  destruct (String.eqb (f_name g) (String.substring 0 (String.length w) (w +:+ after))).
  - injection H as -> _. reflexivity.
  - auto.
Qed.

Lemma feature_find_named_absent st fs w after :
  no_feature_named st fs w ->
  feature_find_named st fs (w +:+ after) (String.length w) = Some None.
Proof.
  induction 1 as [|q fs (g & Hq & Hne) _ IH]; [reflexivity|].
  cbn [feature_find_named]. rewrite Hq. cbn [mbind option_bind].
  rewrite substring_word. apply String.eqb_neq in Hne. rewrite Hne. exact IH.
Qed.

Lemma lysc_feature_find_word st mod_ w after :
  plain_chars w = true ->
  feature_find st mod_ (w +:+ after) (String.length w)
  = feature_find_named st (mod_features mod_) (w +:+ after) (String.length w).
Proof.
  intros Hw. unfold lysc_feature_find. rewrite feature_find_module_plain; [reflexivity|].
  intros k a Hk Ha. rewrite string_get_app_l in Ha by exact Hk.
  destruct (plain_char_inv a (string_get_plain _ _ _ Hw Ha)) as (_ & _ & _ & H). exact H.
Qed.

(** The step of the second loop at the end of a word. *)
Lemma iff_postparse_word fuel st mod_ cap w before0 after stack b :
  plain_chars w = true -> w <> EmptyString -> delimited_before before0 = true ->
  postparse (S fuel) st mod_ cap (rev_chars w ++ before0) after stack b
  = r ← word_action st mod_ cap w after stack b;
    match r with
    | inl e => Some (inl e)
    | inr (stack, b) => postparse fuel st mod_ cap before0 (w +:+ after) stack b
    end.
Proof.
  intros Hw Hne Hb. pose proof (rev_chars_plain w Hw) as Hplain.
  destruct (rev_chars w) as [|a l] eqn:Hrev.
  { exfalso. apply Hne. rewrite <- (rev_chars_string w), Hrev. reflexivity. }
  pose proof Hplain as Hplain'. apply Forall_cons_1 in Hplain' as [Ha _].
  destruct (plain_char_inv a Ha) as (Hs & Ho & Hc & _).
  cbn [app iff_postparse]. rewrite Hc, Ho, Hs.
  change (a :: l ++ before0) with ((a :: l) ++ before0).
  rewrite (word_start_plain before0 (a :: l) EmptyString Hplain Hb).
  rewrite <- Hrev, rev_chars_string, string_app_nil_r. reflexivity.
Qed.

Lemma iff_postparse_blank fuel st mod_ cap a before after stack b :
  isspace a = true ->
  postparse (S fuel) st mod_ cap (a :: before) after stack b
  = postparse fuel st mod_ cap before (String a after) stack b.
Proof.
  intros Ha. cbn [iff_postparse].
  destruct (Ascii.eqb_spec a ")") as [->|_]; [discriminate|].
  destruct (Ascii.eqb_spec a "(") as [->|_]; [discriminate|].
  rewrite Ha. reflexivity.
Qed.

(** The word [not] in front of a blank puts a negation on a stack whose
    top is none. *)
Lemma iff_word_not st mod_ cap a after stack b :
  isspace a = true -> stack_clean stack = true ->
  word_action st mod_ cap "not" (String a after) stack b
  = Some (inr (LYS_IFF_NOT :: stack, b)).
Proof.
  intros Ha Hclean. unfold iff_word.
  change (is_operator "not" ("not" +:+ String a after)) with (isspace a). rewrite Ha.
  destruct stack as [|op stack]; [reflexivity|].
  cbn [stack_clean] in Hclean. apply negb_true_iff in Hclean. rewrite Hclean. reflexivity.
Qed.

(** The words [and] and [or] in front of a blank take the operators of
    the same or a higher priority from the stack and go onto it. *)
Lemma iff_word_op st mod_ cap is_or a after stack b :
  isspace a = true ->
  word_action st mod_ cap (iff_op_word is_or) (String a after) stack b
  = '(stack, b) ← iff_pop_le (iff_op_code is_or) stack b;
    Some (inr (iff_op_code is_or :: stack, b)).
Proof.
  intros Ha. unfold iff_word. destruct is_or.
  - change (is_operator "not" (iff_op_word true +:+ String a after)) with false.
    change (is_operator "and" (iff_op_word true +:+ String a after)) with false.
    change (is_operator "or" (iff_op_word true +:+ String a after)) with (isspace a).
    rewrite Ha. reflexivity.
  - change (is_operator "not" (iff_op_word false +:+ String a after)) with false.
    change (is_operator "and" (iff_op_word false +:+ String a after)) with (isspace a).
    rewrite Ha. reflexivity.
Qed.

Lemma iff_word_operand w after :
  feature_word w = true -> delimited after = true ->
  is_operator "not" (w +:+ after) = false /\ is_operator "and" (w +:+ after) = false /\
  is_operator "or" (w +:+ after) = false.
Proof.
  intros Hw Hafter. destruct (feature_word_inv w Hw) as (_ & _ & Hnot & Hand & Hor).
  split_and!; apply is_operator_word; auto.
Qed.

(** A feature name is written as an operand and its feature put in front
    of the features found so far. *)
Lemma iff_word_feature st mod_ cap w after stack expr feats v m p f :
  feature_word w = true -> delimited after = true ->
  feature_named st (mod_features mod_) w = Some (p, f) ->
  0 <= v < 2 ^ 31 -> v / 4 < Z.of_nat (length expr) ->
  0 <= m < cap -> cap <= 2 ^ 32 ->
  exists expr',
    word_action st mod_ cap w after stack (mk_iff_build expr feats (to_u32 v) (to_u32 m))
    = Some (inr (stack, mk_iff_build expr' (p :: feats) (to_u32 (v - 1)) (to_u32 (m - 1)))) /\
    written expr' expr v [LYS_IFF_F].
Proof.
  intros Hw Hafter Hnamed Hv Hlen Hm Hcap.
  destruct (iff_word_operand w after Hw Hafter) as (Hnot & Hand & Hor).
  destruct (feature_word_inv w Hw) as (Hplain & _).
  destruct (iff_emit_at LYS_IFF_F expr feats v (to_u32 m)) as (expr' & Hemit & Hwr);
    [exact Hv|unfold LYS_IFF_F; lia|exact Hlen|].
  exists expr'. split; [|exact Hwr].
  unfold iff_word. rewrite Hnot, Hand, Hor, Hemit. cbn [mbind option_bind].
  rewrite lysc_feature_find_word by exact Hplain.
  rewrite (feature_find_named_found _ _ _ _ _ _ Hnamed). cbn [mbind option_bind].
  cbn [b_f_size b_expr b_features b_expr_size].
  rewrite (to_u32_id m) by lia.
  destruct (Z.leb_spec cap m); [lia|]. reflexivity.
Qed.

(** A name that no feature of the module has gives [LY_EVALID]. *)
Lemma iff_word_unknown st mod_ cap w after stack expr feats v m :
  feature_word w = true -> delimited after = true ->
  no_feature_named st (mod_features mod_) w ->
  0 <= v < 2 ^ 31 -> v / 4 < Z.of_nat (length expr) ->
  word_action st mod_ cap w after stack (mk_iff_build expr feats (to_u32 v) m)
  = Some (inl LY_EVALID).
Proof.
  intros Hw Hafter Hnamed Hv Hlen.
  destruct (iff_word_operand w after Hw Hafter) as (Hnot & Hand & Hor).
  destruct (feature_word_inv w Hw) as (Hplain & _).
  destruct (iff_emit_at LYS_IFF_F expr feats v m) as (expr' & Hemit & Hwr);
    [exact Hv|unfold LYS_IFF_F; lia|exact Hlen|].
  unfold iff_word. rewrite Hnot, Hand, Hor, Hemit. cbn [mbind option_bind].
  rewrite lysc_feature_find_word by exact Hplain.
  rewrite (feature_find_named_absent _ _ _ _ Hnamed). reflexivity.
Qed.

Lemma iff_postparse_close fuel st mod_ cap before after stack b :
  postparse (S fuel) st mod_ cap (")"%char :: before) after stack b
  = postparse fuel st mod_ cap before (String ")" after) (LYS_IFF_RP :: stack) b.
Proof. reflexivity. Qed.

Lemma iff_postparse_open fuel st mod_ cap before after stack b :
  postparse (S fuel) st mod_ cap ("("%char :: before) after stack b
  = '(stack, b) ← iff_pop_until_rp stack b;
    postparse fuel st mod_ cap before (String "(" after) stack b.
Proof. reflexivity. Qed.

(** The text [not ] in front of an item leaves a negation on the
    stack. *)
Lemma iff_postparse_neg st mod_ cap neg fuel before0 after stack b :
  stack_clean stack = true -> delimited_before before0 = true ->
  (length (rev_chars (iff_neg_text neg) ++ before0) < fuel)%nat ->
  exists fuel', (length before0 < fuel')%nat /\
    postparse fuel st mod_ cap (rev_chars (iff_neg_text neg) ++ before0) after stack b
    = postparse fuel' st mod_ cap before0 (iff_neg_text neg +:+ after)
        (iff_neg_code neg ++ stack) b.
Proof.
  intros Hclean Hbefore Hfuel. destruct neg.
  - change (rev_chars (iff_neg_text true)) with (" "%char :: rev_chars "not") in *.
    rewrite length_app in Hfuel. cbn [length app] in Hfuel.
    rewrite rev_chars_length in Hfuel. cbn [String.length] in Hfuel.
    destruct fuel as [|[|fuel]]; [lia|lia|]. exists fuel. split; [lia|].
    cbn [app]. rewrite iff_postparse_blank by reflexivity.
    rewrite iff_postparse_word by (reflexivity || discriminate || assumption).
    rewrite iff_word_not by (reflexivity || assumption). reflexivity.
  - exists fuel. split; [exact Hfuel|reflexivity].
Qed.

Lemma rev_chars_op_text is_or :
  rev_chars (iff_op_text is_or) = " "%char :: rev_chars (iff_op_word is_or) ++ [" "%char].
Proof. destruct is_or; reflexivity. Qed.

Lemma div4_mono v v' n : v' <= v -> v / 4 < n -> v' / 4 < n.
Proof. intros Hle Hv. apply Z.le_lt_trans with (v / 4); [apply Z.div_le_mono; lia|exact Hv]. Qed.

(** The operator between the two sides of a parenthesis: the negation
    of the right side is written and the operator put on the stack. *)
Lemma iff_postparse_op st mod_ cap is_or neg fuel before0 after stack expr feats v m :
  -1 <= v - Z.of_nat (length (iff_neg_code neg)) -> v < 2 ^ 31 ->
  v / 4 < Z.of_nat (length expr) ->
  (length (" "%char :: rev_chars (iff_op_word is_or) ++ " "%char :: before0) < fuel)%nat ->
  exists fuel' expr', (length before0 < fuel')%nat /\
    postparse fuel st mod_ cap (" "%char :: rev_chars (iff_op_word is_or) ++ " "%char :: before0)
      after (iff_neg_code neg ++ LYS_IFF_RP :: stack) (mk_iff_build expr feats (to_u32 v) m)
    = postparse fuel' st mod_ cap before0 (iff_op_text is_or +:+ after)
        (iff_op_code is_or :: LYS_IFF_RP :: stack)
        (mk_iff_build expr' feats (to_u32 (v - Z.of_nat (length (iff_neg_code neg)))) m) /\
    written expr' expr v (iff_neg_code neg).
Proof.
  intros Hlo Hhi Hlen Hfuel.
  cbn [length] in Hfuel. rewrite length_app, rev_chars_length in Hfuel. cbn [length] in Hfuel.
  assert (Hword : (1 <= String.length (iff_op_word is_or))%nat) by (destruct is_or; cbn; lia).
  destruct fuel as [|[|[|fuel]]]; [lia|lia|lia|].
  destruct (iff_pop_le_neg (iff_op_code is_or) neg stack expr feats v m)
    as (expr' & Hpop & Hw);
    [unfold iff_op_code, LYS_IFF_OR, LYS_IFF_AND; destruct is_or; lia
    |exact Hlo|exact Hhi|exact Hlen|].
  exists fuel, expr'. split; [lia|]. split; [|exact Hw].
  rewrite iff_postparse_blank by reflexivity.
  rewrite iff_postparse_word by (destruct is_or; reflexivity || discriminate).
  rewrite iff_word_op by reflexivity. rewrite Hpop. cbn [mbind option_bind].
  rewrite iff_postparse_blank by reflexivity.
  destruct is_or; reflexivity.
Qed.

(** The opening parenthesis and what is in front of it: the negation of
    the left side and the operator are written, and a negation of the
    parenthesis is left on the stack. *)
Lemma iff_postparse_left st mod_ cap is_or neg neg_l fuel before0 after stack expr feats v m :
  stack_clean stack = true -> delimited_before before0 = true ->
  -1 <= v - Z.of_nat (length (iff_neg_code neg_l)) - 1 -> v < 2 ^ 31 ->
  v / 4 < Z.of_nat (length expr) ->
  (length ("("%char :: rev_chars (iff_neg_text neg) ++ before0) < fuel)%nat ->
  exists fuel' expr', (length before0 < fuel')%nat /\
    postparse fuel st mod_ cap ("("%char :: rev_chars (iff_neg_text neg) ++ before0) after
      (iff_neg_code neg_l ++ iff_op_code is_or :: LYS_IFF_RP :: stack)
      (mk_iff_build expr feats (to_u32 v) m)
    = postparse fuel' st mod_ cap before0 (iff_neg_text neg +:+ String "(" after)
        (iff_neg_code neg ++ stack)
        (mk_iff_build expr' feats (to_u32 (v - Z.of_nat (length (iff_neg_code neg_l)) - 1)) m) /\
    written expr' expr v (iff_op_code is_or :: iff_neg_code neg_l).
Proof.
  intros Hclean Hbefore Hlo Hhi Hlen Hfuel. cbn [length] in Hfuel.
  destruct fuel as [|fuel]; [lia|].
  destruct (iff_pop_until_rp_neg neg_l is_or stack expr feats v m Hlo Hhi Hlen)
    as (expr' & Hpop & Hw).
  destruct (iff_postparse_neg st mod_ cap neg fuel before0 (String "(" after) stack
              (mk_iff_build expr' feats
                 (to_u32 (v - Z.of_nat (length (iff_neg_code neg_l)) - 1)) m)
              Hclean Hbefore ltac:(lia)) as (fuel' & Hfuel' & Hneg).
  exists fuel', expr'. split; [exact Hfuel'|]. split; [|exact Hw].
  rewrite iff_postparse_open, Hpop. cbn [mbind option_bind]. exact Hneg.
Qed.

Lemma iff_code_body e : iff_code e = iff_neg_code (iff_negated e) ++ iff_body e.
Proof. destruct e; reflexivity. Qed.

Lemma iff_body_length e : length (iff_code e) = (length (iff_neg_code (iff_negated e)) + length (iff_body e))%nat.
Proof. rewrite iff_code_body, length_app. reflexivity. Qed.

Lemma iff_operands_pos e : (1 <= iff_operands e)%nat.
Proof. rewrite iff_operands_operators. lia. Qed.

Lemma iff_body_pos e : (1 <= length (iff_body e))%nat.
Proof. destruct e; cbn; lia. Qed.

Lemma iff_wellformed_split st fs e :
  iff_wellformed st fs e = iff_syntax e && iff_known st fs e.
Proof.
  induction e as [neg name|neg is_or l IHl r IHr]; [reflexivity|].
  cbn [iff_wellformed iff_syntax iff_known]. rewrite IHl, IHr.
  destruct (iff_syntax l), (iff_syntax r), (iff_known st fs l), (iff_known st fs r),
    (negb (neg && iff_leftmost_not l)); reflexivity.
Qed.

(** The second loop over the text of an expression whose features are
    found: its opcodes but a negation in front are written downwards from
    the index, and that negation is left on the stack. *)
Lemma iff_postparse_node st mod_ cap :
  forall e fuel before0 after stack expr feats v m,
  iff_wellformed st (mod_features mod_) e = true ->
  delimited_before before0 = true -> delimited after = true ->
  stack_clean stack = true ->
  Z.of_nat (length (iff_code e)) <= v + 1 -> v < 2 ^ 31 ->
  v / 4 < Z.of_nat (length expr) ->
  Z.of_nat (iff_operands e) <= m + 1 -> m < cap -> cap <= 2 ^ 32 ->
  (length (rev_chars (iff_print e) ++ before0) < fuel)%nat ->
  exists fuel' expr', (length before0 < fuel')%nat /\
    postparse fuel st mod_ cap (rev_chars (iff_print e) ++ before0) after stack
      (mk_iff_build expr feats (to_u32 v) (to_u32 m))
    = postparse fuel' st mod_ cap before0 (iff_print e +:+ after)
        (iff_neg_code (iff_negated e) ++ stack)
        (mk_iff_build expr' (iff_pointers st (mod_features mod_) e ++ feats)
           (to_u32 (v - Z.of_nat (length (iff_body e))))
           (to_u32 (m - Z.of_nat (iff_operands e)))) /\
    written expr' expr v (iff_body e).
Proof.
  induction e as [neg name|neg is_or l IHl r IHr];
    intros fuel before0 after stack expr feats v m Hwf Hbefore Hafter Hclean
      Hcode Hv Hlen Hops Hm Hcap Hfuel.
  - cbn [iff_wellformed] in Hwf. apply andb_true_iff in Hwf as [Hw Hknown].
    destruct (feature_named st (mod_features mod_) name) as [[p f]|] eqn:Hnamed;
      [|discriminate].
    destruct (feature_word_inv name Hw) as (Hplain & Hne & _).
    cbn [iff_print iff_code iff_body iff_operands iff_negated iff_pointers length] in *.
    rewrite Hnamed. rewrite length_app in Hcode. cbn [length] in Hcode.
    rewrite rev_chars_app, <- app_assoc in *.
    rewrite length_app, rev_chars_length in Hfuel.
    assert (Hname : (1 <= String.length name)%nat) by (destruct name; [congruence|cbn; lia]).
    destruct fuel as [|fuel]; [lia|].
    rewrite iff_postparse_word; [|exact Hplain|exact Hne|].
    2:{ destruct neg; [reflexivity|exact Hbefore]. }
    destruct (iff_word_feature st mod_ cap name after stack expr feats v m p f
                Hw Hafter Hnamed ltac:(lia) Hlen ltac:(lia) Hcap) as (expr' & Hword & Hwr).
    rewrite Hword. cbn [mbind option_bind].
    destruct (iff_postparse_neg st mod_ cap neg fuel before0 (name +:+ after) stack
                (mk_iff_build expr' (p :: feats) (to_u32 (v - 1)) (to_u32 (m - 1)))
                Hclean Hbefore ltac:(lia)) as (fuel' & Hfuel' & Hneg).
    exists fuel', expr'. split; [exact Hfuel'|]. split; [|exact Hwr].
    rewrite Hneg, string_app_assoc. reflexivity.
  - cbn [iff_wellformed] in Hwf.
    apply andb_true_iff in Hwf as [[Hwl Hwr]%andb_true_iff _].
    cbn [iff_print iff_code iff_body iff_operands iff_negated iff_pointers] in *.
    rewrite length_app in Hcode. cbn [length] in Hcode. rewrite length_app in Hcode.
    pose proof (iff_body_length l) as Hbl. pose proof (iff_body_length r) as Hbr.
    pose proof (iff_operands_pos l) as Hol. pose proof (iff_operands_pos r) as Hor.
    pose proof (iff_body_pos l) as Hpl. pose proof (iff_body_pos r) as Hpr.
    assert (Htext : rev_chars (iff_neg_text neg +:+ "(" +:+ iff_print l +:+ iff_op_text is_or
                               +:+ iff_print r +:+ ")") ++ before0
                    = ")"%char :: rev_chars (iff_print r) ++
                      " "%char :: rev_chars (iff_op_word is_or) ++
                      " "%char :: rev_chars (iff_print l) ++
                      "("%char :: rev_chars (iff_neg_text neg) ++ before0).
    { rewrite !rev_chars_app. rewrite (rev_chars_op_text is_or).
      change (rev_chars ")") with [")"%char]. change (rev_chars "(") with ["("%char].
      change (rev_chars "") with (@nil ascii).
      rewrite <- !app_assoc. cbn [app]. rewrite <- !app_assoc. reflexivity. }
    rewrite Htext in *. clear Htext.
    cbn [length] in Hfuel. rewrite length_app in Hfuel. cbn [length] in Hfuel.
    rewrite length_app in Hfuel. cbn [length] in Hfuel.
    rewrite length_app in Hfuel. cbn [length] in Hfuel.
    destruct fuel as [|fuel]; [lia|]. rewrite iff_postparse_close.
    destruct (IHr fuel (" "%char :: rev_chars (iff_op_word is_or) ++
                        " "%char :: rev_chars (iff_print l) ++
                        "("%char :: rev_chars (iff_neg_text neg) ++ before0)
                (String ")" after) (LYS_IFF_RP :: stack) expr feats v m
                Hwr eq_refl eq_refl eq_refl ltac:(lia) Hv Hlen ltac:(lia) Hm Hcap
                ltac:(rewrite length_app; cbn [length]; rewrite !length_app; cbn [length];
                      rewrite !length_app; cbn [length]; lia))
      as (fuel1 & expr1 & Hfuel1 & -> & Hw1).
    pose proof Hw1 as (Hlen1 & _).
    destruct (iff_postparse_op st mod_ cap is_or (iff_negated r) fuel1
                (rev_chars (iff_print l) ++ "("%char :: rev_chars (iff_neg_text neg) ++ before0)
                (iff_print r +:+ String ")" after) stack expr1
                (iff_pointers st (mod_features mod_) r ++ feats)
                (v - Z.of_nat (length (iff_body r)))
                (to_u32 (m - Z.of_nat (iff_operands r))))
      as (fuel2 & expr2 & Hfuel2 & -> & Hw2); [lia|lia| |exact Hfuel1|].
    { rewrite Hlen1. apply (div4_mono v); [lia|exact Hlen]. }
    pose proof Hw2 as (Hlen2 & _).
    replace (v - Z.of_nat (length (iff_body r)) - Z.of_nat (length (iff_neg_code (iff_negated r))))
      with (v - Z.of_nat (length (iff_code r))) in * by lia.
    destruct (IHl fuel2 ("("%char :: rev_chars (iff_neg_text neg) ++ before0)
                (iff_op_text is_or +:+ iff_print r +:+ String ")" after)
                (iff_op_code is_or :: LYS_IFF_RP :: stack) expr2
                (iff_pointers st (mod_features mod_) r ++ feats)
                (v - Z.of_nat (length (iff_code r)))
                (m - Z.of_nat (iff_operands r))
                Hwl eq_refl (delimited_op_text _ _) ltac:(destruct is_or; reflexivity)
                ltac:(lia) ltac:(lia)
                ltac:(rewrite Hlen2, Hlen1; apply (div4_mono v); [lia|exact Hlen])
                ltac:(lia) ltac:(lia) Hcap Hfuel2)
      as (fuel3 & expr3 & Hfuel3 & -> & Hw3).
    pose proof Hw3 as (Hlen3 & _).
    destruct (iff_postparse_left st mod_ cap is_or neg (iff_negated l) fuel3 before0
                (iff_print l +:+ iff_op_text is_or +:+ iff_print r +:+ String ")" after)
                stack expr3
                (iff_pointers st (mod_features mod_) l ++
                 iff_pointers st (mod_features mod_) r ++ feats)
                (v - Z.of_nat (length (iff_code r)) - Z.of_nat (length (iff_body l)))
                (to_u32 (m - Z.of_nat (iff_operands r) - Z.of_nat (iff_operands l)))
                Hclean Hbefore ltac:(lia) ltac:(lia))
      as (fuel4 & expr4 & Hfuel4 & -> & Hw4); [|exact Hfuel3|].
    { rewrite Hlen3, Hlen2, Hlen1. apply (div4_mono v); [lia|exact Hlen]. }
    exists fuel4, expr4. split; [exact Hfuel4|]. split.
    + rewrite !string_app_assoc, <- app_assoc. f_equal. cbn [length]. rewrite length_app.
      f_equal; f_equal; lia.
    + pose proof (written_compose _ _ _ _ _ _ Hw1 Hw2) as H12.
      replace (v - Z.of_nat (length (iff_body r))
               - Z.of_nat (length (iff_neg_code (iff_negated r))))
        with (v - Z.of_nat (length (iff_code r))) in * by lia.
      rewrite <- iff_code_body in H12.
      pose proof (written_compose _ _ _ _ _ _ H12 Hw3) as H123.
      assert (Hw4' : written expr4 expr3
                       (v - Z.of_nat (length (iff_body l ++ iff_code r)))
                       (iff_op_code is_or :: iff_neg_code (iff_negated l))).
      { rewrite length_app.
        replace (v - Z.of_nat (length (iff_body l) + length (iff_code r)))
          with (v - Z.of_nat (length (iff_code r)) - Z.of_nat (length (iff_body l))) by lia.
        exact Hw4. }
      pose proof (written_compose _ _ _ _ _ _ H123 Hw4') as Hall.
      rewrite (iff_code_body l).
      rewrite <- app_assoc. exact Hall.
Qed.
End IffCompileProofs.

(** ** Evaluation of what the if-feature compiler writes *)

Lemma slots_app expr pos ops1 ops2 :
  slots expr pos (ops1 ++ ops2) ->
  slots expr pos ops1 /\ slots expr (pos + length ops1) ops2.
Proof.
  intros H. split; intros i op Hi.
  - apply H. apply lookup_app_l_Some. exact Hi.
  - rewrite <- Nat.add_assoc. apply H. rewrite lookup_app_r by lia.
    replace (length ops1 + i - length ops1)%nat with i by lia. exact Hi.
Qed.

Lemma slots_head expr pos op ops :
  slots expr pos (op :: ops) -> iff_getop expr pos = Some op /\ slots expr (S pos) ops.
Proof.
  intros H. split.
  - rewrite <- (Nat.add_0_r pos). apply H. reflexivity.
  - intros i o Hi. replace (S pos + i)%nat with (pos + S i)%nat by lia. apply H. exact Hi.
Qed.

Lemma iff_pointers_length st fs e :
  iff_known st fs e = true -> length (iff_pointers st fs e) = iff_operands e.
Proof.
  induction e as [neg name|neg is_or l IHl r IHr]; cbn [iff_known iff_pointers iff_operands].
  - destruct (feature_named st fs name) as [[p f]|]; [reflexivity|discriminate].
  - intros [Hl Hr]%andb_true_iff. rewrite length_app, IHl, IHr by assumption. reflexivity.
Qed.

Lemma iff_known_shape st st' fs e :
  same_shape st st' -> iff_known st fs e = true ->
  iff_known st' fs e = true /\ iff_pointers st' fs e = iff_pointers st fs e.
Proof.
  intros Hsh. induction e as [neg name|neg is_or l IHl r IHr]; cbn [iff_known iff_pointers].
  - destruct (feature_named st fs name) as [[p f]|] eqn:Hnamed; [|discriminate]. intros _.
    destruct (feature_named_split _ _ _ _ _ Hnamed) as (_ & _ & _ & _ & Hp & _).
    destruct (same_shape_lookup _ _ _ _ Hsh Hp) as (f' & Hp' & _).
    rewrite (feature_named_shape _ _ _ _ _ _ _ Hsh Hnamed Hp'). auto.
  - intros [Hl Hr]%andb_true_iff. destruct (IHl Hl) as [-> ->]. destruct (IHr Hr) as [-> ->].
    auto.
Qed.

(** A negation in front of an item turns its value round. *)
Lemma lysc_iffeature_value_neg st iff neg fuel pos (holds : bool) index_e index_f m :
  slots (iff_expr iff) pos (iff_neg_code neg) ->
  lysc_iffeature_value_ fuel st iff (pos + length (iff_neg_code neg)) m
  = Some (if holds then 1 else 0, index_e, index_f) ->
  lysc_iffeature_value_ (length (iff_neg_code neg) + fuel) st iff pos m
  = Some (if xorb neg holds then 1 else 0, index_e, index_f).
Proof.
  intros Hslots Hbody. destruct neg; cbn [iff_neg_code length] in *.
  - apply slots_head in Hslots as [Hop _].
    replace (pos + 1)%nat with (S pos) in Hbody by lia.
    cbn [Nat.add lysc_iffeature_value_]. rewrite Hop. cbn [mbind option_bind].
    change (LYS_IFF_NOT =? LYS_IFF_F) with false.
    change (LYS_IFF_NOT =? LYS_IFF_NOT) with true. cbn match.
    rewrite Hbody. cbn [mbind option_bind]. destruct holds; reflexivity.
  - rewrite Nat.add_0_r in Hbody. exact Hbody.
Qed.

Lemma lysc_iffeature_value_mono st iff : forall fuel fuel' index_e index_f r,
  (fuel <= fuel')%nat ->
  lysc_iffeature_value_ fuel st iff index_e index_f = Some r ->
  lysc_iffeature_value_ fuel' st iff index_e index_f = Some r.
Proof.
  induction fuel as [|fuel IH]; intros fuel' index_e index_f r Hle H; [discriminate|].
  destruct fuel' as [|fuel']; [lia|]. cbn [lysc_iffeature_value_] in *.
  destruct (iff_getop (iff_expr iff) index_e) as [op|]; [|discriminate].
  cbn [mbind option_bind] in *.
  destruct (op =? LYS_IFF_F); [exact H|].
  destruct (op =? LYS_IFF_NOT).
  { destruct (lysc_iffeature_value_ fuel st iff (S index_e) index_f) as [[[v e1] f1]|] eqn:H1;
      [|discriminate].
    rewrite (IH fuel' _ _ _ ltac:(lia) H1). exact H. }
  destruct ((op =? LYS_IFF_AND) || (op =? LYS_IFF_OR)); [|exact H].
  destruct (lysc_iffeature_value_ fuel st iff (S index_e) index_f) as [[[a e1] f1]|] eqn:H1;
    [|discriminate].
  rewrite (IH fuel' _ _ _ ltac:(lia) H1). cbn [mbind option_bind] in *.
  destruct (lysc_iffeature_value_ fuel st iff e1 f1) as [[[b e2] f2]|] eqn:H2;
    [|discriminate].
  rewrite (IH fuel' _ _ _ ltac:(lia) H2). exact H.
Qed.

(** The opcodes of an expression in the slots from [pos] on, and its
    features in the array from [m] on, evaluate to the truth value of the
    expression; the indexes end behind them. *)
Lemma lysc_iffeature_value_code st fs iff : forall e fuel pos m,
  iff_known st fs e = true ->
  slots (iff_expr iff) pos (iff_code e) ->
  (forall i p, iff_pointers st fs e !! i = Some p ->
               iff_features iff !! (m + i)%nat = Some p) ->
  (length (iff_code e) <= fuel)%nat ->
  lysc_iffeature_value_ fuel st iff pos m
  = Some (if iff_holds st fs e then 1 else 0, (pos + length (iff_code e))%nat,
          (m + iff_operands e)%nat).
Proof.
  induction e as [neg name|neg is_or l IHl r IHr];
    intros fuel pos m Hknown Hslots Hfeats Hfuel.
  - cbn [iff_known iff_code iff_holds iff_operands iff_pointers] in *.
    destruct (feature_named st fs name) as [[p f]|] eqn:Hnamed; [|discriminate].
    destruct (feature_named_split _ _ _ _ _ Hnamed) as (_ & _ & _ & _ & Hp & _).
    apply slots_app in Hslots as [Hneg Hbody]. apply slots_head in Hbody as [Hop _].
    rewrite length_app in Hfuel |- *. cbn [length] in Hfuel |- *.
    apply (lysc_iffeature_value_mono _ _ (length (iff_neg_code neg) + 1)); [lia|].
    apply lysc_iffeature_value_neg; [exact Hneg|].
    cbn [lysc_iffeature_value_]. rewrite Hop. cbn [mbind option_bind].
    change (LYS_IFF_F =? LYS_IFF_F) with true. cbn match.
    specialize (Hfeats 0%nat p eq_refl). rewrite Nat.add_0_r in Hfeats.
    rewrite Hfeats. cbn [mbind option_bind]. rewrite Hp. cbn [mbind option_bind].
    unfold lysc_feature_value. f_equal. f_equal; [f_equal|]; lia.
  - cbn [iff_known iff_code iff_holds iff_operands iff_pointers] in *.
    apply andb_true_iff in Hknown as [Hkl Hkr].
    apply slots_app in Hslots as [Hneg Hbody]. apply slots_head in Hbody as [Hop Hbody].
    apply slots_app in Hbody as [Hsl Hsr].
    rewrite length_app in Hfuel |- *. cbn [length] in Hfuel |- *.
    rewrite length_app in Hfuel |- *.
    apply (lysc_iffeature_value_mono _ _
             (length (iff_neg_code neg) + S (length (iff_code l) + length (iff_code r))));
      [lia|].
    set (hl := iff_holds st fs l). set (hr := iff_holds st fs r).
    replace (pos + (length (iff_neg_code neg) + S (length (iff_code l) + length (iff_code r))))%nat
      with (S (pos + length (iff_neg_code neg)) + length (iff_code l) + length (iff_code r))%nat
      by lia.
    rewrite Nat.add_assoc.
    apply (lysc_iffeature_value_neg st iff neg _ pos
             (if is_or then hl || hr else hl && hr)); [exact Hneg|].
    cbn [lysc_iffeature_value_]. rewrite Hop. cbn [mbind option_bind].
    assert (Hl : lysc_iffeature_value_ (length (iff_code l) + length (iff_code r)) st iff
                   (S (pos + length (iff_neg_code neg))) m
                 = Some (if hl then 1 else 0,
                         (S (pos + length (iff_neg_code neg)) + length (iff_code l))%nat,
                         (m + iff_operands l)%nat)).
    { apply IHl; [exact Hkl|exact Hsl| |lia].
      intros i p Hi. apply Hfeats. apply lookup_app_l_Some. exact Hi. }
    assert (Hr : lysc_iffeature_value_ (length (iff_code l) + length (iff_code r)) st iff
                   (S (pos + length (iff_neg_code neg)) + length (iff_code l))%nat
                   (m + iff_operands l)%nat
                 = Some (if hr then 1 else 0,
                         (S (pos + length (iff_neg_code neg)) + length (iff_code l)
                          + length (iff_code r))%nat,
                         (m + iff_operands l + iff_operands r)%nat)).
    { apply IHr; [exact Hkr|exact Hsr| |lia].
      intros i p Hi. rewrite <- Nat.add_assoc. apply Hfeats.
      rewrite lookup_app_r by (rewrite iff_pointers_length by exact Hkl; lia).
      rewrite iff_pointers_length by exact Hkl.
      replace (iff_operands l + i - iff_operands l)%nat with i by lia. exact Hi. }
    rewrite Hl. cbn [mbind option_bind]. rewrite Hr. cbn [mbind option_bind].
    destruct is_or, hl, hr; reflexivity.
Qed.

(** The texts are longer than what is compiled from them. *)
Lemma iff_code_length_print e :
  iff_syntax e = true -> (length (iff_code e) <= String.length (iff_print e))%nat.
Proof.
  induction e as [neg name|neg is_or l IHl r IHr]; cbn [iff_syntax iff_code iff_print].
  - intros Hw. destruct (feature_word_inv name Hw) as (_ & Hne & _).
    rewrite length_app, string_length_cons1. cbn [length].
    assert (1 <= String.length name)%nat by (destruct name; [congruence|cbn; lia]).
    destruct neg; cbn; lia.
  - intros [[Hl Hr]%andb_true_iff _]%andb_true_iff.
    specialize (IHl Hl). specialize (IHr Hr).
    rewrite length_app. cbn [length]. rewrite length_app, !string_length_cons1.
    destruct neg, is_or; cbn; lia.
Qed.

Lemma iff_operands_code e : (iff_operands e <= length (iff_code e))%nat.
Proof.
  induction e as [neg name|neg is_or l IHl r IHr]; cbn [iff_operands iff_code].
  - rewrite length_app. cbn. lia.
  - rewrite length_app. cbn [length]. rewrite length_app. lia.
Qed.

Lemma iff_code_pos e : (1 <= length (iff_code e))%nat.
Proof. pose proof (iff_operands_code e). pose proof (iff_operands_pos e). lia. Qed.

Lemma ceil4_above n :
  0 < n -> (n - 1) / 4 < n / 4 + (if n mod 4 =? 0 then 0 else 1).
Proof.
  intros Hn. pose proof (Z.div_mod n 4 ltac:(lia)) as Hdm.
  pose proof (Z.mod_pos_bound n 4 ltac:(lia)) as Hmod.
  destruct (Z.eqb_spec (n mod 4) 0) as [H0|H0].
  - apply Z.div_lt_upper_bound; lia.
  - apply Z.div_lt_upper_bound; lia.
Qed.

Lemma ceil4_slots n :
  0 <= n -> n <= 4 * (n / 4 + (if n mod 4 =? 0 then 0 else 1)).
Proof.
  intros Hn. pose proof (Z.div_mod n 4 ltac:(lia)) as Hdm.
  pose proof (Z.mod_pos_bound n 4 ltac:(lia)) as Hmod.
  destruct (Z.eqb_spec (n mod 4) 0); lia.
Qed.

(** ** The two loops of the if-feature compiler together *)

Section IffCompileTop.
Variable lysc_module_find_prefix : lysc_module -> string -> option lysc_module.

Abbreviation postparse_ := (iff_postparse lysc_module_find_prefix).
Abbreviation compile_iffeature_ := (lys_compile_iffeature lysc_module_find_prefix).

(** The counters that the first loop leaves for the text of an
    expression. *)
Lemma iff_preparse_print e :
  iff_syntax e = true -> Z.of_nat (String.length (iff_print e)) < 2 ^ 31 ->
  exists cv,
    iff_preparse (S (String.length (iff_print e))) (iff_print e)
      (mk_iff_counters 0 false false 0 0 1)
    = Some (Some (mk_iff_counters 0 false cv (Z.of_nat (iff_operands e))
                    (Z.of_nat (length (iff_code e))) (Z.of_nat (iff_operands e)))) /\
    (forall name, e = IffName false name -> cv = false).
Proof.
  intros Hsyn Hlen.
  pose proof (iff_code_length_print e Hsyn) as Hcode.
  pose proof (iff_operands_code e) as Hops.
  assert (Hcase : (exists name, e = IffName false name) \/ forall name, e <> IffName false name).
  { destruct e as [[|] name|]; [right; discriminate|left; eauto|right; discriminate]. }
  destruct Hcase as [(name & ->)|Hother].
  { cbn [iff_syntax] in Hsyn. cbn [iff_print iff_neg_text].
    change (EmptyString +:+ name) with name.
    pose proof (iff_preparse_word (String.length name) name EmptyString
                  (mk_iff_counters 0 false false 0 0 1) Hsyn eq_refl) as Hword.
    rewrite string_app_nil_r in Hword. rewrite Hword.
    destruct (feature_word_inv name Hsyn) as (_ & Hne & _).
    destruct name as [|a name]; [congruence|]. exists false. split; [reflexivity|auto]. }
  destruct (iff_preparse_node e (S (String.length (iff_print e))) EmptyString
              0 false false 0 0 1 Hsyn ltac:(discriminate) eq_refl)
    as (fuel' & cv & Hfuel' & Heq);
    [rewrite string_app_nil_r; lia|].
  rewrite string_app_nil_r in Heq.
  change (to_u32 0) with 0 in Heq; change (to_u32 1) with 1 in Heq; rewrite Heq.
  destruct fuel' as [|fuel']; [cbn in Hfuel'; lia|].
  exists cv; split; [|intros name' Hname; destruct (Hother _ Hname)].
  cbn [skip_word iff_preparse]; rewrite !Z.add_0_l.
  pose proof (iff_operands_operators e) as Hoo.
  rewrite !to_u32_id by lia. do 2 f_equal. f_equal; lia.
Qed.

(** The result of a compilation whose first loop leaves the counters of
    the expression: its opcodes from the first slot on, and its
    features. *)
Lemma lys_compile_iffeature_passes st mod_ yang_1_1 e cv :
  iff_wellformed st (mod_features mod_) e = true ->
  Z.of_nat (String.length (iff_print e)) < 2 ^ 31 ->
  iff_preparse (S (String.length (iff_print e))) (iff_print e)
    (mk_iff_counters 0 false false 0 0 1)
  = Some (Some (mk_iff_counters 0 false cv (Z.of_nat (iff_operands e))
                  (Z.of_nat (length (iff_code e))) (Z.of_nat (iff_operands e)))) ->
  (cv || (1 <? Z.of_nat (length (iff_code e)))) && negb yang_1_1 = false ->
  exists expr,
    compile_iffeature_ st mod_ yang_1_1 (iff_print e)
    = Some (LY_SUCCESS, Some (mk_iffeature expr (iff_pointers st (mod_features mod_) e))) /\
    slots expr 0 (iff_code e) /\
    (length (iff_code e) <= 4 * length expr)%nat /\ expr <> [].
Proof.
  intros Hwf Hlen Hpre Hversion.
  pose proof Hwf as Hsyn. rewrite iff_wellformed_split in Hsyn.
  apply andb_true_iff in Hsyn as [Hsyn Hknown].
  pose proof (iff_code_length_print e Hsyn) as Hcode.
  pose proof (iff_operands_code e) as Hops.
  pose proof (iff_operands_pos e) as Hpos.
  pose proof (iff_body_length e) as Hbody.
  set (n := Z.of_nat (length (iff_code e))) in *.
  set (bytes := n / 4 + (if n mod 4 =? 0 then 0 else 1)).
  assert (Hbytes : (n - 1) / 4 < bytes) by (apply ceil4_above; lia).
  assert (Hslots : n <= 4 * bytes) by (apply ceil4_slots; lia).
  destruct (iff_postparse_node lysc_module_find_prefix st mod_ (Z.of_nat (iff_operands e))
              e (S (String.length (iff_print e))) [] EmptyString []
              (replicate (Z.to_nat bytes) 0) [] (n - 1) (Z.of_nat (iff_operands e) - 1)
              Hwf eq_refl eq_refl eq_refl)
    as (fuel' & expr1 & Hfuel' & Hpost & Hw1); try lia.
  { rewrite length_replicate. lia. }
  { rewrite app_nil_r, rev_chars_length. lia. }
  pose proof Hw1 as (Hlen1 & _). rewrite length_replicate in Hlen1.
  destruct (iff_pop_all_neg (iff_negated e) expr1 (iff_pointers st (mod_features mod_) e ++ [])
              (n - 1 - Z.of_nat (length (iff_body e)))
              (to_u32 (Z.of_nat (iff_operands e) - 1 - Z.of_nat (iff_operands e))))
    as (expr2 & Hpop & Hw2); [lia|lia| |].
  { rewrite Hlen1. apply (div4_mono (n - 1)); lia. }
  pose proof (written_compose _ _ _ _ _ _ Hw1 Hw2) as Hall.
  rewrite <- iff_code_body in Hall. destruct Hall as (Hlen2 & _ & Hall & _).
  rewrite length_replicate in Hlen2.
  exists expr2. split; [|split; [|split]].
  - unfold lys_compile_iffeature. rewrite Hpre. cbn [mbind option_bind].
    cbn [c_j c_f_exp c_f_size c_checkversion c_expr_size].
    rewrite !Z.eqb_refl. cbn [negb orb]. fold n. rewrite Hversion. fold bytes.
    rewrite app_nil_r in Hpost. unfold rev_chars in Hpost.
    rewrite Hpost. destruct fuel' as [|fuel']; [cbn in Hfuel'; lia|].
    cbn [iff_postparse mbind option_bind]. rewrite !app_nil_r in *. rewrite Hpop.
    cbn [mbind option_bind b_expr_size b_f_size b_expr b_features].
    rewrite !to_u32_add_l.
    replace (n - 1 - Z.of_nat (length (iff_body e))
             - Z.of_nat (length (iff_neg_code (iff_negated e))) + 1) with 0 by lia.
    replace (Z.of_nat (iff_operands e) - 1 - Z.of_nat (iff_operands e) + 1) with 0 by lia.
    reflexivity.
  - replace (Z.to_nat (n - 1 - Z.of_nat (length (iff_code e)) + 1)) with 0%nat in Hall by lia.
    exact Hall.
  - rewrite Hlen2. lia.
  - intros ->. cbn [length] in Hlen2. lia.
Qed.

Lemma feature_named_none st fs name :
  valid_ptrs st fs -> feature_named st fs name = None -> no_feature_named st fs name.
Proof.
  unfold valid_ptrs, no_feature_named. induction 1 as [|p fs Hp _ IH]; [constructor|].
  cbn [feature_named]. apply lookup_lt_is_Some_2 in Hp as [f Hf]. rewrite Hf.
  destruct (String.eqb_spec (f_name f) name) as [|Hne]; [discriminate|].
  intros H. constructor; [exists f; auto|auto].
Qed.

(** The second loop over the text of an expression one of whose names
    is not the name of a feature ends with [LY_EVALID]. *)
Lemma iff_postparse_unknown st mod_ cap :
  forall e fuel before0 after stack expr feats v m,
  iff_syntax e = true -> iff_known st (mod_features mod_) e = false ->
  valid_ptrs st (mod_features mod_) ->
  delimited_before before0 = true -> delimited after = true ->
  stack_clean stack = true ->
  Z.of_nat (length (iff_code e)) <= v + 1 -> v < 2 ^ 31 ->
  v / 4 < Z.of_nat (length expr) ->
  Z.of_nat (iff_operands e) <= m + 1 -> m < cap -> cap <= 2 ^ 32 ->
  (length (rev_chars (iff_print e) ++ before0) < fuel)%nat ->
  postparse_ fuel st mod_ cap (rev_chars (iff_print e) ++ before0) after stack
    (mk_iff_build expr feats (to_u32 v) (to_u32 m))
  = Some (inl LY_EVALID).
Proof.
  induction e as [neg name|neg is_or l IHl r IHr];
    intros fuel before0 after stack expr feats v m Hsyn Hknown Hvalid Hbefore Hafter Hclean
      Hcode Hv Hlen Hops Hm Hcap Hfuel.
  - cbn [iff_syntax iff_known] in *.
    destruct (feature_named st (mod_features mod_) name) as [[p f]|] eqn:Hnamed;
      [discriminate|].
    destruct (feature_word_inv name Hsyn) as (Hplain & Hne & _).
    cbn [iff_print iff_code] in *. rewrite length_app in Hcode. cbn [length] in Hcode.
    rewrite rev_chars_app, <- app_assoc in *.
    rewrite length_app, rev_chars_length in Hfuel.
    destruct fuel as [|fuel]; [lia|].
    rewrite iff_postparse_word; [|exact Hplain|exact Hne|].
    2:{ destruct neg; [reflexivity|exact Hbefore]. }
    rewrite iff_word_unknown; [reflexivity|exact Hsyn|exact Hafter| |lia|exact Hlen].
    apply feature_named_none; assumption.
  - cbn [iff_syntax iff_known] in *.
    apply andb_true_iff in Hsyn as [[Hsl Hsr]%andb_true_iff _].
    cbn [iff_print iff_code iff_operands] in *.
    rewrite length_app in Hcode. cbn [length] in Hcode. rewrite length_app in Hcode.
    pose proof (iff_body_length r) as Hbr.
    pose proof (iff_operands_pos l) as Hol. pose proof (iff_operands_pos r) as Hor.
    pose proof (iff_code_pos l) as Hpl. pose proof (iff_body_pos r) as Hpr.
    assert (Htext : rev_chars (iff_neg_text neg +:+ "(" +:+ iff_print l +:+ iff_op_text is_or
                               +:+ iff_print r +:+ ")") ++ before0
                    = ")"%char :: rev_chars (iff_print r) ++
                      " "%char :: rev_chars (iff_op_word is_or) ++
                      " "%char :: rev_chars (iff_print l) ++
                      "("%char :: rev_chars (iff_neg_text neg) ++ before0).
    { rewrite !rev_chars_app. rewrite (rev_chars_op_text is_or).
      change (rev_chars ")") with [")"%char]. change (rev_chars "(") with ["("%char].
      rewrite <- !app_assoc. cbn [app]. rewrite <- !app_assoc. reflexivity. }
    rewrite Htext in *. clear Htext.
    cbn [length] in Hfuel. rewrite length_app in Hfuel. cbn [length] in Hfuel.
    rewrite length_app in Hfuel. cbn [length] in Hfuel.
    rewrite length_app in Hfuel. cbn [length] in Hfuel.
    destruct fuel as [|fuel]; [lia|]. rewrite iff_postparse_close.
    assert (Hfuel_r : (length (rev_chars (iff_print r) ++
                          " "%char :: rev_chars (iff_op_word is_or) ++
                          " "%char :: rev_chars (iff_print l) ++
                          "("%char :: rev_chars (iff_neg_text neg) ++ before0) < fuel)%nat).
    { rewrite length_app. cbn [length]. rewrite !length_app. cbn [length].
      rewrite !length_app. cbn [length]. lia. }
    destruct (iff_known st (mod_features mod_) r) eqn:Hkr.
    2:{ apply IHr; try assumption; try reflexivity; lia. }
    rewrite andb_true_r in Hknown.
    destruct (iff_postparse_node lysc_module_find_prefix st mod_ cap r fuel
                (" "%char :: rev_chars (iff_op_word is_or) ++
                 " "%char :: rev_chars (iff_print l) ++
                 "("%char :: rev_chars (iff_neg_text neg) ++ before0)
                (String ")" after) (LYS_IFF_RP :: stack) expr feats v m)
      as (fuel1 & expr1 & Hfuel1 & -> & Hw1);
      [rewrite iff_wellformed_split, Hsr, Hkr; reflexivity|reflexivity|reflexivity|reflexivity
      |lia|exact Hv|exact Hlen|lia|exact Hm|exact Hcap|exact Hfuel_r|].
    pose proof Hw1 as (Hlen1 & _).
    destruct (iff_postparse_op lysc_module_find_prefix st mod_ cap is_or (iff_negated r) fuel1
                (rev_chars (iff_print l) ++ "("%char :: rev_chars (iff_neg_text neg) ++ before0)
                (iff_print r +:+ String ")" after) stack expr1
                (iff_pointers st (mod_features mod_) r ++ feats)
                (v - Z.of_nat (length (iff_body r)))
                (to_u32 (m - Z.of_nat (iff_operands r))))
      as (fuel2 & expr2 & Hfuel2 & -> & Hw2); [lia|lia| |exact Hfuel1|].
    { rewrite Hlen1. apply (div4_mono v); [lia|exact Hlen]. }
    pose proof Hw2 as (Hlen2 & _).
    replace (v - Z.of_nat (length (iff_body r)) - Z.of_nat (length (iff_neg_code (iff_negated r))))
      with (v - Z.of_nat (length (iff_code r))) in * by lia.
    apply IHl; try assumption; try reflexivity; try lia.
    + apply delimited_op_text.
    + destruct is_or; reflexivity.
    + rewrite Hlen2, Hlen1. apply (div4_mono v); [lia|exact Hlen].
Qed.

End IffCompileTop.

(** ** Compilation of features *)

Lemma deps_grown_refl f : deps_grown f f.
Proof. unfold deps_grown. split_and!; reflexivity. Qed.

Lemma deps_grown_trans f g h : deps_grown f g -> deps_grown g h -> deps_grown f h.
Proof.
  intros (? & ? & ? & ?) (? & ? & ? & ?). unfold deps_grown.
  split_and!; try congruence. etrans; eassumption.
Qed.

Lemma store_grown_refl st : store_grown st st.
Proof. intros p f Hp. exists f. split; [exact Hp|apply deps_grown_refl]. Qed.

Lemma store_grown_trans st1 st2 st3 :
  store_grown st1 st2 -> store_grown st2 st3 -> store_grown st1 st3.
Proof.
  intros H12 H23 p f Hp. destruct (H12 p f Hp) as (g & Hg & Hfg).
  destruct (H23 p g Hg) as (h & Hh & Hgh). exists h. split; [exact Hh|].
  eapply deps_grown_trans; eassumption.
Qed.

Lemma store_grown_insert st r f g :
  st !! r = Some f -> deps_grown f g -> store_grown st (<[r := g]> st).
Proof.
  intros Hr Hfg p h Hp. destruct (decide (r = p)) as [->|Hne].
  - rewrite Hp in Hr. injection Hr as ->. exists g. split; [|exact Hfg].
    apply list_lookup_insert_eq. eapply lookup_lt_Some. exact Hp.
  - exists h. rewrite list_lookup_insert_ne by exact Hne. split; [exact Hp|apply deps_grown_refl].
Qed.

Lemma add_depfeature_grown q f : deps_grown f (add_depfeature q f).
Proof. unfold deps_grown. split_and!; try reflexivity. cbn. apply prefix_app_r. reflexivity. Qed.

(** Registering a feature with the features it refers to: the store
    keeps its size, its features gain dependents only, and the feature is
    a dependent of each of them. *)
Lemma register_depfeatures_spec q : forall refs st st',
  register_depfeatures st q refs = Some st' ->
  length st' = length st /\ store_grown st st' /\
  forall r, r ∈ refs -> exists fr, st' !! r = Some fr /\ q ∈ f_depfeatures fr.
Proof.
  induction refs as [|r refs IH]; intros st st' H; cbn [register_depfeatures] in H.
  - injection H as <-. split; [reflexivity|]. split; [apply store_grown_refl|].
    intros r Hr. apply elem_of_nil in Hr as [].
  - destruct (st !! r) as [f|] eqn:Hr; [|discriminate]. cbn [mbind option_bind] in H.
    destruct (IH _ _ H) as (Hlen & Hgrown & Hrefs). rewrite length_insert in Hlen.
    pose proof (store_grown_insert st r f _ Hr (add_depfeature_grown q f)) as Hstep.
    split; [exact Hlen|]. split; [eapply store_grown_trans; eassumption|].
    intros r' [->|Hin]%elem_of_cons; [|auto].
    assert (Hnew : <[r := add_depfeature q f]> st !! r = Some (add_depfeature q f)).
    { apply list_lookup_insert_eq. eapply lookup_lt_Some. exact Hr. }
    destruct (Hgrown _ _ Hnew) as (fr & Hfr & _ & _ & _ & Hprefix).
    exists fr. split; [exact Hfr|]. eapply elem_of_prefix; [|exact Hprefix].
    cbn. apply elem_of_app. right. apply elem_of_cons. left. reflexivity.
Qed.

Lemma register_iffeatures_spec q : forall iffs st st',
  register_iffeatures st q iffs = Some st' ->
  length st' = length st /\ store_grown st st' /\
  forall iff r, iff ∈ iffs -> r ∈ iff_features iff ->
    exists fr, st' !! r = Some fr /\ q ∈ f_depfeatures fr.
Proof.
  induction iffs as [|iff iffs IH]; intros st st' H; cbn [register_iffeatures] in H.
  - injection H as <-. split; [reflexivity|]. split; [apply store_grown_refl|].
    intros iff r Hiff. apply elem_of_nil in Hiff as [].
  - destruct (register_depfeatures st q (iff_features iff)) as [st1|] eqn:H1; [|discriminate].
    cbn [mbind option_bind] in H.
    destruct (register_depfeatures_spec _ _ _ _ H1) as (Hlen1 & Hgrown1 & Hrefs1).
    destruct (IH _ _ H) as (Hlen & Hgrown & Hrefs).
    split; [congruence|]. split; [eapply store_grown_trans; eassumption|].
    intros iff' r [->|Hin]%elem_of_cons Hr; [|eauto].
    destruct (Hrefs1 r Hr) as (fr & Hfr & Hq).
    destruct (Hgrown _ _ Hfr) as (fr' & Hfr' & _ & _ & _ & Hprefix).
    exists fr'. split; [exact Hfr'|]. eapply elem_of_prefix; eassumption.
Qed.

Lemma register_depfeatures_added q : forall refs st st' r fr',
  register_depfeatures st q refs = Some st' -> st' !! r = Some fr' ->
  exists fr, st !! r = Some fr /\
    forall x, x ∈ f_depfeatures fr' -> x ∈ f_depfeatures fr \/ (x = q /\ r ∈ refs).
Proof.
  induction refs as [|r0 refs IH]; intros st st' r fr' H Hr; cbn [register_depfeatures] in H.
  - injection H as <-. exists fr'. auto.
  - destruct (st !! r0) as [f0|] eqn:Hr0; [|discriminate]. cbn [mbind option_bind] in H.
    destruct (IH _ _ _ _ H Hr) as (fr1 & Hfr1 & Hadded).
    destruct (decide (r0 = r)) as [->|Hne].
    + rewrite list_lookup_insert_eq in Hfr1 by (eapply lookup_lt_Some; exact Hr0).
      injection Hfr1 as <-. exists f0. split; [exact Hr0|].
      intros x Hx. destruct (Hadded x Hx) as [Hold|[-> Hin]].
      * cbn in Hold. apply elem_of_app in Hold as [Hold|Hnew]; [auto|].
        apply elem_of_cons in Hnew as [->|Hnil]; [|apply elem_of_nil in Hnil as []].
        right. split; [reflexivity|]. apply elem_of_cons. auto.
      * right. split; [reflexivity|]. apply elem_of_cons. auto.
    + rewrite list_lookup_insert_ne in Hfr1 by exact Hne. exists fr1. split; [exact Hfr1|].
      intros x Hx. destruct (Hadded x Hx) as [Hold|[-> Hin]]; [auto|].
      right. split; [reflexivity|]. apply elem_of_cons. auto.
Qed.

Lemma register_iffeatures_added q : forall iffs st st' r fr',
  register_iffeatures st q iffs = Some st' -> st' !! r = Some fr' ->
  exists fr, st !! r = Some fr /\
    forall x, x ∈ f_depfeatures fr' ->
      x ∈ f_depfeatures fr \/ (x = q /\ exists iff, iff ∈ iffs /\ r ∈ iff_features iff).
Proof.
  induction iffs as [|iff iffs IH]; intros st st' r fr' H Hr; cbn [register_iffeatures] in H.
  - injection H as <-. exists fr'. auto.
  - destruct (register_depfeatures st q (iff_features iff)) as [st1|] eqn:H1; [|discriminate].
    cbn [mbind option_bind] in H.
    destruct (IH _ _ _ _ H Hr) as (fr1 & Hfr1 & Hadded).
    destruct (register_depfeatures_added _ _ _ _ _ _ H1 Hfr1) as (fr & Hfr & Hadded1).
    exists fr. split; [exact Hfr|]. intros x Hx.
    destruct (Hadded x Hx) as [Hold|[-> (iff' & Hiff' & Hin)]].
    + destruct (Hadded1 x Hold) as [Hold1|[-> Hin]]; [auto|].
      right. split; [reflexivity|]. exists iff. split; [apply elem_of_cons; auto|exact Hin].
    + right. split; [reflexivity|]. exists iff'. split; [apply elem_of_cons; auto|exact Hin].
Qed.

Section CompileFeature.
Variable lysc_module_find_prefix : lysc_module -> string -> option lysc_module.

Abbreviation compile_feature_ := (lys_compile_feature lysc_module_find_prefix).
Abbreviation compile_features_ := (compile_features lysc_module_find_prefix).

(** What [lys_compile_feature] does to the store: the size stays, the
    other features gain dependents only, the feature itself gets the
    parsed name and flags, and after [LY_SUCCESS] it is a dependent of
    every feature that its if-feature expressions refer to. *)
Lemma lys_compile_feature_spec st mod_ yang_1_1 feature_p q ret st' :
  compile_feature_ st mod_ yang_1_1 feature_p q = Some (ret, st') ->
  length st' = length st /\
  (forall p f, p <> q -> st !! p = Some f ->
     exists f', st' !! p = Some f' /\ deps_grown f f') /\
  exists f0 fq, st !! q = Some f0 /\ st' !! q = Some fq /\
    f_name fq = pf_name feature_p /\ f_flags fq = pf_flags feature_p /\
    f_depfeatures f0 `prefix_of` f_depfeatures fq /\
    (ret = LY_SUCCESS ->
     forall iff r, iff ∈ f_iffeatures fq -> r ∈ iff_features iff ->
       exists fr, st' !! r = Some fr /\ q ∈ f_depfeatures fr).
Proof.
  unfold lys_compile_feature. intros H.
  destruct (st !! q) as [f0|] eqn:Hq; [|discriminate]. cbn [mbind option_bind] in H.
  pose proof (lookup_lt_Some _ _ _ Hq) as Hlt.
  set (f1 := mk_feature (pf_name feature_p) (pf_flags feature_p) (f_iffeatures f0)
               (f_depfeatures f0)) in *.
  assert (Hq1 : <[q := f1]> st !! q = Some f1) by (apply list_lookup_insert_eq; exact Hlt).
  assert (Hother : forall (g : lysc_feature) p f, p <> q -> st !! p = Some f ->
            exists f', <[q := g]> st !! p = Some f' /\ deps_grown f f').
  { intros g p f Hne Hp. exists f. rewrite list_lookup_insert_ne by congruence.
    split; [exact Hp|apply deps_grown_refl]. }
  assert (Hearly : forall ret', ret' <> LY_SUCCESS ->
            Some (ret', <[q := f1]> st) = Some (ret, st') ->
            length st' = length st /\
            (forall p f, p <> q -> st !! p = Some f ->
               exists f', st' !! p = Some f' /\ deps_grown f f') /\
            exists f0' fq, Some f0 = Some f0' /\ st' !! q = Some fq /\
              f_name fq = pf_name feature_p /\ f_flags fq = pf_flags feature_p /\
              f_depfeatures f0' `prefix_of` f_depfeatures fq /\
              (ret = LY_SUCCESS ->
               forall iff r, iff ∈ f_iffeatures fq -> r ∈ iff_features iff ->
                 exists fr, st' !! r = Some fr /\ q ∈ f_depfeatures fr)).
  { intros ret' Hret' Heq. injection Heq as <- <-.
    split; [apply length_insert|]. split; [apply Hother|].
    exists f0, f1. split_and!; try reflexivity; [exact Hq1|]. intros Hs. congruence. }
  destruct (compile_exts (pf_exts feature_p)) eqn:Hexts;
    try (eapply Hearly; [|exact H]; discriminate).
  clear Hearly.
  destruct (compile_iffeatures lysc_module_find_prefix (<[q := f1]> st) mod_ yang_1_1
              (pf_iffeatures feature_p)) as [[ret1 iffs]|]; [|discriminate].
  cbn [mbind option_bind] in H. rewrite Hq1 in H. cbn [mbind option_bind] in H.
  rewrite list_insert_insert_eq in H. cbn [f_name f_flags f_depfeatures f1] in H.
  set (f2 := mk_feature (pf_name feature_p) (pf_flags feature_p) iffs (f_depfeatures f0)) in *.
  assert (Hq2 : <[q := f2]> st !! q = Some f2) by (apply list_lookup_insert_eq; exact Hlt).
  assert (Hfail : ret1 <> LY_SUCCESS -> Some (ret1, <[q := f2]> st) = Some (ret, st') ->
            length st' = length st /\
            (forall p f, p <> q -> st !! p = Some f ->
               exists f', st' !! p = Some f' /\ deps_grown f f') /\
            exists f0' fq, Some f0 = Some f0' /\ st' !! q = Some fq /\
              f_name fq = pf_name feature_p /\ f_flags fq = pf_flags feature_p /\
              f_depfeatures f0' `prefix_of` f_depfeatures fq /\
              (ret = LY_SUCCESS ->
               forall iff r, iff ∈ f_iffeatures fq -> r ∈ iff_features iff ->
                 exists fr, st' !! r = Some fr /\ q ∈ f_depfeatures fr)).
  { intros Hret' Heq. injection Heq as <- <-.
    split; [apply length_insert|]. split; [apply Hother|].
    exists f0, f2. split_and!; try reflexivity; [exact Hq2|]. intros Hs. congruence. }
  destruct ret1; try (apply Hfail; [discriminate|exact H]). clear Hfail.
  destruct (register_iffeatures (<[q := f2]> st) q iffs) as [st2|] eqn:Hreg; [|discriminate].
  cbn [mbind option_bind] in H. injection H as <- <-.
  destruct (register_iffeatures_spec _ _ _ _ Hreg) as (Hlen & Hgrown & Hrefs).
  rewrite length_insert in Hlen. split; [exact Hlen|]. split.
  - intros p f Hne Hp. destruct (Hother f2 p f Hne Hp) as (f' & Hf' & Hff').
    destruct (Hgrown _ _ Hf') as (f'' & Hf'' & Hgr). exists f''. split; [exact Hf''|].
    eapply deps_grown_trans; eassumption.
  - destruct (Hgrown _ _ Hq2) as (fq & Hfq & Hname & Hflags & Hiffs & Hprefix).
    cbn [f_name f_flags f_iffeatures f_depfeatures f2] in *.
    exists f0, fq. split_and!; try reflexivity; try assumption; try congruence.
    intros _ iff r Hiff Hr. rewrite <- Hiffs in Hiff. eauto.
Qed.

(** A dependent that [lys_compile_feature] adds is the feature itself,
    added to a feature that one of its if-feature expressions refers
    to. *)
Lemma lys_compile_feature_added st mod_ yang_1_1 feature_p q ret st' r fr' :
  compile_feature_ st mod_ yang_1_1 feature_p q = Some (ret, st') ->
  st' !! r = Some fr' ->
  exists fr, st !! r = Some fr /\
    forall x, x ∈ f_depfeatures fr' ->
      x ∈ f_depfeatures fr \/
      (x = q /\ exists fq iff, st' !! q = Some fq /\ iff ∈ f_iffeatures fq /\
                  r ∈ iff_features iff).
Proof.
  unfold lys_compile_feature. intros H Hr.
  destruct (st !! q) as [f0|] eqn:Hq; [|discriminate]. cbn [mbind option_bind] in H.
  pose proof (lookup_lt_Some _ _ _ Hq) as Hlt.
  assert (Hkept : forall g, f_depfeatures g = f_depfeatures f0 ->
            <[q := g]> st !! r = Some fr' ->
            exists fr, st !! r = Some fr /\
              forall x, x ∈ f_depfeatures fr' ->
                x ∈ f_depfeatures fr \/
                (x = q /\ exists fq iff, <[q := g]> st !! q = Some fq /\
                            iff ∈ f_iffeatures fq /\ r ∈ iff_features iff)).
  { intros g Hg Hr'. destruct (decide (q = r)) as [->|Hne].
    - rewrite list_lookup_insert_eq in Hr' by exact Hlt. injection Hr' as <-.
      exists f0. split; [exact Hq|]. rewrite Hg. auto.
    - rewrite list_lookup_insert_ne in Hr' by exact Hne. exists fr'. auto. }
  set (f1 := mk_feature (pf_name feature_p) (pf_flags feature_p) (f_iffeatures f0)
               (f_depfeatures f0)) in *.
  assert (Hq1 : <[q := f1]> st !! q = Some f1) by (apply list_lookup_insert_eq; exact Hlt).
  destruct (compile_exts (pf_exts feature_p));
    try (injection H as <- <-; apply (Hkept f1 eq_refl Hr)).
  destruct (compile_iffeatures lysc_module_find_prefix (<[q := f1]> st) mod_ yang_1_1
              (pf_iffeatures feature_p)) as [[ret1 iffs]|]; [|discriminate].
  cbn [mbind option_bind] in H. rewrite Hq1 in H. cbn [mbind option_bind] in H.
  rewrite list_insert_insert_eq in H. cbn [f_name f_flags f_depfeatures f1] in H.
  set (f2 := mk_feature (pf_name feature_p) (pf_flags feature_p) iffs (f_depfeatures f0)) in *.
  destruct ret1; try (injection H as <- <-; apply (Hkept f2 eq_refl Hr)).
  destruct (register_iffeatures (<[q := f2]> st) q iffs) as [st2|] eqn:Hreg; [|discriminate].
  cbn [mbind option_bind] in H. injection H as <- <-.
  destruct (register_iffeatures_added _ _ _ _ _ _ Hreg Hr) as (fr1 & Hfr1 & Hadded).
  destruct (register_iffeatures_spec _ _ _ _ Hreg) as (_ & Hgrown & _).
  assert (Hq2 : <[q := f2]> st !! q = Some f2) by (apply list_lookup_insert_eq; exact Hlt).
  destruct (Hgrown _ _ Hq2) as (fq & Hfq & _ & _ & Hiffs & _). cbn [f_iffeatures f2] in Hiffs.
  assert (Hold : exists fr, st !! r = Some fr /\ f_depfeatures fr = f_depfeatures fr1).
  { destruct (decide (q = r)) as [->|Hne].
    - rewrite Hq2 in Hfr1. injection Hfr1 as <-. exists f0. auto.
    - rewrite list_lookup_insert_ne in Hfr1 by exact Hne. exists fr1. auto. }
  destruct Hold as (fr & Hfr & Hdeps). exists fr. split; [exact Hfr|].
  intros x Hx. destruct (Hadded x Hx) as [Hin|[-> (iff & Hiff & Hin)]].
  - left. rewrite Hdeps. exact Hin.
  - right. split; [reflexivity|]. exists fq, iff. rewrite <- Hiffs. auto.
Qed.

(** The loop over the features keeps the back-links sound, whatever its
    result. *)
Lemma compile_features_sound yang_1_1 : forall features_p st mod_ ret st' mod',
  compile_features_ st mod_ yang_1_1 features_p = Some (ret, st', mod') ->
  deps_sound st -> deps_sound st'.
Proof.
  induction features_p as [|feature_p features_p IH]; intros st mod_ ret st' mod' H Hsound;
    cbn [compile_features] in H.
  - injection H as <- <- <-. exact Hsound.
  - set (zero := mk_feature EmptyString 0 [] []) in *.
    set (q := length st) in *.
    destruct (lys_compile_feature lysc_module_find_prefix (st ++ [zero])
                (mk_lysc_module (mod_name mod_) (mod_features mod_ ++ [q])) yang_1_1
                feature_p q) as [[ret1 st1]|] eqn:Hone; [|discriminate].
    cbn [mbind option_bind] in H.
    destruct (lys_compile_feature_spec _ _ _ _ _ _ _ Hone)
      as (Hlen1 & Hother & _).
    assert (Hstep : deps_sound st1).
    { intros r fr' x Hr Hx.
      destruct (lys_compile_feature_added _ _ _ _ _ _ _ _ _ Hone Hr) as (fr & Hfr & Hadded).
      destruct (Hadded x Hx) as [Hold|[-> (fq & iff & Hfq & Hiff & Hin)]]; [|eauto].
      assert (Hst : st !! r = Some fr).
      { destruct (decide (r < length st)%nat) as [Hlt|Hge].
        - rewrite lookup_app_l in Hfr by exact Hlt. exact Hfr.
        - rewrite lookup_app_r in Hfr by lia.
          destruct (r - length st)%nat; [|discriminate].
          injection Hfr as <-. apply elem_of_nil in Hold as []. }
      destruct (Hsound _ _ _ Hst Hold) as (g & iff & Hg & Hiff & Hin).
      pose proof (lookup_lt_Some _ _ _ Hg) as Hlt.
      destruct (Hother x g) as (g' & Hg' & _ & _ & Hiffs & _); [unfold q; lia| |].
      { rewrite lookup_app_l by exact Hlt. exact Hg. }
      exists g', iff. rewrite <- Hiffs. auto. }
    destruct ret1; try (injection H as <- <- <-; exact Hstep).
    eapply IH; eassumption.
Qed.

(** The loop over the features keeps the back-links complete as long as
    it succeeds, and whatever its result the features that were there
    gain dependents only. *)
Lemma compile_features_spec yang_1_1 : forall features_p st mod_ ret st' mod',
  compile_features_ st mod_ yang_1_1 features_p = Some (ret, st', mod') ->
  store_grown st st' /\
  (ret = LY_SUCCESS ->
   (deps_complete st -> deps_complete st') /\
   length st' = (length st + length features_p)%nat /\
   mod_features mod' = mod_features mod_ ++ seq (length st) (length features_p) /\
   forall i feature_p, features_p !! i = Some feature_p ->
     exists f, st' !! (length st + i)%nat = Some f /\
       f_name f = pf_name feature_p /\ f_flags f = pf_flags feature_p).
Proof.
  induction features_p as [|feature_p features_p IH]; intros st mod_ ret st' mod' H;
    cbn [compile_features] in H.
  - injection H as <- <- <-. split; [apply store_grown_refl|]. intros _.
    cbn [length seq]. rewrite Nat.add_0_r, app_nil_r. split_and!; auto.
    intros i feature_p Hi. discriminate.
  - set (zero := mk_feature EmptyString 0 [] []) in *.
    set (q := length st) in *.
    destruct (lys_compile_feature lysc_module_find_prefix (st ++ [zero])
                (mk_lysc_module (mod_name mod_) (mod_features mod_ ++ [q])) yang_1_1
                feature_p q) as [[ret1 st1]|] eqn:Hone; [|discriminate].
    cbn [mbind option_bind] in H.
    destruct (lys_compile_feature_spec _ _ _ _ _ _ _ Hone)
      as (Hlen1 & Hother & f0 & fq & Hq0 & Hq1 & Hname & Hflags & Hprefix & Hreg).
    rewrite length_app in Hlen1. cbn [length] in Hlen1.
    assert (Hzero : f0 = zero).
    { rewrite lookup_app_r in Hq0 by (unfold q; lia).
      replace (q - length st)%nat with 0%nat in Hq0 by (unfold q; lia).
      injection Hq0 as <-. reflexivity. }
    assert (Hgrown1 : store_grown st st1).
    { intros p f Hp. pose proof (lookup_lt_Some _ _ _ Hp) as Hlt.
      apply Hother; [unfold q; lia|]. rewrite lookup_app_l by exact Hlt. exact Hp. }
    assert (Hstep : ret1 = LY_SUCCESS -> deps_complete st -> deps_complete st1).
    { intros Hret Hdeps q' g iff r Hq' Hiff Hr.
      destruct (decide (q' = q)) as [->|Hne].
      - rewrite Hq1 in Hq'. injection Hq' as <-. eapply Hreg; eassumption.
      - assert (Hlt : (q' < length st)%nat).
        { apply lookup_lt_Some in Hq'. unfold q in Hne. lia. }
        destruct (lookup_lt_is_Some_2 _ _ Hlt) as [f Hf].
        destruct (Hgrown1 _ _ Hf) as (g' & Hg' & _ & _ & Hiffs & _).
        rewrite Hq' in Hg'. injection Hg' as <-. rewrite <- Hiffs in Hiff.
        destruct (Hdeps q' f iff r Hf Hiff Hr) as (fr & Hfr & Hin).
        destruct (Hgrown1 _ _ Hfr) as (fr' & Hfr' & _ & _ & _ & Hpre).
        exists fr'. split; [exact Hfr'|]. eapply elem_of_prefix; eassumption. }
    assert (Hearly : ret1 <> LY_SUCCESS ->
              Some (ret1, st1, mk_lysc_module (mod_name mod_) (mod_features mod_ ++ [q]))
              = Some (ret, st', mod') ->
              store_grown st st' /\ (ret = LY_SUCCESS ->
                (deps_complete st -> deps_complete st') /\
                length st' = (length st + length (feature_p :: features_p))%nat /\
                mod_features mod' = mod_features mod_
                                    ++ seq (length st) (length (feature_p :: features_p)) /\
                forall i feature_p0, (feature_p :: features_p) !! i = Some feature_p0 ->
                  exists f, st' !! (length st + i)%nat = Some f /\
                    f_name f = pf_name feature_p0 /\ f_flags f = pf_flags feature_p0)).
    { intros Hne Heq. injection Heq as <- <- <-. split; [exact Hgrown1|].
      intros Hs. congruence. }
    destruct ret1; try (apply Hearly; [discriminate|exact H]). clear Hearly.
    destruct (IH _ _ _ _ _ H) as (Hgrown & Hrest).
    split; [eapply store_grown_trans; eassumption|].
    intros Hret. destruct (Hrest Hret) as (Hdeps & Hlen & Hmod & Hnew).
    cbn [mod_features] in Hmod. split_and!.
    + auto.
    + rewrite Hlen, Hlen1. cbn [length]. lia.
    + rewrite Hmod, Hlen1, <- app_assoc. cbn [length seq app].
      replace (length st + 1)%nat with (S q) by (unfold q; lia). reflexivity.
    + intros i fp Hi. destruct i as [|i].
      * injection Hi as <-. rewrite Nat.add_0_r. fold q.
        destruct (Hgrown _ _ Hq1) as (f & Hf & Hn & Hfl & _).
        exists f. split; [exact Hf|]. split; congruence.
      * cbn [lookup list_lookup] in Hi. destruct (Hnew i fp Hi) as (f & Hf & Hn & Hfl).
        exists f. rewrite Hlen1 in Hf. fold q in Hf.
        replace (q + S i)%nat with (q + 1 + i)%nat by lia. auto.
Qed.
End CompileFeature.

(** ** The loop over a range expression *)

Lemma substring_length_le : forall s n m, (String.length (String.substring n m s) <= m)%nat.
Proof.
  induction s as [|c s IH]; intros n m.
  - destruct n, m; cbn; lia.
  - destruct n as [|n].
    + destruct m as [|m]; [cbn; lia|]. cbn [String.substring String.length].
      specialize (IH 0%nat m). lia.
    + cbn [String.substring]. apply IH.
Qed.

Lemma range_type_limits_unsigned basetype uns lo hi :
  range_type_limits basetype = Some (uns, lo, hi) -> range_type_unsigned basetype = Some uns.
Proof. destruct basetype; cbn; intros H; try discriminate; injection H as <- _ _; reflexivity. Qed.

(** A literal has at least one character. *)
Lemma range_part_check_value_syntax_length basetype value len valcopy :
  range_part_check_value_syntax basetype value = Some (LY_SUCCESS, len, valcopy) ->
  (1 <= len)%nat /\ (1 <= String.length value)%nat.
Proof.
  unfold range_part_check_value_syntax. destruct value as [|c rest]; [discriminate|].
  destruct (negb (isdigit c) && negb (Ascii.eqb c "-") && negb (Ascii.eqb c "+")) eqn:Hc;
    [discriminate|].
  destruct (Ascii.eqb c "-" || Ascii.eqb c "+") eqn:Hsigned.
  - destruct (span_digits rest) as [d r].
    destruct (match basetype with LY_TYPE_DEC64 => _ | _ => _ end); [discriminate|].
    intros H. injection H as <- _. cbn [String.length]. lia.
  - assert (Hdigit : isdigit c = true).
    { apply orb_false_iff in Hsigned as [H1 H2]. rewrite H1, H2 in Hc.
      destruct (isdigit c); [reflexivity|discriminate]. }
    cbn [span_digits]. rewrite Hdigit. destruct (span_digits rest) as [d r].
    destruct (match basetype with LY_TYPE_DEC64 => _ | _ => _ end); [discriminate|].
    intros H. injection H as <- _. cbn [String.length]. lia.
Qed.

Lemma range_part_check_value_syntax_total basetype value :
  basetype <> LY_TYPE_DEC64 -> is_Some (range_part_check_value_syntax basetype value).
Proof.
  intros Hne. unfold range_part_check_value_syntax. destruct value as [|c rest]; [eauto|].
  destruct (negb (isdigit c) && negb (Ascii.eqb c "-") && negb (Ascii.eqb c "+")); [eauto|].
  destruct (span_digits _) as [d r]. destruct basetype; try congruence; eauto.
Qed.

(** What a successful [range_part_minmax] has done: the type has limits,
    only the bound asked for has changed, a bound that is not the first
    one lies above [prev] in the order of the type, and a literal has been
    stepped over. *)
Lemma range_part_minmax_success part max prev basetype first value part' rest :
  range_part_minmax part max prev basetype first value = Some (LY_SUCCESS, part', rest) ->
  exists uns lo hi, range_type_limits basetype = Some (uns, lo, hi) /\
    (if max then min_64 part' = min_64 part else max_64 part' = max_64 part) /\
    (first = false ->
     range_part_check_ascendance uns (if max then max_64 part' else min_64 part') prev
     = LY_SUCCESS) /\
    match value with
    | Some v => exists rest', rest = Some rest' /\ (String.length rest' < String.length v)%nat
    | None => rest = None
    end.
Proof.
  unfold range_part_minmax. intros H.
  assert (Hsyn : exists len valcopy,
            match value with
            | Some v => '(ret, len, valcopy) ← range_part_check_value_syntax basetype v;
                        Some (ret, len, Some valcopy)
            | None => Some (LY_SUCCESS, 0%nat, None)
            end = Some (LY_SUCCESS, len, valcopy) /\
            match value with
            | Some v => (1 <= len)%nat /\ (1 <= String.length v)%nat
            | None => True
            end).
  { destruct value as [v|].
    - destruct (range_part_check_value_syntax basetype v) as [[[ret len] valcopy]|] eqn:Hs;
        [|discriminate].
      cbn [mbind option_bind] in H |- *.
      destruct ret; try discriminate.
      exists len, (Some valcopy). split; [reflexivity|].
      eapply range_part_check_value_syntax_length. exact Hs.
    - exists 0%nat, None. auto. }
  destruct Hsyn as (len & valcopy & Hsyn & Hlen). rewrite Hsyn in H.
  cbn [mbind option_bind] in H.
  destruct (range_type_limits basetype) as [[[uns lo] hi]|] eqn:Hlimits.
  2:{ destruct value; discriminate. }
  exists uns, lo, hi. split; [reflexivity|].
  set (parsed := match valcopy with
                 | Some valcopy =>
                     let '(ret, v) :=
                       if uns then ly_parse_uint valcopy hi else ly_parse_int valcopy lo hi in
                     match ret with
                     | LY_SUCCESS => (ret, set_bound max (to_s64 v) part)
                     | _ => (ret, part)
                     end
                 | None => (LY_SUCCESS, set_bound max (to_s64 (if max then hi else lo)) part)
                 end) in H.
  assert (Hkept : if max then min_64 (snd parsed) = min_64 part
                  else max_64 (snd parsed) = max_64 part).
  { unfold parsed. destruct valcopy as [vc|].
    - destruct (if uns then ly_parse_uint vc hi else ly_parse_int vc lo hi) as [ret v].
      destruct ret, max; reflexivity.
    - destruct max; reflexivity. }
  destruct parsed as [ret1 part1]. cbn [snd] in Hkept.
  destruct first.
  - destruct ret1; try (destruct value; discriminate).
    destruct value as [v|]; injection H as <- <-.
    + split; [exact Hkept|]. split; [discriminate|].
      eexists. split; [reflexivity|].
      pose proof (substring_length_le v len (String.length v - len)). lia.
    + split; [exact Hkept|]. split; [discriminate|reflexivity].
  - destruct (range_part_check_ascendance uns (if max then max_64 part1 else min_64 part1)
                prev) eqn:Hasc; try (destruct value; discriminate).
    destruct value as [v|]; injection H as <- <-.
    + split; [exact Hkept|]. split; [auto|].
      eexists. split; [reflexivity|].
      pose proof (substring_length_le v len (String.length v - len)). lia.
    + split; [exact Hkept|]. split; [auto|reflexivity].
Qed.

Lemma range_part_minmax_total part max prev basetype first value :
  basetype <> LY_TYPE_DEC64 -> is_Some (range_part_minmax part max prev basetype first value).
Proof.
  intros Hne. unfold range_part_minmax.
  assert (Hsyn : is_Some (match value with
            | Some v => '(ret, len, valcopy) ← range_part_check_value_syntax basetype v;
                        Some (ret, len, Some valcopy)
            | None => Some (LY_SUCCESS, 0%nat, None)
            end)).
  { destruct value as [v|]; [|eauto].
    destruct (range_part_check_value_syntax_total basetype v Hne) as [[[ret len] vc] ->].
    cbn [mbind option_bind]. eauto. }
  destruct Hsyn as [[[ret len] valcopy] ->]. cbn [mbind option_bind].
  destruct ret; eauto.
  destruct (match range_type_limits basetype with None => _ | Some _ => _ end) as [ret part1].
  destruct ret, value; eauto.
Qed.

Lemma ascendance_ordered uns value prev :
  range_part_check_ascendance uns value prev = LY_SUCCESS -> bound_lt uns value prev = false.
Proof.
  unfold range_part_check_ascendance, bound_lt. destruct uns.
  - destruct (Z.leb_spec (to_u64 value) (to_u64 prev)); [discriminate|]. intros _.
    apply Z.ltb_ge. lia.
  - destruct (Z.leb_spec value prev); [discriminate|]. intros _. apply Z.ltb_ge. lia.
Qed.

Lemma set_last_part_ordered (P : lysc_range_part -> Prop) parts part :
  Forall P parts -> P part -> Forall P (set_last_part parts part).
Proof. intros Hall Hp. unfold set_last_part. apply Forall_insert; assumption. Qed.

(** The loop over the expression keeps every part with its lower bound
    not above its upper bound, in the order of the type. *)
Lemma range_expr_loop_ordered basetype uns :
  range_type_unsigned basetype = Some uns ->
  forall fuel expr parts parts_done range_expected parts' parts_done',
  range_expr_loop fuel basetype expr parts parts_done range_expected
  = Some (Some (parts', parts_done')) ->
  Forall (fun p => bound_lt uns (max_64 p) (min_64 p) = false) parts ->
  Forall (fun p => bound_lt uns (max_64 p) (min_64 p) = false) parts'.
Proof.
  intros Huns. set (P := fun p => bound_lt uns (max_64 p) (min_64 p) = false).
  assert (Hsingle : forall x, P (mk_range_part x x)) by (intros x; apply bound_lt_irrefl).
  assert (Hrange : forall part part' value rest,
            range_part_minmax part true (min_64 part) basetype false value
            = Some (LY_SUCCESS, part', rest) -> P part').
  { intros part part' value rest H.
    destruct (range_part_minmax_success _ _ _ _ _ _ _ _ H)
      as (uns' & lo & hi & Hlim & Hmin & Hasc & _).
    apply range_type_limits_unsigned in Hlim. rewrite Huns in Hlim. injection Hlim as <-.
    unfold P. rewrite Hmin. apply ascendance_ordered. apply Hasc. reflexivity. }
  induction fuel as [|fuel IH];
    intros expr parts parts_done range_expected parts' parts_done' H Hall; [discriminate|].
  cbn [range_expr_loop] in H. destruct expr as [|c rest].
  { destruct range_expected; [discriminate|].
    destruct ((length parts =? 0)%nat || (parts_done =? length parts)%nat); [discriminate|].
    injection H as <- _. exact Hall. }
  destruct (isspace c); [eauto|].
  destruct (skip_prefix "min" (String c rest)) as [rest1|].
  { destruct (negb (length parts =? 0)%nat); [discriminate|].
    destruct (range_part_minmax new_range_part false 0 basetype true None)
      as [[[ret part] r]|]; [|discriminate].
    cbn [mbind option_bind] in H. destruct ret; try discriminate.
    eapply IH; [exact H|]. apply Forall_app. split; [exact Hall|].
    constructor; [apply Hsingle|constructor]. }
  destruct (Ascii.eqb c "|").
  { destruct ((length parts =? 0)%nat || range_expected); [discriminate|eauto]. }
  destruct (skip_prefix ".." (String c rest)) as [rest1|].
  { destruct ((length parts =? 0)%nat || (length parts =? parts_done)%nat);
      [discriminate|eauto]. }
  destruct (isdigit c || Ascii.eqb c "-" || Ascii.eqb c "+").
  { destruct range_expected.
    - destruct (parts !! (length parts - 1)%nat) as [part|]; [|discriminate].
      cbn [mbind option_bind] in H.
      destruct (range_part_minmax part true (min_64 part) basetype false
                  (Some (String c rest))) as [[[ret part'] r]|] eqn:Hmm; [|discriminate].
      cbn [mbind option_bind] in H. destruct ret; try discriminate.
      destruct r as [expr'|]; [|discriminate].
      eapply IH; [exact H|]. apply set_last_part_ordered; [exact Hall|].
      eapply (Hrange part part'); exact Hmm.
    - destruct (prev_part_max (parts ++ [new_range_part]) parts_done) as [prev|];
        [|discriminate].
      cbn [mbind option_bind] in H.
      destruct (range_part_minmax new_range_part false prev basetype (parts_done =? 0)%nat
                  (Some (String c rest))) as [[[ret part'] r]|]; [|discriminate].
      cbn [mbind option_bind] in H. destruct ret; try discriminate.
      destruct r as [expr'|]; [|discriminate].
      eapply IH; [exact H|]. apply set_last_part_ordered; [|apply Hsingle].
      apply Forall_app. split; [exact Hall|]. constructor; [apply Hsingle|constructor]. }
  destruct (skip_prefix "max" (String c rest)) as [rest1|]; [|discriminate].
  destruct (skip_spaces rest1); [|discriminate].
  destruct range_expected.
  - destruct (parts !! (length parts - 1)%nat) as [part|]; [|discriminate].
    cbn [mbind option_bind] in H.
    destruct (range_part_minmax part true (min_64 part) basetype false None)
      as [[[ret part'] r]|] eqn:Hmm; [|discriminate].
    cbn [mbind option_bind] in H. destruct ret; try discriminate.
    eapply IH; [exact H|]. apply set_last_part_ordered; [exact Hall|].
    eapply (Hrange part part'); exact Hmm.
  - destruct (prev_part_max (parts ++ [new_range_part]) parts_done) as [prev|];
      [|discriminate].
    cbn [mbind option_bind] in H.
    destruct (range_part_minmax new_range_part true prev basetype (parts_done =? 0)%nat None)
      as [[[ret part'] r]|]; [|discriminate].
    cbn [mbind option_bind] in H. destruct ret; try discriminate.
    eapply IH; [exact H|]. apply set_last_part_ordered; [|apply Hsingle].
    apply Forall_app. split; [exact Hall|]. constructor; [apply Hsingle|constructor].
Qed.

(** Without limits for the type no part is ever made, so the loop does
    not succeed. *)
Lemma range_expr_loop_no_limits basetype :
  range_type_limits basetype = None ->
  forall fuel expr parts_done range_expected r,
  range_expr_loop fuel basetype expr [] parts_done range_expected = Some r -> r = None.
Proof.
  intros Hlim.
  assert (Hmm : forall part max prev first value ret part' rest,
            range_part_minmax part max prev basetype first value = Some (ret, part', rest) ->
            ret <> LY_SUCCESS).
  { intros part max prev first value ret part' rest H ->.
    destruct (range_part_minmax_success _ _ _ _ _ _ _ _ H) as (uns & lo & hi & Hl & _).
    congruence. }
  induction fuel as [|fuel IH]; intros expr parts_done range_expected r H; [discriminate|].
  cbn [range_expr_loop] in H. destruct expr as [|c rest].
  { destruct range_expected; cbn in H; congruence. }
  destruct (isspace c); [eauto|].
  destruct (skip_prefix "min" (String c rest)) as [rest1|].
  { cbn [length Nat.eqb negb] in H.
    destruct (range_part_minmax new_range_part false 0 basetype true None)
      as [[[ret part] r']|] eqn:Hcall; [|discriminate].
    cbn [mbind option_bind] in H. pose proof (Hmm _ _ _ _ _ _ _ _ Hcall).
    destruct ret; congruence. }
  destruct (Ascii.eqb c "|"); [cbn in H; congruence|].
  destruct (skip_prefix ".." (String c rest)) as [rest1|]; [cbn in H; congruence|].
  destruct (isdigit c || Ascii.eqb c "-" || Ascii.eqb c "+").
  { destruct range_expected; [discriminate|].
    destruct (prev_part_max ([] ++ [new_range_part]) parts_done) as [prev|]; [|discriminate].
    cbn [mbind option_bind] in H.
    destruct (range_part_minmax new_range_part false prev basetype (parts_done =? 0)%nat
                (Some (String c rest))) as [[[ret part'] r']|] eqn:Hcall; [|discriminate].
    cbn [mbind option_bind] in H. pose proof (Hmm _ _ _ _ _ _ _ _ Hcall).
    destruct ret, r'; congruence. }
  destruct (skip_prefix "max" (String c rest)) as [rest1|]; [|congruence].
  destruct (skip_spaces rest1); [|congruence].
  destruct range_expected; [discriminate|].
  destruct (prev_part_max ([] ++ [new_range_part]) parts_done) as [prev|]; [|discriminate].
  cbn [mbind option_bind] in H.
  destruct (range_part_minmax new_range_part true prev basetype (parts_done =? 0)%nat None)
    as [[[ret part'] r']|] eqn:Hcall; [|discriminate].
  cbn [mbind option_bind] in H. pose proof (Hmm _ _ _ _ _ _ _ _ Hcall).
  destruct ret; congruence.
Qed.

Lemma skip_prefix_length p : forall s r,
  skip_prefix p s = Some r -> String.length s = (String.length p + String.length r)%nat.
Proof.
  induction p as [|a p IH]; intros s r H; cbn [skip_prefix] in H.
  - injection H as <-. reflexivity.
  - destruct s as [|b s]; [discriminate|]. destruct (Ascii.eqb a b); [|discriminate].
    cbn [String.length]. rewrite (IH _ _ H). reflexivity.
Qed.

Lemma skip_spaces_length s : (String.length (skip_spaces s) <= String.length s)%nat.
Proof.
  induction s as [|c s IH]; [reflexivity|]. cbn [skip_spaces].
  destruct (isspace c); cbn [String.length]; lia.
Qed.

(** The loop over the expression ends for every text: every iteration
    that goes on has a shorter text in front of it, and no part is read
    that has not been made. *)
Lemma range_expr_loop_total basetype :
  basetype <> LY_TYPE_DEC64 ->
  forall fuel expr parts parts_done range_expected,
  (String.length expr < fuel)%nat ->
  (range_expected = true -> parts <> []) -> (parts_done <> 0%nat -> parts <> []) ->
  is_Some (range_expr_loop fuel basetype expr parts parts_done range_expected).
Proof.
  intros Hne.
  assert (Hnonempty : forall (parts : list lysc_range_part) x, parts ++ [x] <> []).
  { intros parts x H. apply app_eq_nil in H as [_ H]. discriminate. }
  assert (Hset : forall parts part,
            parts <> [] -> set_last_part parts part <> []).
  { intros parts part Hp H. apply Hp. apply length_zero_iff_nil.
    apply (f_equal length) in H. unfold set_last_part in H. rewrite length_insert in H.
    exact H. }
  induction fuel as [|fuel IH]; intros expr parts parts_done range_expected Hfuel Hre Hpd;
    [lia|].
  cbn [range_expr_loop]. destruct expr as [|c rest].
  { destruct range_expected; [eauto|].
    destruct ((length parts =? 0)%nat || (parts_done =? length parts)%nat); eauto. }
  cbn [String.length] in Hfuel.
  destruct (isspace c); [apply IH; [lia|assumption..]|].
  destruct (skip_prefix "min" (String c rest)) as [rest1|] eqn:Hmin.
  { apply skip_prefix_length in Hmin. cbn [String.length] in Hmin.
    destruct (negb (length parts =? 0)%nat); [eauto|].
    destruct (range_part_minmax_total new_range_part false 0 basetype true None Hne)
      as [[[ret part] r] ->].
    cbn [mbind option_bind]. destruct ret; eauto. apply IH; [lia|auto..]. }
  destruct (Ascii.eqb c "|").
  { destruct (Nat.eqb_spec (length parts) 0) as [H0|H0]; [eauto|]. cbn [orb].
    destruct range_expected; [eauto|]. apply IH; [lia|discriminate|].
    intros _ ->. apply H0. reflexivity. }
  destruct (skip_prefix ".." (String c rest)) as [rest1|] eqn:Hdots.
  { apply skip_prefix_length in Hdots. cbn [String.length] in Hdots.
    destruct (Nat.eqb_spec (length parts) 0) as [H0|H0]; [eauto|]. cbn [orb].
    destruct (length parts =? parts_done)%nat; [eauto|].
    pose proof (skip_spaces_length rest1).
    apply IH; [lia| |assumption]. intros _ ->. apply H0. reflexivity. }
  destruct (isdigit c || Ascii.eqb c "-" || Ascii.eqb c "+").
  { destruct range_expected.
    - destruct (lookup_lt_is_Some_2 parts (length parts - 1)) as [part ->].
      { specialize (Hre eq_refl). destruct parts; [congruence|cbn; lia]. }
      cbn [mbind option_bind].
      destruct (range_part_minmax_total part true (min_64 part) basetype false
                  (Some (String c rest)) Hne) as [[[ret part'] r] Hcall].
      rewrite Hcall. cbn [mbind option_bind].
      destruct ret; eauto. destruct r as [expr'|]; [|eauto].
      destruct (range_part_minmax_success _ _ _ _ _ _ _ _ Hcall)
        as (_ & _ & _ & _ & _ & _ & rest' & [= <-] & Hlen).
      cbn [String.length] in Hlen.
      apply IH; [lia|discriminate|]. intros _. apply Hset. apply Hre. reflexivity.
    - assert (Hprev : is_Some (prev_part_max (parts ++ [new_range_part]) parts_done)).
      { unfold prev_part_max. destruct (Nat.eqb_spec parts_done 0); [eauto|].
        rewrite length_app. cbn [length].
        assert (1 <= length parts)%nat.
        { destruct parts; [destruct (Hpd ltac:(assumption) eq_refl)|cbn; lia]. }
        destruct (Nat.ltb_spec (length parts + 1) 2); [lia|].
        destruct (lookup_lt_is_Some_2 (parts ++ [new_range_part]) (length parts + 1 - 2))
          as [p ->]; [rewrite length_app; cbn; lia|]. cbn. eauto. }
      destruct Hprev as [prev ->]. cbn [mbind option_bind].
      destruct (range_part_minmax_total new_range_part false prev basetype
                  (parts_done =? 0)%nat (Some (String c rest)) Hne)
        as [[[ret part'] r] Hcall].
      rewrite Hcall. cbn [mbind option_bind].
      destruct ret; eauto. destruct r as [expr'|]; [|eauto].
      destruct (range_part_minmax_success _ _ _ _ _ _ _ _ Hcall)
        as (_ & _ & _ & _ & _ & _ & rest' & [= <-] & Hlen).
      cbn [String.length] in Hlen.
      apply IH; [lia|discriminate|]. intros _. apply Hset. apply Hnonempty. }
  destruct (skip_prefix "max" (String c rest)) as [rest1|] eqn:Hmax; [|eauto].
  apply skip_prefix_length in Hmax. cbn [String.length] in Hmax.
  destruct (skip_spaces rest1); [|eauto].
  destruct range_expected.
  - destruct (lookup_lt_is_Some_2 parts (length parts - 1)) as [part ->].
    { specialize (Hre eq_refl). destruct parts; [congruence|cbn; lia]. }
    cbn [mbind option_bind].
    destruct (range_part_minmax_total part true (min_64 part) basetype false None Hne)
      as [[[ret part'] r] ->].
    cbn [mbind option_bind]. destruct ret; eauto.
    apply IH; [cbn; lia|discriminate|]. intros _. apply Hset. apply Hre. reflexivity.
  - assert (Hprev : is_Some (prev_part_max (parts ++ [new_range_part]) parts_done)).
    { unfold prev_part_max. destruct (Nat.eqb_spec parts_done 0); [eauto|].
      rewrite length_app. cbn [length].
      assert (1 <= length parts)%nat.
      { destruct parts; [destruct (Hpd ltac:(assumption) eq_refl)|cbn; lia]. }
      destruct (Nat.ltb_spec (length parts + 1) 2); [lia|].
      destruct (lookup_lt_is_Some_2 (parts ++ [new_range_part]) (length parts + 1 - 2))
        as [p ->]; [rewrite length_app; cbn; lia|]. cbn. eauto. }
    destruct Hprev as [prev ->]. cbn [mbind option_bind].
    destruct (range_part_minmax_total new_range_part true prev basetype
                (parts_done =? 0)%nat None Hne) as [[[ret part'] r] ->].
    cbn [mbind option_bind]. destruct ret; eauto.
    apply IH; [cbn; lia|discriminate|]. intros _. apply Hset. apply Hnonempty.
Qed.

Lemma range_expr_loop_nonempty basetype :
  forall fuel expr parts parts_done range_expected parts' parts_done',
  range_expr_loop fuel basetype expr parts parts_done range_expected
  = Some (Some (parts', parts_done')) ->
  parts' <> [].
Proof.
  induction fuel as [|fuel IH];
    intros expr parts parts_done range_expected parts' parts_done' H; [discriminate|].
  cbn [range_expr_loop] in H. destruct expr as [|c rest].
  { destruct range_expected; [discriminate|].
    destruct (Nat.eqb_spec (length parts) 0) as [H0|H0]; [discriminate|]. cbn [orb] in H.
    destruct (parts_done =? length parts)%nat; [discriminate|].
    injection H as <- _. intros ->. apply H0. reflexivity. }
  repeat match type of H with
         | context [match ?x with _ => _ end] =>
             destruct x; try discriminate; cbn [mbind option_bind] in H
         | mbind _ ?x = _ =>
             destruct x as [[[? ?] ?]|]; try discriminate; cbn [mbind option_bind] in H
         | mbind _ ?x = _ =>
             destruct x; try discriminate; cbn [mbind option_bind] in H
         end; try (eapply IH; exact H).
Qed.

(** ** The substitution of the Unicode blocks *)

Lemma count_char_app a s t : count_char a (s +:+ t) = (count_char a s + count_char a t)%nat.
Proof.
  induction s as [|c s IH]; [reflexivity|]. rewrite string_app_cons. cbn [count_char].
  rewrite IH. lia.
Qed.

Lemma count_char_length a s : (count_char a s <= String.length s)%nat.
Proof.
  induction s as [|c s IH]; [reflexivity|]. cbn [count_char String.length].
  destruct (Ascii.eqb c a); lia.
Qed.

Lemma skip_prefix_split p : forall s r, skip_prefix p s = Some r -> s = p +:+ r.
Proof.
  induction p as [|a p IH]; intros s r H; cbn [skip_prefix] in H.
  - injection H as <-. reflexivity.
  - destruct s as [|b s]; [discriminate|].
    destruct (Ascii.eqb_spec a b) as [->|]; [|discriminate].
    rewrite string_app_cons, (IH _ _ H). reflexivity.
Qed.

Lemma strstr_split needle : forall haystack before from,
  strstr haystack needle = Some (before, from) ->
  haystack = before +:+ from /\ exists r, skip_prefix needle from = Some r.
Proof.
  induction haystack as [|c h IH]; intros before from H.
  - cbn [strstr] in H. destruct (skip_prefix needle EmptyString) as [r|] eqn:Hr;
      [|discriminate].
    injection H as <- <-. eauto.
  - cbn [strstr] in H. destruct (skip_prefix needle (String c h)) as [r|] eqn:Hr.
    + injection H as <- <-. eauto.
    + destruct (strstr h needle) as [[b f]|]; [|discriminate].
      cbn [mbind option_bind] in H. injection H as <- <-.
      destruct (IH b f eq_refl) as (-> & Hf). split; [reflexivity|exact Hf].
Qed.

Lemma strchr_split_app c : forall s upto after,
  strchr_split s c = Some (upto, after) -> s = upto +:+ after.
Proof.
  induction s as [|a s IH]; intros upto after H; [discriminate|].
  cbn [strchr_split] in H. destruct (Ascii.eqb a c).
  - injection H as <- <-. reflexivity.
  - destruct (strchr_split s c) as [[u f]|]; [|discriminate].
    cbn [mbind option_bind] in H. injection H as <- <-.
    rewrite string_app_cons, <- (IH u f eq_refl). reflexivity.
Qed.

Lemma strchr_split_cons_ne a s c upto after :
  Ascii.eqb a c = false -> strchr_split (String a s) c = Some (upto, after) ->
  exists u, upto = String a u /\ strchr_split s c = Some (u, after).
Proof.
  intros Hne H. cbn [strchr_split] in H. rewrite Hne in H.
  destruct (strchr_split s c) as [[u f]|]; [|discriminate].
  cbn [mbind option_bind] in H. injection H as <- <-. eauto.
Qed.

(** The text from a [\p{Is] up to the closing brace contains a [p]. *)
Lemma strchr_split_block r upto after :
  strchr_split ("\p{Is" +:+ r) "}" = Some (upto, after) -> (1 <= count_char "p" upto)%nat.
Proof.
  rewrite !string_app_cons. intros H.
  apply strchr_split_cons_ne in H as (u1 & -> & H); [|reflexivity].
  apply strchr_split_cons_ne in H as (u2 & -> & H); [|reflexivity].
  cbn [count_char]. change (Ascii.eqb "p" "p") with true. cbn match. lia.
Qed.

Lemma find_ublock_elem table : forall name urange,
  find_ublock table name = Some urange -> urange ∈ table.*2.
Proof.
  induction table as [|[block u] table IH]; intros name urange H; [discriminate|].
  cbn [find_ublock] in H. cbn [fmap list_fmap snd].
  destruct (skip_prefix block name).
  - injection H as <-. apply elem_of_cons. left. reflexivity.
  - apply elem_of_cons. right. eapply IH. exact H.
Qed.

(** No range of the table, with or without its brackets, contains a
    [p]. *)
Lemma ublock2urange_no_p :
  Forall (fun urange => count_char "p" urange = 0%nat /\
                        count_char "p" (String.substring 1 (URANGE_LEN - 2) urange) = 0%nat)
    ublock2urange.*2.
Proof. repeat (constructor; [split; reflexivity|]). constructor. Qed.

(** The loop that substitutes the blocks ends: every iteration takes a
    [p] out of the text and brings none in.  What it leaves has no
    [\p{Is]. *)
Lemma substitute_ublocks_total : forall fuel s,
  (count_char "p" s < fuel)%nat ->
  exists r, substitute_ublocks fuel s = Some r /\
    forall source, r = inr source -> strstr source "\p{Is" = None.
Proof.
  induction fuel as [|fuel IH]; intros s Hfuel; [lia|].
  cbn [substitute_ublocks].
  destruct (strstr s "\p{Is") as [[before from]|] eqn:Hstr.
  2:{ eexists. split; [reflexivity|]. intros source [= <-]. exact Hstr. }
  destruct (strchr_split from "}") as [[block after]|] eqn:Hchr.
  2:{ eexists. split; [reflexivity|]. discriminate. }
  destruct (find_ublock ublock2urange (String.substring 5 (String.length from - 5) from))
    as [urange|] eqn:Hfind.
  2:{ eexists. split; [reflexivity|]. discriminate. }
  apply IH.
  destruct (strstr_split _ _ _ _ Hstr) as (-> & r & Hr).
  apply skip_prefix_split in Hr. subst from.
  pose proof (strchr_split_block _ _ _ Hchr) as Hblock.
  apply strchr_split_app in Hchr.
  rewrite Hchr, !count_char_app in Hfuel. rewrite !count_char_app.
  apply find_ublock_elem in Hfind.
  pose proof (proj1 (Forall_forall _ _) ublock2urange_no_p _ Hfind) as [Hu Hinner].
  destruct (negb (bracket_count None before 0 =? 0)); lia.
Qed.

(** A search text that the escapes do not touch is found in the escaped
    pattern where it is in the pattern. *)
Lemma skip_prefix_escape_some needle : forall s r tail,
  needle_plain needle = true -> skip_prefix needle s = Some r ->
  skip_prefix needle (perl_escape s +:+ tail) = Some (perl_escape r +:+ tail).
Proof.
  induction needle as [|a needle IH]; intros s r tail Hplain H.
  - cbn [skip_prefix] in H |- *. injection H as <-. reflexivity.
  - cbn [needle_plain] in Hplain.
    apply andb_true_iff in Hplain as [Hplain Hrest].
    apply andb_true_iff in Hplain as [Hplain Hlast].
    apply andb_true_iff in Hplain as [Hplain Hparen].
    apply andb_true_iff in Hplain as [Hdollar Hcaret].
    apply negb_true_iff in Hdollar, Hcaret.
    destruct s as [|c s]; [discriminate|]. cbn [skip_prefix] in H.
    destruct (Ascii.eqb_spec a c) as [<-|]; [|discriminate].
    cbn [perl_escape]. rewrite Hdollar, Hcaret, string_app_cons. cbn [skip_prefix].
    rewrite Ascii.eqb_refl. apply IH; assumption.
Qed.

Lemma strstr_escape_some needle tail : forall s before from,
  needle_plain needle = true -> needle <> EmptyString ->
  tail = EmptyString \/ tail = ")$"%string ->
  strstr s needle = Some (before, from) ->
  strstr (perl_escape s +:+ tail) needle = Some (perl_escape before, perl_escape from +:+ tail).
Proof.
  intros s before from Hplain Hne Htail. revert before from.
  assert (Hfirst : exists a needle', needle = String a needle' /\
            Ascii.eqb a "$" = false /\ Ascii.eqb a "^" = false /\
            (Ascii.eqb a "\" = true ->
             exists b needle'', needle' = String b needle'' /\
               Ascii.eqb b "$" = false /\ Ascii.eqb b "^" = false)).
  { destruct needle as [|a needle']; [congruence|]. exists a, needle'.
    cbn [needle_plain] in Hplain.
    apply andb_true_iff in Hplain as [Hplain Hrest].
    apply andb_true_iff in Hplain as [Hplain Hlast].
    apply andb_true_iff in Hplain as [Hplain Hparen].
    apply andb_true_iff in Hplain as [Hdollar Hcaret].
    apply negb_true_iff in Hdollar, Hcaret. split_and!; try assumption; [reflexivity|].
    intros Ha. destruct needle' as [|b needle''].
    - rewrite Ha in Hlast. discriminate.
    - exists b, needle''. cbn [needle_plain] in Hrest.
      apply andb_true_iff in Hrest as [Hrest _].
      apply andb_true_iff in Hrest as [Hrest _].
      apply andb_true_iff in Hrest as [Hrest _].
      apply andb_true_iff in Hrest as [Hd Hc].
      apply negb_true_iff in Hd, Hc. auto. }
  destruct Hfirst as (a & needle' & -> & Hdollar & Hcaret & Hback).
  induction s as [|c s IH]; intros before from H; [discriminate|].
  cbn [strstr] in H.
  destruct (skip_prefix (String a needle') (String c s)) as [r|] eqn:Hhere.
  { injection H as <- <-.
    pose proof (skip_prefix_escape_some _ _ _ tail Hplain Hhere) as Hesc.
    destruct (perl_escape (String c s) +:+ tail) as [|x y] eqn:Htext; [discriminate|].
    cbn [strstr]. rewrite Hesc. reflexivity. }
  destruct (strstr s (String a needle')) as [[b f]|] eqn:Hlater; [|discriminate].
  cbn [mbind option_bind] in H. injection H as <- <-.
  specialize (IH b f eq_refl).
  assert (Hmiss : skip_prefix (String a needle') (perl_escape (String c s) +:+ tail) = None).
  { destruct (skip_prefix (String a needle') (perl_escape (String c s) +:+ tail))
      as [r|] eqn:Hr; [|reflexivity].
    destruct (skip_prefix_escape _ _ _ _ Hplain Htail Hr) as [r' Hr']. congruence. }
  cbn [perl_escape] in Hmiss |- *.
  assert (Hspecial : forall x, x = "$"%char \/ x = "^"%char ->
            skip_prefix (String a needle') (String "\" (String x (perl_escape s)) +:+ tail)
            = None ->
            strstr (String "\" (String x (perl_escape s)) +:+ tail) (String a needle')
            = Some (String "\" (String x (perl_escape b)), perl_escape f +:+ tail)).
  { intros x Hx Hm. rewrite !string_app_cons in Hm |- *.
    cbn [strstr]. rewrite Hm.
    assert (Hx' : skip_prefix (String a needle') (String x (perl_escape s +:+ tail)) = None).
    { cbn [skip_prefix]. destruct (Ascii.eqb_spec a x) as [->|]; [|reflexivity].
      destruct Hx as [-> | ->]; discriminate. }
    rewrite Hx', IH. reflexivity. }
  destruct (Ascii.eqb c "$") eqn:Hc1.
  { apply Ascii.eqb_eq in Hc1. subst c. apply Hspecial; auto. }
  destruct (Ascii.eqb c "^") eqn:Hc2.
  { apply Ascii.eqb_eq in Hc2. subst c. apply Hspecial; auto. }
  rewrite string_app_cons in Hmiss |- *. cbn [strstr]. rewrite Hmiss, IH. reflexivity.
Qed.

Lemma strchr_split_escape_none tail : forall s,
  tail = EmptyString \/ tail = ")$"%string ->
  strchr_split s "}" = None -> strchr_split (perl_escape s +:+ tail) "}" = None.
Proof.
  intros s Htail. induction s as [|c s IH]; intros H.
  - destruct Htail as [-> | ->]; reflexivity.
  - cbn [strchr_split] in H. destruct (Ascii.eqb c "}") eqn:Hc; [discriminate|].
    destruct (strchr_split s "}") as [[u f]|]; [discriminate|].
    specialize (IH eq_refl). cbn [perl_escape].
    destruct (Ascii.eqb c "$"); [|destruct (Ascii.eqb c "^")];
      rewrite !string_app_cons; cbn [strchr_split];
      change (Ascii.eqb "\" "}") with false; change (Ascii.eqb "$" "}") with false;
      change (Ascii.eqb "^" "}") with false; rewrite ?Hc; cbn match; rewrite IH; reflexivity.
Qed.

(** The names of the table are texts that the escapes do not touch. *)
Lemma ublock2urange_plain :
  Forall (fun block => needle_plain block = true) ublock2urange.*1.
Proof. repeat (constructor; [reflexivity|]). constructor. Qed.

Lemma find_ublock_escape_none tail name :
  tail = EmptyString \/ tail = ")$"%string ->
  forall table, Forall (fun block => needle_plain block = true) table.*1 ->
  find_ublock table name = None -> find_ublock table (perl_escape name +:+ tail) = None.
Proof.
  intros Htail. induction table as [|[block u] table IH]; intros Hplain H; [reflexivity|].
  cbn [fmap list_fmap fst] in Hplain. apply Forall_cons_1 in Hplain as [Hb Hplain].
  cbn [find_ublock] in H |- *.
  destruct (skip_prefix block name) eqn:Hname; [discriminate|].
  destruct (skip_prefix block (perl_escape name +:+ tail)) as [r|] eqn:Hr; [|auto].
  destruct (skip_prefix_escape _ _ _ _ Hb Htail Hr) as [r' Hr']. congruence.
Qed.

(** The text of a block with a wrong name or without its closing brace
    stops the loop with [LY_EVALID]. *)
Lemma perl_regex_bad_block preceding pattern before from :
  (2 <= String.length pattern)%nat ->
  strstr pattern "\p{Is" = Some (before, from) ->
  strchr_split from "}" = None \/
  find_ublock ublock2urange (String.substring 5 (String.length from - 5) from) = None ->
  perl_regex preceding pattern = Some (inl LY_EVALID).
Proof.
  intros Hlen Hstr Hbad. unfold perl_regex.
  rewrite perl_regex_anchored_pattern by exact Hlen. cbn [mbind option_bind].
  destruct (strstr_split _ _ _ _ Hstr) as (_ & r & Hr).
  apply skip_prefix_split in Hr. subst from.
  assert (Hname : forall t, String.substring 5 (String.length ("\p{Is" +:+ t) - 5)
                              ("\p{Is" +:+ t) = t).
  { intros t. rewrite string_length_app. change (String.length "\p{Is") with 5%nat.
    replace (5 + String.length t - 5)%nat with (String.length t) by lia.
    rewrite <- (Nat.add_0_r 5) at 1. change 5%nat with (String.length "\p{Is") at 1.
    rewrite substring_app_skip.
    clear. induction t as [|c t IH]; [reflexivity|]. cbn. rewrite IH. reflexivity. }
  rewrite Hname in Hbad.
  assert (Hgen : forall pre tail,
            pre = EmptyString \/ pre = "("%string ->
            tail = EmptyString \/ tail = ")$"%string ->
            substitute_ublocks (S (String.length (pre +:+ perl_escape pattern +:+ tail)))
              (pre +:+ perl_escape pattern +:+ tail) = Some (inl LY_EVALID)).
  { intros pre tail Hpre Htail.
    pose proof (strstr_escape_some "\p{Is" tail _ _ _ eq_refl ltac:(discriminate) Htail Hstr)
      as Hesc.
    assert (Hfound : strstr (pre +:+ perl_escape pattern +:+ tail) "\p{Is"
                     = Some (pre +:+ perl_escape before,
                             "\p{Is" +:+ (perl_escape r +:+ tail))).
    { change (perl_escape ("\p{Is" +:+ r)) with ("\p{Is" +:+ perl_escape r) in Hesc.
      rewrite string_app_assoc in Hesc.
      destruct Hpre as [-> | ->]; [exact Hesc|].
      change ("(" +:+ perl_escape pattern +:+ tail)
        with (String "(" (perl_escape pattern +:+ tail)).
      cbn [strstr skip_prefix]. change (Ascii.eqb "\" "(") with false. cbn match.
      rewrite Hesc. reflexivity. }
    cbn [substitute_ublocks]. rewrite Hfound, Hname.
    destruct Hbad as [Hchr|Hfind].
    - assert (Hnone : strchr_split ("\p{Is" +:+ (perl_escape r +:+ tail)) "}" = None).
      { pose proof (strchr_split_escape_none tail _ Htail Hchr) as H.
        change (perl_escape ("\p{Is" +:+ r)) with ("\p{Is" +:+ perl_escape r) in H.
        rewrite string_app_assoc in H. exact H. }
      rewrite Hnone. reflexivity.
    - rewrite (find_ublock_escape_none tail r Htail _ ublock2urange_plain Hfind).
      destruct (strchr_split _ _) as [[? ?]|]; reflexivity. }
  destruct (pattern_ends_dot_star pattern).
  - specialize (Hgen EmptyString EmptyString (or_introl eq_refl) (or_introl eq_refl)).
    rewrite string_app_nil_r in Hgen. exact Hgen.
  - exact (Hgen "("%string ")$"%string (or_intror eq_refl) (or_intror eq_refl)).
Qed.

(** The only error of the loop is [LY_EVALID]. *)
Lemma substitute_ublocks_codes : forall fuel s e,
  substitute_ublocks fuel s = Some (inl e) -> e = LY_EVALID.
Proof.
  induction fuel as [|fuel IH]; intros s e H; [discriminate|].
  cbn [substitute_ublocks] in H.
  destruct (strstr s "\p{Is") as [[before from]|]; [|discriminate].
  destruct (strchr_split from "}") as [[block after]|]; [|congruence].
  destruct (find_ublock ublock2urange _) as [urange|]; [|congruence].
  eapply IH. exact H.
Qed.

(** ** Patterns of a derived type *)

Section PatternsProofs.
Variable pcre : Type.
Variable pcre_compile : string -> option pcre.
Variables lysp_ext_instance lysc_ext_instance : Type.
Variable lys_compile_ext : lysp_ext_instance -> LY_ERR * lysc_ext_instance.
Variable refcount_bits : Z.
Hypothesis refcount_bits_pos : 0 < refcount_bits.

Abbreviation pattern := (lysc_pattern pcre lysc_ext_instance).
Abbreviation heap_t := (list (option pattern)).
Abbreviation wrap := (refcount_wrap refcount_bits).
Abbreviation pattern_dup := (@lysc_pattern_dup pcre lysc_ext_instance refcount_bits).
Abbreviation patterns_dup := (@lysc_patterns_dup pcre lysc_ext_instance refcount_bits).
Abbreviation pattern_free := (@lysc_pattern_free pcre lysc_ext_instance refcount_bits).
Abbreviation patterns_free := (@free_patterns pcre lysc_ext_instance refcount_bits).
Abbreviation patterns_loop :=
  (compile_patterns pcre pcre_compile lysp_ext_instance lysc_ext_instance lys_compile_ext
     refcount_bits).
Abbreviation pattern_check := (lys_compile_type_pattern_check pcre pcre_compile).

Lemma refcount_wrap_one : wrap (0 + 1) = 1.
Proof.
  unfold refcount_wrap. apply Z.mod_small. split; [lia|].
  apply (Z.pow_gt_1 2 refcount_bits); lia.
Qed.

Lemma refcount_wrap_small x : 0 <= x < 2 ^ refcount_bits -> wrap x = x.
Proof. apply Z.mod_small. Qed.

Lemma live_lookup (heap : heap_t) p pat : live heap p = Some pat <-> heap !! p = Some (Some pat).
Proof.
  unfold live. destruct (heap !! p) as [[q|]|]; cbn; split; intros H; congruence.
Qed.

Lemma set_refcount_same (pat : pattern) : set_refcount pat (pat_refcount pat) = pat.
Proof. destruct pat. reflexivity. Qed.

(** Sharing the patterns of an array without repetitions: each of them
    is counted once more, nothing else changes. *)
Lemma lysc_patterns_dup_spec : forall base (heap heap1 : heap_t),
  patterns_dup heap base = Some heap1 -> NoDup base ->
  length heap1 = length heap /\
  (forall q, q ∉ base -> heap1 !! q = heap !! q) /\
  (forall q, q ∈ base -> exists pat,
     live heap q = Some pat /\
     live heap1 q = Some (set_refcount pat (wrap (pat_refcount pat + 1)))).
Proof.
  induction base as [|p base IH]; intros heap heap1 H Hnodup; cbn [lysc_patterns_dup] in H.
  - injection H as <-. split; [reflexivity|]. split; [auto|].
    intros q Hq. apply elem_of_nil in Hq as [].
  - apply NoDup_cons in Hnodup as [Hp Hnodup]. unfold lysc_pattern_dup in H.
    destruct (live heap p) as [pat|] eqn:Hlive; [|discriminate].
    cbn [mbind option_bind] in H.
    destruct (IH _ _ H Hnodup) as (Hlen & Hout & Hin).
    rewrite length_insert in Hlen. apply live_lookup in Hlive.
    pose proof (lookup_lt_Some _ _ _ Hlive) as Hlt.
    split; [exact Hlen|]. split.
    + intros q Hq. apply not_elem_of_cons in Hq as [Hne Hq].
      rewrite (Hout q Hq). apply list_lookup_insert_ne. congruence.
    + intros q [->|Hq]%elem_of_cons.
      * exists pat. split; [apply live_lookup; exact Hlive|].
        apply live_lookup. rewrite (Hout p Hp). apply list_lookup_insert_eq. exact Hlt.
      * destruct (Hin q Hq) as (pat' & Hpat' & Hnew). exists pat'. split; [|exact Hnew].
        apply live_lookup in Hpat'. apply live_lookup.
        rewrite list_lookup_insert_ne in Hpat' by (intros ->; contradiction). exact Hpat'.
Qed.

(** What the loop over the pattern statements leaves: the memory has
    grown by one pattern for each statement that was reached, each counted
    once, and the array by their addresses. *)
Lemma compile_patterns_spec : forall patterns_p (heap heap' : heap_t) result result' ret,
  patterns_loop heap result patterns_p = Some (ret, heap', result') ->
  exists news,
    heap' = heap ++ news /\ (length news <= length patterns_p)%nat /\
    result' = result ++ seq (length heap) (length news) /\
    Forall (fun slot => exists pat, slot = Some pat /\ pat_refcount pat = 1) news /\
    (ret = LY_SUCCESS ->
     length news = length patterns_p /\
     forall i restr, patterns_p !! i = Some restr ->
       exists pat byte text,
         restr_arg restr = String byte text /\ news !! i = Some (Some pat) /\
         pat_inverted pat = Ascii.eqb byte (ascii_of_nat 21) /\
         pat_eapptag pat = restr_eapptag restr /\ pat_emsg pat = restr_emsg restr /\
         pattern_check (String byte EmptyString) text = Some (LY_SUCCESS, pat_expr pat)).
Proof.
  induction patterns_p as [|restr patterns_p IH]; intros heap heap' result result' ret H;
    cbn [compile_patterns] in H.
  - injection H as <- <- <-. exists []. rewrite !app_nil_r. split_and!; auto.
    intros _. split; [reflexivity|]. intros i restr Hi. discriminate.
  - destruct (restr_arg restr) as [|byte text] eqn:Harg; [discriminate|].
    destruct (lys_compile_type_pattern_check pcre pcre_compile (String byte EmptyString) text)
      as [[ret1 expr]|] eqn:Hcheck; [|discriminate].
    cbn [mbind option_bind] in H. rewrite refcount_wrap_one in H.
    assert (Hstop : forall pat ret0,
              pat_refcount pat = 1 -> ret0 <> LY_SUCCESS ->
              Some (ret0, heap ++ [Some pat], result ++ [length heap])
              = Some (ret, heap', result') ->
              exists news,
                heap' = heap ++ news /\ (length news <= length (restr :: patterns_p))%nat /\
                result' = result ++ seq (length heap) (length news) /\
                Forall (fun slot => exists pat, slot = Some pat /\ pat_refcount pat = 1) news /\
                (ret = LY_SUCCESS ->
                 length news = length (restr :: patterns_p) /\
                 forall i restr0, (restr :: patterns_p) !! i = Some restr0 ->
                   exists pat byte text,
                     restr_arg restr0 = String byte text /\ news !! i = Some (Some pat) /\
                     pat_inverted pat = Ascii.eqb byte (ascii_of_nat 21) /\
                     pat_eapptag pat = restr_eapptag restr0 /\
                     pat_emsg pat = restr_emsg restr0 /\
                     pattern_check (String byte EmptyString) text
                     = Some (LY_SUCCESS, pat_expr pat))).
    { intros pat ret0 Hrc Hne Heq. injection Heq as <- <- <-. exists [Some pat].
      split_and!; [reflexivity|cbn; lia|reflexivity|repeat constructor; eauto|congruence]. }
    destruct ret1; try (refine (Hstop _ _ _ _ H); [reflexivity|discriminate]).
    destruct (compile_array lys_compile_ext (restr_exts restr)) as [ret2 exts].
    set (compiled := mk_lysc_pattern pcre lysc_ext_instance expr
                       (Ascii.eqb byte (ascii_of_nat 21)) (restr_eapptag restr)
                       (restr_emsg restr) exts 1) in *.
    destruct ret2; try (refine (Hstop compiled _ _ _ H); [reflexivity|discriminate]).
    clear Hstop. destruct (IH _ _ _ _ _ H) as (news & -> & Hlen & -> & Hall & Hsucc).
    exists (Some compiled :: news). rewrite length_app in *. cbn [length] in *.
    split_and!.
    + rewrite <- app_assoc. reflexivity.
    + lia.
    + rewrite <- app_assoc. cbn [seq app]. do 3 f_equal. lia.
    + constructor; [exists compiled; auto|exact Hall].
    + intros Hret. destruct (Hsucc Hret) as (Hn & Hnew). split; [lia|].
      intros i restr0 Hi. destruct i as [|i].
      * injection Hi as <-. exists compiled, byte, text. split_and!; auto.
      * exact (Hnew i restr0 Hi).
Qed.

(** Freeing the patterns of an array without repetitions: each of them
    is counted once less and freed at 0, nothing else changes. *)
Lemma free_patterns_spec : forall array (heap : heap_t),
  NoDup array -> (forall q, q ∈ array -> is_Some (live heap q)) ->
  exists heap', patterns_free heap array = Some heap' /\
    length heap' = length heap /\
    (forall q, q ∉ array -> heap' !! q = heap !! q) /\
    (forall q pat, q ∈ array -> live heap q = Some pat ->
       heap' !! q = Some (if negb (wrap (pat_refcount pat - 1) =? 0)
                          then Some (set_refcount pat (wrap (pat_refcount pat - 1)))
                          else None)).
Proof.
  induction array as [|p array IH]; intros heap Hnodup Hlive; cbn [free_patterns].
  - exists heap. split_and!; auto. intros q pat Hq. apply elem_of_nil in Hq as [].
  - apply NoDup_cons in Hnodup as [Hp Hnodup].
    destruct (Hlive p ltac:(apply elem_of_cons; auto)) as [pat Hpat].
    unfold lysc_pattern_free. rewrite Hpat. cbn [mbind option_bind].
    set (slot := if negb (wrap (pat_refcount pat - 1) =? 0)
                 then Some (set_refcount pat (wrap (pat_refcount pat - 1))) else None).
    assert (Hstep : (if negb (wrap (pat_refcount pat - 1) =? 0)
                     then Some (<[p := Some (set_refcount pat (wrap (pat_refcount pat - 1)))]>
                                  heap)
                     else Some (<[p := None]> heap)) = Some (<[p := slot]> heap)).
    { unfold slot. destruct (negb _); reflexivity. }
    rewrite Hstep. cbn [mbind option_bind]. clear Hstep.
    pose proof (proj1 (live_lookup _ _ _) Hpat) as Hslot.
    pose proof (lookup_lt_Some _ _ _ Hslot) as Hlt.
    destruct (IH (<[p := slot]> heap) Hnodup) as (heap' & Hfree & Hlen & Hout & Hin).
    { intros q Hq. destruct (Hlive q ltac:(apply elem_of_cons; auto)) as [pat' Hpat'].
      exists pat'. apply live_lookup. rewrite list_lookup_insert_ne by (intros ->; contradiction).
      apply live_lookup. exact Hpat'. }
    exists heap'. rewrite length_insert in Hlen. split_and!; [exact Hfree|exact Hlen| |].
    + intros q Hq. apply not_elem_of_cons in Hq as [Hne Hq].
      rewrite (Hout q Hq). apply list_lookup_insert_ne. congruence.
    + intros q pat' [->|Hq]%elem_of_cons Hpat'.
      * rewrite Hpat in Hpat'. injection Hpat' as <-.
        rewrite (Hout p Hp). apply list_lookup_insert_eq. exact Hlt.
      * apply (Hin q pat' Hq). apply live_lookup.
        rewrite list_lookup_insert_ne by (intros ->; contradiction).
        apply live_lookup. exact Hpat'.
Qed.
End PatternsProofs.

(** ** The back-links of the identities *)

Lemma ident_grown_refl a : ident_grown a a.
Proof. split; reflexivity. Qed.

Lemma idents_grown_refl st : idents_grown st st.
Proof. apply Forall2_same_length_lookup. split; [reflexivity|].
  intros i a b Ha Hb. rewrite Ha in Hb. injection Hb as <-. apply ident_grown_refl. Qed.

Lemma idents_grown_trans st1 st2 st3 :
  idents_grown st1 st2 -> idents_grown st2 st3 -> idents_grown st1 st3.
Proof.
  apply Forall2_trans. intros a b c [Hn1 Hp1] [Hn2 Hp2]. split; [congruence|].
  etrans; eassumption.
Qed.

Lemma idents_grown_lookup st st' v ident :
  idents_grown st st' -> st !! v = Some ident ->
  exists ident', st' !! v = Some ident' /\ ident_grown ident ident'.
Proof. intros H Hv. eapply Forall2_lookup_l; eassumption. Qed.

Lemma idents_grown_lookup_r st st' v ident' :
  idents_grown st st' -> st' !! v = Some ident' ->
  exists ident, st !! v = Some ident /\ ident_grown ident ident'.
Proof. intros H Hv. eapply Forall2_lookup_r; eassumption. Qed.

Lemma idents_grown_insert st v ident self :
  st !! v = Some ident -> idents_grown st (<[v := add_derived self ident]> st).
Proof.
  intros Hv. apply Forall2_same_length_lookup. split; [symmetry; apply length_insert|].
  intros i a b Ha Hb. destruct (decide (v = i)) as [->|Hne].
  - rewrite list_lookup_insert_eq in Hb by (eapply lookup_lt_Some; exact Ha).
    rewrite Hv in Ha. injection Ha as <-. injection Hb as <-.
    split; [reflexivity|]. cbn. apply prefix_app_r. reflexivity.
  - rewrite list_lookup_insert_ne in Hb by exact Hne. rewrite Ha in Hb. injection Hb as <-.
    apply ident_grown_refl.
Qed.

Lemma ident_named_grown st st' identities name :
  idents_grown st st' -> ident_named st' identities name = ident_named st identities name.
Proof.
  intros Hg. induction identities as [|v identities IH]; [reflexivity|].
  cbn [ident_named]. destruct (st !! v) as [ident|] eqn:Hv.
  - destruct (idents_grown_lookup _ _ _ _ Hg Hv) as (ident' & -> & Hname & _).
    rewrite <- Hname, IH. reflexivity.
  - destruct (st' !! v) as [ident'|] eqn:Hv'; [|reflexivity].
    destruct (idents_grown_lookup_r _ _ _ _ Hg Hv') as (ident & Hi & _). congruence.
Qed.

(** The loop over the identities of a module: the back-link goes to the
    first identity of the name, and nothing else changes. *)
Lemma link_base_spec self name : forall identities st st' found,
  link_base st identities name self = Some (st', found) ->
  match ident_named st identities name with
  | Some v => found = true /\ exists ident,
                st !! v = Some ident /\ name = ident_name ident /\
                st' = <[v := add_derived self ident]> st
  | None => found = false /\ st' = st
  end.
Proof.
  induction identities as [|v identities IH]; intros st st' found H; cbn [link_base] in H.
  - injection H as <- <-. cbn. auto.
  - cbn [ident_named]. destruct (st !! v) as [ident|] eqn:Hv; [|discriminate].
    cbn [mbind option_bind] in H.
    destruct (String.eqb_spec name (ident_name ident)) as [Heq|Hne].
    + injection H as <- <-. split; [reflexivity|]. exists ident. auto.
    + apply IH. exact H.
Qed.

Lemma link_base_total self name : forall identities st v,
  ident_named st identities name = Some v ->
  exists st', link_base st identities name self = Some (st', true).
Proof.
  induction identities as [|w identities IH]; intros st v H; [discriminate|].
  cbn [ident_named link_base] in *. destruct (st !! w) as [ident|]; [|discriminate].
  cbn [mbind option_bind]. destruct (String.eqb name (ident_name ident)); eauto.
Qed.

Section IdentityProofs.
Variable prefix_identities : string -> option (list nat).
Variable mod_identities : list nat.

Abbreviation target := (base_target prefix_identities mod_identities).
Abbreviation bases_loop := (derived_bases prefix_identities mod_identities).
Abbreviation identities_loop := (derived_identities prefix_identities mod_identities).

(** What the loop over the bases of an identity leaves: identities have
    gained derived identities only; what they have gained is the identity
    itself, at an identity that one of the bases names; the bases that
    were gone through have their back-links; and an error is reported for
    an unknown prefix only. *)
Lemma derived_bases_spec self : forall bases st dident ret st' dident',
  bases_loop st self bases dident = Some (ret, st', dident') ->
  idents_grown st st' /\
  (forall v ident ident' x, st !! v = Some ident -> st' !! v = Some ident' ->
     x ∈ ident_derived ident' ->
     x ∈ ident_derived ident \/
     (x = self /\ exists base, base ∈ bases /\ (target base).1 = ident_name ident)) /\
  (ret = LY_SUCCESS ->
   forall base identities v, base ∈ bases -> (target base).2 = Some identities ->
     ident_named st identities (target base).1 = Some v ->
     exists ident', st' !! v = Some ident' /\ self ∈ ident_derived ident') /\
  (ret = LY_SUCCESS \/
   (ret = LY_EVALID /\ exists base prefix name,
      base ∈ bases /\ split_prefix base = Some (prefix, name) /\
      prefix_identities prefix = None)).
Proof.
  induction bases as [|base bases IH]; intros st dident ret st' dident' H;
    cbn [derived_bases] in H.
  - injection H as <- <- <-. split; [apply idents_grown_refl|]. split.
    { intros v ident ident' x Hv Hv' Hx. rewrite Hv in Hv'. injection Hv' as <-. auto. }
    split; [|auto]. intros _ base identities v Hb. apply elem_of_nil in Hb as [].
  - destruct (target base) as [name mod_] eqn:Htarget.
    destruct mod_ as [identities|].
    2:{ injection H as <- <- <-. split; [apply idents_grown_refl|]. split.
        { intros v ident ident' x Hv Hv' Hx. rewrite Hv in Hv'. injection Hv' as <-. auto. }
        split; [discriminate|]. right. split; [reflexivity|].
        unfold base_target in Htarget.
        destruct (split_prefix base) as [[prefix name']|] eqn:Hsplit; [|discriminate].
        injection Htarget as <- Hnone. exists base, prefix, name'.
        split; [apply elem_of_cons; auto|auto]. }
    destruct (link_base st identities name self) as [[st1 found]|] eqn:Hlink; [|discriminate].
    cbn [mbind option_bind] in H.
    destruct (negb (dident || found)); [discriminate|].
    destruct (IH _ _ _ _ _ H) as (Hgrown & Hadded & Hlinks & Hcode).
    pose proof (link_base_spec _ _ _ _ _ _ Hlink) as Hspec.
    assert (Hstep : idents_grown st st1 /\
              (forall v ident ident1 x, st !! v = Some ident -> st1 !! v = Some ident1 ->
                 x ∈ ident_derived ident1 ->
                 x ∈ ident_derived ident \/ (x = self /\ name = ident_name ident)) /\
              (forall v, ident_named st identities name = Some v ->
                 exists ident1, st1 !! v = Some ident1 /\ self ∈ ident_derived ident1)).
    { destruct (ident_named st identities name) as [w|] eqn:Hnamed.
      - destruct Hspec as (_ & ident & Hw & Hname & ->).
        pose proof (lookup_lt_Some _ _ _ Hw) as Hlt.
        split; [apply idents_grown_insert; exact Hw|]. split.
        + intros v ident0 ident1 x Hv Hv1 Hx. destruct (decide (w = v)) as [->|Hne].
          * rewrite list_lookup_insert_eq in Hv1 by exact Hlt. injection Hv1 as <-.
            rewrite Hw in Hv. injection Hv as <-. cbn in Hx.
            apply elem_of_app in Hx as [Hx|Hx]; [auto|].
            apply elem_of_cons in Hx as [->|Hx]; [auto|apply elem_of_nil in Hx as []].
          * rewrite list_lookup_insert_ne in Hv1 by exact Hne.
            rewrite Hv in Hv1. injection Hv1 as <-. auto.
        + intros v [= <-]. eexists. split; [apply list_lookup_insert_eq; exact Hlt|].
          cbn. apply elem_of_app. right. apply elem_of_cons. auto.
      - destruct Hspec as (_ & ->). split; [apply idents_grown_refl|]. split.
        + intros v ident ident1 x Hv Hv1 Hx. rewrite Hv in Hv1. injection Hv1 as <-. auto.
        + discriminate. }
    destruct Hstep as (Hgrown1 & Hadded1 & Hlink1).
    split; [eapply idents_grown_trans; eassumption|]. split.
    { intros v ident ident' x Hv Hv' Hx.
      destruct (idents_grown_lookup _ _ _ _ Hgrown1 Hv) as (ident1 & Hv1 & Hname1 & _).
      destruct (Hadded v ident1 ident' x Hv1 Hv' Hx) as [Hold|(-> & base' & Hb' & Ht')].
      - destruct (Hadded1 v ident ident1 x Hv Hv1 Hold) as [Hold0|(-> & Hname)]; [auto|].
        right. split; [reflexivity|]. exists base. split; [apply elem_of_cons; auto|].
        rewrite Htarget. exact Hname.
      - right. split; [reflexivity|]. exists base'. split; [apply elem_of_cons; auto|].
        congruence. }
    split.
    { intros Hret base' identities' v [->|Hb']%elem_of_cons Hmod Hnamed.
      - rewrite Htarget in Hmod, Hnamed. cbn [fst snd] in Hmod, Hnamed.
        injection Hmod as <-. destruct (Hlink1 v Hnamed) as (ident1 & Hv1 & Hin).
        destruct (idents_grown_lookup _ _ _ _ Hgrown Hv1) as (ident' & Hv' & _ & Hpre).
        exists ident'. split; [exact Hv'|]. eapply elem_of_prefix; eassumption.
      - apply (Hlinks Hret base' identities' v Hb' Hmod).
        rewrite (ident_named_grown _ _ _ _ Hgrown1). exact Hnamed. }
    destruct Hcode as [Hs|(He & base' & prefix & name' & Hb' & Hsplit & Hnone)]; [auto|].
    right. split; [exact He|]. exists base', prefix, name'.
    split; [apply elem_of_cons; auto|auto].
Qed.

(** With every base naming an identity of its module, the loop over the
    bases goes through. *)
Lemma derived_bases_total self : forall bases st dident,
  (forall base, base ∈ bases -> exists identities v,
     (target base).2 = Some identities /\
     ident_named st identities (target base).1 = Some v) ->
  exists st' dident', bases_loop st self bases dident = Some (LY_SUCCESS, st', dident').
Proof.
  induction bases as [|base bases IH]; intros st dident Hfound; cbn [derived_bases]; [eauto|].
  destruct (Hfound base ltac:(apply elem_of_cons; auto)) as (identities & v & Hmod & Hnamed).
  destruct (target base) as [name mod_] eqn:Htarget. cbn [fst snd] in Hmod, Hnamed.
  subst mod_. destruct (link_base_total self _ _ _ _ Hnamed) as (st1 & Hlink).
  rewrite Hlink. cbn [mbind option_bind]. rewrite orb_true_r. cbn [negb].
  apply IH. intros base' Hb'.
  destruct (Hfound base' ltac:(apply elem_of_cons; auto)) as (ids' & v' & Hmod' & Hnamed').
  exists ids', v'. split; [exact Hmod'|].
  pose proof (link_base_spec _ _ _ _ _ _ Hlink) as Hspec. rewrite Hnamed in Hspec.
  destruct Hspec as (_ & ident & Hv & _ & ->).
  rewrite (ident_named_grown st); [exact Hnamed'|]. apply idents_grown_insert. exact Hv.
Qed.

(** The loop over the identities, from the index [i]. *)
Lemma derived_identities_spec idents : forall idents_p i st dident ret st',
  identities_loop st idents idents_p i dident = Some (ret, st') ->
  idents_grown st st' /\
  (forall v ident ident' x, st !! v = Some ident -> st' !! v = Some ident' ->
     x ∈ ident_derived ident' ->
     x ∈ ident_derived ident \/
     exists k ident_p base, idents_p !! k = Some ident_p /\ idents !! (i + k)%nat = Some x /\
       base ∈ pident_bases ident_p /\ (target base).1 = ident_name ident) /\
  (ret = LY_SUCCESS ->
   forall k ident_p self base identities v,
     idents_p !! k = Some ident_p -> idents !! (i + k)%nat = Some self ->
     base ∈ pident_bases ident_p -> (target base).2 = Some identities ->
     ident_named st identities (target base).1 = Some v ->
     exists ident', st' !! v = Some ident' /\ self ∈ ident_derived ident') /\
  (ret = LY_SUCCESS \/
   (ret = LY_EVALID /\ exists ident_p base prefix name,
      ident_p ∈ idents_p /\ base ∈ pident_bases ident_p /\
      split_prefix base = Some (prefix, name) /\ prefix_identities prefix = None)).
Proof.
  induction idents_p as [|ident_p idents_p IH]; intros i st dident ret st' H;
    cbn [derived_identities] in H.
  - injection H as <- <-. split; [apply idents_grown_refl|]. split.
    { intros v ident ident' x Hv Hv' Hx. rewrite Hv in Hv'. injection Hv' as <-. auto. }
    split; [|auto]. intros _ k ident_p self base identities v Hk. discriminate.
  - assert (Hshift : forall k, (i + S k = S i + k)%nat) by (intros; lia).
    destruct (pident_bases ident_p) as [|b bs] eqn:Hbases.
    { destruct (IH _ _ _ _ _ H) as (Hgrown & Hadded & Hlinks & Hcode).
      split; [exact Hgrown|]. split.
      { intros v ident ident' x Hv Hv' Hx.
        destruct (Hadded v ident ident' x Hv Hv' Hx)
          as [Hold|(k & p & base & Hk & Hi & Hb & Ht)]; [auto|].
        right. exists (S k), p, base. rewrite Hshift. auto. }
      split.
      { intros Hret [|k] p self base identities v Hk Hi Hb Hmod Hnamed.
        - injection Hk as <-. rewrite Hbases in Hb. apply elem_of_nil in Hb as [].
        - rewrite Hshift in Hi. eapply Hlinks; eassumption. }
      destruct Hcode as [Hs|(He & p & base & prefix & name & Hp & Hb & Hsplit & Hnone)];
        [auto|].
      right. split; [exact He|]. exists p, base, prefix, name.
      split; [apply elem_of_cons; auto|auto]. }
    rewrite <- Hbases in H.
    destruct (idents !! i) as [self|] eqn:Hself; [|discriminate].
    cbn [mbind option_bind] in H.
    destruct (bases_loop st self (pident_bases ident_p) dident) as [[[ret1 st1] dident1]|]
      eqn:Hloop; [|discriminate].
    cbn [mbind option_bind] in H.
    destruct (derived_bases_spec _ _ _ _ _ _ _ Hloop) as (Hgrown1 & Hadded1 & Hlinks1 & Hcode1).
    assert (Hhere : forall v ident ident1 x, st !! v = Some ident -> st1 !! v = Some ident1 ->
              x ∈ ident_derived ident1 ->
              x ∈ ident_derived ident \/
              exists k p base, (ident_p :: idents_p) !! k = Some p /\
                idents !! (i + k)%nat = Some x /\ base ∈ pident_bases p /\
                (target base).1 = ident_name ident).
    { intros v ident ident1 x Hv Hv1 Hx.
      destruct (Hadded1 v ident ident1 x Hv Hv1 Hx) as [Hold|(-> & base & Hb & Ht)]; [auto|].
      right. exists 0%nat, ident_p, base. rewrite Nat.add_0_r. auto. }
    assert (Hstop : ret1 <> LY_SUCCESS -> Some (ret1, st1) = Some (ret, st') ->
              idents_grown st st' /\
              (forall v ident ident' x, st !! v = Some ident -> st' !! v = Some ident' ->
                 x ∈ ident_derived ident' ->
                 x ∈ ident_derived ident \/
                 exists k p base, (ident_p :: idents_p) !! k = Some p /\
                   idents !! (i + k)%nat = Some x /\ base ∈ pident_bases p /\
                   (target base).1 = ident_name ident) /\
              ret <> LY_SUCCESS /\
              (ret = LY_EVALID /\ exists p base prefix name,
                 p ∈ ident_p :: idents_p /\ base ∈ pident_bases p /\
                 split_prefix base = Some (prefix, name) /\ prefix_identities prefix = None)).
    { intros Hne [= <- <-]. split; [exact Hgrown1|]. split; [exact Hhere|].
      split; [exact Hne|].
      destruct Hcode1 as [Hs|(He & base & prefix & name & Hb & Hsplit & Hnone)];
        [contradiction|].
      split; [exact He|]. exists ident_p, base, prefix, name.
      split; [apply elem_of_cons; auto|auto]. }
    destruct (decide (ret1 = LY_SUCCESS)) as [->|Hne].
    2:{ assert (Hres : Some (ret1, st1) = Some (ret, st')) by (destruct ret1; congruence).
        destruct (Hstop Hne Hres) as (Hg & Ha & Hn & Hc).
        split; [exact Hg|]. split; [exact Ha|]. split; [intros; contradiction|auto]. }
    clear Hstop.
    destruct (IH _ _ _ _ _ H) as (Hgrown & Hadded & Hlinks & Hcode).
    split; [eapply idents_grown_trans; eassumption|]. split.
    { intros v ident ident' x Hv Hv' Hx.
      destruct (idents_grown_lookup _ _ _ _ Hgrown1 Hv) as (ident1 & Hv1 & Hname1 & _).
      destruct (Hadded v ident1 ident' x Hv1 Hv' Hx)
        as [Hold|(k & p & base & Hk & Hi & Hb & Ht)].
      - eapply Hhere; eassumption.
      - right. exists (S k), p, base. rewrite Hshift.
        split; [exact Hk|]. split; [exact Hi|]. split; [exact Hb|]. congruence. }
    split.
    { intros Hret [|k] p self' base identities v Hk Hi Hb Hmod Hnamed.
      - injection Hk as <-. rewrite Nat.add_0_r, Hself in Hi. injection Hi as <-.
        destruct (Hlinks1 eq_refl base identities v Hb Hmod Hnamed) as (ident1 & Hv1 & Hin).
        destruct (idents_grown_lookup _ _ _ _ Hgrown Hv1) as (ident' & Hv' & _ & Hpre).
        exists ident'. split; [exact Hv'|]. eapply elem_of_prefix; eassumption.
      - rewrite Hshift in Hi. apply (Hlinks Hret k p self' base identities v Hk Hi Hb Hmod).
        rewrite (ident_named_grown _ _ _ _ Hgrown1). exact Hnamed. }
    destruct Hcode as [Hs|(He & p & base & prefix & name & Hp & Hb & Hsplit & Hnone)]; [auto|].
    right. split; [exact He|]. exists p, base, prefix, name.
    split; [apply elem_of_cons; auto|auto].
Qed.

(** With an identity for every statement and every base naming an
    identity of its module, the loop over the identities goes through. *)
Lemma derived_identities_total idents : forall idents_p i st dident,
  (i + length idents_p <= length idents)%nat ->
  (forall ident_p base, ident_p ∈ idents_p -> base ∈ pident_bases ident_p ->
     exists identities v, (target base).2 = Some identities /\
       ident_named st identities (target base).1 = Some v) ->
  exists st', identities_loop st idents idents_p i dident = Some (LY_SUCCESS, st').
Proof.
  induction idents_p as [|ident_p idents_p IH]; intros i st dident Hlen Hfound;
    cbn [derived_identities]; [eauto|].
  cbn [length] in Hlen.
  assert (Hrest : forall st1, idents_grown st st1 ->
            forall p base, p ∈ idents_p -> base ∈ pident_bases p ->
            exists identities v, (target base).2 = Some identities /\
              ident_named st1 identities (target base).1 = Some v).
  { intros st1 Hg p base Hp Hb.
    destruct (Hfound p base ltac:(apply elem_of_cons; auto) Hb) as (ids & v & Hmod & Hnamed).
    exists ids, v. split; [exact Hmod|]. rewrite (ident_named_grown _ _ _ _ Hg). exact Hnamed. }
  destruct (pident_bases ident_p) as [|b bs] eqn:Hbases.
  { apply IH; [lia|]. apply Hrest. apply idents_grown_refl. }
  rewrite <- Hbases.
  destruct (lookup_lt_is_Some_2 idents i ltac:(lia)) as [self Hself]. rewrite Hself.
  cbn [mbind option_bind].
  destruct (derived_bases_total self (pident_bases ident_p) st dident) as (st1 & dident1 & Hloop).
  { intros base Hb. apply (Hfound ident_p base); [apply elem_of_cons; auto|exact Hb]. }
  rewrite Hloop. cbn [mbind option_bind].
  apply IH; [lia|]. apply Hrest.
  apply (derived_bases_spec _ _ _ _ _ _ _ Hloop).
Qed.
End IdentityProofs.

(** ** Single-feature changes and queries *)

(** C7: enabling one named feature whose if-feature expression currently
    evaluates false fails with [LY_EDENIED] (Denied) and leaves the store,
    hence the feature's cleared bit, as it was. *)
Theorem lys_feature_enable_denied st m c name p f :
  compiled m = Some c ->
  name <> "*"%string ->
  feature_named st (mod_features c) name = Some (p, f) ->
  feature_enabled f = false ->
  iffeatures_enabled st (f_iffeatures f) = Some false ->
  lys_feature_change st c name 1 = Some (LY_EDENIED, st) /\
  lys_feature_enable st (Some m) (Some name) = Some (LY_EDENIED, st).
Proof.
  intros Hc Hname Hf Hoff Hiff.
  assert (H : lys_feature_change st c name 1 = Some (LY_EDENIED, st)).
  { unfold lys_feature_change.
    rewrite (lys_feature_change_set_named _ _ _ _ _ _ Hf)
      by (apply String.eqb_neq; exact Hname).
    rewrite (feature_run_named _ _ _ _ _ _ Hf), Hoff, Hiff. reflexivity. }
  split; [exact H|]. unfold lys_feature_enable. rewrite Hc. exact H.
Qed.

(** C8: enabling an already-enabled named feature returns [LY_SUCCESS]
    with the store unchanged and an empty changed set (so nothing is
    propagated); symmetrically for disabling an already-disabled one. *)
Theorem lys_feature_change_already_set st m c name p f :
  compiled m = Some c ->
  name <> "*"%string ->
  feature_named st (mod_features c) name = Some (p, f) ->
  (feature_enabled f = true ->
   lys_feature_enable st (Some m) (Some name) = Some (LY_SUCCESS, st) /\
   lys_feature_change_set st c name 1 = Some (LY_SUCCESS, st, [])) /\
  (feature_enabled f = false ->
   lys_feature_disable st (Some m) (Some name) = Some (LY_SUCCESS, st) /\
   lys_feature_change_set st c name 0 = Some (LY_SUCCESS, st, [])).
Proof.
  intros Hc Hname Hf.
  assert (Hset : forall value,
    (negb (value =? 0) && feature_enabled f) || ((value =? 0) && negb (feature_enabled f)) = true ->
    lys_feature_change_set st c name value = Some (LY_SUCCESS, st, [])).
  { intros value Hv.
    rewrite (lys_feature_change_set_named _ _ _ _ _ _ Hf)
      by (apply String.eqb_neq; exact Hname).
    rewrite (feature_run_named _ _ _ _ _ _ Hf), Hv. reflexivity. }
  split; intros Hon.
  - assert (H := Hset 1). rewrite Hon in H. specialize (H eq_refl).
    split; [|exact H].
    unfold lys_feature_enable, lys_feature_change. rewrite Hc, H. reflexivity.
  - assert (H := Hset 0). rewrite Hon in H. specialize (H eq_refl).
    split; [|exact H].
    unfold lys_feature_disable, lys_feature_change. rewrite Hc, H. reflexivity.
Qed.

(** C9: [lys_feature_value] returns the sentinel -1 when the module, its
    compiled form or the name is NULL, and when the module has features
    but none of the name; a feature that is found yields 0 or 1, never -1,
    and the function has no error code.  For a module without features
    the code does not return -1: the loop condition reads the counter in
    front of the NULL array [mod->features], which is undefined, whereas
    [lys_feature_change] tests the pointer first and returns
    [LY_EINVAL]. *)
Theorem lys_feature_value_without_features st :
  (forall m c feature, compiled m = Some c -> mod_features c = [] ->
     lys_feature_value st (Some m) (Some feature) = None /\
     lys_feature_value st (Some m) (Some feature) <> Some (-1) /\
     forall value, lys_feature_change st c feature value = Some (LY_EINVAL, st)) /\
  (forall feature, lys_feature_value st None feature = Some (-1)) /\
  (forall m, lys_feature_value st (Some m) None = Some (-1)) /\
  (forall m feature, compiled m = None ->
     lys_feature_value st (Some m) feature = Some (-1)) /\
  (forall m c feature, compiled m = Some c -> mod_features c <> [] ->
     no_feature_named st (mod_features c) feature ->
     lys_feature_value st (Some m) (Some feature) = Some (-1)) /\
  (forall m c feature p f, compiled m = Some c ->
     feature_named st (mod_features c) feature = Some (p, f) ->
     exists v, lys_feature_value st (Some m) (Some feature) = Some v /\
       (v = 0 \/ v = 1) /\ v <> -1).
Proof.
  split_and!.
  - intros m c feature Hc Hfs.
    assert (Hnone : lys_feature_value st (Some m) (Some feature) = None).
    { unfold lys_feature_value. rewrite Hc, Hfs. reflexivity. }
    split; [exact Hnone|]. split; [rewrite Hnone; discriminate|].
    intros value. unfold lys_feature_change, lys_feature_change_set.
    rewrite Hfs. reflexivity.
  - intros [feature|]; reflexivity.
  - intros m. reflexivity.
  - intros m [feature|] Hc; simpl; try reflexivity. rewrite Hc. reflexivity.
  - intros m c feature Hc Hfs Hno. rewrite (lys_feature_value_search _ _ _ _ Hc Hfs).
    apply feature_value_search_absent; assumption.
  - intros m c feature p f Hc Hf.
    rewrite (lys_feature_value_search _ _ _ _ Hc (feature_named_nonempty _ _ _ _ Hf)).
    rewrite (feature_value_search_named _ _ _ _ _ Hf).
    destruct (feature_enabled f); eexists; split; eauto; split; auto; lia.
Qed.

(** C10: on a module without features [lys_feature_change], and with it
    [lys_feature_enable] and [lys_feature_disable], returns [LY_EINVAL]
    (InvalidArg) for every name, the wildcard included, and changes
    nothing. *)
Theorem lys_feature_change_no_features st m c name value :
  compiled m = Some c ->
  mod_features c = [] ->
  lys_feature_change st c name value = Some (LY_EINVAL, st) /\
  lys_feature_change st c "*" value = Some (LY_EINVAL, st) /\
  lys_feature_enable st (Some m) (Some name) = Some (LY_EINVAL, st) /\
  lys_feature_disable st (Some m) (Some name) = Some (LY_EINVAL, st) /\
  lys_feature_enable st (Some m) (Some "*"%string) = Some (LY_EINVAL, st) /\
  lys_feature_disable st (Some m) (Some "*"%string) = Some (LY_EINVAL, st).
Proof.
  intros Hc Hfs.
  assert (H : forall n v, lys_feature_change st c n v = Some (LY_EINVAL, st)).
  { intros n v. unfold lys_feature_change, lys_feature_change_set.
    rewrite Hfs. reflexivity. }
  unfold lys_feature_enable, lys_feature_disable. rewrite Hc.
  repeat split; apply H.
Qed.

Lemma lys_feature_enable_denied_witness :
  feature_named scenario3_store (mod_features scenario3_module) "f"
    = Some (3%nat, mk_feature "f" 0 [scenario3_iff] []) /\
  iffeatures_enabled scenario3_store [scenario3_iff] = Some false /\
  lys_feature_change scenario3_store scenario3_module "f" 1
    = Some (LY_EDENIED, scenario3_store) /\
  lys_feature_enable scenario3_store (Some (mk_lys_module (Some scenario3_module)))
    (Some "f"%string) = Some (LY_EDENIED, scenario3_store).
Proof.
  split; [reflexivity|]. split; [reflexivity|].
  apply (lys_feature_enable_denied scenario3_store
           (mk_lys_module (Some scenario3_module)) scenario3_module "f" 3%nat
           (mk_feature "f" 0 [scenario3_iff] [])).
  - reflexivity.
  - discriminate.
  - reflexivity.
  - reflexivity.
  - reflexivity.
Defined.

Lemma lys_feature_change_already_set_witness :
  (lys_feature_enable (scenario3_with true false false false)
     (Some (mk_lys_module (Some scenario3_module))) (Some "a"%string)
   = Some (LY_SUCCESS, scenario3_with true false false false) /\
   lys_feature_change_set (scenario3_with true false false false) scenario3_module "a" 1
   = Some (LY_SUCCESS, scenario3_with true false false false, [])) /\
  (lys_feature_disable scenario3_store
     (Some (mk_lys_module (Some scenario3_module))) (Some "b"%string)
   = Some (LY_SUCCESS, scenario3_store) /\
   lys_feature_change_set scenario3_store scenario3_module "b" 0
   = Some (LY_SUCCESS, scenario3_store, [])).
Proof.
  split.
  - apply (lys_feature_change_already_set (scenario3_with true false false false)
             (mk_lys_module (Some scenario3_module)) scenario3_module "a" 0%nat
             (mk_feature "a" LYS_FENABLED [] [3%nat]));
      [reflexivity | discriminate | reflexivity | reflexivity].
  - apply (lys_feature_change_already_set scenario3_store
             (mk_lys_module (Some scenario3_module)) scenario3_module "b" 1%nat
             (mk_feature "b" 0 [] [3%nat]));
      [reflexivity | discriminate | reflexivity | reflexivity].
Defined.

Lemma lys_feature_value_without_features_witness :
  lys_feature_value [] (Some (mk_lys_module (Some (mk_lysc_module "empty" []))))
    (Some "a"%string) = None /\
  lys_feature_change [] (mk_lysc_module "empty" []) "a" 0 = Some (LY_EINVAL, []) /\
  no_feature_named scenario3_store (mod_features scenario3_module) "z" /\
  lys_feature_value scenario3_store (Some (mk_lys_module (Some scenario3_module)))
    (Some "z"%string) = Some (-1) /\
  lys_feature_value scenario3_store (Some (mk_lys_module None)) (Some "a"%string)
    = Some (-1).
Proof.
  assert (Hno : no_feature_named scenario3_store (mod_features scenario3_module) "z").
  { repeat constructor; eexists; (split; [reflexivity|discriminate]). }
  destruct (lys_feature_value_without_features []) as (Hnull & _).
  destruct (Hnull (mk_lys_module (Some (mk_lysc_module "empty" [])))
              (mk_lysc_module "empty" []) "a"%string eq_refl eq_refl) as (Hub & _ & Hchange).
  destruct (lys_feature_value_without_features scenario3_store)
    as (_ & _ & _ & Hnone & Habsent & _).
  split; [exact Hub|]. split; [apply Hchange|]. split; [exact Hno|]. split.
  - apply (Habsent _ scenario3_module); [reflexivity|discriminate|exact Hno].
  - apply Hnone. reflexivity.
Defined.

Lemma lys_feature_change_no_features_witness :
  lys_feature_change scenario3_store (mk_lysc_module "empty" []) "a" 1
    = Some (LY_EINVAL, scenario3_store) /\
  lys_feature_enable scenario3_store
    (Some (mk_lys_module (Some (mk_lysc_module "empty" [])))) (Some "*"%string)
    = Some (LY_EINVAL, scenario3_store).
Proof.
  destruct (lys_feature_change_no_features scenario3_store
              (mk_lys_module (Some (mk_lysc_module "empty" [])))
              (mk_lysc_module "empty" []) "a" 1 eq_refl eq_refl)
    as (H1 & _ & _ & _ & H2 & _).
  split; assumption.
Defined.

(** ** Enabling all features *)

Ltac solve_wf_store :=
  repeat first
    [ apply Forall_nil_2 | apply Forall_cons_2 | split
    | (eexists; vm_compute; reflexivity) | (simpl; lia) ].



(** ** The value of a feature and the propagation of changes *)

(** C1: in a consistent store, one in which every enabled feature has
    all its if-feature expressions true, [lysc_feature_value] of a feature
    and [lys_feature_value] of its name return 1 exactly when the enabled
    bit is set and every expression of [iffeatures] evaluates true.  The
    queries read the bit only; the bit is set by [lys_feature_change]
    alone, behind the evaluation of the expressions, and
    [lys_feature_change] keeps a store with complete back-links
    consistent, whatever it is asked and whatever it returns. *)
Theorem feature_value_enabled_and_iffeatures st :
  consistent st ->
  (forall p f, st !! p = Some f ->
     (lysc_feature_value (Some f) = 1 <->
      feature_enabled f = true /\ iffeatures_enabled st (f_iffeatures f) = Some true)) /\
  (forall m c name p f, compiled m = Some c ->
     feature_named st (mod_features c) name = Some (p, f) ->
     (lys_feature_value st (Some m) (Some name) = Some 1 <->
      feature_enabled f = true /\ iffeatures_enabled st (f_iffeatures f) = Some true)) /\
  (forall c name value e st', deps_complete st ->
     lys_feature_change st c name value = Some (e, st') -> consistent st').
Proof.
  intros Hcons.
  assert (Hiff : forall p f, st !! p = Some f -> feature_enabled f = true ->
                 iffeatures_enabled st (f_iffeatures f) = Some true).
  { intros p f Hp Hon.
    destruct (decide (iffeatures_enabled st (f_iffeatures f) = Some true)) as [|Hne];
      [assumption|].
    destruct (Hcons p). exists f. auto. }
  split_and!.
  - intros p f Hp. rewrite lysc_feature_value_enabled.
    specialize (Hiff p f Hp). tauto.
  - intros m c name p f Hc Hf.
    rewrite (lys_feature_value_search _ _ _ _ Hc (feature_named_nonempty _ _ _ _ Hf)).
    rewrite (feature_value_search_named _ _ _ _ _ Hf).
    apply feature_named_split in Hf as (_ & _ & _ & _ & Hp & _).
    specialize (Hiff p f Hp).
    destruct (feature_enabled f); split; try tauto; try discriminate.
    intros [Hon _]. discriminate.
  - intros c name value e st' Hdc H. unfold lys_feature_change in H.
    destruct (lys_feature_change_set st c name value) as [[[e0 st0] ch]|] eqn:Hset;
      [|discriminate].
    injection H as <- <-. eapply lys_feature_change_set_consistent; eassumption.
Qed.

Lemma scenario3_consistent_af : consistent (scenario3_with true false false true).
Proof.
  intros q (g & Hq & Hon & Hiff).
  destruct q as [|[|[|[|q]]]]; simpl in Hq; try discriminate; injection Hq as <-;
    vm_compute in Hiff; try (apply Hiff; reflexivity); vm_compute in Hon; discriminate.
Qed.

Lemma feature_value_enabled_and_iffeatures_witness :
  consistent (scenario3_with true false false true) /\
  (lys_feature_value (scenario3_with true false false true)
     (Some (mk_lys_module (Some scenario3_module))) (Some "f"%string) = Some 1 <->
   feature_enabled (mk_feature "f" LYS_FENABLED [scenario3_iff] []) = true /\
   iffeatures_enabled (scenario3_with true false false true) [scenario3_iff] = Some true) /\
  (lys_feature_value (scenario3_with true false false true)
     (Some (mk_lys_module (Some scenario3_module))) (Some "b"%string) = Some 1 <->
   feature_enabled (mk_feature "b" 0 [] [3%nat]) = true /\
   iffeatures_enabled (scenario3_with true false false true) [] = Some true).
Proof.
  split; [apply scenario3_consistent_af|].
  destruct (feature_value_enabled_and_iffeatures (scenario3_with true false false true)
              scenario3_consistent_af) as (_ & H & _).
  split.
  - apply (H (mk_lys_module (Some scenario3_module)) scenario3_module "f"%string 3%nat
             (mk_feature "f" LYS_FENABLED [scenario3_iff] []) eq_refl eq_refl).
  - apply (H (mk_lys_module (Some scenario3_module)) scenario3_module "b"%string 1%nat
             (mk_feature "b" 0 [] [3%nat]) eq_refl eq_refl).
Defined.

(** C5: after a successful [lys_feature_change], (1) every feature that
    the call disabled, directly or as a dependent, is in the changed set;
    (2) when the back-links are complete, no dependent [df] of a changed
    feature is left enabled with a false if-feature expression; (3) a
    feature that was disabled and is enabled afterwards was a target of an
    explicit enable (nonzero value, a feature of the module, selected by
    "*" or by its name): nothing is re-enabled automatically; and the loop
    over the dependents (4) clears the bit of an enabled [df] whose
    if-feature is false and appends it to the changed set, and (5) leaves
    any other [df] alone. *)
Theorem lys_feature_change_reflects_dependents st c name value st' changed :
  lys_feature_change_set st c name value = Some (LY_SUCCESS, st', changed) ->
  (forall q f f', st !! q = Some f -> st' !! q = Some f' ->
     feature_enabled f = true -> feature_enabled f' = false -> q ∈ changed) /\
  (deps_complete st ->
   forall p df, p ∈ changed -> df ∈ deps_at st' p -> ~ inconsistent_at st' df) /\
  (forall q f f', st !! q = Some f -> st' !! q = Some f' ->
     feature_enabled f = false -> feature_enabled f' = true ->
     value <> 0 /\ q ∈ mod_features c /\ (name = "*"%string \/ f_name f' = name)) /\
  (forall s ch df dfs d, s !! df = Some d -> feature_enabled d = true ->
     iffeatures_enabled s (f_iffeatures d) = Some false ->
     reflect_deps s ch (df :: dfs)
     = reflect_deps (alter clear_enabled df s) (ch ++ [df]) dfs /\
     (feature_enabled <$> alter clear_enabled df s !! df) = Some false) /\
  (forall s ch df dfs d, s !! df = Some d ->
     feature_enabled d = false \/ iffeatures_enabled s (f_iffeatures d) = Some true ->
     reflect_deps s ch (df :: dfs) = reflect_deps s ch dfs).
Proof.
  intros H. split_and!.
  - eapply lys_feature_change_set_recorded; eassumption.
  - intros Hdc p df Hp Hdf. eapply lys_feature_change_set_reflected; try eassumption.
    exists p. auto.
  - intros q f f' Hf Hf' Hoff Hon.
    destruct (lys_feature_change_set_kept _ _ _ _ _ _ _ H q f' Hf' Hon)
      as [(f0 & Hf0 & Hon0)|(Hv & Hq & Hsel)]; [congruence|].
    split_and!; auto. destruct Hsel as [Hall|?]; [|auto].
    left. apply String.eqb_eq. exact Hall.
  - intros s ch df dfs d Hd Hon Hiff. cbn [reflect_deps].
    rewrite Hd. cbn [mbind option_bind]. rewrite Hon, Hiff. split; [reflexivity|].
    rewrite list_lookup_alter_eq, Hd. simpl. rewrite feature_enabled_clear. reflexivity.
  - intros s ch df dfs d Hd Hor. cbn [reflect_deps].
    rewrite Hd. cbn [mbind option_bind].
    destruct (feature_enabled d); [|reflexivity].
    destruct Hor as [Hoff|Htrue]; [discriminate|rewrite Htrue; reflexivity].
Qed.

(** Scenario 3 of the specification, step by step: [f] cannot be enabled
    while [a] is off; with [a] on it can; enabling [b] then disables [f]
    as a dependent; enabling [c] afterwards leaves [f] disabled. *)
Example scenario3_trace :
  lys_feature_change scenario3_store scenario3_module "f" 1
    = Some (LY_EDENIED, scenario3_store) /\
  lys_feature_change scenario3_store scenario3_module "a" 1
    = Some (LY_SUCCESS, scenario3_with true false false false) /\
  lys_feature_change (scenario3_with true false false false) scenario3_module "f" 1
    = Some (LY_SUCCESS, scenario3_with true false false true) /\
  lys_feature_change_set (scenario3_with true false false true) scenario3_module "b" 1
    = Some (LY_SUCCESS, scenario3_with true true false false, [1; 3]%nat) /\
  lys_feature_change_set (scenario3_with true true false false) scenario3_module "c" 1
    = Some (LY_SUCCESS, scenario3_with true true true false, [2]%nat).
Proof. repeat split. Qed.

Lemma scenario3_deps_complete a b c f : deps_complete (scenario3_with a b c f).
Proof.
  intros q g iff r Hq Hiff Hr.
  destruct q as [|[|[|[|q]]]]; simpl in Hq; try discriminate; injection Hq as <-;
    simpl in Hiff; try (apply elem_of_nil in Hiff; destruct Hiff).
  apply list_elem_of_singleton in Hiff. subst iff. simpl in Hr.
  repeat (apply elem_of_cons in Hr as [->|Hr]);
    try (eexists; split; [reflexivity|apply list_elem_of_here]).
  apply elem_of_nil in Hr. destruct Hr.
Qed.

Lemma lys_feature_change_reflects_dependents_witness :
  lys_feature_change_set (scenario3_with true false false true) scenario3_module "b" 1
    = Some (LY_SUCCESS, scenario3_with true true false false, [1; 3]%nat) /\
  deps_complete (scenario3_with true false false true) /\
  ~ inconsistent_at (scenario3_with true true false false) 3.
Proof.
  split; [reflexivity|]. split; [apply scenario3_deps_complete|].
  destruct (lys_feature_change_reflects_dependents (scenario3_with true false false true)
              scenario3_module "b" 1 (scenario3_with true true false false) [1; 3]%nat
              eq_refl) as (_ & H & _).
  apply (H (scenario3_deps_complete true false false true) 1%nat 3%nat).
  - apply list_elem_of_here.
  - apply list_elem_of_here.
Defined.

(** ** Range restrictions against a base *)

(** C2: when [lys_compile_type_range] succeeds against a base range, the
    parts that the loop over the expression counted as done lie each
    inside one part of the base; the restriction "0..100" of a uint8
    typedef with base range 10..200 fails with [LY_EVALID] (Validation),
    and "10..50" under the base 0..100 is accepted.  But the expression
    "10 0", whose second number is not separated by a bar, is accepted
    under the base 10..200 with the parts 10 and 0, although 0 lies
    outside the base: the loop over the expression leaves [parts_done] at
    1 for two parts, and the walk stops its derived cursor at
    [parts_done]. *)
Theorem lys_compile_type_range_unchecked_part :
  (forall arg basetype base parts,
     lys_compile_type_range arg basetype (Some base) = Some (LY_SUCCESS, Some parts) ->
     exists uns parts_done,
       range_type_unsigned basetype = Some uns /\
       range_expr_loop (S (S (String.length arg))) basetype arg [] 0 false
         = Some (Some (parts, parts_done)) /\
       forall i, (i < parts_done)%nat ->
         exists p, parts !! i = Some p /\ part_within_base uns base p) /\
  lys_compile_type_range "0..100" LY_TYPE_UINT8 (Some [mk_range_part 10 200])
    = Some (LY_EVALID, None) /\
  lys_compile_type_range "10..50" LY_TYPE_UINT8 (Some [mk_range_part 0 100])
    = Some (LY_SUCCESS, Some [mk_range_part 10 50]) /\
  range_expr_loop 6 LY_TYPE_UINT8 "10 0" [] 0 false
    = Some (Some ([mk_range_part 10 10; mk_range_part 0 0], 1%nat)) /\
  lys_compile_type_range "10 0" LY_TYPE_UINT8 (Some [mk_range_part 10 200])
    = Some (LY_SUCCESS, Some [mk_range_part 10 10; mk_range_part 0 0]) /\
  ~ part_within_base true [mk_range_part 10 200] (mk_range_part 0 0).
Proof.
  split; [exact lys_compile_type_range_checked|].
  split_and!; try reflexivity.
  intros (b & Hb & Hmin & _). apply list_elem_of_singleton in Hb. subst b.
  vm_compute in Hmin. discriminate.
Qed.

Lemma lys_compile_type_range_unchecked_part_witness :
  lys_compile_type_range "1 | 20..30" LY_TYPE_UINT8
    (Some [mk_range_part 1 1; mk_range_part 10 50])
    = Some (LY_SUCCESS, Some [mk_range_part 1 1; mk_range_part 20 30]) /\
  exists uns parts_done,
    range_type_unsigned LY_TYPE_UINT8 = Some uns /\
    range_expr_loop 12 LY_TYPE_UINT8 "1 | 20..30" [] 0 false
      = Some (Some ([mk_range_part 1 1; mk_range_part 20 30], parts_done)) /\
    forall i, (i < parts_done)%nat ->
      exists p, [mk_range_part 1 1; mk_range_part 20 30] !! i = Some p /\
        part_within_base uns [mk_range_part 1 1; mk_range_part 10 50] p.
Proof.
  split; [reflexivity|].
  destruct lys_compile_type_range_unchecked_part as (H & _).
  exact (H "1 | 20..30"%string LY_TYPE_UINT8 [mk_range_part 1 1; mk_range_part 10 50]
           [mk_range_part 1 1; mk_range_part 20 30] eq_refl).
Defined.

(** ** The PCRE source of a pattern *)

(** C6, as stated, fails: the pattern [\p{IsBasicLatin}] does not end in
    [.*], and the string handed to [pcre_compile] is not the escaped
    pattern in parentheses followed by [$], because the Unicode block has
    been replaced by its character range. *)
Lemma perl_regex_expands_ublock :
  pattern_ends_dot_star "\p{IsBasicLatin}" = false /\
  perl_regex (String "006" EmptyString) "\p{IsBasicLatin}"
    = Some (inr "([\x{0000}-\x{007F}])$") /\
  perl_regex (String "006" EmptyString) "\p{IsBasicLatin}"
    <> Some (inr ("(" +:+ perl_escape "\p{IsBasicLatin}" +:+ ")$")).
Proof. split; [reflexivity|]. split; [reflexivity|]. vm_compute. discriminate. Qed.

(** C6, amended: the copy loop turns every [$] into [\$] and every [^]
    into [\^] and copies every other character.  When the test of the
    source finds that the pattern does not end in [.*], [perl_regex]
    before the substitution of the Unicode blocks is [(], the escaped
    pattern and [)$]; when the pattern has no [\p{Is] block this is the
    string handed to [pcre_compile], whose verdict decides between
    [LY_SUCCESS] and [LY_EVALID].  The test is that of the pattern's last
    two characters when it has two, and it fails for a pattern of one
    character behind a byte other than a dot, as the caller passes it.  A
    pattern that ends in [.*] is only escaped.  The pattern [[A-Z]+] gives
    [([A-Z]+)$]. *)
Theorem perl_regex_escaped_and_anchored preceding pattern :
  ends_dot_star preceding pattern = Some false ->
  perl_regex_anchored preceding pattern = Some ("(" +:+ perl_escape pattern +:+ ")$") /\
  (strstr pattern "\p{Is" = None ->
   perl_regex preceding pattern = Some (inr ("(" +:+ perl_escape pattern +:+ ")$")) /\
   forall (pcre : Type) (pcre_compile : string -> option pcre),
     lys_compile_type_pattern_check pcre pcre_compile preceding pattern
     = match pcre_compile ("(" +:+ perl_escape pattern +:+ ")$") with
       | None => Some (LY_EVALID, None)
       | Some precomp => Some (LY_SUCCESS, Some precomp)
       end) /\
  (forall before p, (2 <= String.length p)%nat ->
     ends_dot_star before p = Some (pattern_ends_dot_star p)) /\
  (forall marker c, marker <> "."%char ->
     ends_dot_star (String marker EmptyString) (String c EmptyString) = Some false) /\
  (forall before p, ends_dot_star before p = Some true ->
     perl_regex_anchored before p = Some (perl_escape p) /\
     (strstr p "\p{Is" = None -> perl_regex before p = Some (inr (perl_escape p)))) /\
  (forall a b, perl_escape (a +:+ b) = perl_escape a +:+ perl_escape b) /\
  perl_escape "$" = "\$" /\ perl_escape "^" = "\^" /\
  (forall c, c <> "$"%char -> c <> "^"%char ->
     perl_escape (String c EmptyString) = String c EmptyString) /\
  (forall before, perl_regex before "[A-Z]+" = Some (inr "([A-Z]+)$")).
Proof.
  intros Hends.
  assert (Hanch : forall before p e, ends_dot_star before p = Some e ->
            perl_regex_anchored before p
            = Some (if e then perl_escape p else "(" +:+ perl_escape p +:+ ")$")).
  { intros before p e He. unfold perl_regex_anchored. rewrite He.
    destruct e; reflexivity. }
  split_and!.
  - exact (Hanch _ _ _ Hends).
  - intros Hnone. pose proof (perl_regex_no_ublock _ _ _ (Hanch _ _ _ Hends) Hnone) as Hre.
    split; [exact Hre|]. intros pcre pcre_compile.
    unfold lys_compile_type_pattern_check. rewrite Hre. reflexivity.
  - intros before p Hlen. apply ends_dot_star_pattern. exact Hlen.
  - intros marker c Hm. unfold ends_dot_star.
    change (String marker EmptyString +:+ String c EmptyString)
      with (String marker (String c EmptyString)).
    cbn. apply Ascii.eqb_neq in Hm. rewrite Hm. reflexivity.
  - intros before p He. split; [exact (Hanch _ _ _ He)|].
    intros Hnone. exact (perl_regex_no_ublock _ _ _ (Hanch _ _ _ He) Hnone).
  - apply perl_escape_app.
  - reflexivity.
  - reflexivity.
  - intros c Hd Hc. cbn [perl_escape].
    apply Ascii.eqb_neq in Hd, Hc. rewrite Hd, Hc. reflexivity.
  - intros before. apply (perl_regex_no_ublock before "[A-Z]+" "([A-Z]+)$"); [|reflexivity].
    rewrite perl_regex_anchored_pattern by (simpl; lia). reflexivity.
Qed.

Lemma perl_regex_escaped_and_anchored_witness :
  ends_dot_star (String "006" EmptyString) "a$b" = Some false /\
  strstr "a$b" "\p{Is" = None /\
  perl_regex (String "006" EmptyString) "a$b" = Some (inr "(a\$b)$").
Proof.
  split; [reflexivity|]. split; [reflexivity|].
  destruct (perl_regex_escaped_and_anchored (String "006" EmptyString) "a$b" eq_refl)
    as (_ & H & _).
  destruct (H eq_refl) as [Hre _]. exact Hre.
Defined.

(** ** Derived enumerations and bits *)

Section EnumClaims.
Variables lysp_ext_instance lysc_ext_instance : Type.
Variable lys_compile_iffeature : string -> LY_ERR * lysc_iffeature.
Variable lys_compile_ext : lysp_ext_instance -> LY_ERR * lysc_ext_instance.

Abbreviation compile_enums := (lys_compile_type_enums lys_compile_iffeature lys_compile_ext).

(** C4: under a base type, (1) a derived item whose name the base type
    does not have makes [lys_compile_type_enums] fail, with [LY_EVALID]
    (Validation, "adds new item") when the items before it compile, and
    with [LY_EVALID] in any case when the sub-statements of the items fail
    with no other code; (2)
    when the compilation succeeds, the result has the names of the derived
    items (in their order for an enumeration), each item has a base item
    of its name and carries that item's value, so that an item given
    without a value inherits it; (3) behind items that compile, a derived
    item that names an item of the base and is given without a value is
    accepted when its sub-statements compile, and the item stored for it
    has the value of the base item of its name; (4) a derived type all of
    whose items are such compiles.  With the base
    [{one=1, two=2, three=3}], the derived items [one] and [two] get the
    values 1 and 2, and the derived item [four] fails with [LY_EVALID]. *)
Theorem lys_compile_type_enums_derived basetype
    (base : list (@lysc_type_enum_item lysc_ext_instance))
    (enums_p : list (@lysp_type_enum lysp_ext_instance)) :
  base <> [] ->
  (forall pre e post, enums_p = pre ++ e :: post ->
     enum_name e ∉ map item_name base ->
     fst (compile_enums enums_p basetype base) <> LY_SUCCESS /\
     (fst (compile_enums pre basetype base) = LY_SUCCESS ->
      fst (compile_enums enums_p basetype base) = LY_EVALID) /\
     ((forall x, fst (lys_compile_iffeature x) = LY_SUCCESS \/
                 fst (lys_compile_iffeature x) = LY_EVALID) ->
      (forall y, fst (lys_compile_ext y) = LY_SUCCESS \/
                 fst (lys_compile_ext y) = LY_EVALID) ->
      fst (compile_enums enums_p basetype base) = LY_EVALID)) /\
  (forall enums, compile_enums enums_p basetype base = (LY_SUCCESS, enums) ->
     map item_name enums ≡ₚ map enum_name enums_p /\
     (basetype = LY_TYPE_ENUM -> map item_name enums = map enum_name enums_p) /\
     Forall (fun x => exists b, base_enum_named base (item_name x) = Some b /\
                        item_name b = item_name x /\ b ∈ base /\
                        item_value x = item_value b) enums) /\
  (forall pre e enums_pre,
     compile_enums pre basetype base = (LY_SUCCESS, enums_pre) ->
     enum_name e ∈ map item_name base ->
     Z.land (enum_flags e) LYS_SET_VALUE = 0 ->
     Forall (fun x => fst (lys_compile_iffeature x) = LY_SUCCESS) (enum_iffeatures e) ->
     Forall (fun y => fst (lys_compile_ext y) = LY_SUCCESS) (enum_exts e) ->
     exists enums b x,
       compile_enums (pre ++ [e]) basetype base = (LY_SUCCESS, enums) /\
       base_enum_named base (enum_name e) = Some b /\
       item_name x = enum_name e /\ item_value x = item_value b /\ x ∈ enums /\
       (basetype = LY_TYPE_ENUM -> enums = enums_pre ++ [x])) /\
  ((forall e, e ∈ enums_p ->
      enum_name e ∈ map item_name base /\
      Z.land (enum_flags e) LYS_SET_VALUE = 0 /\
      Forall (fun x => fst (lys_compile_iffeature x) = LY_SUCCESS) (enum_iffeatures e) /\
      Forall (fun y => fst (lys_compile_ext y) = LY_SUCCESS) (enum_exts e)) ->
   exists enums, compile_enums enums_p basetype base = (LY_SUCCESS, enums)) /\
  compile_enums derived_one_two LY_TYPE_ENUM base_one_two_three
    = (LY_SUCCESS, [ mk_lysc_type_enum_item "one" [] [] 1;
                     mk_lysc_type_enum_item "two" [] [] 2 ]) /\
  fst (compile_enums derived_four LY_TYPE_ENUM base_one_two_three) = LY_EVALID.
Proof.
  intros Hbase. split_and!; [| | | |reflexivity..].
  - intros pre e post -> Habsent.
    apply base_enum_named_absent in Habsent.
    unfold lys_compile_type_enums. rewrite compile_enum_items_app.
    destruct (compile_enum_items _ _ basetype base (mk_enums_state [] 0 0) pre)
      as [ret s] eqn:Hpre.
    cbn [fst]. cbn [compile_enum_items].
    rewrite (compile_enum_item_absent _ _ _ _ _ _ _ _ Hbase Habsent).
    match goal with
    | |- ?X <> _ /\ _ =>
        assert (E : X = match ret with LY_SUCCESS => LY_EVALID | _ => ret end)
          by (destruct ret; reflexivity);
        rewrite E; clear E
    end.
    assert (Herr : ret <> LY_SUCCESS ->
                   match ret with LY_SUCCESS => LY_EVALID | _ => ret end = ret)
      by (destruct ret; congruence).
    split_and!; [destruct ret; discriminate | intros ->; reflexivity |].
    intros Hiff Hext. destruct (decide (ret = LY_SUCCESS)) as [->|Hret]; [reflexivity|].
    rewrite (Herr Hret).
    destruct (compile_enum_items_error _ _ _ _ _ _ _ _ _ _ Hpre Hret)
      as [?|[(x & Hx)|(y & Hy)]]; [assumption| |].
    + destruct (Hiff x); congruence.
    + destruct (Hext y); congruence.
  - intros enums H. unfold lys_compile_type_enums in H.
    destruct (compile_enum_items _ _ basetype base (mk_enums_state [] 0 0) enums_p)
      as [ret s] eqn:Hitems.
    injection H as -> <-.
    destruct (compile_enum_items_success _ _ _ _ _ _ _ _ _ Hitems) as (Hperm & Heq & Hall).
    cbn [st_enums map app] in *. split_and!; auto.
    eapply Forall_impl; [apply Hall; [assumption|constructor]|].
    intros x (b & Hb & Hv). exists b.
    destruct (base_enum_named_Some _ _ _ Hb). auto.
  - intros pre e enums_pre Hpre Hname Hflag Hiffs Hexts.
    destruct (base_enum_named base (enum_name e)) as [b|] eqn:Hb;
      [|apply base_enum_named_absent in Hb; contradiction].
    unfold lys_compile_type_enums in Hpre |- *. rewrite compile_enum_items_app.
    destruct (compile_enum_items _ _ basetype base (mk_enums_state [] 0 0) pre)
      as [ret s] eqn:Hitems.
    injection Hpre as -> <-. cbn [compile_enum_items].
    destruct (compile_enum_item_inherits _ _ _ _ basetype _ s _ _ Hb Hflag Hiffs Hexts)
      as (s' & Hitem).
    rewrite Hitem.
    destruct (compile_enum_item_success _ _ _ _ _ _ _ _ _ Hitem)
      as (x & v & Hx & Hins & Henum & Hval).
    destruct (Hval Hbase) as (b' & Hb' & Hv). rewrite Hb in Hb'. injection Hb' as <-.
    exists (st_enums s'), b, x. split_and!; auto.
    rewrite Hins. apply elem_of_app. right. apply list_elem_of_here.
  - intros Hall. unfold lys_compile_type_enums.
    destruct (compile_enum_items_inherit _ _ _ _ basetype base enums_p (mk_enums_state [] 0 0)
                Hall) as (s' & ->).
    eauto.
Qed.
End EnumClaims.

Lemma derived_one_two_inherits :
  forall e, e ∈ @derived_one_two unit ->
    enum_name e ∈ map item_name (@base_one_two_three unit) /\
    Z.land (enum_flags e) LYS_SET_VALUE = 0 /\
    Forall (fun x => fst ((fun _ : string => (LY_SUCCESS, mk_iffeature [] [])) x)
                     = LY_SUCCESS) (enum_iffeatures e) /\
    Forall (fun y => fst ((fun _ : unit => (LY_SUCCESS, tt)) y) = LY_SUCCESS)
      (enum_exts e).
Proof.
  intros e He. unfold derived_one_two in He.
  repeat (apply elem_of_cons in He as [->|He]); [| |apply elem_of_nil in He as []];
    (split_and!; [|reflexivity|constructor|constructor]); cbn.
  - apply list_elem_of_here.
  - apply list_elem_of_further, list_elem_of_here.
Qed.

Lemma lys_compile_type_enums_derived_witness :
  (@base_one_two_three unit) <> [] /\
  (exists enums,
     lys_compile_type_enums (fun _ => (LY_SUCCESS, mk_iffeature [] []))
       (fun _ : unit => (LY_SUCCESS, tt)) derived_one_two LY_TYPE_ENUM base_one_two_three
     = (LY_SUCCESS, enums) /\
     map item_name enums = map enum_name (@derived_one_two unit)) /\
  lys_compile_type_enums (fun _ => (LY_SUCCESS, mk_iffeature [] []))
    (fun _ : unit => (LY_SUCCESS, tt)) derived_one_two LY_TYPE_ENUM base_one_two_three
  = (LY_SUCCESS, [ mk_lysc_type_enum_item "one" [] [] 1;
                   mk_lysc_type_enum_item "two" [] [] 2 ]) /\
  fst (lys_compile_type_enums (fun _ => (LY_SUCCESS, mk_iffeature [] []))
         (fun _ : unit => (LY_SUCCESS, tt)) derived_four LY_TYPE_ENUM
         (@base_one_two_three unit)) = LY_EVALID.
Proof.
  split; [discriminate|].
  destruct (lys_compile_type_enums_derived unit unit
              (fun _ => (LY_SUCCESS, mk_iffeature [] [])) (fun _ => (LY_SUCCESS, tt))
              LY_TYPE_ENUM base_one_two_three derived_one_two)
    as (_ & Hsucc & _ & Hall & H1 & H2); [discriminate|].
  destruct (Hall derived_one_two_inherits) as (enums & Hrun).
  split; [|split; assumption].
  exists enums. split; [exact Hrun|].
  destruct (Hsucc enums Hrun) as (_ & Hnames & _). apply Hnames. reflexivity.
Defined.

(** * Further properties of the code *)

(** ** Opcode slots *)

(** X1: an opcode of two bits stored by [iff_setop] at a slot inside the
    array is what [iff_getop] reads back from that slot, whatever the
    byte held before. *)
Theorem iff_getop_setop (list : Datatypes.list Z) (op : Z) (pos : nat) :
  0 <= op <= 3 -> (pos / 4 < length list)%nat ->
  iff_getop (iff_setop list op pos) pos = Some op.
Proof.
  intros Hop Hpos. unfold iff_getop, iff_setop.
  destruct (lookup_lt_is_Some_2 list (pos / 4)%nat Hpos) as [item Hitem].
  rewrite Hitem, list_lookup_insert_eq by exact Hpos. cbn [mbind option_bind].
  f_equal. apply slot_set_get; [exact Hop|apply slot_shift].
Qed.

Lemma iff_getop_setop_witness :
  iff_getop (iff_setop [0; 255] LYS_IFF_OR 6) 6 = Some LYS_IFF_OR.
Proof. apply iff_getop_setop; [unfold LYS_IFF_OR; lia|simpl; lia]. Defined.

(** X2: [iff_setop] changes one slot only: every other slot of the
    array, in the same byte or in another one, reads as before. *)
Theorem iff_getop_setop_other (list : Datatypes.list Z) (op : Z) (pos pos' : nat) :
  0 <= op <= 3 -> pos <> pos' ->
  iff_getop (iff_setop list op pos) pos' = iff_getop list pos'.
Proof.
  intros Hop Hne. unfold iff_getop, iff_setop.
  destruct (list !! (pos / 4)%nat) as [item|] eqn:Hitem; [|reflexivity].
  destruct (decide (pos / 4 = pos' / 4)%nat) as [Heq|Hbyte].
  - rewrite <- Heq, list_lookup_insert_eq by (eapply lookup_lt_Some; exact Hitem).
    rewrite Hitem. cbn [mbind option_bind]. f_equal.
    pose proof (slot_shift pos). pose proof (slot_shift pos').
    apply slot_set_get_other; try lia.
    assert (pos mod 4 <> pos' mod 4)%nat.
    { intros Hm. apply Hne.
      rewrite (Nat.div_mod_eq pos 4), (Nat.div_mod_eq pos' 4). congruence. }
    lia.
  - rewrite list_lookup_insert_ne by exact Hbyte. reflexivity.
Qed.

Lemma iff_getop_setop_other_witness :
  iff_getop (iff_setop [27] LYS_IFF_AND 2) 1 = iff_getop [27] 1.
Proof. apply iff_getop_setop_other; [unfold LYS_IFF_AND; lia|lia]. Defined.

(** ** Changing and querying features *)

Lemma scenario3_wf a b c f : wf_store (scenario3_with a b c f).
Proof. destruct a, b, c, f; solve_wf_store. Qed.

Lemma scenario3_valid a b c f :
  valid_ptrs (scenario3_with a b c f) (mod_features scenario3_module).
Proof. repeat constructor. Qed.

Lemma scenario3_deps_forward a b c f : deps_forward (scenario3_with a b c f).
Proof.
  intros r fr d Hr Hd.
  destruct r as [|[|[|[|r]]]]; simpl in Hr; try discriminate; injection Hr as <-;
    simpl in Hd; try (apply elem_of_nil in Hd; destruct Hd);
    apply list_elem_of_singleton in Hd; subst d; lia.
Qed.

(** X3: [lys_feature_change] keeps the store consistent.  When the
    back-links are complete and every enabled feature has all its
    if-feature expressions true, both still hold after the call, whatever
    its name, its value and its result. *)
Theorem lys_feature_change_keeps_consistent st c name value e st' :
  deps_complete st -> consistent st ->
  lys_feature_change st c name value = Some (e, st') ->
  consistent st' /\ deps_complete st'.
Proof.
  intros Hdc Hcons H. destruct (lys_feature_change_inv _ _ _ _ _ _ H) as [changed Hset].
  split.
  - eapply lys_feature_change_set_consistent; eassumption.
  - eapply deps_complete_shape; [|exact Hdc].
    eapply lys_feature_change_set_shape; eassumption.
Qed.

Lemma lys_feature_change_keeps_consistent_witness :
  lys_feature_change (scenario3_with true false false true) scenario3_module "b" 1
    = Some (LY_SUCCESS, scenario3_with true true false false) /\
  consistent (scenario3_with true true false false).
Proof.
  split; [reflexivity|].
  apply (lys_feature_change_keeps_consistent (scenario3_with true false false true)
           scenario3_module "b" 1 LY_SUCCESS (scenario3_with true true false false)
           (scenario3_deps_complete true false false true) scenario3_consistent_af eq_refl).
Defined.

(** X4: on a well-formed store (every if-feature expression can be
    evaluated, every back-link and every feature of the module is the
    address of a feature) [lys_feature_change] returns: its loops end and
    no read leaves an array.  The store it leaves is again well-formed, with
    the same number of features, so that calls can follow one another. *)
Theorem lys_feature_change_returns st c name value :
  wf_store st -> valid_ptrs st (mod_features c) ->
  exists e st', lys_feature_change st c name value = Some (e, st') /\
    wf_store st' /\ valid_ptrs st' (mod_features c) /\ length st' = length st.
Proof.
  intros Hwf Hval.
  destruct (lys_feature_change_set_total st c name value Hwf Hval) as [[[e st'] changed] H].
  pose proof (lys_feature_change_set_shape _ _ _ _ _ _ _ H) as Hsh.
  exists e, st'. split_and!.
  - unfold lys_feature_change. rewrite H. reflexivity.
  - eapply wf_store_shape; eassumption.
  - eapply valid_ptrs_shape; eassumption.
  - symmetry. apply same_shape_length. exact Hsh.
Qed.

Lemma lys_feature_change_returns_witness :
  exists e st', lys_feature_change scenario3_store scenario3_module "f" 1 = Some (e, st') /\
    wf_store st' /\ valid_ptrs st' (mod_features scenario3_module) /\
    length st' = length scenario3_store.
Proof.
  apply lys_feature_change_returns.
  - apply (scenario3_wf false false false false).
  - apply (scenario3_valid false false false false).
Defined.

(** X5: in a module that has features, a name other than "*" that no
    feature carries makes [lys_feature_change], [lys_feature_enable] and
    [lys_feature_disable] return [LY_EINVAL] and leave the store as it
    was. *)
Theorem lys_feature_change_unknown_name st m c name value :
  compiled m = Some c -> mod_features c <> [] -> name <> "*"%string ->
  no_feature_named st (mod_features c) name ->
  lys_feature_change st c name value = Some (LY_EINVAL, st) /\
  lys_feature_enable st (Some m) (Some name) = Some (LY_EINVAL, st) /\
  lys_feature_disable st (Some m) (Some name) = Some (LY_EINVAL, st).
Proof.
  intros Hc Hne Hname Habs.
  assert (H : forall v, lys_feature_change st c name v = Some (LY_EINVAL, st)).
  { intros v. unfold lys_feature_change, lys_feature_change_set.
    destruct (mod_features c) as [|p fs] eqn:Hfs; [congruence|].
    apply String.eqb_neq in Hname. rewrite Hname.
    cbn [feature_change_runs]. rewrite (feature_run_absent _ _ _ _ _ _ Habs).
    reflexivity. }
  split_and!; [apply H| |]; unfold lys_feature_enable, lys_feature_disable;
    rewrite Hc; apply H.
Qed.

Lemma lys_feature_change_unknown_name_witness :
  lys_feature_change scenario3_store scenario3_module "z" 1
    = Some (LY_EINVAL, scenario3_store) /\
  lys_feature_enable scenario3_store (Some (mk_lys_module (Some scenario3_module)))
    (Some "z"%string) = Some (LY_EINVAL, scenario3_store) /\
  lys_feature_disable scenario3_store (Some (mk_lys_module (Some scenario3_module)))
    (Some "z"%string) = Some (LY_EINVAL, scenario3_store).
Proof.
  apply lys_feature_change_unknown_name.
  - reflexivity.
  - discriminate.
  - discriminate.
  - repeat constructor; eexists; (split; [reflexivity|discriminate]).
Defined.

(** X6: a call of [lys_feature_change] that does not return
    [LY_SUCCESS] returns [LY_EINVAL] or, only when enabling, [LY_EDENIED],
    and leaves every feature exactly as it was. *)
Theorem lys_feature_change_failure_atomic st c name value e st' :
  lys_feature_change st c name value = Some (e, st') -> e <> LY_SUCCESS ->
  st' = st /\ (e = LY_EINVAL \/ (e = LY_EDENIED /\ value <> 0)).
Proof.
  intros H He. destruct (lys_feature_change_inv _ _ _ _ _ _ H) as [changed Hset].
  split; [eapply lys_feature_change_set_failure; eassumption|].
  unfold lys_feature_change_set in Hset. destruct (mod_features c).
  - injection Hset as <- _ _. auto.
  - destruct (feature_change_runs_codes _ _ _ _ _ _ _ _ _ _ _ Hset) as [?|[?|?]];
      [contradiction|auto|auto].
Qed.

Lemma lys_feature_change_failure_atomic_witness :
  lys_feature_change stuck_store stuck_module "*" 1 = Some (LY_EDENIED, stuck_store) /\
  stuck_store = stuck_store /\
  (LY_EDENIED = LY_EINVAL \/ (LY_EDENIED = LY_EDENIED /\ 1 <> 0)).
Proof.
  split; [reflexivity|].
  apply (lys_feature_change_failure_atomic stuck_store stuck_module "*" 1 LY_EDENIED
           stuck_store eq_refl).
  discriminate.
Defined.

(** X7: disabling a feature that the module has always succeeds (on a
    well-formed store), and [lys_feature_value] of that name is 0
    afterwards. *)
Theorem lys_feature_disable_then_value st m c name p f :
  compiled m = Some c -> name <> "*"%string ->
  wf_store st -> valid_ptrs st (mod_features c) ->
  feature_named st (mod_features c) name = Some (p, f) ->
  exists st', lys_feature_disable st (Some m) (Some name) = Some (LY_SUCCESS, st') /\
    lys_feature_value st' (Some m) (Some name) = Some 0.
Proof.
  intros Hc Hname Hwf Hval Hf. apply String.eqb_neq in Hname.
  assert (Hsearch : forall s, lys_feature_value s (Some m) (Some name)
                              = feature_value_search s (mod_features c) name).
  { intros s. apply lys_feature_value_search; [exact Hc|].
    eapply feature_named_nonempty. exact Hf. }
  setoid_rewrite Hsearch.
  unfold lys_feature_disable, lys_feature_change. rewrite Hc.
  rewrite (lys_feature_change_set_named _ _ _ _ _ _ Hf Hname).
  rewrite (feature_run_named _ _ _ _ _ _ Hf).
  change (0 =? 0) with true. cbn [negb andb orb].
  destruct (feature_enabled f) eqn:Hon; cbn [negb mbind option_bind].
  - destruct (feature_named_split _ _ _ _ _ Hf) as (pre & post & Hfs & _ & Hp & _).
    pose proof (same_shape_clear st p) as Hsh1.
    destruct (reflect_changes_enough (alter clear_enabled p st) [p]) as (st' & ch' & Hrefl & Hsh2).
    { eapply wf_store_shape; eassumption. }
    { constructor; [|constructor]. rewrite length_alter. eapply lookup_lt_Some. exact Hp. }
    rewrite Hrefl. cbn [mbind option_bind]. exists st'. split; [reflexivity|].
    assert (Hp1 : alter clear_enabled p st !! p = Some (clear_enabled f)).
    { rewrite list_lookup_alter_eq, Hp. reflexivity. }
    destruct (same_shape_lookup _ _ _ _ Hsh2 Hp1) as (f' & Hp' & _).
    rewrite (feature_value_search_named _ _ _ _ _
               (feature_named_shape _ _ _ _ _ _ _ (same_shape_trans _ _ _ Hsh1 Hsh2) Hf Hp')).
    destruct (feature_enabled f') eqn:Hon'; [|reflexivity].
    destruct (reflect_changes_done _ _ _ _ _ _ Hrefl) as (_ & Hkept & _).
    destruct (Hkept p f' Hp' Hon') as [(f1 & Hf1 & Hon1)|[]].
    rewrite Hp1 in Hf1. injection Hf1 as <-.
    rewrite feature_enabled_clear in Hon1. discriminate.
  - exists st. split; [reflexivity|].
    rewrite (feature_value_search_named _ _ _ _ _ Hf), Hon. reflexivity.
Qed.

Lemma lys_feature_disable_then_value_witness :
  exists st',
    lys_feature_disable (scenario3_with true false false true)
      (Some (mk_lys_module (Some scenario3_module))) (Some "a"%string)
      = Some (LY_SUCCESS, st') /\
    lys_feature_value st' (Some (mk_lys_module (Some scenario3_module)))
      (Some "a"%string) = Some 0.
Proof.
  apply (lys_feature_disable_then_value (scenario3_with true false false true)
           (mk_lys_module (Some scenario3_module)) scenario3_module "a" 0%nat
           (mk_feature "a" LYS_FENABLED [] [3%nat])).
  - reflexivity.
  - discriminate.
  - apply scenario3_wf.
  - apply scenario3_valid.
  - reflexivity.
Defined.

(** X8: [lys_feature_change] touches nothing but enabled bits: after any
    call the store has the same features at the same addresses, each with
    its name, its if-feature expressions, its back-links and all its other
    flag bits as before. *)
Theorem lys_feature_change_only_enabled_bit st c name value e st' :
  lys_feature_change st c name value = Some (e, st') ->
  length st' = length st /\
  forall q f, st !! q = Some f ->
    exists f', st' !! q = Some f' /\
      f_name f' = f_name f /\ f_iffeatures f' = f_iffeatures f /\
      f_depfeatures f' = f_depfeatures f /\
      Z.land (f_flags f') (Z.lnot LYS_FENABLED) = Z.land (f_flags f) (Z.lnot LYS_FENABLED).
Proof.
  intros H. destruct (lys_feature_change_inv _ _ _ _ _ _ H) as [changed Hset].
  pose proof (lys_feature_change_set_bits _ _ _ _ _ _ _ Hset) as Hbits.
  split; [symmetry; eapply Forall2_length; exact Hbits|].
  intros q f Hq.
  destruct (Forall2_lookup_l _ _ _ _ _ Hbits Hq) as (f' & Hq' & (Hn & Hi & Hd) & Ho).
  exists f'. unfold other_flags in Ho. split_and!; auto.
Qed.

Lemma lys_feature_change_only_enabled_bit_witness :
  length (scenario3_with true true false false) = length (scenario3_with true false false true) /\
  forall q f, scenario3_with true false false true !! q = Some f ->
    exists f', scenario3_with true true false false !! q = Some f' /\
      f_name f' = f_name f /\ f_iffeatures f' = f_iffeatures f /\
      f_depfeatures f' = f_depfeatures f /\
      Z.land (f_flags f') (Z.lnot LYS_FENABLED) = Z.land (f_flags f) (Z.lnot LYS_FENABLED).
Proof.
  apply (lys_feature_change_only_enabled_bit (scenario3_with true false false true)
           scenario3_module "b" 1 LY_SUCCESS (scenario3_with true true false false) eq_refl).
Defined.

(** X9: when the back-links point forward (every dependent sits behind
    the feature it depends on, so no feature depends on itself), a
    successful [lys_feature_enable] of a named feature is seen by
    [lys_feature_value]: it returns 1 for that name afterwards. *)
Theorem lys_feature_enable_then_value st m c name p f st' :
  compiled m = Some c -> name <> "*"%string -> deps_forward st ->
  feature_named st (mod_features c) name = Some (p, f) ->
  lys_feature_enable st (Some m) (Some name) = Some (LY_SUCCESS, st') ->
  lys_feature_value st' (Some m) (Some name) = Some 1.
Proof.
  intros Hc Hname Hfw Hf. apply String.eqb_neq in Hname.
  rewrite (lys_feature_value_search st' m c name Hc (feature_named_nonempty _ _ _ _ Hf)).
  unfold lys_feature_enable, lys_feature_change. rewrite Hc.
  rewrite (lys_feature_change_set_named _ _ _ _ _ _ Hf Hname).
  rewrite (feature_run_named _ _ _ _ _ _ Hf).
  change (1 =? 0) with false. cbn [negb andb orb].
  rewrite orb_false_r.
  destruct (feature_enabled f) eqn:Hon; cbn [negb mbind option_bind].
  - intros H. injection H as <-.
    rewrite (feature_value_search_named _ _ _ _ _ Hf), Hon. reflexivity.
  - destruct (iffeatures_enabled st (f_iffeatures f)) as [[]|];
      cbn [mbind option_bind]; [|discriminate|discriminate].
    destruct (reflect_changes _ (alter set_enabled p st) [p] 0) as [[st2 ch2]|] eqn:Hrefl;
      cbn [mbind option_bind]; [|discriminate].
    intros H. injection H as <-.
    destruct (feature_named_split _ _ _ _ _ Hf) as (pre & post & Hfs & _ & Hp & _).
    pose proof (same_shape_set st p) as Hsh1.
    destruct (reflect_changes_done _ _ _ _ _ _ Hrefl) as (Hsh2 & _).
    assert (Hp2 : st2 !! p = Some (set_enabled f)).
    { rewrite (reflect_changes_untouched p _ _ _ _ _ _
                 (deps_forward_shape _ _ Hsh1 Hfw) (Forall_cons_2 _ _ _ (le_n p) (Forall_nil_2 _))
                 Hrefl).
      rewrite list_lookup_alter_eq, Hp. reflexivity. }
    rewrite (feature_value_search_named _ _ _ _ _
               (feature_named_shape _ _ _ _ _ _ _ (same_shape_trans _ _ _ Hsh1 Hsh2) Hf Hp2)).
    rewrite feature_enabled_set. reflexivity.
Qed.

Lemma lys_feature_enable_then_value_witness :
  lys_feature_enable (scenario3_with true false false false)
    (Some (mk_lys_module (Some scenario3_module))) (Some "f"%string)
    = Some (LY_SUCCESS, scenario3_with true false false true) /\
  lys_feature_value (scenario3_with true false false true)
    (Some (mk_lys_module (Some scenario3_module))) (Some "f"%string) = Some 1.
Proof.
  split; [reflexivity|].
  apply (lys_feature_enable_then_value (scenario3_with true false false false)
           (mk_lys_module (Some scenario3_module)) scenario3_module "f" 3%nat
           (mk_feature "f" 0 [scenario3_iff] [])).
  - reflexivity.
  - discriminate.
  - apply scenario3_deps_forward.
  - reflexivity.
  - reflexivity.
Defined.

(** X10: disabling all features (name "*", value 0) of a module that has
    features always succeeds on a well-formed store and leaves every
    feature of the module disabled. *)
Theorem lys_feature_disable_all st m c :
  compiled m = Some c -> mod_features c <> [] ->
  wf_store st -> valid_ptrs st (mod_features c) ->
  exists st', lys_feature_disable st (Some m) (Some "*"%string) = Some (LY_SUCCESS, st') /\
    Forall (fun p => exists f, st' !! p = Some f /\ feature_enabled f = false)
      (mod_features c).
Proof.
  intros Hc Hne Hwf Hval.
  destruct (lys_feature_change_set_total st c "*" 0 Hwf Hval) as [[[e st'] changed] H].
  unfold lys_feature_disable, lys_feature_change. rewrite Hc, H. cbn [mbind option_bind].
  unfold lys_feature_change_set in H.
  destruct (mod_features c) as [|p fs] eqn:Hfs; [congruence|].
  change (String.eqb "*" "*") with true in H.
  remember (p :: fs) as fs' eqn:Hfs'. clear Hfs'.
  remember (S (length st)) as fuel eqn:Hfuel. clear Hfuel.
  destruct fuel as [|fuel]; [discriminate|]. cbn [feature_change_runs] in H.
  destruct (feature_run true "*" 0 fs' st [] 0) as [[e0 st0|st1 changed1 dc]|] eqn:Hrun;
    cbn [mbind option_bind] in H; [| |discriminate].
  { destruct (feature_run_return _ _ _ _ _ _ _ _ _ Hrun). discriminate. }
  change (0 =? 0) with true in H. cbn [negb andb] in H.
  destruct (reflect_changes _ st1 changed1 0) as [[st2 changed2]|] eqn:Hrefl; [|discriminate].
  cbn [mbind option_bind] in H. injection H as <- <- <-.
  exists st2. split; [reflexivity|].
  destruct (reflect_changes_done _ _ _ _ _ _ Hrefl) as (Hsh & Hkept & _).
  eapply Forall_impl; [eapply feature_run_disable_all; exact Hrun|].
  intros q (f1 & Hf1 & Hoff). cbn beta.
  destruct (same_shape_lookup _ _ _ _ Hsh Hf1) as (f2 & Hf2 & _).
  exists f2. split; [exact Hf2|].
  destruct (feature_enabled f2) eqn:Hon; [|reflexivity].
  destruct (Hkept q f2 Hf2 Hon) as [(f3 & Hf3 & Hon3)|[]]. congruence.
Qed.

Lemma lys_feature_disable_all_witness :
  exists st',
    lys_feature_disable (scenario3_with true false true true)
      (Some (mk_lys_module (Some scenario3_module))) (Some "*"%string)
      = Some (LY_SUCCESS, st') /\
    Forall (fun p => exists f, st' !! p = Some f /\ feature_enabled f = false)
      (mod_features scenario3_module).
Proof.
  apply (lys_feature_disable_all (scenario3_with true false true true)
           (mk_lys_module (Some scenario3_module)) scenario3_module).
  - reflexivity.
  - discriminate.
  - apply scenario3_wf.
  - apply scenario3_valid.
Defined.

(** ** Compilation of if-feature expressions and of features *)

Section IffCompileExtras.
Variable lysc_module_find_prefix : lysc_module -> string -> option lysc_module.

(** X15: the text of an expression with every [and] and [or] in
    parentheses, whose names are features of the module and in which no
    negated parenthesis starts with a negation, compiles in a YANG 1.1
    module (a lone feature name in any module) with [LY_SUCCESS]; the
    compiled expression lists the features in the order of the text, and
    [lysc_iffeature_value] of it is 1 exactly when the expression holds
    for the enabled bits of the store, also after these have changed. *)
Theorem lys_compile_iffeature_evaluates (st st' : store) (mod_ : lysc_module)
    (yang_1_1 : bool) (e : iff_ast) :
  iff_wellformed st (mod_features mod_) e = true ->
  Z.of_nat (String.length (iff_print e)) < 2 ^ 31 ->
  yang_1_1 = true \/ (exists name, e = IffName false name) ->
  same_shape st st' ->
  exists iff,
    lys_compile_iffeature lysc_module_find_prefix st mod_ yang_1_1 (iff_print e)
    = Some (LY_SUCCESS, Some iff) /\
    iff_features iff = iff_pointers st (mod_features mod_) e /\
    lysc_iffeature_value st' iff
    = Some (if iff_holds st' (mod_features mod_) e then 1 else 0).
Proof.
  intros Hwf Hlen Hversion Hsh.
  pose proof Hwf as Hsyn. rewrite iff_wellformed_split in Hsyn.
  apply andb_true_iff in Hsyn as [Hsyn Hknown].
  destruct (iff_preparse_print e Hsyn Hlen) as (cv & Hpre & Hcv).
  destruct (lys_compile_iffeature_passes lysc_module_find_prefix st mod_ yang_1_1 e cv Hwf Hlen Hpre)
    as (expr & Hcompile & Hslots & Hsize & Hne).
  { destruct Hversion as [->|(name & ->)]; [apply andb_false_r|].
    rewrite (Hcv name eq_refl). reflexivity. }
  exists (mk_iffeature expr (iff_pointers st (mod_features mod_) e)).
  split; [exact Hcompile|]. split; [reflexivity|].
  destruct (iff_known_shape st st' (mod_features mod_) e Hsh Hknown) as [Hknown' Hptrs].
  unfold lysc_iffeature_value. cbn [iff_expr].
  destruct expr as [|byte expr]; [congruence|].
  rewrite (lysc_iffeature_value_code st' (mod_features mod_) _ e _ 0 0 Hknown').
  - reflexivity.
  - exact Hslots.
  - intros i p Hi. rewrite Hptrs in Hi. exact Hi.
  - lia.
Qed.

(** X16: in a YANG 1.0 module the text of such an expression is refused
    with [LY_EVALID] unless it is a lone feature name: a negation or an
    operator needs YANG 1.1. *)
Theorem lys_compile_iffeature_yang_1_0 (st : store) (mod_ : lysc_module) (e : iff_ast) :
  iff_syntax e = true -> (forall name, e <> IffName false name) ->
  Z.of_nat (String.length (iff_print e)) < 2 ^ 31 ->
  lys_compile_iffeature lysc_module_find_prefix st mod_ false (iff_print e)
  = Some (LY_EVALID, None).
Proof.
  intros Hsyn Hshape Hlen.
  destruct (iff_preparse_print e Hsyn Hlen) as (cv & Hpre & _).
  pose proof (iff_code_length_print e Hsyn) as Hcode.
  unfold lys_compile_iffeature. rewrite Hpre. cbn [mbind option_bind].
  cbn [c_j c_f_exp c_f_size c_checkversion c_expr_size].
  rewrite !Z.eqb_refl. cbn [negb orb].
  assert (Htwo : (2 <= length (iff_code e))%nat).
  { destruct e as [[|] name|neg is_or l r].
    - cbn. lia.
    - destruct (Hshape name eq_refl).
    - cbn [iff_code]. rewrite length_app. cbn [length]. rewrite length_app.
      pose proof (iff_code_pos l). pose proof (iff_code_pos r). lia. }
  destruct (Z.ltb_spec 1 (Z.of_nat (length (iff_code e)))); [|lia].
  rewrite orb_true_r. reflexivity.
Qed.

(** X17: the text of an expression one of whose names is not the name
    of a feature among those of the module is refused with [LY_EVALID],
    in a module of either version.  The features of the module are those
    compiled so far, so a feature declared further down is not found
    either. *)
Theorem lys_compile_iffeature_unknown_feature (st : store) (mod_ : lysc_module)
    (yang_1_1 : bool) (e : iff_ast) :
  iff_syntax e = true -> iff_known st (mod_features mod_) e = false ->
  valid_ptrs st (mod_features mod_) ->
  Z.of_nat (String.length (iff_print e)) < 2 ^ 31 ->
  lys_compile_iffeature lysc_module_find_prefix st mod_ yang_1_1 (iff_print e)
  = Some (LY_EVALID, None).
Proof.
  intros Hsyn Hknown Hvalid Hlen.
  destruct (iff_preparse_print e Hsyn Hlen) as (cv & Hpre & _).
  pose proof (iff_code_length_print e Hsyn) as Hcode.
  pose proof (iff_operands_code e) as Hops.
  pose proof (iff_operands_pos e) as Hpos.
  unfold lys_compile_iffeature. rewrite Hpre. cbn [mbind option_bind].
  cbn [c_j c_f_exp c_f_size c_checkversion c_expr_size].
  rewrite !Z.eqb_refl. cbn [negb orb].
  set (n := Z.of_nat (length (iff_code e))) in *.
  destruct ((cv || (1 <? n)) && negb yang_1_1); [reflexivity|].
  set (bytes := n / 4 + (if n mod 4 =? 0 then 0 else 1)).
  assert (Hbytes : (n - 1) / 4 < bytes) by (apply ceil4_above; lia).
  pose proof (iff_postparse_unknown lysc_module_find_prefix st mod_ (Z.of_nat (iff_operands e))
                e (S (String.length (iff_print e))) [] EmptyString []
                (replicate (Z.to_nat bytes) 0) [] (n - 1) (Z.of_nat (iff_operands e) - 1)
                Hsyn Hknown Hvalid eq_refl eq_refl eq_refl) as Hpost.
  rewrite app_nil_r in Hpost. unfold rev_chars in Hpost.
  rewrite Hpost; [reflexivity|try lia..].
  - rewrite length_replicate. lia.
  - rewrite length_reverse. fold (rev_chars (iff_print e)).
    pose proof (rev_chars_length (iff_print e)) as Hrev. unfold rev_chars in Hrev.
    rewrite length_reverse in Hrev. rewrite Hrev. lia.
Qed.

(** X18: when the loop of [lys_compile] over the feature statements
    succeeds on a store with complete back-links, the back-links of the
    resulting store are complete: every feature that an if-feature
    expression of a feature refers to has that feature among its
    [depfeatures]. *)
Theorem compile_features_deps_complete (st st' : store) (mod_ mod' : lysc_module)
    (yang_1_1 : bool) (features_p : list lysp_feature) :
  compile_features lysc_module_find_prefix st mod_ yang_1_1 features_p
  = Some (LY_SUCCESS, st', mod') ->
  deps_complete st -> deps_complete st'.
Proof.
  intros H. destruct (compile_features_spec _ _ _ _ _ _ _ _ H) as (_ & Hs).
  destruct (Hs eq_refl) as (Hdeps & _). exact Hdeps.
Qed.

(** X19: whatever the result of the loop over the feature statements,
    the features that were in the store before are still at their
    addresses with their name, flags and if-feature expressions, and their
    lists of dependents have only been appended to. *)
Theorem compile_features_keeps_features (st st' : store) (mod_ mod' : lysc_module)
    (yang_1_1 : bool) (features_p : list lysp_feature) (ret : LY_ERR) :
  compile_features lysc_module_find_prefix st mod_ yang_1_1 features_p
  = Some (ret, st', mod') ->
  store_grown st st'.
Proof.
  intros H. destruct (compile_features_spec _ _ _ _ _ _ _ _ H) as (Hgrown & _).
  exact Hgrown.
Qed.

(** X20: when the loop over the feature statements succeeds, the store
    has one more feature per statement, the module's array lists their
    addresses behind the ones it had, in the order of the statements, and
    each has the name and the flags of its statement. *)
Theorem compile_features_declares (st st' : store) (mod_ mod' : lysc_module)
    (yang_1_1 : bool) (features_p : list lysp_feature) :
  compile_features lysc_module_find_prefix st mod_ yang_1_1 features_p
  = Some (LY_SUCCESS, st', mod') ->
  length st' = (length st + length features_p)%nat /\
  mod_features mod' = mod_features mod_ ++ seq (length st) (length features_p) /\
  forall i feature_p, features_p !! i = Some feature_p ->
    exists f, st' !! (length st + i)%nat = Some f /\
      f_name f = pf_name feature_p /\ f_flags f = pf_flags feature_p.
Proof.
  intros H. destruct (compile_features_spec _ _ _ _ _ _ _ _ H) as (_ & Hs).
  destruct (Hs eq_refl) as (_ & Hrest). exact Hrest.
Qed.
End IffCompileExtras.

Lemma scenario3_same_shape a b c f : same_shape scenario3_store (scenario3_with a b c f).
Proof. repeat constructor. Qed.

Lemma lys_compile_iffeature_evaluates_witness :
  exists iff,
    lys_compile_iffeature no_prefix scenario3_store scenario3_module true
      "((a and not b) or c)"
    = Some (LY_SUCCESS, Some iff) /\
    iff_features iff = [0; 1; 2]%nat /\
    lysc_iffeature_value (scenario3_with true false false false) iff = Some 1.
Proof.
  apply (lys_compile_iffeature_evaluates no_prefix scenario3_store
           (scenario3_with true false false false) scenario3_module true scenario3_ast).
  - reflexivity.
  - vm_compute. reflexivity.
  - left. reflexivity.
  - apply scenario3_same_shape.
Defined.

Lemma lys_compile_iffeature_yang_1_0_witness :
  lys_compile_iffeature no_prefix scenario3_store scenario3_module false "not a"
  = Some (LY_EVALID, None).
Proof.
  apply (lys_compile_iffeature_yang_1_0 no_prefix scenario3_store scenario3_module
           (IffName true "a")).
  - reflexivity.
  - discriminate.
  - vm_compute. reflexivity.
Defined.

Lemma lys_compile_iffeature_unknown_feature_witness :
  lys_compile_iffeature no_prefix scenario3_store scenario3_module true "(a or not zz)"
  = Some (LY_EVALID, None).
Proof.
  apply (lys_compile_iffeature_unknown_feature no_prefix scenario3_store scenario3_module true
           (IffBin false true (IffName false "a") (IffName true "zz"))).
  - reflexivity.
  - reflexivity.
  - apply (scenario3_valid false false false false).
  - vm_compute. reflexivity.
Defined.

Lemma deps_complete_nil : deps_complete [].
Proof. intros q g iff r Hq. discriminate. Qed.

Lemma compile_features_deps_complete_witness :
  compile_features no_prefix [] (mk_lysc_module "m" []) true scenario3_parsed
  = Some (LY_SUCCESS, scenario3_store, scenario3_module) /\
  deps_complete scenario3_store.
Proof.
  split; [reflexivity|].
  apply (compile_features_deps_complete no_prefix [] scenario3_store (mk_lysc_module "m" [])
           scenario3_module true scenario3_parsed eq_refl deps_complete_nil).
Defined.

Lemma compile_features_keeps_features_witness :
  store_grown [mk_feature "a" 0 [] []]
    [mk_feature "a" 0 [] [1%nat];
     mk_feature "g" 0 [mk_iffeature [12] [0%nat]] []].
Proof.
  apply (compile_features_keeps_features no_prefix [mk_feature "a" 0 [] []] _
           (mk_lysc_module "m" [0%nat]) (mk_lysc_module "m" [0%nat; 1%nat]) true
           [mk_lysp_feature "g" ["not a"%string] [] 0] LY_SUCCESS).
  reflexivity.
Defined.

Lemma compile_features_declares_witness :
  length scenario3_store = (0 + 4)%nat /\
  mod_features scenario3_module = [] ++ seq 0 4 /\
  forall i feature_p, scenario3_parsed !! i = Some feature_p ->
    exists f, scenario3_store !! (0 + i)%nat = Some f /\
      f_name f = pf_name feature_p /\ f_flags f = pf_flags feature_p.
Proof.
  apply (compile_features_declares no_prefix [] scenario3_store (mk_lysc_module "m" [])
           scenario3_module true scenario3_parsed).
  reflexivity.
Defined.

Section FeatureLinkExtras.
Variable lysc_module_find_prefix : lysc_module -> string -> option lysc_module.

(** X25: the loop of [lys_compile] over the feature statements keeps
    the back-links sound, whatever its result: when every feature listed
    among the [depfeatures] of a feature had an if-feature expression
    referring to that feature before, this holds afterwards too. *)
Theorem compile_features_deps_sound (st st' : store) (mod_ mod' : lysc_module)
    (yang_1_1 : bool) (features_p : list lysp_feature) (ret : LY_ERR) :
  compile_features lysc_module_find_prefix st mod_ yang_1_1 features_p
  = Some (ret, st', mod') ->
  deps_sound st -> deps_sound st'.
Proof. apply compile_features_sound. Qed.
End FeatureLinkExtras.

Lemma deps_sound_nil : deps_sound [].
Proof. intros r fr q Hr. discriminate. Qed.

Lemma compile_features_deps_sound_witness :
  compile_features no_prefix [] (mk_lysc_module "m" []) true scenario3_parsed
  = Some (LY_SUCCESS, scenario3_store, scenario3_module) /\
  deps_sound scenario3_store.
Proof.
  split; [reflexivity|].
  apply (compile_features_deps_sound no_prefix [] scenario3_store (mk_lysc_module "m" [])
           scenario3_module true scenario3_parsed LY_SUCCESS eq_refl deps_sound_nil).
Defined.

(** ** The check of a restriction against its base *)

(** X11: for restrictions as the grammar orders them (in each part the
    lower bound not above the upper one, each part entirely below the
    next, in the order of the type), the walk of [lys_compile_type_range]
    along the base accepts all the parts exactly when every part lies
    inside one part of the base. *)
Theorem range_base_walk_accepts_contained uns parts base :
  parts_regular uns parts = true -> parts_regular uns base = true ->
  (range_base_walk (S (length parts + length base)) uns parts base (length parts) 0 0
     = Some (Some (length parts))
   <-> Forall (part_within_base uns base) parts).
Proof.
  intros Hregp Hregb. split.
  - intros H. destruct (range_base_walk_sound _ _ _ _ _ _ _ _ H) as [_ Hall].
    apply Forall_lookup. intros i p Hp.
    destruct (Hall i) as (p' & Hp' & Hin).
    { split; [lia|]. eapply lookup_lt_Some. exact Hp. }
    congruence.
  - intros Hall. apply range_base_walk_complete; [assumption|assumption|lia|lia|].
    intros i p _ Hp.
    destruct (proj1 (Forall_lookup _ _) Hall i p Hp) as (b & Hb & Hw).
    apply list_elem_of_lookup_1 in Hb as [j Hj].
    exists j, b. split_and!; [lia|exact Hj|exact Hw].
Qed.

Lemma range_base_walk_accepts_contained_witness :
  range_base_walk 5 true [mk_range_part 1 1; mk_range_part 20 30]
    [mk_range_part 1 1; mk_range_part 10 50] 2 0 0 = Some (Some 2%nat)
  <-> Forall (part_within_base true [mk_range_part 1 1; mk_range_part 10 50])
        [mk_range_part 1 1; mk_range_part 20 30].
Proof.
  apply (range_base_walk_accepts_contained true [mk_range_part 1 1; mk_range_part 20 30]
           [mk_range_part 1 1; mk_range_part 10 50]); reflexivity.
Defined.

(** ** The loop over a range expression *)

(** X21: whatever the text of a range or length restriction, when
    [lys_compile_type_range] succeeds (with or without a base range) the
    result has at least one part, and every part has its lower bound not
    above its upper bound in the order of the type: unsigned for the
    unsigned types, binary and string, signed for the others. *)
Theorem lys_compile_type_range_bounds_ordered (arg : string) (basetype : LY_DATA_TYPE)
    (base : option (list lysc_range_part)) (parts : list lysc_range_part) :
  lys_compile_type_range arg basetype base = Some (LY_SUCCESS, Some parts) ->
  parts <> [] /\
  exists uns, range_type_unsigned basetype = Some uns /\
    Forall (fun p => bound_lt uns (max_64 p) (min_64 p) = false) parts.
Proof.
  unfold lys_compile_type_range. intros H.
  destruct (range_expr_loop (S (S (String.length arg))) basetype arg [] 0 false)
    as [[[parts0 parts_done]|]|] eqn:Hloop; [|discriminate|discriminate].
  cbn [mbind option_bind] in H.
  assert (Hparts : parts0 = parts).
  { destruct base as [base|]; [|congruence].
    destruct (range_type_unsigned basetype); [|discriminate].
    destruct (range_base_walk _ _ _ _ _ _ _) as [[u|]|]; try discriminate.
    cbn [mbind option_bind] in H.
    destruct (negb (u =? parts_done)%nat); congruence. }
  subst parts0. split; [eapply range_expr_loop_nonempty; exact Hloop|].
  destruct (range_type_limits basetype) as [[[uns lo] hi]|] eqn:Hlim.
  - exists uns. pose proof (range_type_limits_unsigned _ _ _ _ Hlim) as Huns.
    split; [exact Huns|].
    eapply range_expr_loop_ordered; [exact Huns|exact Hloop|constructor].
  - pose proof (range_expr_loop_no_limits _ Hlim _ _ _ _ _ Hloop). discriminate.
Qed.

Lemma lys_compile_type_range_bounds_ordered_witness :
  [mk_range_part (-5) (-5); mk_range_part 20 30] <> [] /\
  exists uns, range_type_unsigned LY_TYPE_INT8 = Some uns /\
    Forall (fun p => bound_lt uns (max_64 p) (min_64 p) = false)
      [mk_range_part (-5) (-5); mk_range_part 20 30].
Proof.
  apply (lys_compile_type_range_bounds_ordered "-5 | 20..30" LY_TYPE_INT8 None).
  reflexivity.
Defined.

(** X22: for every text of a restriction of a type other than decimal64,
    [lys_compile_type_range] without a base range returns: its loop over
    the expression ends and reads no part that has not been made.  It
    returns [LY_SUCCESS] with the parts or [LY_EVALID] without. *)
Theorem lys_compile_type_range_returns (arg : string) (basetype : LY_DATA_TYPE) :
  basetype <> LY_TYPE_DEC64 ->
  (exists parts, lys_compile_type_range arg basetype None = Some (LY_SUCCESS, Some parts)) \/
  lys_compile_type_range arg basetype None = Some (LY_EVALID, None).
Proof.
  intros Hne. unfold lys_compile_type_range.
  destruct (range_expr_loop_total basetype Hne (S (S (String.length arg))) arg [] 0 false)
    as [r ->]; [lia|discriminate|congruence|].
  cbn [mbind option_bind]. destruct r as [[parts parts_done]|]; eauto.
Qed.

Lemma lys_compile_type_range_returns_witness :
  (exists parts,
     lys_compile_type_range "1..5..9 | 12" LY_TYPE_UINT8 None = Some (LY_SUCCESS, Some parts)) \/
  lys_compile_type_range "1..5..9 | 12" LY_TYPE_UINT8 None = Some (LY_EVALID, None).
Proof. apply lys_compile_type_range_returns. discriminate. Defined.

(** ** The check of a pattern *)

Section PatternExtras.
Variable pcre : Type.
Variable pcre_compile : string -> option pcre.

(** X23: [lys_compile_type_pattern_check] returns for every pattern
    that, with the byte in front of it, has two characters to compare with
    [.*]: the loop that substitutes the Unicode blocks ends, however many
    blocks the pattern has, and the function returns [LY_SUCCESS] with the
    compiled expression or [LY_EVALID] without one. *)
Theorem lys_compile_type_pattern_check_returns (preceding pattern : string) :
  (2 <= String.length (preceding +:+ pattern))%nat ->
  (exists precomp,
     lys_compile_type_pattern_check pcre pcre_compile preceding pattern
     = Some (LY_SUCCESS, Some precomp)) \/
  lys_compile_type_pattern_check pcre pcre_compile preceding pattern
  = Some (LY_EVALID, None).
Proof.
  intros Hlen. unfold lys_compile_type_pattern_check, perl_regex.
  destruct (perl_regex_anchored preceding pattern) as [anchored|] eqn:Hanch.
  2:{ unfold perl_regex_anchored, ends_dot_star in Hanch.
      destruct (Nat.ltb_spec (String.length (preceding +:+ pattern)) 2); [lia|].
      cbn [mbind option_bind] in Hanch. destruct (String.eqb _ _); discriminate. }
  cbn [mbind option_bind].
  destruct (substitute_ublocks_total (S (String.length anchored)) anchored)
    as (r & Hsub & Hr).
  { pose proof (count_char_length "p" anchored). lia. }
  rewrite Hsub. cbn [mbind option_bind]. destruct r as [e|source].
  - rewrite (substitute_ublocks_codes _ _ _ Hsub). right. reflexivity.
  - destruct (pcre_compile source); eauto.
Qed.

(** X24: a pattern (of two characters or more) in which the first
    [\p{Is] has no closing brace behind it, or is not followed by a name
    of the table of the Unicode blocks, is refused with [LY_EVALID],
    whatever else it contains. *)
Theorem lys_compile_type_pattern_check_bad_block (preceding pattern before from : string) :
  (2 <= String.length pattern)%nat ->
  strstr pattern "\p{Is" = Some (before, from) ->
  strchr_split from "}" = None \/
  find_ublock ublock2urange (String.substring 5 (String.length from - 5) from) = None ->
  lys_compile_type_pattern_check pcre pcre_compile preceding pattern
  = Some (LY_EVALID, None).
Proof.
  intros Hlen Hstr Hbad. unfold lys_compile_type_pattern_check.
  rewrite (perl_regex_bad_block preceding pattern before from Hlen Hstr Hbad). reflexivity.
Qed.
End PatternExtras.

Lemma lys_compile_type_pattern_check_returns_witness :
  (exists precomp,
     lys_compile_type_pattern_check unit (fun _ => Some tt) "" "\p{IsGreek}+\p{IsThai}"
     = Some (LY_SUCCESS, Some precomp)) \/
  lys_compile_type_pattern_check unit (fun _ => Some tt) "" "\p{IsGreek}+\p{IsThai}"
  = Some (LY_EVALID, None).
Proof. apply lys_compile_type_pattern_check_returns. vm_compute. lia. Defined.

Lemma lys_compile_type_pattern_check_bad_block_witness :
  lys_compile_type_pattern_check unit (fun _ => Some tt) "" "[a-z]\p{IsKlingon}$"
  = Some (LY_EVALID, None).
Proof.
  apply (lys_compile_type_pattern_check_bad_block unit (fun _ => Some tt) ""
           "[a-z]\p{IsKlingon}$" "[a-z]" "\p{IsKlingon}$").
  - vm_compute. lia.
  - reflexivity.
  - right. reflexivity.
Defined.

(** ** The patterns of a derived type *)

Section PatternsExtras.
Variable pcre : Type.
Variable pcre_compile : string -> option pcre.
Variables lysp_ext_instance lysc_ext_instance : Type.
Variable lys_compile_ext : lysp_ext_instance -> LY_ERR * lysc_ext_instance.
Variable refcount_bits : Z.

Abbreviation compile_type_patterns :=
  (lys_compile_type_patterns pcre pcre_compile lysp_ext_instance lysc_ext_instance
     lys_compile_ext refcount_bits).

(** X26: when [lys_compile_type_patterns] succeeds, the array it stores
    holds the addresses of the base type's patterns followed, in the order
    of the statements, by those of the new patterns, without repetition;
    each pattern of the base is counted once more and is otherwise as it
    was, the rest of the memory is untouched, and each new pattern is
    counted once, is the compiled text behind the first byte of its
    statement and is inverted exactly when that byte is 0x15.  (The base
    array has no repetitions and its patterns are live, with counters that
    can still go up.) *)
Theorem lys_compile_type_patterns_inherits
    (heap heap' : list (option (lysc_pattern pcre lysc_ext_instance)))
    (patterns_p : list (lysp_restr lysp_ext_instance)) (base : list nat)
    (r : option (list nat)) :
  0 < refcount_bits -> NoDup base ->
  (forall p, p ∈ base -> exists pat,
     live heap p = Some pat /\ 0 <= pat_refcount pat < 2 ^ refcount_bits - 1) ->
  compile_type_patterns heap patterns_p base = Some (LY_SUCCESS, heap', r) ->
  r = Some (base ++ seq (length heap) (length patterns_p)) /\
  NoDup (base ++ seq (length heap) (length patterns_p)) /\
  length heap' = (length heap + length patterns_p)%nat /\
  (forall q, (q < length heap)%nat -> q ∉ base -> heap' !! q = heap !! q) /\
  (forall q pat, q ∈ base -> live heap q = Some pat ->
     live heap' q = Some (set_refcount pat (pat_refcount pat + 1))) /\
  (forall i restr, patterns_p !! i = Some restr ->
     exists pat byte text,
       restr_arg restr = String byte text /\
       live heap' (length heap + i) = Some pat /\ pat_refcount pat = 1 /\
       pat_inverted pat = Ascii.eqb byte (ascii_of_nat 21) /\
       pat_eapptag pat = restr_eapptag restr /\ pat_emsg pat = restr_emsg restr /\
       lys_compile_type_pattern_check pcre pcre_compile (String byte EmptyString) text
       = Some (LY_SUCCESS, pat_expr pat)).
Proof.
  intros Hbits Hnodup Hbase H. unfold lys_compile_type_patterns in H.
  destruct (lysc_patterns_dup pcre lysc_ext_instance refcount_bits heap base)
    as [heap1|] eqn:Hdup; [|discriminate].
  cbn [mbind option_bind] in H.
  destruct (compile_patterns _ _ _ _ _ _ heap1 base patterns_p)
    as [[[ret0 heap2] result]|] eqn:Hloop; [|discriminate].
  cbn [mbind option_bind] in H.
  destruct (lysc_patterns_dup_spec _ _ _ _ _ _ Hdup Hnodup) as (Hlen1 & Hout1 & Hin1).
  destruct (compile_patterns_spec _ _ _ _ _ _ Hbits _ _ _ _ _ _ Hloop)
    as (news & -> & _ & -> & Hall & Hsucc).
  assert (Hret : ret0 = LY_SUCCESS).
  { destruct ret0; try reflexivity;
      destruct (free_patterns _ _ _ _ _); cbn [mbind option_bind] in H; discriminate. }
  subst ret0. injection H as <- <-.
  destruct (Hsucc eq_refl) as (Hn & Hnew). rewrite Hn, Hlen1 in *.
  assert (Hlive : forall p, p ∈ base -> (p < length heap)%nat).
  { intros p Hp. destruct (Hbase p Hp) as (pat & Hpat & _).
    apply live_lookup in Hpat. eapply lookup_lt_Some. exact Hpat. }
  split; [reflexivity|]. split.
  { apply NoDup_app. split; [exact Hnodup|]. split; [|apply NoDup_seq].
    intros x Hx Hseq. apply elem_of_seq in Hseq. specialize (Hlive x Hx). lia. }
  split; [rewrite length_app; lia|]. split.
  { intros q Hq Hnot. rewrite lookup_app_l by lia. apply Hout1. exact Hnot. }
  split.
  { intros q pat Hq Hpat. destruct (Hin1 q Hq) as (pat' & Hpat' & Hup).
    rewrite Hpat in Hpat'. injection Hpat' as <-.
    destruct (Hbase q Hq) as (pat' & Hpat' & Hrc).
    rewrite Hpat in Hpat'. injection Hpat' as <-.
    rewrite refcount_wrap_small in Hup by lia.
    apply live_lookup. rewrite lookup_app_l by (specialize (Hlive q Hq); lia).
    apply live_lookup. exact Hup. }
  intros i restr Hi. destruct (Hnew i restr Hi) as (pat & byte & text & Harg & Hpat & Hrest).
  exists pat, byte, text. split; [exact Harg|]. split.
  { apply live_lookup. rewrite lookup_app_r by lia.
    replace (length heap + i - length heap1)%nat with i by lia. exact Hpat. }
  split; [|exact Hrest].
  apply (proj1 (Forall_lookup _ _) Hall i) in Hpat as (pat' & [= <-] & Hrc). exact Hrc.
Qed.

(** X27: when [lys_compile_type_patterns] fails, it leaves nothing
    behind: no array is stored, every pattern that was in the memory is
    exactly as before, the counters of the base type's patterns included,
    and every pattern that the call has made is freed.  (The base array
    has no repetitions and its patterns are live, with counters that can
    still go up.) *)
Theorem lys_compile_type_patterns_failure
    (heap heap' : list (option (lysc_pattern pcre lysc_ext_instance)))
    (patterns_p : list (lysp_restr lysp_ext_instance)) (base : list nat)
    (ret : LY_ERR) (r : option (list nat)) :
  0 < refcount_bits -> NoDup base ->
  (forall p, p ∈ base -> exists pat,
     live heap p = Some pat /\ 1 <= pat_refcount pat < 2 ^ refcount_bits - 1) ->
  compile_type_patterns heap patterns_p base = Some (ret, heap', r) ->
  ret <> LY_SUCCESS ->
  r = None /\
  exists made, (made <= length patterns_p)%nat /\ heap' = heap ++ replicate made None.
Proof.
  intros Hbits Hnodup Hbase H Hret. unfold lys_compile_type_patterns in H.
  destruct (lysc_patterns_dup pcre lysc_ext_instance refcount_bits heap base)
    as [heap1|] eqn:Hdup; [|discriminate].
  cbn [mbind option_bind] in H.
  destruct (compile_patterns _ _ _ _ _ _ heap1 base patterns_p)
    as [[[ret0 heap2] result]|] eqn:Hloop; [|discriminate].
  cbn [mbind option_bind] in H.
  destruct (lysc_patterns_dup_spec _ _ _ _ _ _ Hdup Hnodup) as (Hlen1 & Hout1 & Hin1).
  destruct (compile_patterns_spec _ _ _ _ _ _ Hbits _ _ _ _ _ _ Hloop)
    as (news & -> & Hmade & -> & Hall & _).
  assert (Hlive : forall p, p ∈ base -> (p < length heap)%nat).
  { intros p Hp. destruct (Hbase p Hp) as (pat & Hpat & _).
    apply live_lookup in Hpat. eapply lookup_lt_Some. exact Hpat. }
  assert (Hnd : NoDup (base ++ seq (length heap1) (length news))).
  { apply NoDup_app. split; [exact Hnodup|]. split; [|apply NoDup_seq].
    intros x Hx Hseq. apply elem_of_seq in Hseq. specialize (Hlive x Hx). lia. }
  destruct (free_patterns_spec pcre lysc_ext_instance refcount_bits
              (base ++ seq (length heap1) (length news)) (heap1 ++ news) Hnd)
    as (heap3 & Hfree & Hlen3 & Hout3 & Hin3).
  { intros q [Hq|Hq]%elem_of_app.
    - destruct (Hin1 q Hq) as (pat & _ & Hup). eexists. apply live_lookup.
      rewrite lookup_app_l by (specialize (Hlive q Hq); lia). apply live_lookup. exact Hup.
    - apply elem_of_seq in Hq.
      destruct (lookup_lt_is_Some_2 news (q - length heap1)) as [slot Hslot]; [lia|].
      pose proof (proj1 (Forall_lookup _ _) Hall _ _ Hslot) as (pat & -> & _).
      exists pat. apply live_lookup. rewrite lookup_app_r by lia. exact Hslot. }
  assert (Hres : Some (ret0, heap3, @None (list nat)) = Some (ret, heap', r)).
  { destruct ret0; try (rewrite Hfree in H; exact H).
    injection H as <- _ _. congruence. }
  injection Hres as _ <- <-. split; [reflexivity|].
  exists (length news). split; [exact Hmade|].
  rewrite length_app in Hlen3. apply list_eq. intros i.
  destruct (decide (i < length heap)%nat) as [Hlt|Hge].
  - rewrite (lookup_app_l heap) by exact Hlt.
    destruct (decide (i ∈ base)) as [Hi|Hi].
    + destruct (Hbase i Hi) as (pat & Hpat & Hrc).
      destruct (Hin1 i Hi) as (pat' & Hpat' & Hup).
      rewrite Hpat in Hpat'. injection Hpat' as <-.
      rewrite refcount_wrap_small in Hup by lia.
      rewrite (Hin3 i (set_refcount pat (pat_refcount pat + 1))).
      * cbn [pat_refcount set_refcount].
        replace (pat_refcount pat + 1 - 1) with (pat_refcount pat) by lia.
        rewrite refcount_wrap_small by lia.
        destruct (Z.eqb_spec (pat_refcount pat) 0); [lia|]. cbn [negb].
        apply live_lookup in Hpat. rewrite Hpat. destruct pat. reflexivity.
      * apply elem_of_app. auto.
      * apply live_lookup. rewrite lookup_app_l by lia. apply live_lookup. exact Hup.
    + rewrite Hout3.
      * rewrite lookup_app_l by lia. apply Hout1. exact Hi.
      * intros [Hin|Hin]%elem_of_app; [contradiction|]. apply elem_of_seq in Hin. lia.
  - rewrite (lookup_app_r heap) by lia.
    destruct (decide (i < length heap + length news)%nat) as [Hnew|Hout].
    + rewrite lookup_replicate_2 by lia.
      destruct (lookup_lt_is_Some_2 news (i - length heap1)) as [slot Hslot]; [lia|].
      pose proof (proj1 (Forall_lookup _ _) Hall _ _ Hslot) as (pat & -> & Hrc).
      rewrite (Hin3 i pat).
      * rewrite Hrc. change (1 - 1) with 0.
        rewrite refcount_wrap_small by (split; [lia|apply Z.pow_pos_nonneg; lia]).
        reflexivity.
      * apply elem_of_app. right. apply elem_of_seq. lia.
      * apply live_lookup. rewrite lookup_app_r by lia. exact Hslot.
    + rewrite lookup_ge_None_2 by lia.
      symmetry. apply lookup_ge_None_2. rewrite length_replicate. lia.
Qed.
End PatternsExtras.

Lemma one_pattern_base :
  forall p, p ∈ [0%nat] -> exists pat,
    live one_pattern_heap p = Some pat /\ 1 <= pat_refcount pat < 2 ^ 31 - 1.
Proof.
  intros p Hp. apply elem_of_cons in Hp as [->|Hp]; [|apply elem_of_nil in Hp as []].
  eexists. split; [reflexivity|]. cbn. lia.
Qed.

Lemma one_pattern_base_up :
  forall p, p ∈ [0%nat] -> exists pat,
    live one_pattern_heap p = Some pat /\ 0 <= pat_refcount pat < 2 ^ 31 - 1.
Proof.
  intros p Hp. destruct (one_pattern_base p Hp) as (pat & Hpat & Hrc).
  exists pat. split; [exact Hpat|lia].
Qed.

Lemma NoDup_one (p : nat) : NoDup [p].
Proof. apply NoDup_singleton. Qed.

Lemma lys_compile_type_patterns_inherits_witness :
  exists heap',
    lys_compile_type_patterns string Some unit unit (fun _ => (LY_SUCCESS, tt)) 31
      one_pattern_heap [restr_lower; restr_inverted] [0%nat]
    = Some (LY_SUCCESS, heap', Some [0; 1; 2]%nat) /\
    length heap' = 3%nat /\
    (forall q pat, q ∈ [0%nat] -> live one_pattern_heap q = Some pat ->
       live heap' q = Some (set_refcount pat (pat_refcount pat + 1))).
Proof.
  eexists. split; [reflexivity|].
  pose proof (lys_compile_type_patterns_inherits string Some unit unit
                (fun _ => (LY_SUCCESS, tt)) 31 one_pattern_heap _
                [restr_lower; restr_inverted] [0%nat] _ ltac:(lia) (NoDup_one 0)
                one_pattern_base_up eq_refl) as (_ & _ & Hlen & _ & Hbase & _).
  split; [exact Hlen|exact Hbase].
Defined.

Lemma lys_compile_type_patterns_failure_witness :
  lys_compile_type_patterns string Some unit unit (fun _ => (LY_SUCCESS, tt)) 31
    one_pattern_heap [restr_lower; restr_klingon; restr_inverted] [0%nat]
  = Some (LY_EVALID, one_pattern_heap ++ [None; None], None) /\
  @None (list nat) = None /\
  exists made, (made <= 3)%nat /\
    one_pattern_heap ++ [None; None] = one_pattern_heap ++ replicate made None.
Proof.
  split; [reflexivity|].
  apply (lys_compile_type_patterns_failure string Some unit unit
           (fun _ => (LY_SUCCESS, tt)) 31 one_pattern_heap _
           [restr_lower; restr_klingon; restr_inverted] [0%nat] LY_EVALID None
           ltac:(lia) (NoDup_one 0) one_pattern_base eq_refl).
  discriminate.
Defined.

(** ** Values of enums and order of bits *)

Section EnumExtras.
Variables lysp_ext_instance lysc_ext_instance : Type.
Variable lys_compile_iffeature : string -> LY_ERR * lysc_iffeature.
Variable lys_compile_ext : lysp_ext_instance -> LY_ERR * lysc_ext_instance.

Abbreviation compile_enums := (lys_compile_type_enums lys_compile_iffeature lys_compile_ext).

(** X12: an enumeration without base type whose enums are all given
    without a value compiles to items numbered from 0 in the order of the
    statements: the item at index [i] has the value [i] and the name of
    the [i]-th enum. *)
Theorem lys_compile_type_enums_numbered
    (enums_p : list (@lysp_type_enum lysp_ext_instance)) items :
  Forall (fun e => Z.land (enum_flags e) LYS_SET_VALUE = 0) enums_p ->
  compile_enums enums_p LY_TYPE_ENUM [] = (LY_SUCCESS, items) ->
  length items = length enums_p /\
  forall i x, items !! i = Some x ->
    item_value x = Z.of_nat i /\
    exists p, enums_p !! i = Some p /\ item_name x = enum_name p.
Proof.
  intros Hflags H. unfold lys_compile_type_enums in H.
  destruct (compile_enum_items _ _ LY_TYPE_ENUM [] (mk_enums_state [] 0 0) enums_p)
    as [ret s] eqn:Hitems.
  injection H as -> <-.
  destruct (compile_enum_items_auto _ _ _ _ _ _ Hitems Hflags) as (Hlen & _ & _ & Hall).
  auto.
Qed.

(** X13: the bits that [lys_compile_type_enums] compiles are kept in the
    order of their values (the position read as [int32_t]), whatever the
    order of the statements, and they are the bits of the statements. *)
Theorem lys_compile_type_bits_ordered
    (base : list (@lysc_type_enum_item lysc_ext_instance))
    (enums_p : list (@lysp_type_enum lysp_ext_instance)) items :
  compile_enums enums_p LY_TYPE_BITS base = (LY_SUCCESS, items) ->
  StronglySorted value_le items /\ map item_name items ≡ₚ map enum_name enums_p.
Proof.
  intros H. unfold lys_compile_type_enums in H.
  destruct (compile_enum_items _ _ LY_TYPE_BITS base (mk_enums_state [] 0 0) enums_p)
    as [ret s] eqn:Hitems.
  injection H as -> <-. split.
  - eapply compile_enum_items_bits_sorted; [exact Hitems|constructor].
  - destruct (compile_enum_items_success _ _ _ _ _ _ _ _ _ Hitems) as (Hperm & _).
    exact Hperm.
Qed.

(** X14: in a compiled enumeration without base type no two items have
    the same value, as long as no value reaches 2147483647 (where the
    counter of the automatic values wraps around). *)
Theorem lys_compile_type_enums_distinct
    (enums_p : list (@lysp_type_enum lysp_ext_instance))
    (items : list (@lysc_type_enum_item lysc_ext_instance)) :
  compile_enums enums_p LY_TYPE_ENUM [] = (LY_SUCCESS, items) ->
  Forall (fun x => item_value x < INT32_MAX) items ->
  NoDup (map item_value items).
Proof.
  intros H Hmax. unfold lys_compile_type_enums in H.
  destruct (compile_enum_items _ _ LY_TYPE_ENUM [] (mk_enums_state [] 0 0) enums_p)
    as [ret s] eqn:Hitems.
  injection H as -> <-.
  destruct (compile_enum_items_distinct _ _ _ _ _ _ Hitems Hmax) as (Hnodup & _).
  exact Hnodup.
Qed.
End EnumExtras.

Lemma lys_compile_type_enums_numbered_witness :
  length [ @mk_lysc_type_enum_item unit "a" [] [] 0; mk_lysc_type_enum_item "b" [] [] 1;
           mk_lysc_type_enum_item "c" [] [] 2 ] = length (@enums_abc unit) /\
  forall i x,
    [ @mk_lysc_type_enum_item unit "a" [] [] 0; mk_lysc_type_enum_item "b" [] [] 1;
      mk_lysc_type_enum_item "c" [] [] 2 ] !! i = Some x ->
    item_value x = Z.of_nat i /\
    exists p, (@enums_abc unit) !! i = Some p /\ item_name x = enum_name p.
Proof.
  apply (lys_compile_type_enums_numbered unit unit
           (fun _ => (LY_SUCCESS, mk_iffeature [] [])) (fun _ => (LY_SUCCESS, tt))).
  - repeat constructor.
  - reflexivity.
Defined.

Lemma lys_compile_type_bits_ordered_witness :
  StronglySorted value_le
    [ @mk_lysc_type_enum_item unit "y" [] [] 1; mk_lysc_type_enum_item "z" [] [] 3;
      mk_lysc_type_enum_item "x" [] [] 5 ] /\
  map item_name
    [ @mk_lysc_type_enum_item unit "y" [] [] 1; mk_lysc_type_enum_item "z" [] [] 3;
      mk_lysc_type_enum_item "x" [] [] 5 ] ≡ₚ map enum_name (@bits_513 unit).
Proof.
  apply (lys_compile_type_bits_ordered unit unit
           (fun _ => (LY_SUCCESS, mk_iffeature [] [])) (fun _ => (LY_SUCCESS, tt)) []).
  reflexivity.
Defined.

Lemma lys_compile_type_enums_distinct_witness :
  NoDup (map item_value
    [ @mk_lysc_type_enum_item unit "a" [] [] 0; mk_lysc_type_enum_item "b" [] [] 5;
      mk_lysc_type_enum_item "c" [] [] 6 ]).
Proof.
  apply (lys_compile_type_enums_distinct unit unit
           (fun _ => (LY_SUCCESS, mk_iffeature [] [])) (fun _ => (LY_SUCCESS, tt))
           enums_a5c).
  - reflexivity.
  - repeat constructor.
Defined.

(** ** The back-links from the bases to the derived identities *)

Section IdentityExtras.
Variable prefix_identities : string -> option (list nat).
Variable mod_identities : list nat.

Abbreviation compile_identities_derived :=
  (lys_compile_identities_derived prefix_identities mod_identities).
Abbreviation base_of := (base_target prefix_identities mod_identities).

(** X28: with a compiled identity for every identity statement, and every
    base standing for a module (its own or the one of a known prefix)
    that has an identity of the base's name, [lys_compile_identities_derived]
    returns [LY_SUCCESS]; the identities keep their addresses and names and
    have at most gained derived identities; and for every base of every
    statement, the first identity of that name in the base's module has
    the statement's identity among its derived identities. *)
Theorem lys_compile_identities_derived_links
    (st : list lysc_ident) (idents_p : list lysp_ident) (idents : list nat) :
  (length idents_p <= length idents)%nat ->
  (forall ident_p base, ident_p ∈ idents_p -> base ∈ pident_bases ident_p ->
     exists identities v, (base_of base).2 = Some identities /\
       ident_named st identities (base_of base).1 = Some v) ->
  exists st',
    compile_identities_derived st idents_p idents = Some (LY_SUCCESS, st') /\
    idents_grown st st' /\
    forall i ident_p self base identities v,
      idents_p !! i = Some ident_p -> idents !! i = Some self ->
      base ∈ pident_bases ident_p -> (base_of base).2 = Some identities ->
      ident_named st identities (base_of base).1 = Some v ->
      exists ident', st' !! v = Some ident' /\ self ∈ ident_derived ident'.
Proof.
  intros Hlen Hfound. unfold lys_compile_identities_derived.
  destruct (derived_identities_total prefix_identities mod_identities idents idents_p 0 st
              false ltac:(cbn; lia) Hfound) as (st' & Hrun).
  exists st'. split; [exact Hrun|].
  destruct (derived_identities_spec _ _ _ _ _ _ _ _ _ Hrun) as (Hgrown & _ & Hlinks & _).
  split; [exact Hgrown|]. intros i. apply (Hlinks eq_refl i).
Qed.

(** X29: whatever [lys_compile_identities_derived] returns, success or
    error, the identities keep their addresses and names and their
    [derived] arrays are only appended to, and every entry that is new in
    the [derived] array of an identity is the compiled identity of a
    statement one of whose bases has that identity's name (the text behind
    the prefix, if there is one). *)
Theorem lys_compile_identities_derived_sound
    (st st' : list lysc_ident) (idents_p : list lysp_ident) (idents : list nat)
    (ret : LY_ERR) :
  compile_identities_derived st idents_p idents = Some (ret, st') ->
  idents_grown st st' /\
  forall v ident ident' x, st !! v = Some ident -> st' !! v = Some ident' ->
    x ∈ ident_derived ident' ->
    x ∈ ident_derived ident \/
    exists i ident_p base, idents_p !! i = Some ident_p /\ idents !! i = Some x /\
      base ∈ pident_bases ident_p /\ (base_of base).1 = ident_name ident.
Proof.
  intros Hrun. unfold lys_compile_identities_derived in Hrun.
  destruct (derived_identities_spec _ _ _ _ _ _ _ _ _ Hrun) as (Hgrown & Hadded & _).
  split; [exact Hgrown|]. exact Hadded.
Qed.

(** X30: the only error that [lys_compile_identities_derived] returns is
    [LY_EVALID] for a base with a prefix that stands for no module.  A
    base that names no identity of its module never makes it return an
    error: the test in front of "Unable to find base" reads the pointer
    [dident], which is never reset and has no value before the first
    back-link is stored. *)
Theorem lys_compile_identities_derived_error
    (st st' : list lysc_ident) (idents_p : list lysp_ident) (idents : list nat)
    (ret : LY_ERR) :
  compile_identities_derived st idents_p idents = Some (ret, st') ->
  ret <> LY_SUCCESS ->
  ret = LY_EVALID /\
  exists ident_p base prefix name,
    ident_p ∈ idents_p /\ base ∈ pident_bases ident_p /\
    split_prefix base = Some (prefix, name) /\ prefix_identities prefix = None.
Proof.
  intros Hrun Hret. unfold lys_compile_identities_derived in Hrun.
  destruct (derived_identities_spec _ _ _ _ _ _ _ _ _ Hrun) as (_ & _ & _ & [Hs|He]).
  - contradiction.
  - exact He.
Qed.
End IdentityExtras.

Lemma zoo_bases_found :
  forall ident_p base, ident_p ∈ zoo_parsed -> base ∈ pident_bases ident_p ->
    exists identities v,
      (base_target (fun _ => None) [0; 1; 2]%nat base).2 = Some identities /\
      ident_named zoo_store identities (base_target (fun _ => None) [0; 1; 2]%nat base).1
      = Some v.
Proof.
  intros ident_p base Hp Hb. unfold zoo_parsed in Hp.
  repeat (apply elem_of_cons in Hp as [->|Hp]); [| | |apply elem_of_nil in Hp as []];
    cbn [pident_bases] in Hb;
    repeat (apply elem_of_cons in Hb as [->|Hb]); try (apply elem_of_nil in Hb as []);
    eexists; eexists; (split; [reflexivity|reflexivity]).
Qed.

Lemma lys_compile_identities_derived_links_witness :
  (length zoo_parsed <= length [0; 1; 2]%nat)%nat /\
  exists st',
    lys_compile_identities_derived (fun _ => None) [0; 1; 2]%nat zoo_store zoo_parsed
      [0; 1; 2]%nat = Some (LY_SUCCESS, st') /\
    idents_grown zoo_store st'.
Proof.
  split; [cbn; lia|].
  destruct (lys_compile_identities_derived_links (fun _ => None) [0; 1; 2]%nat zoo_store
              zoo_parsed [0; 1; 2]%nat ltac:(cbn; lia) zoo_bases_found)
    as (st' & Hrun & Hgrown & _).
  exists st'. split; [exact Hrun|exact Hgrown].
Defined.

Lemma lys_compile_identities_derived_sound_witness :
  lys_compile_identities_derived (fun _ => None) [0; 1; 2]%nat zoo_store zoo_parsed
    [0; 1; 2]%nat
  = Some (LY_SUCCESS,
          [mk_lysc_ident "animal" [1; 2]%nat; mk_lysc_ident "pet" [2%nat];
           mk_lysc_ident "dog" []]) /\
  idents_grown zoo_store
    [mk_lysc_ident "animal" [1; 2]%nat; mk_lysc_ident "pet" [2%nat];
     mk_lysc_ident "dog" []].
Proof.
  split; [reflexivity|].
  apply (lys_compile_identities_derived_sound (fun _ => None) [0; 1; 2]%nat zoo_store _
           zoo_parsed [0; 1; 2]%nat LY_SUCCESS eq_refl).
Defined.

Lemma lys_compile_identities_derived_error_witness :
  lys_compile_identities_derived (fun _ => None) [0; 1; 2]%nat zoo_store zoo_parsed_prefix
    [0; 1; 2]%nat
  = Some (LY_EVALID,
          [mk_lysc_ident "animal" [1%nat]; mk_lysc_ident "pet" [];
           mk_lysc_ident "dog" []]) /\
  LY_EVALID <> LY_SUCCESS /\
  LY_EVALID = LY_EVALID /\
  exists ident_p base prefix name,
    ident_p ∈ zoo_parsed_prefix /\ base ∈ pident_bases ident_p /\
    split_prefix base = Some (prefix, name) /\ (fun _ : string => @None (list nat)) prefix = None.
Proof.
  split; [reflexivity|]. split; [discriminate|].
  apply (lys_compile_identities_derived_error (fun _ => None) [0; 1; 2]%nat zoo_store _
           zoo_parsed_prefix [0; 1; 2]%nat LY_EVALID eq_refl).
  discriminate.
Defined.
